(** * Vespa: a shallow embedding of selected components and their properties

    The development follows the layout of the sources it embeds:

    - [FileChunk]  : the document-store file-chunk engine
                     (searchlib/docstore/writeablefilechunk.cpp);
    - the later modules cover the reference attribute, the docsum writer,
      the geo-distance field writer, the node provisioning code, field-path
      updates and the vespa-get command line.

    Machine integers are integers of [Z] with the wrap-around written out,
    byte buffers are lists of [Byte.byte], [std::map] is an association list
    kept in ascending key order, and code that can hit an assertion or
    dereference a null pointer returns in the [Res] monad. *)

From Stdlib Require Import String Ascii.
From Stdlib Require Import ZArith List Bool Lia.
From Stdlib Require Import SpecFloat DecimalString.
From Stdlib Require Import QArith Qround Qminmax.
Import ListNotations.
Local Open Scope Z_scope.

(** ** Machine integers and the result monad *)

Definition wrap32 (z : Z) : Z := z mod 2 ^ 32.
Definition wrap64 (z : Z) : Z := z mod 2 ^ 64.
Definition UINT32_MAX : Z := 4294967295.
Definition INT64_MAX : Z := 9223372036854775807.

Inductive Fault : Type :=
| AssertionFailed (what : string)
| NullDereference (what : string)
| WouldBlock (what : string)
| NotEnabled.

Inductive Res (A : Type) : Type :=
| Ok (a : A)
| Err (f : Fault).
Arguments Ok {A} a.
Arguments Err {A} f.

Definition bind {A B : Type} (c : Res A) (k : A -> Res B) : Res B :=
  match c with
  | Ok a => k a
  | Err f => Err f
  end.

Notation "x <- c ;; k" := (bind c (fun x => k))
  (at level 61, c at next level, right associativity).
Notation "' p <- c ;; k" := (bind c (fun x => let p := x in k))
  (at level 61, p pattern, c at next level, right associativity).

Definition assert (b : bool) (what : string) : Res unit :=
  if b then Ok tt else Err (AssertionFailed what).

Definition deref {A : Type} (p : option A) (what : string) : Res A :=
  match p with
  | Some a => Ok a
  | None => Err (NullDereference what)
  end.

Definition is_null {A : Type} (p : option A) : bool :=
  match p with None => true | Some _ => false end.

Definition is_nil {A : Type} (l : list A) : bool :=
  match l with [] => true | _ => false end.

(** ** [std::map<uint32_t, V>]: ascending association lists *)

Module OrderedMap.
Section Ops.
Context {V : Type}.

Fixpoint find (k : Z) (m : list (Z * V)) : option V :=
  match m with
  | [] => None
  | (k', v) :: r => if k' =? k then Some v else find k r
  end.

(** [m[k] = v]: overwrite the entry of [k] or insert it at its place. *)
Fixpoint assign (k : Z) (v : V) (m : list (Z * V)) : list (Z * V) :=
  match m with
  | [] => [(k, v)]
  | (k', v') :: r =>
      if k <? k' then (k, v) :: (k', v') :: r
      else if k =? k' then (k, v) :: r
      else (k', v') :: assign k v r
  end.

Definition begin (m : list (Z * V)) : option (Z * V) := hd_error m.
Definition erase_begin (m : list (Z * V)) : list (Z * V) := tl m.
Definition empty (m : list (Z * V)) : bool :=
  match m with [] => true | _ => false end.

End Ops.
End OrderedMap.

(** ** IEEE 754 binary64 ([double])

    Doubles are the [spec_float]s of the standard library at precision 53
    and maximal exponent 1024; the arithmetic is its correctly rounded
    (nearest-even) specification, which is what the C++ and Java code
    below runs on. *)

Module Double.

Definition prec : Z := 53.
Definition emax : Z := 1024.
Definition double : Type := spec_float.

(** Conversion of an integer to [double] (round to nearest, ties to even). *)
Definition of_Z (z : Z) : double := binary_normalize prec emax z 0 false.

Definition mul : double -> double -> double := SFmul prec emax.
Definition div : double -> double -> double := SFdiv prec emax.
Definition sqrt : double -> double := SFsqrt prec emax.
Definition ltb : double -> double -> bool := SFltb.
Definition leb : double -> double -> bool := SFleb.
(** [a >= b] *)
Definition geb (a b : double) : bool := SFleb b a.

(** The integer part of a finite double, rounded toward zero. *)
Definition trunc (d : double) : option Z :=
  match d with
  | S754_zero _ => Some 0
  | S754_finite s m e =>
      let mag := if 0 <=? e then Zpos m * 2 ^ e else Zpos m / 2 ^ (- e) in
      Some (if s then - mag else mag)
  | _ => None
  end.

(** C++ [(uint64_t) d] for a double within the range of the type; the
    conversion is undefined outside it, which [None] stands for. *)
Definition to_uint64 (d : double) : option Z :=
  match trunc d with
  | Some z => if (0 <=? z) && (z <? 2 ^ 64) then Some z else None
  | None => None
  end.

(** Java [(int) d]: NaN gives 0, values out of range saturate (JLS 5.1.3). *)
Definition to_int (d : double) : Z :=
  match d with
  | S754_nan => 0
  | S754_infinity s => if s then - 2 ^ 31 else 2 ^ 31 - 1
  | _ =>
      match trunc d with
      | Some z => Z.max (- 2 ^ 31) (Z.min (2 ^ 31 - 1) z)
      | None => 0
      end
  end.

(** Java [Math.floor]. *)
Definition floor (d : double) : double :=
  match d with
  | S754_finite s m e =>
      if 0 <=? e then d
      else
        let q := Zpos m / 2 ^ (- e) in
        if s then
          let k := if Zpos m mod 2 ^ (- e) =? 0 then q else q + 1 in
          binary_normalize prec emax (- k) 0 true
        else binary_normalize prec emax q 0 false
  | _ => d
  end.

Definition is_zero (d : double) : bool :=
  match d with S754_zero _ => true | _ => false end.
Definition is_nan (d : double) : bool :=
  match d with S754_nan => true | _ => false end.

(** Java [Math.min]: NaN if either argument is NaN, and negative zero is
    smaller than positive zero. *)
Definition min (a b : double) : double :=
  if is_nan a then a
  else if is_zero a && is_zero b && (match b with S754_zero true => true | _ => false end)
  then b
  else if leb a b then a else b.

End Double.

(** ** The document-store file-chunk engine *)

Module FileChunk.

Definition byte := Byte.byte.

(** File-scope constant of writeablefilechunk.cpp. *)
Definition Alignment : Z := 4096.

Record ProcessedChunk : Type := mkProcessedChunk {
  _chunkId : Z;            (* uint32_t *)
  _payLoad : Z;            (* uint32_t *)
  _buf : list byte         (* vespalib::DataBuffer: the data part *)
}.

(** [ProcessedChunk::UP]; [None] is the null pointer [freeze] enqueues. *)
Definition ProcessedChunkUP : Type := option ProcessedChunk.
Definition ProcessedChunkQ : Type := list ProcessedChunkUP.
Definition ProcessedChunkMap : Type := list (Z * ProcessedChunkUP).

Definition getDataLen (c : ProcessedChunk) : Z := Z.of_nat (length (_buf c)).

(** Modelled from the spec: class Chunk (chunk.h) is not among the sources.
    "A Chunk is an in-memory batch of (lid, serialized bytes) pairs bounded
    by a byte-size budget; chunks are identified by a monotonically
    increasing id within a file."  [getLastSerial] is the highest serial
    number sealed into the chunk. *)
Record Chunk : Type := mkChunk {
  getId : Z;
  getLastSerial : Z;
  getLids : list (Z * list byte);
  getMaxBytes : Z
}.

Definition count (c : Chunk) : Z := Z.of_nat (length (getLids c)).
Definition size (c : Chunk) : Z :=
  fold_right (fun e acc => Z.of_nat (length (snd e)) + acc) 0 (getLids c).
Definition empty (c : Chunk) : bool :=
  match getLids c with [] => true | _ => false end.
Definition Chunk_append (c : Chunk) (lid : Z) (buffer : list byte) : Chunk :=
  mkChunk (getId c) (getLastSerial c) (getLids c ++ [(lid, buffer)]) (getMaxBytes c).
Definition newChunk (id maxBytes : Z) : Chunk := mkChunk id 0 [] maxBytes.

Record ChunkMeta : Type := mkChunkMeta {
  cm_offset : Z;
  cm_size : Z;
  cm_lastSerial : Z;
  cm_numEntries : Z
}.

Record LidMeta : Type := mkLidMeta { lm_lid : Z; lm_size : Z }.

(** [PendingChunk]; the serialized index record [_idx] is kept as the
    [ChunkMeta] and the [LidMeta]s that are serialized into it, in order. *)
Record PendingChunk : Type := mkPendingChunk {
  _idx : ChunkMeta * list LidMeta;
  _lastSerial : Z;
  _dataOffset : Z;
  _dataLen : Z             (* uint32_t *)
}.

Record ChunkInfo : Type := mkChunkInfo {
  ci_offset : Z;
  ci_size : Z;
  ci_lastSerial : Z
}.
Definition ChunkInfo_default : ChunkInfo := mkChunkInfo 0 0 0.

(** Tasks handed to [_executor]. *)
Inductive Task : Type :=
| InternalFlush (chunkId serialNum : Z)
| FileWriter (firstChunkId : Z).

Record WriteableFileChunk : Type := mkWFC {
  _serialNum : Z;
  _frozen : bool;
  _dataFile : list byte;             (* content; the write position is its end *)
  _chunkMap : list (Z * Chunk);
  _pendingChunks : list PendingChunk;
  _nextChunkId : Z;
  _active : Chunk;
  _alignment : Z;
  _firstChunkIdToBeWritten : Z;
  _writeTaskIsRunning : bool;
  _writeQ : ProcessedChunkQ;
  _orderedChunks : ProcessedChunkMap;
  _executor : list Task;
  _chunkInfo : list ChunkInfo;
  _lastPersistedSerialNum : Z;
  _addedBytes : Z;
  (* locals (nextChunkId, done) of a fileWriter run that has left its block
     and not yet entered its closing monitor section *)
  writerLocals : option (Z * bool)
}.

Definition with_writeQ (q : ProcessedChunkQ) (s : WriteableFileChunk) :=
  mkWFC (_serialNum s) (_frozen s) (_dataFile s) (_chunkMap s) (_pendingChunks s)
    (_nextChunkId s) (_active s) (_alignment s) (_firstChunkIdToBeWritten s)
    (_writeTaskIsRunning s) q (_orderedChunks s) (_executor s) (_chunkInfo s)
    (_lastPersistedSerialNum s) (_addedBytes s) (writerLocals s).
Definition with_orderedChunks (m : ProcessedChunkMap) (s : WriteableFileChunk) :=
  mkWFC (_serialNum s) (_frozen s) (_dataFile s) (_chunkMap s) (_pendingChunks s)
    (_nextChunkId s) (_active s) (_alignment s) (_firstChunkIdToBeWritten s)
    (_writeTaskIsRunning s) (_writeQ s) m (_executor s) (_chunkInfo s)
    (_lastPersistedSerialNum s) (_addedBytes s) (writerLocals s).
Definition with_dataFile (f : list byte) (s : WriteableFileChunk) :=
  mkWFC (_serialNum s) (_frozen s) f (_chunkMap s) (_pendingChunks s)
    (_nextChunkId s) (_active s) (_alignment s) (_firstChunkIdToBeWritten s)
    (_writeTaskIsRunning s) (_writeQ s) (_orderedChunks s) (_executor s) (_chunkInfo s)
    (_lastPersistedSerialNum s) (_addedBytes s) (writerLocals s).
Definition with_chunkMap (m : list (Z * Chunk)) (s : WriteableFileChunk) :=
  mkWFC (_serialNum s) (_frozen s) (_dataFile s) m (_pendingChunks s)
    (_nextChunkId s) (_active s) (_alignment s) (_firstChunkIdToBeWritten s)
    (_writeTaskIsRunning s) (_writeQ s) (_orderedChunks s) (_executor s) (_chunkInfo s)
    (_lastPersistedSerialNum s) (_addedBytes s) (writerLocals s).
Definition with_pendingChunks (p : list PendingChunk) (s : WriteableFileChunk) :=
  mkWFC (_serialNum s) (_frozen s) (_dataFile s) (_chunkMap s) p
    (_nextChunkId s) (_active s) (_alignment s) (_firstChunkIdToBeWritten s)
    (_writeTaskIsRunning s) (_writeQ s) (_orderedChunks s) (_executor s) (_chunkInfo s)
    (_lastPersistedSerialNum s) (_addedBytes s) (writerLocals s).
Definition with_chunkInfo (c : list ChunkInfo) (s : WriteableFileChunk) :=
  mkWFC (_serialNum s) (_frozen s) (_dataFile s) (_chunkMap s) (_pendingChunks s)
    (_nextChunkId s) (_active s) (_alignment s) (_firstChunkIdToBeWritten s)
    (_writeTaskIsRunning s) (_writeQ s) (_orderedChunks s) (_executor s) c
    (_lastPersistedSerialNum s) (_addedBytes s) (writerLocals s).
Definition with_executor (e : list Task) (s : WriteableFileChunk) :=
  mkWFC (_serialNum s) (_frozen s) (_dataFile s) (_chunkMap s) (_pendingChunks s)
    (_nextChunkId s) (_active s) (_alignment s) (_firstChunkIdToBeWritten s)
    (_writeTaskIsRunning s) (_writeQ s) (_orderedChunks s) e (_chunkInfo s)
    (_lastPersistedSerialNum s) (_addedBytes s) (writerLocals s).
Definition with_writeTaskIsRunning (b : bool) (s : WriteableFileChunk) :=
  mkWFC (_serialNum s) (_frozen s) (_dataFile s) (_chunkMap s) (_pendingChunks s)
    (_nextChunkId s) (_active s) (_alignment s) (_firstChunkIdToBeWritten s)
    b (_writeQ s) (_orderedChunks s) (_executor s) (_chunkInfo s)
    (_lastPersistedSerialNum s) (_addedBytes s) (writerLocals s).
Definition with_firstChunkIdToBeWritten (n : Z) (s : WriteableFileChunk) :=
  mkWFC (_serialNum s) (_frozen s) (_dataFile s) (_chunkMap s) (_pendingChunks s)
    (_nextChunkId s) (_active s) (_alignment s) n
    (_writeTaskIsRunning s) (_writeQ s) (_orderedChunks s) (_executor s) (_chunkInfo s)
    (_lastPersistedSerialNum s) (_addedBytes s) (writerLocals s).
Definition with_writerLocals (l : option (Z * bool)) (s : WriteableFileChunk) :=
  mkWFC (_serialNum s) (_frozen s) (_dataFile s) (_chunkMap s) (_pendingChunks s)
    (_nextChunkId s) (_active s) (_alignment s) (_firstChunkIdToBeWritten s)
    (_writeTaskIsRunning s) (_writeQ s) (_orderedChunks s) (_executor s) (_chunkInfo s)
    (_lastPersistedSerialNum s) (_addedBytes s) l.
Definition with_serialNum (n : Z) (s : WriteableFileChunk) :=
  mkWFC n (_frozen s) (_dataFile s) (_chunkMap s) (_pendingChunks s)
    (_nextChunkId s) (_active s) (_alignment s) (_firstChunkIdToBeWritten s)
    (_writeTaskIsRunning s) (_writeQ s) (_orderedChunks s) (_executor s) (_chunkInfo s)
    (_lastPersistedSerialNum s) (_addedBytes s) (writerLocals s).
Definition with_active (c : Chunk) (s : WriteableFileChunk) :=
  mkWFC (_serialNum s) (_frozen s) (_dataFile s) (_chunkMap s) (_pendingChunks s)
    (_nextChunkId s) c (_alignment s) (_firstChunkIdToBeWritten s)
    (_writeTaskIsRunning s) (_writeQ s) (_orderedChunks s) (_executor s) (_chunkInfo s)
    (_lastPersistedSerialNum s) (_addedBytes s) (writerLocals s).
Definition with_nextChunkId (n : Z) (s : WriteableFileChunk) :=
  mkWFC (_serialNum s) (_frozen s) (_dataFile s) (_chunkMap s) (_pendingChunks s)
    n (_active s) (_alignment s) (_firstChunkIdToBeWritten s)
    (_writeTaskIsRunning s) (_writeQ s) (_orderedChunks s) (_executor s) (_chunkInfo s)
    (_lastPersistedSerialNum s) (_addedBytes s) (writerLocals s).
Definition with_addedBytes (n : Z) (s : WriteableFileChunk) :=
  mkWFC (_serialNum s) (_frozen s) (_dataFile s) (_chunkMap s) (_pendingChunks s)
    (_nextChunkId s) (_active s) (_alignment s) (_firstChunkIdToBeWritten s)
    (_writeTaskIsRunning s) (_writeQ s) (_orderedChunks s) (_executor s) (_chunkInfo s)
    (_lastPersistedSerialNum s) n (writerLocals s).


(** *** Small helpers on vectors *)

Fixpoint list_resize {A : Type} (d : A) (n : nat) (l : list A) : list A :=
  match n with
  | O => []
  | S n' =>
      match l with
      | [] => d :: list_resize d n' []
      | x :: r => x :: list_resize d n' r
      end
  end.

Fixpoint list_set {A : Type} (i : nat) (x : A) (l : list A) : list A :=
  match l, i with
  | [], _ => []
  | _ :: r, O => x :: r
  | y :: r, S i' => y :: list_set i' x r
  end.


(** *** The background writer: drainQ, insertChunks, fetchNextChain *)

Definition drainQ (s : WriteableFileChunk) : ProcessedChunkQ * WriteableFileChunk :=
  (_writeQ s, with_writeQ [] s).

Fixpoint insertChunks (orderedChunks : ProcessedChunkMap) (newChunks : ProcessedChunkQ)
    (nextChunkId : Z) : Res ProcessedChunkMap :=
  match newChunks with
  | [] => Ok orderedChunks
  | Some chunk :: rest =>
      _ <- assert (nextChunkId <=? _chunkId chunk) "chunk->getChunkId() >= nextChunkId" ;;
      _ <- assert (is_null (OrderedMap.find (_chunkId chunk) orderedChunks))
             "orderedChunks.find(chunk->getChunkId()) == orderedChunks.end()" ;;
      insertChunks (OrderedMap.assign (_chunkId chunk) (Some chunk) orderedChunks)
        rest nextChunkId
  | None :: rest =>
      insertChunks (OrderedMap.assign UINT32_MAX None orderedChunks) rest nextChunkId
  end.

(** The [while] loop of fetchNextChain; [chunks] is the queue built so far.
    The comparison is made in [size_t]. *)
Fixpoint fetchNextChain_loop (orderedChunks : ProcessedChunkMap) (firstChunkId : Z)
    (chunks : ProcessedChunkQ) : ProcessedChunkQ * ProcessedChunkMap :=
  match orderedChunks with
  | [] => (chunks, [])
  | (k, v) :: rest =>
      if (k =? wrap64 (firstChunkId + Z.of_nat (length chunks))) || is_null v
      then fetchNextChain_loop rest firstChunkId (chunks ++ [v])
      else (chunks, orderedChunks)
  end.

Definition fetchNextChain (orderedChunks : ProcessedChunkMap) (firstChunkId : Z)
  : ProcessedChunkQ * ProcessedChunkMap :=
  fetchNextChain_loop orderedChunks firstChunkId [].

(** *** The background writer: positions, metadata, data and chunk info *)

(** File operations are taken to succeed; the branches that throw a
    SummaryException end the writer and are not part of the model. *)
Definition getAlignedStartPos (file : list byte) : Res (Z * list byte) :=
  let startPos := Z.of_nat (length file) in
  let '(startPos, file) :=
    if Z.land startPos (Alignment - 1) =? 0 then (startPos, file)
    else
      let toWrite := Alignment - Z.land startPos (Alignment - 1) in
      let file' := file ++ repeat Byte.x00 (Z.to_nat toWrite) in
      (Z.of_nat (length file'), file') in
  _ <- assert (Z.land startPos (Alignment - 1) =? 0) "(startPos & (Alignment-1)) == 0" ;;
  Ok (startPos, file).

(** computeChunkMeta for one chunk.  The bucket-density bookkeeping and the
    byte counters [_pendingDat]/[_pendingIdx] are statistics and left out. *)
Definition computeChunkMeta1 (s : WriteableFileChunk) (offset : Z)
    (tmp : ProcessedChunk) (active : Chunk) : Res (WriteableFileChunk * ChunkMeta) :=
  let dataLen := getDataLen tmp in
  let cmeta := mkChunkMeta offset (_payLoad tmp) (getLastSerial active) (count active) in
  _ <- assert (dataLen mod _alignment s =? 0) "(dataLen%_alignment) == 0" ;;
  let lids := map (fun e => mkLidMeta (fst e) (Z.of_nat (length (snd e)))) (getLids active) in
  let pc := mkPendingChunk (cmeta, lids) (getLastSerial active) offset (wrap32 dataLen) in
  Ok (with_pendingChunks (_pendingChunks s ++ [pc]) s, cmeta).

(** The [for] loop of computeChunkMeta over the fetched queue: [todo] is the
    part of [chunks] not yet visited, [kept] the part visited, which is what
    [chunks] holds after a [resize(i)]. *)
Fixpoint computeChunkMeta_loop (s : WriteableFileChunk) (startPos : Z)
    (todo : ProcessedChunkQ) (kept : list ProcessedChunk) (cmetaV : list ChunkMeta)
    (sz lastSerial : Z) (done : bool)
  : Res (WriteableFileChunk * list ProcessedChunk * list ChunkMeta * Z * bool) :=
  match todo with
  | [] => Ok (s, kept, cmetaV, sz, done)
  | Some chunk :: rest =>
      active <- deref (OrderedMap.find (_chunkId chunk) (_chunkMap s))
                  "*_chunkMap[chunk.getChunkId()]" ;;
      ' (s', cmeta) <- computeChunkMeta1 s (startPos + sz) chunk active ;;
      _ <- assert (lastSerial <=? cm_lastSerial cmeta) "cmeta.getLastSerial() >= lastSerial" ;;
      computeChunkMeta_loop s' startPos rest (kept ++ [chunk]) (cmetaV ++ [cmeta])
        (sz + getDataLen chunk) (cm_lastSerial cmeta) done
  | None :: rest =>
      _ <- assert (is_nil rest) "(i+1) == chunks.size()" ;;
      computeChunkMeta_loop s startPos rest kept cmetaV sz lastSerial true
  end.

Definition computeChunkMeta (s : WriteableFileChunk) (chunks : ProcessedChunkQ)
    (startPos : Z)
  : Res (WriteableFileChunk * list ProcessedChunk * list ChunkMeta * Z * bool) :=
  let lastSerial := _lastPersistedSerialNum s in
  lastSerial <-
    match rev (_pendingChunks s) with
    | [] => Ok lastSerial
    | pc :: _ =>
        _ <- assert (lastSerial <=? _lastSerial pc) "pc.getLastSerial() >= lastSerial" ;;
        Ok (_lastSerial pc)
    end ;;
  computeChunkMeta_loop s startPos chunks [] [] 0 lastSerial false.

Definition writeData (s : WriteableFileChunk) (chunks : list ProcessedChunk) (sz : Z)
  : WriteableFileChunk :=
  let buf := flat_map _buf chunks in
  with_dataFile (_dataFile s ++ buf) s.

Fixpoint updateChunkInfo (s : WriteableFileChunk) (chunks : list ProcessedChunk)
    (cmetaV : list ChunkMeta) : Res WriteableFileChunk :=
  match chunks with
  | [] => Ok s
  | chunk :: rest =>
      ' (k, active) <- deref (OrderedMap.begin (_chunkMap s)) "*_chunkMap.begin()->second" ;;
      _ <- assert (k =? _chunkId chunk)
             "_chunkMap.find(chunk.getChunkId()) == _chunkMap.begin()" ;;
      let info :=
        if Z.of_nat (length (_chunkInfo s)) <=? getId active
        then list_resize ChunkInfo_default (Z.to_nat (getId active + 1)) (_chunkInfo s)
        else _chunkInfo s in
      cmeta <- deref (hd_error cmetaV) "cmetaV[i]" ;;
      let info :=
        list_set (Z.to_nat (getId active))
          (mkChunkInfo (cm_offset cmeta) (_payLoad chunk) (cm_lastSerial cmeta)) info in
      updateChunkInfo
        (with_chunkMap (OrderedMap.erase_begin (_chunkMap s)) (with_chunkInfo info s))
        rest (tl cmetaV)
  end.


(** *** fileWriter, enque and restart *)

Definition restart (nextChunkId : Z) (s : WriteableFileChunk) : WriteableFileChunk :=
  with_executor (_executor s ++ [FileWriter nextChunkId]) s.

Definition enque (tmp : ProcessedChunkUP) (s : WriteableFileChunk) : WriteableFileChunk :=
  let s := with_writeQ (_writeQ s ++ [tmp]) s in
  if negb (_writeTaskIsRunning s) then
    let s := with_writeTaskIsRunning true s in
    let nextChunkId := _firstChunkIdToBeWritten s in
    restart nextChunkId s
  else s.

(** The block of fileWriter: everything up to the closing monitor section.
    Its locals are kept in [writerLocals] for [fileWriter_tail]. *)
Definition fileWriter_block (firstChunkId : Z) (s : WriteableFileChunk)
  : Res WriteableFileChunk :=
  let nextChunkId := firstChunkId in
  let '(newChunks, s) := drainQ s in
  if negb (is_nil newChunks) then
    ordered <- insertChunks (_orderedChunks s) newChunks nextChunkId ;;
    let '(chunks, ordered) := fetchNextChain ordered nextChunkId in
    let s := with_orderedChunks ordered s in
    let nextChunkId := wrap32 (nextChunkId + Z.of_nat (length chunks)) in
    ' (startPos, file) <- getAlignedStartPos (_dataFile s) ;;
    let s := with_dataFile file s in
    ' (s, chunks, cmetaV, sz, done) <- computeChunkMeta s chunks startPos ;;
    let s := writeData s chunks sz in
    s <- updateChunkInfo s chunks cmetaV ;;
    Ok (with_writerLocals (Some (nextChunkId, done)) s)
  else Ok (with_writerLocals (Some (nextChunkId, false)) s).

Section Writer.

(** [ChunkInfo::valid] is declared in filechunk.h, which is not among the
    sources; it is a parameter of the model. *)
Variable valid : ChunkInfo -> bool.

(** The closing monitor section of fileWriter. *)
Definition fileWriter_tail (s : WriteableFileChunk) : Res WriteableFileChunk :=
  match writerLocals s with
  | None => Err NotEnabled
  | Some (nextChunkId, done) =>
      let s := with_writerLocals None s in
      if done then
        _ <- assert (is_nil (_writeQ s)) "_writeQ.empty()" ;;
        _ <- assert (OrderedMap.empty (_chunkMap s)) "_chunkMap.empty()" ;;
        _ <- assert (forallb (fun cm => valid cm && negb (ci_size cm =? 0)) (_chunkInfo s))
               "cm.valid() && cm.getSize() != 0" ;;
        Ok (with_writeTaskIsRunning false s)
      else if is_nil (_writeQ s) then
        Ok (with_writeTaskIsRunning false (with_firstChunkIdToBeWritten nextChunkId s))
      else
        Ok (restart nextChunkId (with_writeTaskIsRunning true s))
  end.

(** The executor runs its tasks on several threads; the writer is the
    [FileWriter] task it holds. *)
Fixpoint takeFileWriter (tasks : list Task) : option (Z * list Task) :=
  match tasks with
  | [] => None
  | FileWriter n :: rest => Some (n, rest)
  | t :: rest =>
      match takeFileWriter rest with
      | Some (n, rest') => Some (n, t :: rest')
      | None => None
      end
  end.

(** What the writer and the threads around it do to the instance, one
    atomic step at a time:
    - [EvEnque tmp]: a packing task (or [freeze], with the null chunk)
      calls [enque];
    - [EvRollOver ch]: the appending thread moves a chunk into [_chunkMap]
      ([_chunkMap[chunkId] = std::move(_active)] in flushLastIfNonEmpty);
    - [EvFileWriter]: the executor runs the pending fileWriter task up to
      its closing monitor section;
    - [EvFileWriterTail]: that run takes the monitor and finishes. *)
Inductive Event : Type :=
| EvEnque (tmp : ProcessedChunkUP)
| EvRollOver (ch : Chunk)
| EvFileWriter
| EvFileWriterTail.

Definition step (s : WriteableFileChunk) (e : Event) : Res WriteableFileChunk :=
  match e with
  | EvEnque tmp => Ok (enque tmp s)
  | EvRollOver ch => Ok (with_chunkMap (OrderedMap.assign (getId ch) ch (_chunkMap s)) s)
  | EvFileWriter =>
      match takeFileWriter (_executor s) with
      | Some (firstChunkId, tasks) => fileWriter_block firstChunkId (with_executor tasks s)
      | None => Err NotEnabled
      end
  | EvFileWriterTail => fileWriter_tail s
  end.

Fixpoint run (s : WriteableFileChunk) (evs : list Event) : Res WriteableFileChunk :=
  match evs with
  | [] => Ok s
  | e :: rest => s' <- step s e ;; run s' rest
  end.

End Writer.

(** *** append and the non-blocking flush *)

Definition to_int32 (z : Z) : Z := (z + 2 ^ 31) mod 2 ^ 32 - 2 ^ 31.

Record LidInfo : Type := mkLidInfo { li_fileId : Z; li_chunkId : Z; li_size : Z }.

Section Append.

(** Declared in headers that are not among the sources (chunk.h, lidinfo.h,
    filechunk.h, the configuration) and taken as parameters:
    [Chunk::hasRoom], [LidInfo::getChunkIdLimit], [setSerialNum] as the
    function from the current and the requested serial number to the new
    one, [adjustSize], [_config.getMaxChunkBytes()] and the file id. *)
Variable hasRoom : Chunk -> Z -> bool.
Variable getChunkIdLimit : Z.
Variable setSerialNum : Z -> Z -> Z.
Variable adjustSize : Z -> Z.
Variable getMaxChunkBytes : Z.
Variable getFileId : Z.

(** The wait on the monitor is a suspension of the caller: with more than
    1000 chunks in flight the call does not proceed ([WouldBlock]). *)
Definition flushLastIfNonEmpty (force : bool) (s : WriteableFileChunk)
  : Res (Z * WriteableFileChunk) :=
  let chunkId := -1 in
  if 1000 <? Z.of_nat (length (_chunkMap s)) then
    Err (WouldBlock "Summary write overload at least 1000 outstanding chunks")
  else if force || negb (empty (_active s)) then
    let chunkId := to_int32 (getId (_active s)) in
    let s := with_chunkMap (OrderedMap.assign (wrap32 chunkId) (_active s) (_chunkMap s)) s in
    _ <- assert (_nextChunkId s <? getChunkIdLimit)
           "_nextChunkId < LidInfo::getChunkIdLimit()" ;;
    let s := with_nextChunkId (wrap32 (_nextChunkId s + 1))
               (with_active (newChunk (_nextChunkId s) getMaxChunkBytes) s) in
    Ok (chunkId, s)
  else Ok (chunkId, s).

(** [flush(block, syncToken)] for [block == false]. *)
Definition flush_nonblocking (syncToken : Z) (s : WriteableFileChunk)
  : Res WriteableFileChunk :=
  ' (chunkId, s) <- flushLastIfNonEmpty (_serialNum s <? syncToken) s ;;
  if 0 <=? chunkId then
    let s := with_serialNum (setSerialNum (_serialNum s) syncToken) s in
    Ok (with_executor (_executor s ++ [InternalFlush (wrap32 chunkId) (_serialNum s)]) s)
  else Ok s.

Definition append (serialNum lid : Z) (buffer : list byte) (s : WriteableFileChunk)
  : Res (LidInfo * WriteableFileChunk) :=
  let len := Z.of_nat (length buffer) in
  _ <- assert (negb (_frozen s)) "!frozen()" ;;
  s <- (if negb (hasRoom (_active s) len)
        then flush_nonblocking (_serialNum s) s
        else Ok s) ;;
  _ <- assert (_serialNum s <=? serialNum) "serialNum >= _serialNum" ;;
  let s := with_serialNum serialNum s in
  let s := with_addedBytes (_addedBytes s + adjustSize len) s in
  let s := with_active (Chunk_append (_active s) lid buffer) s in
  Ok (mkLidInfo getFileId (getId (_active s)) len, s).

End Append.

End FileChunk.
(** ** The reference attribute (searchlib/attribute/reference_attribute.cpp) *)

Module ReferenceAttribute.

(** minimum dead bytes in unique store before consider compaction *)
Definition DEAD_BYTES_SLACK : Z := 65536.   (* 0x10000u *)

Record MemoryUsage : Type := mkMemoryUsage {
  allocatedBytes : Z;
  usedBytes : Z;
  deadBytes : Z;
  allocatedBytesOnHold : Z
}.

(** [CompactionStrategy] is declared outside the sources; what the
    attribute reads from it is the ratio, a [double]. *)
Record CompactionStrategy : Type := mkCompactionStrategy {
  getMaxDeadBytesRatio : Double.double
}.

Section Attribute.

(** The unique store, its entry references and its compaction context are
    template classes of the datastore library, outside the sources; the
    attribute uses them through these operations. *)
Variable UniqueStore : Type.
Variable EntryRef : Type.
Variable ICompactionContext : Type.
Variable store_compactWorst : UniqueStore -> option ICompactionContext * UniqueStore.
Variable context_compact : ICompactionContext -> list EntryRef -> list EntryRef.
Variable store_getMemoryUsage : UniqueStore -> MemoryUsage.
(** [freeze] followed by [transferHoldLists(generation - 1)] *)
Variable store_onGenerationChange : Z -> UniqueStore -> UniqueStore.

Record ReferenceAttribute : Type := mkReferenceAttribute {
  _store : UniqueStore;
  _indices : list EntryRef;
  _cachedUniqueStoreMemoryUsage : MemoryUsage;
  generation : Z
}.

Definition compactWorst (a : ReferenceAttribute) : ReferenceAttribute :=
  let '(compactionContext, store) := store_compactWorst (_store a) in
  match compactionContext with
  | Some ctx =>
      mkReferenceAttribute store (context_compact ctx (_indices a))
        (_cachedUniqueStoreMemoryUsage a) (generation a)
  | None =>
      mkReferenceAttribute store (_indices a)
        (_cachedUniqueStoreMemoryUsage a) (generation a)
  end.

(** [usedBytes * ratio < deadBytes] converts both [size_t] values to
    [double] and multiplies and compares there. *)
Definition considerCompact (compactionStrategy : CompactionStrategy)
    (a : ReferenceAttribute) : bool * ReferenceAttribute :=
  let usedBytes := usedBytes (_cachedUniqueStoreMemoryUsage a) in
  let deadBytes := deadBytes (_cachedUniqueStoreMemoryUsage a) in
  let compactMemory :=
    (DEAD_BYTES_SLACK <=? deadBytes) &&
    Double.ltb (Double.mul (Double.of_Z usedBytes)
                  (getMaxDeadBytesRatio compactionStrategy))
               (Double.of_Z deadBytes) in
  if compactMemory then (true, compactWorst a) else (false, a).

Definition onGenerationChange (g : Z) (a : ReferenceAttribute) : ReferenceAttribute :=
  mkReferenceAttribute (store_onGenerationChange g (_store a)) (_indices a)
    (_cachedUniqueStoreMemoryUsage a) (generation a).

Definition incGeneration (a : ReferenceAttribute) : ReferenceAttribute :=
  let a := mkReferenceAttribute (_store a) (_indices a)
             (_cachedUniqueStoreMemoryUsage a) (generation a + 1) in
  onGenerationChange (generation a) a.

(** The part of onUpdateStat that feeds considerCompact. *)
Definition onUpdateStat (a : ReferenceAttribute) : ReferenceAttribute :=
  mkReferenceAttribute (_store a) (_indices a) (store_getMemoryUsage (_store a))
    (generation a).

Definition onCommit (compactionStrategy : CompactionStrategy)
    (a : ReferenceAttribute) : ReferenceAttribute :=
  let a := incGeneration a in
  let '(compacted, a) := considerCompact compactionStrategy a in
  if compacted then onUpdateStat (incGeneration a) else a.

End Attribute.

Arguments mkReferenceAttribute {UniqueStore EntryRef}.
Arguments _store {UniqueStore EntryRef}.
Arguments _indices {UniqueStore EntryRef}.
Arguments _cachedUniqueStoreMemoryUsage {UniqueStore EntryRef}.
Arguments generation {UniqueStore EntryRef}.
Arguments compactWorst {UniqueStore EntryRef ICompactionContext}.
Arguments considerCompact {UniqueStore EntryRef ICompactionContext}.
Arguments onGenerationChange {UniqueStore EntryRef}.
Arguments incGeneration {UniqueStore EntryRef}.
Arguments onUpdateStat {UniqueStore EntryRef}.
Arguments onCommit {UniqueStore EntryRef ICompactionContext}.

End ReferenceAttribute.

(** ** The docsum writer framework (searchsummary/docsummary) *)

Module DocSummary.

(** The field types of resultconfig.h that the writers switch on. *)
Inductive ResType : Type :=
| RES_INT | RES_SHORT | RES_BYTE | RES_FLOAT | RES_DOUBLE | RES_INT64
| RES_STRING | RES_DATA | RES_LONG_STRING | RES_LONG_DATA | RES_XMLSTRING
| RES_JSONSTRING | RES_TENSOR | RES_FEATUREDATA.

Definition ResType_eqb (a b : ResType) : bool :=
  match a, b with
  | RES_INT, RES_INT | RES_SHORT, RES_SHORT | RES_BYTE, RES_BYTE
  | RES_FLOAT, RES_FLOAT | RES_DOUBLE, RES_DOUBLE | RES_INT64, RES_INT64
  | RES_STRING, RES_STRING | RES_DATA, RES_DATA
  | RES_LONG_STRING, RES_LONG_STRING | RES_LONG_DATA, RES_LONG_DATA
  | RES_XMLSTRING, RES_XMLSTRING | RES_JSONSTRING, RES_JSONSTRING
  | RES_TENSOR, RES_TENSOR | RES_FEATUREDATA, RES_FEATUREDATA => true
  | _, _ => false
  end.

(** What a writer hands to a [vespalib::slime::Inserter]. *)
#[warnings="-register-all"]
Inductive SlimeValue : Type :=
| SlimeNix
| SlimeLong (z : Z)
| SlimeDouble (d : Double.double)
| SlimeString (s : string)
| SlimeData (s : string)
| SlimeDecoded (raw : string)        (* BinaryFormat::decode_into of raw *)
| SlimeObject (fields : list (string * SlimeValue)).

Record ResConfigEntry : Type := mkResConfigEntry {
  _type : ResType;
  _bindname : string;
  _enumValue : Z
}.

(** Modelled from the spec: ResultClass and ResultConfig (resultclass.h,
    resultconfig.h) are not among the sources.  A result class is its id,
    its name and its fields in order; "every field of a resolved output
    class" is an entry of it, and a field is found in a class by its
    field-name enum value. *)
Record ResultClass : Type := mkResultClass {
  classId : Z;
  className : string;
  entries : list ResConfigEntry
}.

Definition GetNumEntries (c : ResultClass) : Z := Z.of_nat (length (entries c)).
Definition GetEntry (c : ResultClass) (i : Z) : option ResConfigEntry :=
  if i <? 0 then None else nth_error (entries c) (Z.to_nat i).

Fixpoint indexFromEnumValue (es : list ResConfigEntry) (v : Z) (i : Z) : Z :=
  match es with
  | [] => -1
  | e :: r => if _enumValue e =? v then i else indexFromEnumValue r v (i + 1)
  end.
Definition GetIndexFromEnumValue (c : ResultClass) (v : Z) : Z :=
  indexFromEnumValue (entries c) v 0.

Record DynamicInfo : Type := mkDynamicInfo {
  _overrideCnt : Z;
  _generateCnt : Z
}.

Record ResultConfig : Type := mkResultConfig {
  classes : list ResultClass;
  NoClassID : Z;
  LookupResultClassId : string -> Z -> Z;
  FieldNameEnum_Lookup : string -> Z
}.

(** The class with the given id and its position in the configuration,
    which is where the writer keeps its [DynamicInfo]. *)
Fixpoint lookupClass (cs : list ResultClass) (id : Z) (i : nat) : option (nat * ResultClass) :=
  match cs with
  | [] => None
  | c :: r => if classId c =? id then Some (i, c) else lookupClass r id (S i)
  end.
Definition LookupResultClass (cfg : ResultConfig) (id : Z) : option (nat * ResultClass) :=
  lookupClass (classes cfg) id 0.

(** The packed fields of a stored summary, resolved. *)
Record ResEntry : Type := mkResEntry {
  _intval : Z;
  _int64val : Z;
  _doubleval : Double.double;
  _resolved_field : string
}.

(** The summary store and its read path.  [reads] records the calls of
    [getMappedDocsum], in order. *)
Record IDocsumStore : Type := mkDocsumStore {
  getSummaryClassId : Z;
  blobs : Z -> string;
  reads : list (Z * bool)
}.

Definition getMappedDocsum (docinfos : IDocsumStore) (docid : Z) (useSlimeInsideFields : bool)
  : string * IDocsumStore :=
  (blobs docinfos docid,
   mkDocsumStore (getSummaryClassId docinfos) (blobs docinfos)
     (reads docinfos ++ [(docid, useSlimeInsideFields)])).

Section Writer.

(** The per-request state handed to the field writers. *)
Variable GetDocsumsState : Type.
(** [GeneralResult::inplaceUnpack] of a blob against the input class: the
    entries on success ([GetEntry]), nothing when the blob is illegal. *)
Variable inplaceUnpack : option ResultClass -> string -> option (list ResEntry).

Record IDocsumFieldWriter : Type := mkFieldWriter {
  IsGenerated : bool;
  isDefaultValue : Z -> GetDocsumsState -> bool;
  insertField : Z -> option (list ResEntry) -> GetDocsumsState -> ResType ->
                Res (list SlimeValue * GetDocsumsState)
}.

Record DynamicDocsumWriter : Type := mkDocsumWriter {
  _resultConfig : ResultConfig;
  _defaultOutputClass : Z;
  _numEnumValues : Z;
  _classInfoTable : list DynamicInfo;
  _overrideTable : list (option IDocsumFieldWriter)
}.

Record ResolveClassInfo : Type := mkResolveClassInfo {
  mustSkip : bool;
  allGenerated : bool;
  outputClassId : Z;
  outputClass : option ResultClass;
  outputClassInfo : option DynamicInfo;
  inputClass : option ResultClass
}.

Definition DynamicDocsumWriter_new (config : ResultConfig) (numEnumValues : Z)
  : DynamicDocsumWriter :=
  mkDocsumWriter config (NoClassID config) numEnumValues
    (map (fun _ => mkDynamicInfo 0 0) (classes config))
    (repeat None (Z.to_nat numEnumValues)).

(** The table slot of an enum value; an index outside the array is a wild
    read, which the model treats like the null slot. *)
Definition overrideSlot (w : DynamicDocsumWriter) (v : Z) : option IDocsumFieldWriter :=
  if v <? 0 then None
  else match nth_error (_overrideTable w) (Z.to_nat v) with
       | Some slot => slot
       | None => None
       end.

Fixpoint set_nth {A : Type} (i : nat) (x : A) (l : list A) : list A :=
  match l, i with
  | [], _ => []
  | _ :: r, O => x :: r
  | y :: r, S i' => y :: set_nth i' x r
  end.

Definition Override (w : DynamicDocsumWriter) (fieldName : string)
    (writer : IDocsumFieldWriter) : bool * DynamicDocsumWriter :=
  let fieldEnumValue := wrap32 (FieldNameEnum_Lookup (_resultConfig w) fieldName) in
  if (_numEnumValues w <=? fieldEnumValue)
     || negb (is_null (overrideSlot w fieldEnumValue))
  then (false, w)
  else
    let table := set_nth (Z.to_nat fieldEnumValue) (Some writer) (_overrideTable w) in
    let infos :=
      map (fun ci : ResultClass * DynamicInfo =>
             let '(c, info) := ci in
             if 0 <=? GetIndexFromEnumValue c fieldEnumValue then
               mkDynamicInfo (_overrideCnt info + 1)
                 (if IsGenerated writer then _generateCnt info + 1 else _generateCnt info)
             else info)
          (combine (classes (_resultConfig w)) (_classInfoTable w)) in
    (true, mkDocsumWriter (_resultConfig w) (_defaultOutputClass w) (_numEnumValues w)
             infos table).



Definition resolveOutputClass (w : DynamicDocsumWriter) (summaryClass : string)
  : Res ResolveClassInfo :=
  let id := _defaultOutputClass w in
  let id := LookupResultClassId (_resultConfig w) summaryClass id in
  if negb (id =? NoClassID (_resultConfig w)) then
    match LookupResultClass (_resultConfig w) id with
    | None =>
        (* Illegal docsum class requested *)
        Ok (mkResolveClassInfo true false id None None None)
    | Some (i, oC) =>
        rcInfo <- deref (nth_error (_classInfoTable w) i) "oC->getDynamicInfo()" ;;
        if _generateCnt rcInfo =? GetNumEntries oC then
          _ <- assert (_overrideCnt rcInfo =? _generateCnt rcInfo)
                 "rcInfo->_overrideCnt == rcInfo->_generateCnt" ;;
          Ok (mkResolveClassInfo false true id (Some oC) (Some rcInfo) None)
        else Ok (mkResolveClassInfo false false id (Some oC) (Some rcInfo) None)
    end
  else Ok (mkResolveClassInfo false false id None None None).

Definition resolveInputClass (w : DynamicDocsumWriter) (rci : ResolveClassInfo) (id : Z)
  : Res ResolveClassInfo :=
  match LookupResultClass (_resultConfig w) id with
  | None =>
      Ok (mkResolveClassInfo true (allGenerated rci) (outputClassId rci)
            (outputClass rci) (outputClassInfo rci) None)
  | Some (i, inC) =>
      match outputClass rci with
      | None =>
          _ <- assert (outputClassId rci =? NoClassID (_resultConfig w))
                 "rci.outputClassId == ResultConfig::NoClassID()" ;;
          Ok (mkResolveClassInfo (mustSkip rci) (allGenerated rci) id (Some inC)
                (nth_error (_classInfoTable w) i) (Some inC))
      | Some _ =>
          Ok (mkResolveClassInfo (mustSkip rci) (allGenerated rci) (outputClassId rci)
                (outputClass rci) (outputClassInfo rci) (Some inC))
      end
  end.

Definition resolveClassInfo (w : DynamicDocsumWriter) (outputClassName : string)
    (inputClassId : Z) : Res ResolveClassInfo :=
  rci <- resolveOutputClass w outputClassName ;;
  if negb (mustSkip rci) && negb (allGenerated rci)
  then resolveInputClass w rci inputClassId
  else Ok rci.

Definition convertEntry (resCfg : ResConfigEntry) (entry : ResEntry) : list SlimeValue :=
  match _type resCfg with
  | RES_INT | RES_SHORT | RES_BYTE => [SlimeLong (_intval entry)]
  | RES_FLOAT | RES_DOUBLE => [SlimeDouble (_doubleval entry)]
  | RES_INT64 => [SlimeLong (_int64val entry)]
  | RES_STRING | RES_LONG_STRING | RES_FEATUREDATA | RES_XMLSTRING =>
      [SlimeString (_resolved_field entry)]
  | RES_DATA | RES_TENSOR | RES_LONG_DATA => [SlimeData (_resolved_field entry)]
  | RES_JSONSTRING =>
      if negb (Nat.eqb (String.length (_resolved_field entry)) 0)
      then [SlimeDecoded (_resolved_field entry)]
      else []
  end.

(** An [ObjectInserter] puts what is inserted under the field name. *)
Definition underName (name : string) (vs : list SlimeValue) : list (string * SlimeValue) :=
  map (fun v => (name, v)) vs.

(** The loop of the [allGenerated] branch over the entries of the output
    class; [docsum] is the object built so far. *)
Fixpoint insertGenerated (w : DynamicDocsumWriter) (docid : Z)
    (es : list ResConfigEntry) (state : GetDocsumsState)
    (docsum : list (string * SlimeValue))
  : Res (list (string * SlimeValue) * GetDocsumsState) :=
  match es with
  | [] => Ok (docsum, state)
  | resCfg :: rest =>
      writer <- deref (overrideSlot w (_enumValue resCfg)) "_overrideTable[resCfg->_enumValue]" ;;
      if negb (isDefaultValue writer docid state) then
        ' (vs, state) <- insertField writer docid None state (_type resCfg) ;;
        insertGenerated w docid rest state (docsum ++ underName (_bindname resCfg) vs)
      else insertGenerated w docid rest state docsum
  end.

(** The loop of the other branch; [i] is the index of the entry. *)
Fixpoint insertStored (w : DynamicDocsumWriter) (rci : ResolveClassInfo) (docid : Z)
    (gres : list ResEntry) (sameClass : bool)
    (es : list ResConfigEntry) (i : Z) (state : GetDocsumsState)
    (docsum : list (string * SlimeValue))
  : Res (list (string * SlimeValue) * GetDocsumsState) :=
  match es with
  | [] => Ok (docsum, state)
  | outCfg :: rest =>
      match overrideSlot w (_enumValue outCfg) with
      | Some writer =>
          ' (vs, state) <- insertField writer docid (Some gres) state (_type outCfg) ;;
          insertStored w rci docid gres sameClass rest (i + 1) state
            (docsum ++ underName (_bindname outCfg) vs)
      | None =>
          if sameClass then
            entry <- deref (nth_error gres (Z.to_nat i)) "gres.GetEntry(i)" ;;
            insertStored w rci docid gres sameClass rest (i + 1) state
              (docsum ++ underName (_bindname outCfg) (convertEntry outCfg entry))
          else
            inC <- deref (inputClass rci) "rci.inputClass" ;;
            let inIdx := GetIndexFromEnumValue inC (_enumValue outCfg) in
            match GetEntry inC inIdx with
            | Some inCfg =>
                if ResType_eqb (_type inCfg) (_type outCfg) then
                  entry <- (match nth_error gres (Z.to_nat inIdx) with
                            | Some e => Ok e
                            | None => Err (AssertionFailed "entry != NULL")
                            end) ;;
                  insertStored w rci docid gres sameClass rest (i + 1) state
                    (docsum ++ underName (_bindname outCfg) (convertEntry outCfg entry))
                else insertStored w rci docid gres sameClass rest (i + 1) state docsum
            | None => insertStored w rci docid gres sameClass rest (i + 1) state docsum
            end
      end
  end.

Definition ResultClass_same (a b : option ResultClass) : bool :=
  match a, b with
  | Some x, Some y => classId x =? classId y
  | None, None => true
  | _, _ => false
  end.

(** insertDocsum.  The store is returned beside the result, so that what
    was read from it is known also when the call ends in a fault. *)
Definition insertDocsum (w : DynamicDocsumWriter) (rci : ResolveClassInfo) (docid : Z)
    (state : GetDocsumsState) (docinfos : IDocsumStore)
  : IDocsumStore * Res (SlimeValue * GetDocsumsState) :=
  if allGenerated rci then
    (docinfos,
     oC <- deref (outputClass rci) "rci.outputClass" ;;
     ' (docsum, state) <- insertGenerated w docid (entries oC) state [] ;;
     Ok (SlimeObject docsum, state))
  else
    let '(value, docinfos) := getMappedDocsum docinfos docid true in
    (docinfos,
     match inplaceUnpack (inputClass rci) value with
     | None => Ok (SlimeNix, state)
     | Some gres =>
         oC <- deref (outputClass rci) "rci.outputClass" ;;
         ' (docsum, state) <-
            insertStored w rci docid gres
              (ResultClass_same (inputClass rci) (outputClass rci))
              (entries oC) 0 state [] ;;
         Ok (SlimeObject docsum, state)
     end).

(** WriteDocsum up to the encoding of the slime into the raw buffer. *)
Definition WriteDocsum (w : DynamicDocsumWriter) (resultClassName : string) (docid : Z)
    (state : GetDocsumsState) (docinfos : IDocsumStore)
  : IDocsumStore * Res (SlimeValue * GetDocsumsState) :=
  match resolveClassInfo w resultClassName (getSummaryClassId docinfos) with
  | Ok rci => insertDocsum w rci docid state docinfos
  | Err f => (docinfos, Err f)
  end.

End Writer.

Arguments mkFieldWriter {GetDocsumsState}.
Arguments IsGenerated {GetDocsumsState}.
Arguments isDefaultValue {GetDocsumsState}.
Arguments insertField {GetDocsumsState}.
Arguments mkDocsumWriter {GetDocsumsState}.
Arguments _resultConfig {GetDocsumsState}.
Arguments _defaultOutputClass {GetDocsumsState}.
Arguments _numEnumValues {GetDocsumsState}.
Arguments _classInfoTable {GetDocsumsState}.
Arguments _overrideTable {GetDocsumsState}.
Arguments DynamicDocsumWriter_new {GetDocsumsState}.
Arguments overrideSlot {GetDocsumsState}.
Arguments Override {GetDocsumsState}.
Arguments resolveOutputClass {GetDocsumsState}.
Arguments resolveInputClass {GetDocsumsState}.
Arguments resolveClassInfo {GetDocsumsState}.
Arguments insertGenerated {GetDocsumsState}.
Arguments insertStored {GetDocsumsState}.
Arguments insertDocsum {GetDocsumsState}.
Arguments WriteDocsum {GetDocsumsState}.

End DocSummary.
(** ** The geo-distance field writer (searchsummary/docsummary/positionsdfw.cpp) *)

Module Positions.
Import DocSummary.

Definition to_int32 (z : Z) : Z := (z + 2 ^ 31) mod 2 ^ 32 - 2 ^ 31.

(** [search::common::Location] (location.h) is outside the sources; the
    writer reads the coordinates ([int32_t]), the aspect ([uint32_t]) and
    the parse error (null when parsing succeeded). *)
Record Location : Type := mkLocation {
  getX : Z;
  getY : Z;
  getXAspect : Z;
  getParseError : option string
}.

(** What AbsDistanceDFW reads and writes in [GetDocsumsState]:
    [_args.getLocation()], [_parsedLocation], the location that
    [_callback.ParseLocation] leaves there, and the values of the
    writer's attribute vector per document. *)
Record GetDocsumsState : Type := mkState {
  args_getLocation : string;
  _parsedLocation : option Location;
  callback_ParseLocation : string -> option Location;
  vec : Z -> list Z
}.

Definition ParseLocation (state : GetDocsumsState) : GetDocsumsState :=
  mkState (args_getLocation state)
    (callback_ParseLocation state (args_getLocation state))
    (callback_ParseLocation state) (vec state).

(** [IAttributeVector::get(docid, buffer, sz)]: stores up to [sz] values
    into the buffer and returns how many the document has. *)
Definition attribute_get (values : list Z) (pos : list Z) : Z * list Z :=
  (wrap32 (Z.of_nat (length values)),
   firstn (length pos) values ++ skipn (length values) pos).

Section FindMinDistance.

(** [vespalib::geo::ZCurve::decode] is outside the sources; it stores the
    two coordinates into [int32_t] variables. *)
Variable ZCurve_decode : Z -> Z * Z.

(** One round of the loop over the stored positions.  The subtraction of
    two [int32_t] converted to [uint32_t] is taken modulo 2^32. *)
Definition distance2 (location : Location) (docxy : Z) : Z :=
  let docx := to_int32 (fst (ZCurve_decode docxy)) in
  let docy := to_int32 (snd (ZCurve_decode docxy)) in
  let dx :=
    if docx <? getX location then wrap32 (getX location - docx)
    else wrap32 (docx - getX location) in
  let dx :=
    if negb (getXAspect location =? 0)
    then wrap32 (Z.shiftr (wrap64 (dx * getXAspect location)) 32)
    else dx in
  let dy :=
    if docy <? getY location then wrap32 (getY location - docy)
    else wrap32 (docy - getY location) in
  wrap64 (wrap64 (dx * dx) + wrap64 (dy * dy)).

Fixpoint findMinDistance_loop (location : Location) (pos : list Z) (i : nat)
    (n : nat) (absdist : Z) : Z :=
  match n with
  | O => absdist
  | S n' =>
      let docxy := nth i pos 0 in
      let dist2 := distance2 location docxy in
      let absdist := if dist2 <? absdist then dist2 else absdist in
      findMinDistance_loop location pos (S i) n' absdist
  end.

Definition findMinDistance (docid : Z) (state : GetDocsumsState) : Res Z :=
  location <- deref (_parsedLocation state) "*state->_parsedLocation" ;;
  let attribute := vec state docid in
  let absdist := INT64_MAX in
  let pos := repeat 0 16 in
  let '(numValues, pos) := attribute_get attribute pos in
  ' (numValues, pos) <-
     (if Z.of_nat (length pos) <? numValues then
        let pos := pos ++ repeat 0 (Z.to_nat numValues - length pos) in
        let '(numValues, pos) := attribute_get attribute pos in
        _ <- assert (numValues <=? Z.of_nat (length pos)) "numValues <= pos.size()" ;;
        Ok (numValues, pos)
      else Ok (numValues, pos)) ;;
  let absdist := findMinDistance_loop location pos 0 (Z.to_nat numValues) absdist in
  match Double.to_uint64 (Double.sqrt (Double.of_Z absdist)) with
  | Some d => Ok d
  | None => Err (AssertionFailed "(uint64_t) std::sqrt((double) absdist)")
  end.

(** [vespalib::stringify] of an unsigned 64-bit value: its decimal digits. *)
Definition stringify (z : Z) : string :=
  DecimalString.NilZero.string_of_uint (N.to_uint (Z.to_N z)).

(** insertField: what is inserted into [target], and the state, in which
    the parsed location may have been filled in. *)
Definition insertField (docid : Z) (state : GetDocsumsState) (type : ResType)
  : Res (list SlimeValue * GetDocsumsState) :=
  let forceEmpty := true in
  let locationStr := args_getLocation state in
  ' (forceEmpty, state) <-
     (if 0 <? Z.of_nat (String.length locationStr) then
        let state :=
          if is_null (_parsedLocation state) then ParseLocation state else state in
        match _parsedLocation state with
        | None => Err (AssertionFailed "state->_parsedLocation.get() != NULL")
        | Some loc =>
            if is_null (getParseError loc) then Ok (false, state)
            else Ok (forceEmpty, state)
        end
      else Ok (forceEmpty, state)) ;;
  if forceEmpty : bool then Ok ([], state)
  else
    absdist <- findMinDistance docid state ;;
    match type with
    | RES_INT => Ok ([SlimeLong absdist], state)
    | RES_STRING | RES_LONG_STRING | RES_XMLSTRING =>
        Ok ([SlimeString (stringify absdist)], state)
    | RES_LONG_DATA | RES_DATA => Ok ([SlimeData (stringify absdist)], state)
    | _ => Ok ([], state)
    end.

End FindMinDistance.

End Positions.

(** ** Node provisioning (hosted/provision/provisioning) *)

Module Provisioning.

(** [Node], [Flavor] and [NodeSpec] are classes outside the sources; the
    records hold what NodePrioritizer and ResourceCapacity read of them. *)
Inductive NodeState : Type :=
| provisioned | ready | reserved | active | inactive | dirty | failed | parked.

Definition NodeState_eqb (a b : NodeState) : bool :=
  match a, b with
  | provisioned, provisioned | ready, ready | reserved, reserved
  | active, active | inactive, inactive | dirty, dirty
  | failed, failed | parked, parked => true
  | _, _ => false
  end.

Record Flavor : Type := mkFlavor {
  getMinMainMemoryAvailableGb : Double.double;
  getMinCpuCores : Double.double;
  getMinDiskAvailableGb : Double.double
}.

Record Allocation : Type := mkAllocation {
  owner : string;                   (* ApplicationId *)
  membership_cluster_id : string    (* membership().cluster().id() *)
}.

Record Node : Type := mkNode {
  hostname : string;
  state : NodeState;
  allocation : option Allocation;
  flavor : Flavor
}.

Inductive NodeSpec : Type :=
| CountNodeSpec (count : Z) (flavor : Flavor)
| TypeNodeSpec (type : string).

(** *** NodePrioritizer *)

Definition isPresent {A : Type} (o : option A) : bool := negb (is_null o).

Definition ownedBy (appId : string) (node : Node) : bool :=
  match allocation node with
  | Some a => String.eqb (owner a) appId
  | None => false
  end.

Definition inCluster (clusterId : string) (node : Node) : bool :=
  match allocation node with
  | Some a => String.eqb (membership_cluster_id a) clusterId
  | None => false
  end.

(** The two stream pipelines of the constructor. *)
Definition nofFailedNodes (allNodes : list Node) (appId clusterId : string) : Z :=
  Z.of_nat (length
    (filter (inCluster clusterId)
      (filter (ownedBy appId)
        (filter (fun node => isPresent (allocation node))
          (filter (fun node => NodeState_eqb (state node) failed) allNodes))))).

Definition nofNodesInCluster (allNodes : list Node) (appId clusterId : string) : Z :=
  Z.of_nat (length
    (filter (inCluster clusterId)
      (filter (ownedBy appId)
        (filter (fun node => isPresent (allocation node)) allNodes)))).

Definition isReplacement (requestedNodes : NodeSpec)
    (nofNodesInCluster nodeFailedNodes : Z) : bool :=
  if nodeFailedNodes =? 0 then false
  else
    let wantedCount := 0 in
    let wantedCount :=
      match requestedNodes with
      | CountNodeSpec count _ => count
      | TypeNodeSpec _ => wantedCount
      end in
    nofNodesInCluster - nodeFailedNodes <? wantedCount.

(** The field [isAllocatingForReplacement] as the constructor sets it. *)
Definition isAllocatingForReplacement (allNodes : list Node) (appId clusterId : string)
    (nodeSpec : NodeSpec) : bool :=
  isReplacement nodeSpec
    (nofNodesInCluster allNodes appId clusterId)
    (nofFailedNodes allNodes appId clusterId).

(** *** ResourceCapacity *)

Record ResourceCapacity : Type := mkResourceCapacity {
  memory : Double.double;
  cpu : Double.double;
  disk : Double.double
}.

Definition ResourceCapacity_of (f : Flavor) : ResourceCapacity :=
  mkResourceCapacity (getMinMainMemoryAvailableGb f) (getMinCpuCores f)
    (getMinDiskAvailableGb f).

Definition hasCapacityFor (c : ResourceCapacity) (f : Flavor) : bool :=
  Double.geb (memory c) (getMinMainMemoryAvailableGb f) &&
  Double.geb (cpu c) (getMinCpuCores f) &&
  Double.geb (disk c) (getMinDiskAvailableGb f).

Definition freeCapacityInFlavorEquivalence (c : ResourceCapacity) (f : Flavor) : Z :=
  if negb (hasCapacityFor c f) then 0
  else
    let memoryFactor := Double.floor (Double.div (memory c) (getMinMainMemoryAvailableGb f)) in
    let cpuFactor := Double.floor (Double.div (cpu c) (getMinCpuCores f)) in
    let diskFactor := Double.floor (Double.div (disk c) (getMinDiskAvailableGb f)) in
    let aggregateFactor := Double.min memoryFactor cpuFactor in
    let aggregateFactor := Double.min aggregateFactor diskFactor in
    Double.to_int aggregateFactor.

End Provisioning.

(** ** Field-path updates (document/update/fieldpathupdate.cpp) *)

Module FieldPathUpdate.

(** [select::Result] *)
Inductive Result : Type := Invalid | False | True.

Section ApplyTo.

(** The document model, the field-path builder, the selection parser and
    the iterator handlers are outside the sources; [applyTo] uses them
    through these operations.  [iterateNested] rewrites the document and
    may change the handler; [buildFieldPath] and the parser can throw. *)
Variable Document : Type.
Variable FieldPath : Type.
Variable IteratorHandler : Type.
Variable VariableMap : Type.
Variable Node : Type.
Variable getIteratorHandler : Document -> IteratorHandler.
Variable buildFieldPath : Document -> string -> Res FieldPath.
Variable iterateNested : FieldPath -> IteratorHandler -> Document -> Document * IteratorHandler.
Variable parseDocumentSelection : string -> Document -> Res Node.
Variable contains : Node -> Document -> list (VariableMap * Result).
Variable setVariables : VariableMap -> IteratorHandler -> IteratorHandler.

Record FieldPathUpdate : Type := mkFieldPathUpdate {
  _originalFieldPath : string;
  _originalWhereClause : string
}.

(** The calls of [iterateNested], in order: the path, the handler and the
    document each was made with. *)
Definition IterationLog : Type := list (FieldPath * IteratorHandler * Document).

Definition Result_is_True (r : Result) : bool :=
  match r with True => true | _ => false end.

(** The loop over the result list of the where clause. *)
Fixpoint applyTo_results (path : FieldPath) (results : list (VariableMap * Result))
    (handler : IteratorHandler) (doc : Document) (log : IterationLog)
  : Document * IteratorHandler * IterationLog :=
  match results with
  | [] => (doc, handler, log)
  | (vars, r) :: rest =>
      if Result_is_True r then
        let handler := setVariables vars handler in
        let '(doc', handler') := iterateNested path handler doc in
        applyTo_results path rest handler' doc' (log ++ [(path, handler, doc)])
      else applyTo_results path rest handler doc log
  end.

Definition applyTo (u : FieldPathUpdate) (doc : Document)
  : Res (Document * IterationLog) :=
  let handler := getIteratorHandler doc in
  path <- buildFieldPath doc (_originalFieldPath u) ;;
  if Nat.eqb (String.length (_originalWhereClause u)) 0 then
    let '(doc', _) := iterateNested path handler doc in
    Ok (doc', [(path, handler, doc)])
  else
    whereClause <- parseDocumentSelection (_originalWhereClause u) doc ;;
    let results := contains whereClause doc in
    let '(doc', _, log) := applyTo_results path results handler doc [] in
    Ok (doc', log).

End ApplyTo.

Arguments mkFieldPathUpdate : clear implicits.
Arguments applyTo_results {Document FieldPath IteratorHandler VariableMap}.
Arguments applyTo {Document FieldPath IteratorHandler VariableMap Node}.

End FieldPathUpdate.

(** ** The vespa-get command line (vespaclient-java, CommandLineOptions.java) *)

Module VespaGet.

Definition HELP_OPTION : string := "help".
Definition PRINTIDS_OPTION : string := "printids".
Definition HEADERSONLY_OPTION : string := "headersonly".
Definition FIELDSET_OPTION : string := "fieldset".
Definition CLUSTER_OPTION : string := "cluster".
Definition ROUTE_OPTION : string := "route".
Definition CONFIGID_OPTION : string := "configid".
Definition SHOWDOCSIZE_OPTION : string := "showdocsize".
Definition TIMEOUT_OPTION : string := "timeout".
Definition NORETRY_OPTION : string := "noretry".
Definition TRACE_OPTION : string := "trace".
Definition PRIORITY_OPTION : string := "priority".
Definition LOADTYPE_OPTION : string := "loadtype".
Definition JSONOUTPUT_OPTION : string := "jsonoutput".

(** The two exceptions of the method. *)
Inductive Exception : Type :=
| ParseException (message : string)
| IllegalArgumentException (message : string).

Inductive Throws (A : Type) : Type :=
| Return (a : A)
| Throw (e : Exception).
Arguments Return {A} a.
Arguments Throw {A} e.

Definition tbind {A B : Type} (c : Throws A) (k : A -> Throws B) : Throws B :=
  match c with
  | Return a => k a
  | Throw e => Throw e
  end.

Notation "x <-- c ;;; k" := (tbind c (fun x => k))
  (at level 61, c at next level, right associativity).

(** [java.lang.Number] as commons-cli creates it: a [Long] or a [Double]. *)
Inductive Number : Type :=
| NumLong (z : Z)
| NumDouble (d : Double.double).

Definition intValue (n : Number) : Z :=
  match n with
  | NumLong z => (z + 2 ^ 31) mod 2 ^ 32 - 2 ^ 31
  | NumDouble d => Double.to_int d
  end.

Definition doubleValue (n : Number) : Double.double :=
  match n with
  | NumLong z => Double.of_Z z
  | NumDouble d => d
  end.

(** [org.apache.commons.cli.CommandLine], the result of the library's
    parser: the options that were given, each with its values, and the
    remaining arguments. *)
Record CommandLine : Type := mkCommandLine {
  options : list (string * list string);
  getArgs : list string
}.

Fixpoint findOption (opt : string) (os : list (string * list string))
  : option (list string) :=
  match os with
  | [] => None
  | (name, values) :: r => if String.eqb name opt then Some values else findOption opt r
  end.

Definition hasOption (cl : CommandLine) (opt : string) : bool :=
  negb (is_null (findOption opt (options cl))).

(** [getOptionValue(opt)]: the first value, or null. *)
Definition getOptionValue (cl : CommandLine) (opt : string) : option string :=
  match findOption opt (options cl) with
  | Some (v :: _) => Some v
  | _ => None
  end.

Definition getOptionValueOr (cl : CommandLine) (opt defaultValue : string) : string :=
  match getOptionValue cl opt with
  | Some v => v
  | None => defaultValue
  end.

Definition isEmpty (s : string) : bool := Nat.eqb (String.length s) 0.

(** The standard input is the list of its lines not yet read.  The
    document ids come from a [Scanner] on it or from an iterator over the
    positional arguments; neither reads anything when it is made, an id
    is consumed by [next]. *)
Definition InputStream : Type := list string.

Inductive DocumentIds : Type :=
| ScannerOnStdIn
| IteratorOver (ids : list string).

Definition next (it : DocumentIds) (stdIn : InputStream)
  : option (string * DocumentIds * InputStream) :=
  match it, stdIn with
  | ScannerOnStdIn, l :: rest => Some (l, ScannerOnStdIn, rest)
  | IteratorOver (i :: rest), _ => Some (i, IteratorOver rest, stdIn)
  | _, _ => None
  end.

Definition decimal (z : Z) : string :=
  DecimalString.NilZero.string_of_int (Z.to_int z).

Section Parser.

(** The library and the protocol the method is written against:
    [DefaultParser.parse] for the options of [createOptions], the
    creation of a [Number] from an option value ([TypeHandler]), and the
    priorities of the document protocol with their numeric values. *)
Variable DefaultParser_parse : list string -> Throws CommandLine.
Variable createNumber : string -> Throws Number.
Variable Priority : Type.
Variable Priority_values : list Priority.
Variable Priority_getValue : Priority -> Z.
Variable NORMAL_2 : Priority.

Record ClientParameters : Type := mkClientParameters {
  documentIds : DocumentIds;
  configId : string;
  fieldSet : string;
  help : bool;
  printIdsOnly : bool;
  loadTypeName : string;
  noRetry : bool;
  cluster : string;
  route : string;
  showDocSize : bool;
  traceLevel : Z;
  priority : Priority;
  timeout : Double.double;
  jsonOutput : bool
}.

Definition getParsedOptionValue (cl : CommandLine) (opt : string) : Throws (option Number) :=
  match getOptionValue cl opt with
  | None => Return None
  | Some res => n <-- createNumber res ;;; Return (Some n)
  end.

(** getDocumentIds; the stream is returned as the call leaves it. *)
Definition getDocumentIds (stdIn : InputStream) (cl : CommandLine)
  : DocumentIds * InputStream :=
  let documentIds := getArgs cl in
  if is_nil documentIds
     || (Nat.eqb (length documentIds) 1 && isEmpty (hd EmptyString documentIds))
  then (ScannerOnStdIn, stdIn)
  else (IteratorOver documentIds, stdIn).

Definition getTimeout (cl : CommandLine) : Throws Double.double :=
  timeoutObj <-- getParsedOptionValue cl TIMEOUT_OPTION ;;;
  Return (match timeoutObj with
          | Some n => doubleValue n
          | None => Double.of_Z 0
          end).

Definition getTrace (cl : CommandLine) : Throws Z :=
  traceObj <-- getParsedOptionValue cl TRACE_OPTION ;;;
  Return (match traceObj with
          | Some n => intValue n
          | None => 0
          end).

Fixpoint parsePriority_loop (ps : list Priority) (n : Z) : Throws Priority :=
  match ps with
  | [] => Throw (IllegalArgumentException ("Invalid priority: " ++ decimal n))
  | p :: rest => if Priority_getValue p =? n then Return p else parsePriority_loop rest n
  end.

Definition parsePriority (n : Z) : Throws Priority := parsePriority_loop Priority_values n.

Definition getPriority (cl : CommandLine) : Throws Priority :=
  priorityObj <-- getParsedOptionValue cl PRIORITY_OPTION ;;;
  let priorityNumber :=
    match priorityObj with
    | Some n => intValue n
    | None => Priority_getValue NORMAL_2
    end in
  parsePriority priorityNumber.

(** The body of the [try] block after the library has parsed [args]. *)
Definition parseCommandLine (stdIn : InputStream) (cl : CommandLine)
  : Throws ClientParameters * InputStream :=
  let printIdsOnly := hasOption cl PRINTIDS_OPTION in
  let headersOnly := hasOption cl HEADERSONLY_OPTION in
  let fieldSet := getOptionValueOr cl FIELDSET_OPTION EmptyString in
  let cluster := getOptionValueOr cl CLUSTER_OPTION EmptyString in
  let route := getOptionValueOr cl ROUTE_OPTION EmptyString in
  let configId := getOptionValueOr cl CONFIGID_OPTION EmptyString in
  let help := hasOption cl HELP_OPTION in
  let loadtype := getOptionValueOr cl LOADTYPE_OPTION EmptyString in
  let noRetry := hasOption cl NORETRY_OPTION in
  let showDocSize := hasOption cl SHOWDOCSIZE_OPTION in
  let jsonOutput := hasOption cl JSONOUTPUT_OPTION in
  match (trace <-- getTrace cl ;;;
         priority <-- getPriority cl ;;;
         timeout <-- getTimeout cl ;;;
         Return (trace, priority, timeout)) with
  | Throw e => (Throw e, stdIn)
  | Return (trace, priority, timeout) =>
  let '(documentIds, stdIn) := getDocumentIds stdIn cl in
  (if printIdsOnly && headersOnly then
    Throw (IllegalArgumentException "Print ids and headers only options are mutually exclusive.")
  else if (printIdsOnly || headersOnly) && negb (isEmpty fieldSet) then
    Throw (IllegalArgumentException
      "Field set option can not be used in combination with print ids or headers only options.")
  else
    let fieldSet :=
      if printIdsOnly then "[id]"%string
      else if headersOnly then "[header]"%string
      else if isEmpty fieldSet then "[all]"%string
      else fieldSet in
    if negb (isEmpty cluster) && negb (isEmpty route) then
      Throw (IllegalArgumentException "Cluster and route options are mutually exclusive.")
    else
      let route := if isEmpty route && isEmpty cluster then "default"%string else route in
      if (trace <? 0) || (9 <? trace) then
        Throw (IllegalArgumentException ("Invalid tracelevel: " ++ decimal trace))
      else
        let configId := if isEmpty configId then "client"%string else configId in
        Return (mkClientParameters documentIds configId fieldSet help printIdsOnly
                  loadtype noRetry cluster route showDocSize trace priority timeout
                  jsonOutput),
   stdIn)
  end.

(** parseCommandLineArguments: a [ParseException] of the block is
    rethrown as an [IllegalArgumentException] with its message. *)
Definition parseCommandLineArguments (stdIn : InputStream) (args : list string)
  : Throws ClientParameters * InputStream :=
  let '(r, stdIn) :=
    match DefaultParser_parse args with
    | Return cl => parseCommandLine stdIn cl
    | Throw e => (Throw e, stdIn)
    end in
  match r with
  | Throw (ParseException message) => (Throw (IllegalArgumentException message), stdIn)
  | r => (r, stdIn)
  end.

End Parser.

Arguments mkClientParameters {Priority}.
Arguments documentIds {Priority}.
Arguments configId {Priority}.
Arguments fieldSet {Priority}.
Arguments help {Priority}.
Arguments printIdsOnly {Priority}.
Arguments loadTypeName {Priority}.
Arguments noRetry {Priority}.
Arguments cluster {Priority}.
Arguments route {Priority}.
Arguments showDocSize {Priority}.
Arguments traceLevel {Priority}.
Arguments priority {Priority}.
Arguments timeout {Priority}.
Arguments jsonOutput {Priority}.
Arguments parsePriority {Priority}.
Arguments getPriority createNumber {Priority}.
Arguments parseCommandLine createNumber {Priority}.
Arguments parseCommandLineArguments DefaultParser_parse createNumber {Priority}.

End VespaGet.

(** ** The file-chunk engine: the packing task and the flush of the index *)

Module FileChunkTasks.
Import FileChunk.

Section InternalFlush.

(** [Chunk::pack] and the compression it applies are declared in chunk.h,
    outside the sources: a parameter, from the serial number and the chunk
    to the chunk as the call leaves it and the bytes it puts into the
    empty buffer. *)
Variable pack : Z -> Chunk -> Chunk * list byte.

(** internalFlush; the disk-footprint counter is a statistic and left out.
    A chunk id that is not in [_chunkMap] gives the null pointer, which
    [pack] is then called on. *)
Definition internalFlush (chunkId serialNum : Z) (s : WriteableFileChunk)
  : Res WriteableFileChunk :=
  active <- deref (OrderedMap.find chunkId (_chunkMap s)) "_chunkMap[chunkId].get()" ;;
  let '(active, packed) := pack serialNum active in
  let s := with_chunkMap (OrderedMap.assign chunkId active (_chunkMap s)) s in
  let payLoad := wrap32 (Z.of_nat (length packed)) in
  let buf :=
    if 1 <? _alignment s then
      let padAfter := (_alignment s - payLoad mod _alignment s) mod _alignment s in
      packed ++ repeat Byte.x00 (Z.to_nat padAfter)
    else packed in
  Ok (enque (Some (mkProcessedChunk chunkId payLoad buf)) s).

End InternalFlush.

Definition with_lastPersistedSerialNum (n : Z) (s : WriteableFileChunk) :=
  mkWFC (_serialNum s) (_frozen s) (_dataFile s) (_chunkMap s) (_pendingChunks s)
    (_nextChunkId s) (_active s) (_alignment s) (_firstChunkIdToBeWritten s)
    (_writeTaskIsRunning s) (_writeQ s) (_orderedChunks s) (_executor s) (_chunkInfo s)
    n (_addedBytes s) (writerLocals s).

(** The index file and the two byte counters of the instance, which the
    flush of the pending chunks works on: the file as the index records
    written to it, in order. *)
Record IndexFile : Type := mkIndexFile {
  _idxFile : list (ChunkMeta * list LidMeta);
  _pendingIdx : Z;
  _pendingDat : Z
}.

Section FlushPending.

(** [PendingChunk::getIdxLen], the length of the serialized index record;
    the serialization is outside the sources. *)
Variable getIdxLen : PendingChunk -> Z.

(** needFlushPendingChunks on the deque [_pendingChunks]; the sum is made
    in [uint64_t]. *)
Definition needFlushPendingChunks (pendingChunks : list PendingChunk)
    (serialNum datFileLen : Z) : Res bool :=
  match pendingChunks with
  | [] => Ok false
  | pc :: _ =>
      if serialNum <? _lastSerial pc then Ok false
      else
        let datWritten := wrap64 (_dataOffset pc + _dataLen pc) <=? datFileLen in
        if _lastSerial pc <? serialNum then
          _ <- assert datWritten "datWritten" ;;
          Ok true
        else Ok datWritten
  end.

(** The [for (;;)] loop of unconditionallyFlushPendingChunks: it leaves
    the deque, the two counters, [lastSerial] and the stream [os]. *)
Fixpoint unconditionallyFlushPendingChunks_loop (pendingChunks : list PendingChunk)
    (serialNum datFileLen : Z) (pendingIdx pendingDat lastSerial : Z)
    (os : list (ChunkMeta * list LidMeta))
  : Res (list PendingChunk * Z * Z * Z * list (ChunkMeta * list LidMeta)) :=
  match pendingChunks with
  | [] => Ok ([], pendingIdx, pendingDat, lastSerial, os)
  | pc :: rest =>
      need <- needFlushPendingChunks pendingChunks serialNum datFileLen ;;
      if negb need then Ok (pendingChunks, pendingIdx, pendingDat, lastSerial, os)
      else
        _ <- assert (getIdxLen pc <=? pendingIdx) "_pendingIdx >= pc.getIdxLen()" ;;
        _ <- assert (_dataLen pc <=? pendingDat) "_pendingDat >= pc.getDataLen()" ;;
        _ <- assert (wrap64 (_dataOffset pc + _dataLen pc) <=? datFileLen)
               "datFileLen >= pc.getDataOffset() + pc.getDataLen()" ;;
        _ <- assert (lastSerial <=? _lastSerial pc) "lastSerial <= pc.getLastSerial()" ;;
        unconditionallyFlushPendingChunks_loop rest serialNum datFileLen
          (pendingIdx - getIdxLen pc) (pendingDat - _dataLen pc) (_lastSerial pc)
          (os ++ [_idx pc])
  end.

(** File operations are taken to succeed, as for the writer; the time
    stamp the function returns is left out. *)
Definition unconditionallyFlushPendingChunks (serialNum datFileLen : Z)
    (s : WriteableFileChunk) (x : IndexFile) : Res (WriteableFileChunk * IndexFile) :=
  let lastSerial := _lastPersistedSerialNum s in
  ' (pendingChunks, pendingIdx, pendingDat, lastSerial, os) <-
    unconditionallyFlushPendingChunks_loop (_pendingChunks s) serialNum datFileLen
      (_pendingIdx x) (_pendingDat x) lastSerial [] ;;
  let s := with_pendingChunks pendingChunks s in
  let x := mkIndexFile (_idxFile x ++ os) pendingIdx pendingDat in
  let s :=
    if _lastPersistedSerialNum s <? lastSerial
    then with_lastPersistedSerialNum lastSerial s
    else s in
  Ok (s, x).

Definition flushPendingChunks (serialNum : Z) (s : WriteableFileChunk) (x : IndexFile)
  : Res (WriteableFileChunk * IndexFile) :=
  if _frozen s then Ok (s, x)
  else
    let datFileLen := Z.of_nat (length (_dataFile s)) in
    need <- needFlushPendingChunks (_pendingChunks s) serialNum datFileLen ;;
    if need then unconditionallyFlushPendingChunks serialNum datFileLen s x
    else Ok (s, x).

End FlushPending.

End FileChunkTasks.
(** ** The docsum writer: the default output class *)

Module DynamicDocsumWriter.
Import DocSummary.

Section DefaultClass.

Variable GetDocsumsState : Type.

Definition SetDefaultOutputClass (w : DynamicDocsumWriter GetDocsumsState) (classID : Z)
  : bool * DynamicDocsumWriter GetDocsumsState :=
  let resClass := LookupResultClass (_resultConfig w) classID in
  if is_null resClass
     || negb (_defaultOutputClass w =? NoClassID (_resultConfig w))
  then (false, w)
  else (true, mkDocsumWriter (_resultConfig w) classID (_numEnumValues w)
                (_classInfoTable w) (_overrideTable w)).

End DefaultClass.

Arguments SetDefaultOutputClass {GetDocsumsState}.

End DynamicDocsumWriter.

(** ** vespalib: formatting of unsigned integers (stllike/string.h) *)

From Stdlib Require DecimalPos DecimalN.

Module Vespalib.

(** The [do]/[while] loop of stringify.  It fills [digits], a buffer of 64
    characters, from the least significant digit on; [room] is what is
    left of the buffer, and [None] is a write past its end. *)
Fixpoint stringify_digits (room : nat) (number : Z) (digits : list ascii)
  : option (list ascii) :=
  match room with
  | O => None
  | S room' =>
      let digits := digits ++ [ascii_of_nat (48 + Z.to_nat (number mod 10))] in
      let number := number / 10 in
      if 0 <? number then stringify_digits room' number digits else Some digits
  end.

(** The second loop: [retval.append(digits[--numdigits])]. *)
Fixpoint stringify_append (numdigits : nat) (digits : list ascii) (retval : string)
  : string :=
  match numdigits with
  | O => retval
  | S n =>
      stringify_append n digits (retval ++ String (nth n digits Ascii.zero) EmptyString)
  end.

Definition stringify (number : Z) : option string :=
  match stringify_digits 64 number [] with
  | Some digits => Some (stringify_append (length digits) digits EmptyString)
  | None => None
  end.

End Vespalib.
(** ** ResourceCapacity: comparison of capacities *)

Module ResourceCapacity.
Import Provisioning.

(** Java's [a > b] on doubles. *)
Definition gtb (a b : Double.double) : bool := Double.ltb b a.

(** [hasCapacityFor(ResourceCapacity that)] *)
Definition hasCapacityFor (this that : ResourceCapacity) : bool :=
  Double.geb (memory this) (memory that) &&
  Double.geb (cpu this) (cpu that) &&
  Double.geb (disk this) (disk that).

Definition compare (this that : ResourceCapacity) : Z :=
  if gtb (memory this) (memory that) then 1
  else if Double.ltb (memory this) (memory that) then -1
  else if gtb (disk this) (disk that) then 1
  else if Double.ltb (disk this) (disk that) then -1
  else if gtb (cpu this) (cpu that) then 1
  else if Double.ltb (cpu this) (cpu that) then -1
  else 0.

End ResourceCapacity.

(** ** The reference attribute: clearing documents *)

Module ReferenceAttributeDocs.
Import ReferenceAttribute.

Section Docs.

(** As before, the unique store and its entry references are outside the
    sources: [EntryRef()], [EntryRef::valid], [UniqueStore::remove],
    [UniqueStore::get] and [Reference::lid] are taken as they are used.
    [getNumDocs] is the document count that the base class keeps.  The
    doc-id limits that the base class updates are not part of the
    model. *)
Variable UniqueStore : Type.
Variable EntryRef : Type.
Variable Reference : Type.
Variable EntryRef_default : EntryRef.
Variable valid : EntryRef -> bool.
Variable store_remove : EntryRef -> UniqueStore -> UniqueStore.
Variable store_get : UniqueStore -> EntryRef -> Reference.
Variable lid : Reference -> Z.
Variable getNumDocs : Z.

Definition Attribute : Type := ReferenceAttribute UniqueStore EntryRef.

(** [_indices[doc] = EntryRef(); _store.remove(oldRef);] *)
Definition clearRef (doc : Z) (oldRef : EntryRef) (a : Attribute) : Attribute :=
  mkReferenceAttribute (store_remove oldRef (_store a))
    (DocSummary.set_nth (Z.to_nat doc) EntryRef_default (_indices a))
    (_cachedUniqueStoreMemoryUsage a) (generation a).

Definition clearDoc (doc : Z) (a : Attribute) : Res (Z * Attribute) :=
  _ <- assert (doc <? Z.of_nat (length (_indices a))) "doc < _indices.size()" ;;
  oldRef <- deref (nth_error (_indices a) (Z.to_nat doc)) "_indices[doc]" ;;
  if valid oldRef then Ok (1, clearRef doc oldRef a) else Ok (0, a).

(** The [for] loop of clearDocs, with [n] rounds to go from [lid]; an
    index outside the vector is a wild read. *)
Fixpoint clearDocs_loop (n : nat) (lid : Z) (a : Attribute) : Res Attribute :=
  match n with
  | O => Ok a
  | S n' =>
      oldRef <- deref (nth_error (_indices a) (Z.to_nat lid)) "_indices[lid]" ;;
      let a := if valid oldRef then clearRef lid oldRef a else a in
      clearDocs_loop n' (lid + 1) a
  end.

Definition clearDocs (lidLow lidLimit : Z) (a : Attribute) : Res Attribute :=
  _ <- assert (lidLow <=? lidLimit) "lidLow <= lidLimit" ;;
  _ <- assert (lidLimit <=? getNumDocs) "lidLimit <= getNumDocs()" ;;
  clearDocs_loop (Z.to_nat (lidLimit - lidLow)) lidLow a.

Definition getReferencedLid (doc : Z) (a : Attribute) : Res Z :=
  _ <- assert (doc <? Z.of_nat (length (_indices a))) "doc < _indices.size()" ;;
  ref <- deref (nth_error (_indices a) (Z.to_nat doc)) "_indices[doc]" ;;
  if negb (valid ref) then Ok 0 else Ok (lid (store_get (_store a) ref)).

Definition getReference (doc : Z) (a : Attribute) : Res (option Reference) :=
  _ <- assert (doc <? Z.of_nat (length (_indices a))) "doc < _indices.size()" ;;
  ref <- deref (nth_error (_indices a) (Z.to_nat doc)) "_indices[doc]" ;;
  if negb (valid ref) then Ok None else Ok (Some (store_get (_store a) ref)).

End Docs.

Arguments clearRef {UniqueStore EntryRef}.
Arguments clearDoc {UniqueStore EntryRef}.
Arguments clearDocs_loop {UniqueStore EntryRef}.
Arguments clearDocs {UniqueStore EntryRef}.
Arguments getReferencedLid {UniqueStore EntryRef Reference}.
Arguments getReference {UniqueStore EntryRef Reference}.

End ReferenceAttributeDocs.
(** ** Specification-side definitions

    What the statements below are phrased with, defined apart from the
    code they are compared with. *)

Module Spec.

(** *** Node provisioning *)

(** The nodes allocated to the application and cluster, and the failed
    ones among them. *)
Definition allocatedTo (appId clusterId : string) (node : Provisioning.Node) : bool :=
  match Provisioning.allocation node with
  | Some a =>
      String.eqb (Provisioning.owner a) appId &&
      String.eqb (Provisioning.membership_cluster_id a) clusterId
  | None => false
  end.

Definition clusterSize (allNodes : list Provisioning.Node) (appId clusterId : string) : Z :=
  Z.of_nat (length (filter (allocatedTo appId clusterId) allNodes)).

Definition failedCount (allNodes : list Provisioning.Node) (appId clusterId : string) : Z :=
  Z.of_nat (length
    (filter (fun node =>
               Provisioning.NodeState_eqb (Provisioning.state node) Provisioning.failed
               && allocatedTo appId clusterId node)
            allNodes)).

(** The requested node count; a request by node type asks for no count. *)
Definition requestedCount (spec : Provisioning.NodeSpec) : Z :=
  match spec with
  | Provisioning.CountNodeSpec count _ => count
  | Provisioning.TypeNodeSpec _ => 0
  end.

(** *** The docsum writer *)

(** The fields of a class for which an override writer is registered, and
    those for which a generated one is. *)
Definition overridden {S : Type} (w : DocSummary.DynamicDocsumWriter S)
    (e : DocSummary.ResConfigEntry) : bool :=
  negb (is_null (DocSummary.overrideSlot w (DocSummary._enumValue e))).

Definition generated {S : Type} (w : DocSummary.DynamicDocsumWriter S)
    (e : DocSummary.ResConfigEntry) : bool :=
  match DocSummary.overrideSlot w (DocSummary._enumValue e) with
  | Some writer => DocSummary.IsGenerated writer
  | None => false
  end.

(** The writer after the configuration has registered its overrides. *)
Fixpoint overrideAll {S : Type} (w : DocSummary.DynamicDocsumWriter S)
    (ovs : list (string * DocSummary.IDocsumFieldWriter S))
  : DocSummary.DynamicDocsumWriter S :=
  match ovs with
  | [] => w
  | (fieldName, writer) :: rest =>
      overrideAll (snd (DocSummary.Override w fieldName writer)) rest
  end.

(** The calls by which the configuration sets a writer up: it registers
    override writers and may set the default output class. *)
Inductive SetupCall (S : Type) : Type :=
| CallOverride (fieldName : string) (writer : DocSummary.IDocsumFieldWriter S)
| CallSetDefaultOutputClass (classID : Z).
Arguments CallOverride {S} fieldName writer.
Arguments CallSetDefaultOutputClass {S} classID.

Fixpoint setUp {S : Type} (w : DocSummary.DynamicDocsumWriter S)
    (calls : list (SetupCall S)) : DocSummary.DynamicDocsumWriter S :=
  match calls with
  | [] => w
  | CallOverride fieldName writer :: rest =>
      setUp (snd (DocSummary.Override w fieldName writer)) rest
  | CallSetDefaultOutputClass classID :: rest =>
      setUp (snd (DynamicDocsumWriter.SetDefaultOutputClass w classID)) rest
  end.

(** The result class that a request names: the class of the id that the
    configuration gives for the class name, which is the default output
    class of the writer when it does not know the name; none when that id
    is [NoClassID] or no class has it. *)
Definition requestedClass {S : Type} (w : DocSummary.DynamicDocsumWriter S)
    (summaryClass : string) : option DocSummary.ResultClass :=
  let cfg := DocSummary._resultConfig w in
  let id := DocSummary.LookupResultClassId cfg summaryClass
              (DocSummary._defaultOutputClass w) in
  if id =? DocSummary.NoClassID cfg then None
  else match DocSummary.LookupResultClass cfg id with
       | Some (_, oC) => Some oC
       | None => None
       end.

(** The counters of a class agree with the override table. *)
Definition countsAgree {S : Type} (w : DocSummary.DynamicDocsumWriter S)
    (c : DocSummary.ResultClass) (info : DocSummary.DynamicInfo) : Prop :=
  DocSummary._overrideCnt info
    = Z.of_nat (length (filter (overridden w) (DocSummary.entries c)))
  /\ DocSummary._generateCnt info
    = Z.of_nat (length (filter (generated w) (DocSummary.entries c))).

(** No field name occurs twice in a result class. *)
Definition distinctFields (c : DocSummary.ResultClass) : Prop :=
  NoDup (map DocSummary._enumValue (DocSummary.entries c)).

(** *** The reference attribute *)

(** The test of considerCompact on a memory usage. *)
Definition compactionDue (strategy : ReferenceAttribute.CompactionStrategy)
    (usage : ReferenceAttribute.MemoryUsage) : bool :=
  (ReferenceAttribute.DEAD_BYTES_SLACK <=? ReferenceAttribute.deadBytes usage) &&
  Double.ltb
    (Double.mul (Double.of_Z (ReferenceAttribute.usedBytes usage))
       (ReferenceAttribute.getMaxDeadBytesRatio strategy))
    (Double.of_Z (ReferenceAttribute.deadBytes usage)).

(** *** Field-path updates *)

(** The variable bindings for which the where clause holds. *)
Definition trueBindings {VariableMap : Type}
    (results : list (VariableMap * FieldPathUpdate.Result)) : list VariableMap :=
  map fst (filter (fun r => FieldPathUpdate.Result_is_True (snd r)) results).

(** One iteration of the document per binding, the variables bound into
    the handler first. *)
Fixpoint iteratePerBinding {Document FieldPath IteratorHandler VariableMap : Type}
    (iterateNested : FieldPath -> IteratorHandler -> Document -> Document * IteratorHandler)
    (setVariables : VariableMap -> IteratorHandler -> IteratorHandler)
    (path : FieldPath) (bindings : list VariableMap)
    (handler : IteratorHandler) (doc : Document)
  : Document * list (FieldPath * IteratorHandler * Document) :=
  match bindings with
  | [] => (doc, [])
  | vars :: rest =>
      let bound := setVariables vars handler in
      let '(doc', handler') := iterateNested path bound doc in
      let '(final, log) :=
        iteratePerBinding iterateNested setVariables path rest handler' doc' in
      (final, (path, bound, doc) :: log)
  end.

(** *** The geo-distance writer *)

(** The coordinates of a stored position as the writer holds them. *)
Definition docX (ZCurve_decode : Z -> Z * Z) (docxy : Z) : Z :=
  Positions.to_int32 (fst (ZCurve_decode docxy)).
Definition docY (ZCurve_decode : Z -> Z * Z) (docxy : Z) : Z :=
  Positions.to_int32 (snd (ZCurve_decode docxy)).

(** The square of the planar distance between the location and a stored
    position, from the absolute coordinate differences, in the integers. *)
Definition squaredDistance (ZCurve_decode : Z -> Z * Z) (location : Positions.Location)
    (docxy : Z) : Z :=
  let dx := Z.abs (Positions.getX location - docX ZCurve_decode docxy) in
  let dy := Z.abs (Positions.getY location - docY ZCurve_decode docxy) in
  dx * dx + dy * dy.

(** [floor (sqrt (dx^2 + dy^2))] *)
Definition floorDistance (ZCurve_decode : Z -> Z * Z) (location : Positions.Location)
    (docxy : Z) : Z :=
  Z.sqrt (squaredDistance ZCurve_decode location docxy).

(** The least element of a list of integers, [d] for the empty list. *)
Definition minimum (d : Z) (l : list Z) : Z :=
  match l with
  | [] => d
  | x :: r => fold_left Z.min r x
  end.

(** The query carries a location and it parsed: the location string is
    not empty and the parsed location, already in the state or left
    there by the callback, has no parse error. *)
Definition locationOf (state : Positions.GetDocsumsState) : option Positions.Location :=
  match Positions._parsedLocation state with
  | Some loc => Some loc
  | None => Positions.callback_ParseLocation state (Positions.args_getLocation state)
  end.

Definition parsedLocation (state : Positions.GetDocsumsState)
    (location : Positions.Location) : Prop :=
  Positions.args_getLocation state <> EmptyString
  /\ locationOf state = Some location
  /\ Positions.getParseError location = None.

(** The state after insertField: the parsed location is filled in. *)
Definition withLocation (state : Positions.GetDocsumsState)
    (location : Positions.Location) : Positions.GetDocsumsState :=
  Positions.mkState (Positions.args_getLocation state) (Some location)
    (Positions.callback_ParseLocation state) (Positions.vec state).

(** The result types for which the writer inserts the distance. *)
Definition insertsDistance (type : DocSummary.ResType) (absdist : Z)
  : list DocSummary.SlimeValue :=
  match type with
  | DocSummary.RES_INT => [DocSummary.SlimeLong absdist]
  | DocSummary.RES_STRING | DocSummary.RES_LONG_STRING | DocSummary.RES_XMLSTRING =>
      [DocSummary.SlimeString (Positions.stringify absdist)]
  | DocSummary.RES_LONG_DATA | DocSummary.RES_DATA =>
      [DocSummary.SlimeData (Positions.stringify absdist)]
  | _ => []
  end.

(** *** The file-chunk engine *)

(** The instance after an append into the active chunk. *)
Definition appended (adjustSize : Z -> Z) (serialNum lid : Z)
    (buffer : list FileChunk.byte) (s : FileChunk.WriteableFileChunk)
  : FileChunk.WriteableFileChunk :=
  FileChunk.with_active (FileChunk.Chunk_append (FileChunk._active s) lid buffer)
    (FileChunk.with_addedBytes
       (FileChunk._addedBytes s + adjustSize (Z.of_nat (length buffer)))
       (FileChunk.with_serialNum serialNum s)).

(** The instance after the active chunk has been handed to the
    background writer: it is in the chunk map under its id, a task to
    pack it is with the executor, and a fresh chunk with the next id is
    active. *)
Definition rolledOver (getMaxChunkBytes : Z) (s : FileChunk.WriteableFileChunk)
  : FileChunk.WriteableFileChunk :=
  FileChunk.with_executor
    (FileChunk._executor s
     ++ [FileChunk.InternalFlush (FileChunk.getId (FileChunk._active s))
           (FileChunk._serialNum s)])
    (FileChunk.with_nextChunkId (wrap32 (FileChunk._nextChunkId s + 1))
       (FileChunk.with_active
          (FileChunk.newChunk (FileChunk._nextChunkId s) getMaxChunkBytes)
          (FileChunk.with_chunkMap
             (OrderedMap.assign (FileChunk.getId (FileChunk._active s))
                (FileChunk._active s) (FileChunk._chunkMap s))
             s))).

(** The number of instances of a flavor that fit into a capacity: the
    floor of the least of the three quotients, over the rationals. *)
Definition flavorEquivalence (memory cpu disk flavorMemory flavorCpu flavorDisk : Z) : Z :=
  Qfloor (Qmin (Qmin (inject_Z memory / inject_Z flavorMemory)
                     (inject_Z cpu / inject_Z flavorCpu))
               (inject_Z disk / inject_Z flavorDisk))%Q.

(** The value of a finite double in units of 2^-1074, the least positive
    double, so that it is an integer; nothing for NaN, the infinities and
    for a mantissa and exponent that are not those of a double.  The
    quotient of two doubles is the quotient of their units. *)
Definition units (d : Double.double) : option Z :=
  match d with
  | S754_zero _ => Some 0
  | S754_finite s m e =>
      if bounded Double.prec Double.emax m e
      then Some ((if s then - Zpos m else Zpos m) * 2 ^ (e + 1074))
      else None
  | _ => None
  end.

(** The invariant of the docsum writer: the override table has its
    declared size, every class has its counters, and they count the
    overridden and the generated fields of the class. *)
Definition writerInv {S : Type} (w : DocSummary.DynamicDocsumWriter S) : Prop :=
  length (DocSummary._overrideTable w) = Z.to_nat (DocSummary._numEnumValues w)
  /\ length (DocSummary._classInfoTable w)
     = length (DocSummary.classes (DocSummary._resultConfig w))
  /\ forall i c info,
       nth_error (DocSummary.classes (DocSummary._resultConfig w)) i = Some c ->
       nth_error (DocSummary._classInfoTable w) i = Some info ->
       distinctFields c ->
       countsAgree w c info.

(** One round of the loop of findMinDistance, as a step on the
    accumulator. *)
Definition closer (ZCurve_decode : Z -> Z * Z) (location : Positions.Location)
    (absdist docxy : Z) : Z :=
  if Positions.distance2 ZCurve_decode location docxy <? absdist
  then Positions.distance2 ZCurve_decode location docxy else absdist.

(** *** The background writer of the file-chunk engine *)

(** What the writer has put into the data file for one chunk: alignment
    padding (zero bytes, possibly none) and then the bytes of the chunk. *)
Definition segment (w : nat * FileChunk.ProcessedChunk) : list FileChunk.byte :=
  repeat Byte.x00 (fst w) ++ FileChunk._buf (snd w).

Definition written (W : list (nat * FileChunk.ProcessedChunk)) : list FileChunk.byte :=
  flat_map segment W.

(** The chunks handed to [enque] in a sequence of events, in order. *)
Fixpoint enqueued (evs : list FileChunk.Event) : FileChunk.ProcessedChunkQ :=
  match evs with
  | [] => []
  | FileChunk.EvEnque tmp :: rest => tmp :: enqueued rest
  | _ :: rest => enqueued rest
  end.

(** [x] occurs in [l] and [y] occurs later. *)
Definition before {A : Type} (x y : A) (l : list A) : Prop :=
  exists l1 l2 l3, l = l1 ++ x :: l2 ++ y :: l3.

(** The ids are [first], [first + 1], [first + 2], ... *)
Fixpoint consecutive (first : Z) (ids : list Z) : Prop :=
  match ids with
  | [] => True
  | id :: rest => id = first /\ consecutive (first + 1) rest
  end.

Definition chunkIds (W : list (nat * FileChunk.ProcessedChunk)) : list Z :=
  map (fun w => FileChunk._chunkId (snd w)) W.

(** The index records [P] describe the segments [W] one by one, in the
    same order, for a data file in which the first segment starts at
    [pos]: each record holds the offset and the length of the bytes of its
    chunk. *)
Fixpoint described (pos : Z) (W : list (nat * FileChunk.ProcessedChunk))
    (P : list FileChunk.PendingChunk) : Prop :=
  match W, P with
  | [], [] => True
  | w :: W', pc :: P' =>
      FileChunk._dataOffset pc = pos + Z.of_nat (fst w)
      /\ FileChunk._dataLen pc = wrap32 (FileChunk.getDataLen (snd w))
      /\ described (pos + Z.of_nat (fst w) + FileChunk.getDataLen (snd w)) W' P'
  | _, _ => False
  end.

(** A chunk written right after padding was handed to [enque] after the
    chunk written before it; [prev] is the chunk written last before [W]. *)
Fixpoint adjacent (E : FileChunk.ProcessedChunkQ) (prev : option FileChunk.ProcessedChunk)
    (W : list (nat * FileChunk.ProcessedChunk)) : Prop :=
  match W with
  | [] => True
  | w :: rest =>
      match prev with
      | Some p => fst w <> O -> before (Some p) (Some (snd w)) E
      | None => True
      end
      /\ adjacent E (Some (snd w)) rest
  end.

(** [_orderedChunks] as insertChunks builds it: keys ascending and not
    below [lo], a chunk under its own id, which is below the key
    [UINT32_MAX] of the null chunk. *)
Fixpoint ordered (lo : Z) (O : FileChunk.ProcessedChunkMap) : Prop :=
  match O with
  | [] => True
  | (k, v) :: rest =>
      lo <= k
      /\ match v with
         | Some c => FileChunk._chunkId c = k /\ k < UINT32_MAX
         | None => k = UINT32_MAX
         end
      /\ ordered (k + 1) rest
  end.

(** The instance before the writer has been started: nothing queued,
    nothing held back, no writer task. *)
Definition writerIdle (s : FileChunk.WriteableFileChunk) : Prop :=
  FileChunk._writeQ s = []
  /\ FileChunk._orderedChunks s = []
  /\ FileChunk._writeTaskIsRunning s = false
  /\ FileChunk.writerLocals s = None
  /\ FileChunk.takeFileWriter (FileChunk._executor s) = None
  /\ 0 <= FileChunk._firstChunkIdToBeWritten s <= UINT32_MAX.

(** Where the writer stands when the next chunk to write is [e] and [D]
    is what it has taken from the queue so far: at rest with an empty
    queue, scheduled with the executor, or between its block and its
    closing section. *)
Definition writerPhase (s : FileChunk.WriteableFileChunk) (e : Z)
    (D : FileChunk.ProcessedChunkQ) : Prop :=
  (FileChunk._writeTaskIsRunning s = false
   /\ FileChunk.takeFileWriter (FileChunk._executor s) = None
   /\ FileChunk.writerLocals s = None
   /\ FileChunk._writeQ s = []
   /\ (FileChunk._firstChunkIdToBeWritten s = e \/ In None D))
  \/ (FileChunk._writeTaskIsRunning s = true
      /\ FileChunk.writerLocals s = None
      /\ exists tasks,
           FileChunk.takeFileWriter (FileChunk._executor s) = Some (e, tasks)
           /\ FileChunk.takeFileWriter tasks = None)
  \/ (FileChunk._writeTaskIsRunning s = true
      /\ FileChunk.takeFileWriter (FileChunk._executor s) = None
      /\ exists n done,
           FileChunk.writerLocals s = Some (n, done)
           /\ (done = false -> n = e)
           /\ (done = true -> In None D)).

(** The invariant of the writer: [E] is what has been handed to [enque]
    since the instance was [s0], [D] the part of it the writer has taken
    from the queue, [W] the segments it has written, [tail] the padding
    after them, [P] the index records it has added. *)
Definition fileWriterInv (s0 : FileChunk.WriteableFileChunk)
    (E : FileChunk.ProcessedChunkQ) (s : FileChunk.WriteableFileChunk) : Prop :=
  exists (D : FileChunk.ProcessedChunkQ) (W : list (nat * FileChunk.ProcessedChunk))
         (tail : nat) (P : list FileChunk.PendingChunk),
    E = D ++ FileChunk._writeQ s
    /\ FileChunk._dataFile s
       = FileChunk._dataFile s0 ++ written W ++ repeat Byte.x00 tail
    /\ consecutive (FileChunk._firstChunkIdToBeWritten s0) (chunkIds W)
    /\ 0 <= FileChunk._firstChunkIdToBeWritten s0
    /\ FileChunk._firstChunkIdToBeWritten s0 + Z.of_nat (length W) <= UINT32_MAX
    /\ FileChunk._pendingChunks s = FileChunk._pendingChunks s0 ++ P
    /\ described (Z.of_nat (length (FileChunk._dataFile s0))) W P
    /\ ordered (FileChunk._firstChunkIdToBeWritten s0 + Z.of_nat (length W) + 1)
         (FileChunk._orderedChunks s)
    /\ (forall k v, In (k, v) (FileChunk._orderedChunks s) -> In v D)
    /\ (forall w, In w W -> In (Some (snd w)) D)
    /\ adjacent E None W
    /\ writerPhase s (FileChunk._firstChunkIdToBeWritten s0 + Z.of_nat (length W)) D.

End Spec.

(** ** Concrete instances used by the examples *)

Module Sample.

(** A configuration with one class, "default", of two fields. *)
Definition docsumConfig : DocSummary.ResultConfig :=
  DocSummary.mkResultConfig
    [DocSummary.mkResultClass 0 "default"
       [DocSummary.mkResConfigEntry DocSummary.RES_INT "distance" 0;
        DocSummary.mkResConfigEntry DocSummary.RES_STRING "title" 1]]
    4294967295
    (fun name dflt => if String.eqb name "default" then 0 else dflt)
    (fun field => if String.eqb field "distance" then 0
                  else if String.eqb field "title" then 1 else -1).

(** A generated writer that inserts a constant. *)
Definition constantWriter (v : Z) : DocSummary.IDocsumFieldWriter unit :=
  DocSummary.mkFieldWriter true (fun _ _ => false)
    (fun _ _ st _ => Ok ([DocSummary.SlimeLong v], st)).

(** A writer that copies a stored field: not generated. *)
Definition copyWriter : DocSummary.IDocsumFieldWriter unit :=
  DocSummary.mkFieldWriter false (fun _ _ => false)
    (fun _ gres st _ =>
       match gres with
       | Some (e :: _) => Ok ([DocSummary.SlimeString (DocSummary._resolved_field e)], st)
       | _ => Ok ([], st)
       end).

Definition docsumStore : DocSummary.IDocsumStore :=
  DocSummary.mkDocsumStore 0 (fun _ => "blob"%string) [].

Definition unpackBlob (c : option DocSummary.ResultClass) (blob : string)
  : option (list DocSummary.ResEntry) :=
  match c with
  | Some cl =>
      Some (map (fun _ => DocSummary.mkResEntry 7 7 (Double.of_Z 7) blob)
              (DocSummary.entries cl))
  | None => None
  end.

(** The priorities of the document protocol by their numeric values,
    0 (highest) to 15 (lowest); 6 is the normal priority that is the
    default of the option. *)
Definition priorities : list Z := [0; 1; 2; 3; 4; 5; 6; 7; 8; 9; 10; 11; 12; 13; 14; 15].

(** Numbers in decimal notation. *)
Definition createNumber (s : string) : VespaGet.Throws VespaGet.Number :=
  match DecimalString.NilEmpty.int_of_string s with
  | Some i => VespaGet.Return (VespaGet.NumLong (Z.of_int i))
  | None => VespaGet.Throw (VespaGet.ParseException "not a number")
  end.

Definition takesArgument (name : string) : bool :=
  existsb (String.eqb name)
    [VespaGet.FIELDSET_OPTION; VespaGet.CLUSTER_OPTION; VespaGet.ROUTE_OPTION;
     VespaGet.CONFIGID_OPTION; VespaGet.TIMEOUT_OPTION; VespaGet.TRACE_OPTION;
     VespaGet.PRIORITY_OPTION; VespaGet.LOADTYPE_OPTION].

Definition isFlag (name : string) : bool :=
  existsb (String.eqb name)
    [VespaGet.HELP_OPTION; VespaGet.PRINTIDS_OPTION; VespaGet.HEADERSONLY_OPTION;
     VespaGet.SHOWDOCSIZE_OPTION; VespaGet.NORETRY_OPTION; VespaGet.JSONOUTPUT_OPTION].

Definition longName (token : string) : option string :=
  match token with
  | String "-" (String "-" name) => Some name
  | _ => None
  end.

(** What the library's parser makes of an argument vector of long
    options: a flag is an option without value, an option that takes an
    argument gets the next token as its value (an empty token is a
    value), any other token is a positional argument. *)
Fixpoint parseLongOptions (args : list string) (given : list (string * list string))
    (positional : list string) : VespaGet.Throws VespaGet.CommandLine :=
  match args with
  | [] => VespaGet.Return (VespaGet.mkCommandLine given positional)
  | token :: rest =>
      match longName token with
      | Some name =>
          if isFlag name then parseLongOptions rest (given ++ [(name, [])]) positional
          else if takesArgument name then
            match rest with
            | value :: rest' =>
                parseLongOptions rest' (given ++ [(name, [value])]) positional
            | [] => VespaGet.Throw (VespaGet.ParseException "Missing argument for option")
            end
          else VespaGet.Throw (VespaGet.ParseException "Unrecognized option")
      | None => parseLongOptions rest given (positional ++ [token])
      end
  end.

Definition parse (args : list string) : VespaGet.Throws VespaGet.CommandLine :=
  parseLongOptions args [] [].

Definition parseCommandLineArguments :=
  VespaGet.parseCommandLineArguments parse createNumber priorities (fun p => p) 6.

(** The Z-curve: the bits of x at the even positions of the 64-bit code
    and the bits of y at the odd ones. *)
Fixpoint deinterleave (n : nat) (code : Z) : Z :=
  match n with
  | O => 0
  | Datatypes.S n' =>
      Z.b2z (Z.testbit code 0) + 2 * deinterleave n' (Z.shiftr code 2)
  end.

Definition zcurveDecode (code : Z) : Z * Z :=
  let code := code mod 2 ^ 64 in
  (Positions.to_int32 (deinterleave 32 code),
   Positions.to_int32 (deinterleave 32 (Z.shiftr code 1))).

Fixpoint interleave (n : nat) (x y : Z) : Z :=
  match n with
  | O => 0
  | Datatypes.S n' =>
      Z.b2z (Z.testbit x 0) + 2 * Z.b2z (Z.testbit y 0)
      + 4 * interleave n' (Z.shiftr x 1) (Z.shiftr y 1)
  end.

Definition zcurveEncode (x y : Z) : Z :=
  interleave 32 (x mod 2 ^ 32) (y mod 2 ^ 32).

(** A request state with the location string "(2,10,20,...)" parsed to
    the point (x, y), no aspect, and the positions of two documents. *)
Definition geoState (x y : Z) (positions : Z -> list Z) : Positions.GetDocsumsState :=
  Positions.mkState "(2,x,y,0,0,1,0)" None
    (fun _ => Some (Positions.mkLocation x y 0 None)) positions.

(** Modelled from the spec: [Chunk::hasRoom] is outside the sources; a
    chunk is "bounded by a byte-size budget", and the bytes fit when the
    size of the chunk with them stays within it; a chunk without entries
    takes any entry. *)
Definition hasRoom (c : FileChunk.Chunk) (len : Z) : bool :=
  FileChunk.empty c || (FileChunk.size c + len <=? FileChunk.getMaxBytes c).

(** An instance with the chunk of id 3 active and budget 4. *)
Definition fileChunk (active : FileChunk.Chunk) (nextChunkId : Z)
  : FileChunk.WriteableFileChunk :=
  FileChunk.mkWFC 10 false [] [] [] nextChunkId active 1 3 false [] [] [] [] 0 0 None.

Definition append :=
  FileChunk.append hasRoom 4194304 Z.max (fun len => len + 8) 4 0.

(** A writer at rest that expects chunk 5 next, on an empty data file,
    with byte alignment 1; the packed chunk [id] holds two bytes. *)
Definition writerStart : FileChunk.WriteableFileChunk :=
  FileChunk.mkWFC 10 false [] [] [] 8 (FileChunk.newChunk 8 4) 1 5 false [] [] [] [] 0 0 None.

Definition packed (id : Z) (b1 b2 : FileChunk.byte) : FileChunk.ProcessedChunk :=
  FileChunk.mkProcessedChunk id 2 [b1; b2].

Definition sealed (id : Z) : FileChunk.Chunk :=
  FileChunk.mkChunk id id [(id, [Byte.x61])] 4.

(** Chunks 5, 6 and 7 are rolled over; chunk 6 is packed first and the
    writer runs; then 5 and 7 arrive and the writer runs again. *)
Definition sixFirst : list FileChunk.Event :=
  [FileChunk.EvRollOver (sealed 5); FileChunk.EvRollOver (sealed 6);
   FileChunk.EvRollOver (sealed 7);
   FileChunk.EvEnque (Some (packed 6 Byte.x36 Byte.x36));
   FileChunk.EvFileWriter; FileChunk.EvFileWriterTail].

Definition thenFiveAndSeven : list FileChunk.Event :=
  [FileChunk.EvEnque (Some (packed 5 Byte.x35 Byte.x35));
   FileChunk.EvEnque (Some (packed 7 Byte.x37 Byte.x37));
   FileChunk.EvFileWriter; FileChunk.EvFileWriterTail].

End Sample.

(** ** The vocabulary of the further properties *)

Module Props.

(** *** The background writer and the index flush *)

Definition isFileWriter (t : FileChunk.Task) : bool :=
  match t with FileChunk.FileWriter _ => true | _ => false end.

(** The fileWriter runs that the executor holds. *)
Definition fileWriters (tasks : list FileChunk.Task) : nat :=
  length (filter isFileWriter tasks).

(** The fileWriter runs that are scheduled or between their block and
    their closing monitor section. *)
Definition inFlight (s : FileChunk.WriteableFileChunk) : nat :=
  (fileWriters (FileChunk._executor s)
   + match FileChunk.writerLocals s with Some _ => 1 | None => 0 end)%nat.

(** The serial numbers of the pending chunks do not decrease, starting
    from [lastSerial]. *)
Fixpoint serialsAscend (lastSerial : Z) (pending : list FileChunk.PendingChunk) : Prop :=
  match pending with
  | [] => True
  | pc :: rest =>
      lastSerial <= FileChunk._lastSerial pc
      /\ serialsAscend (FileChunk._lastSerial pc) rest
  end.

Definition total (f : FileChunk.PendingChunk -> Z) (l : list FileChunk.PendingChunk) : Z :=
  fold_right (fun pc acc => f pc + acc) 0 l.

(** The data of a pending chunk is in a data file of length [datFileLen]. *)
Definition datWritten (datFileLen : Z) (pc : FileChunk.PendingChunk) : Prop :=
  0 <= FileChunk._dataOffset pc
  /\ 0 <= FileChunk._dataLen pc
  /\ FileChunk._dataOffset pc + FileChunk._dataLen pc <= datFileLen.

(** The pending chunks that a flush up to [serialNum] persists, and the
    ones it leaves. *)
Definition upTo (serialNum : Z) (pc : FileChunk.PendingChunk) : bool :=
  FileChunk._lastSerial pc <=? serialNum.
Definition after (serialNum : Z) (pc : FileChunk.PendingChunk) : bool :=
  serialNum <? FileChunk._lastSerial pc.

(** The chunk ids in use: the active chunk has the id before
    [_nextChunkId], which is within [limit], and the chunks that wait in
    the chunk map are there under their own ids, all below the active
    one. *)
Definition chunkIdsInv (limit : Z) (s : FileChunk.WriteableFileChunk) : Prop :=
  0 <= FileChunk.getId (FileChunk._active s)
  /\ FileChunk.getId (FileChunk._active s) + 1 = FileChunk._nextChunkId s
  /\ FileChunk._nextChunkId s <= limit
  /\ forall k c, In (k, c) (FileChunk._chunkMap s) ->
                 FileChunk.getId c = k /\ 0 <= k < FileChunk.getId (FileChunk._active s).

(** The length of the data of a batch of processed chunks. *)
Definition dataLens (batch : list FileChunk.ProcessedChunk) : Z :=
  fold_right (fun c acc => FileChunk.getDataLen c + acc) 0 batch.

(** The chunk metas of a batch whose data is written from [pos] on, for
    the chunks the chunk map holds under the ids of the batch. *)
Fixpoint metasFor (chunkMap : list (Z * FileChunk.Chunk)) (pos : Z)
    (batch : list FileChunk.ProcessedChunk) : list FileChunk.ChunkMeta :=
  match batch with
  | [] => []
  | c :: rest =>
      match OrderedMap.find (FileChunk._chunkId c) chunkMap with
      | Some ch =>
          FileChunk.mkChunkMeta pos (FileChunk._payLoad c) (FileChunk.getLastSerial ch)
            (FileChunk.count ch)
          :: metasFor chunkMap (pos + FileChunk.getDataLen c) rest
      | None => []
      end
  end.

(** [_chunkInfo] after the chunks of a batch have been recorded with
    their metas, each under the id of its chunk. *)
Fixpoint recorded (info : list FileChunk.ChunkInfo) (batch : list FileChunk.ProcessedChunk)
    (metas : list FileChunk.ChunkMeta) : list FileChunk.ChunkInfo :=
  match batch, metas with
  | c :: rest, m :: metas' =>
      let id := FileChunk._chunkId c in
      let info :=
        if Z.of_nat (length info) <=? id
        then FileChunk.list_resize FileChunk.ChunkInfo_default (Z.to_nat (id + 1)) info
        else info in
      recorded
        (FileChunk.list_set (Z.to_nat id)
           (FileChunk.mkChunkInfo (FileChunk.cm_offset m) (FileChunk._payLoad c)
              (FileChunk.cm_lastSerial m)) info)
        rest metas'
  | _, _ => info
  end.

(** An instance as the constructor leaves it: chunk 0 active, 1 the next
    id, nothing waiting. *)
Definition constructed (initialSerialNum maxChunkBytes : Z) : FileChunk.WriteableFileChunk :=
  FileChunk.mkWFC initialSerialNum false [] [] [] 1 (FileChunk.newChunk 0 maxChunkBytes)
    1 0 false [] [] [] [] 0 0 None.

(** An instance with four bytes in its data file and two pending index
    records, for the chunks at offsets 0 and 2, sealed with the serial
    numbers 3 and 7. *)
Definition twoPending : FileChunk.WriteableFileChunk :=
  FileChunk.with_pendingChunks
    [FileChunk.mkPendingChunk
       (FileChunk.mkChunkMeta 0 2 3 1, [FileChunk.mkLidMeta 1 2]) 3 0 2;
     FileChunk.mkPendingChunk
       (FileChunk.mkChunkMeta 2 2 7 1, [FileChunk.mkLidMeta 2 2]) 7 2 2]
    (FileChunk.with_dataFile [Byte.x61; Byte.x61; Byte.x62; Byte.x62]
       (FileChunk.mkWFC 10 false [] [] [] 8 (FileChunk.newChunk 8 4) 1 8 false [] [] []
          [] 0 0 None)).

(** *** The reference attribute *)

(** What clearing does to one entry of [_indices]. *)
Definition cleared {EntryRef : Type} (EntryRef_default : EntryRef)
    (valid : EntryRef -> bool) (ref : EntryRef) : EntryRef :=
  if valid ref then EntryRef_default else ref.

(** The store after the valid ones of [refs] have been removed from it,
    in order. *)
Definition removeAll {UniqueStore EntryRef : Type} (valid : EntryRef -> bool)
    (store_remove : EntryRef -> UniqueStore -> UniqueStore)
    (refs : list EntryRef) (store : UniqueStore) : UniqueStore :=
  fold_left (fun st r => store_remove r st) (filter valid refs) store.

(** The entries [lidLow, lidLimit) of a vector. *)
Definition range {A : Type} (lidLow lidLimit : Z) (l : list A) : list A :=
  firstn (Z.to_nat (lidLimit - lidLow)) (skipn (Z.to_nat lidLow) l).

(** The calls of clearDoc for the lids [lid], [lid + 1], ... ([n] of them),
    and the sum of what they return. *)
Fixpoint clearEach {UniqueStore EntryRef : Type} (EntryRef_default : EntryRef)
    (valid : EntryRef -> bool) (store_remove : EntryRef -> UniqueStore -> UniqueStore)
    (n : nat) (lid : Z) (a : ReferenceAttribute.ReferenceAttribute UniqueStore EntryRef)
  : Res (Z * ReferenceAttribute.ReferenceAttribute UniqueStore EntryRef) :=
  match n with
  | O => Ok (0, a)
  | S n' =>
      ' (k, a) <- ReferenceAttributeDocs.clearDoc EntryRef_default valid store_remove lid a ;;
      ' (ks, a) <- clearEach EntryRef_default valid store_remove n' (lid + 1) a ;;
      Ok (k + ks, a)
  end.

(** *** The docsum writer *)

(** The first writer that a list of registrations gives for the field
    with enum value [v]. *)
Fixpoint firstWriter {S : Type} (cfg : DocSummary.ResultConfig)
    (ovs : list (string * DocSummary.IDocsumFieldWriter S)) (v : Z)
  : option (DocSummary.IDocsumFieldWriter S) :=
  match ovs with
  | [] => None
  | (fieldName, writer) :: rest =>
      if wrap32 (DocSummary.FieldNameEnum_Lookup cfg fieldName) =? v
      then Some writer
      else firstWriter cfg rest v
  end.

(** The fields of a docsum whose output class is the class of the
    stored blob: the stored entries, converted, under their names. *)
Definition storedFields (es : list DocSummary.ResConfigEntry)
    (gres : list DocSummary.ResEntry) : list (string * DocSummary.SlimeValue) :=
  flat_map
    (fun ce : DocSummary.ResConfigEntry * DocSummary.ResEntry =>
       DocSummary.underName (DocSummary._bindname (fst ce))
         (DocSummary.convertEntry (fst ce) (snd ce)))
    (combine es gres).

(** *** Decimal digits *)

(** The character of a decimal digit. *)
Definition digitChar (r : Z) : ascii := ascii_of_nat (48 + Z.to_nat r).

(** A decimal number of the standard library, least significant digit
    first, as the characters of its digits in that order. *)
Fixpoint charsOf (d : Decimal.uint) : list ascii :=
  match d with
  | Decimal.Nil => []
  | Decimal.D0 d => digitChar 0 :: charsOf d
  | Decimal.D1 d => digitChar 1 :: charsOf d
  | Decimal.D2 d => digitChar 2 :: charsOf d
  | Decimal.D3 d => digitChar 3 :: charsOf d
  | Decimal.D4 d => digitChar 4 :: charsOf d
  | Decimal.D5 d => digitChar 5 :: charsOf d
  | Decimal.D6 d => digitChar 6 :: charsOf d
  | Decimal.D7 d => digitChar 7 :: charsOf d
  | Decimal.D8 d => digitChar 8 :: charsOf d
  | Decimal.D9 d => digitChar 9 :: charsOf d
  end.

(** The number that a string of decimal digits denotes, if it is one. *)
Fixpoint valueOf (s : string) (acc : Z) : option Z :=
  match s with
  | EmptyString => Some acc
  | String c rest =>
      let k := Z.of_nat (nat_of_ascii c) - 48 in
      if (0 <=? k) && (k <=? 9) then valueOf rest (10 * acc + k) else None
  end.

End Props.

(** * Properties *)

(** ** Facts on binary64 arithmetic

    The value of a finite positive double is [m * 2^e]; the lemmas below
    follow the standard library's operations on mantissa and exponent. *)

Section DoubleFacts.

Lemma digits2_pos_bounds (p : positive) :
  2 ^ (Zpos (digits2_pos p) - 1) <= Zpos p < 2 ^ Zpos (digits2_pos p).
Proof.
  induction p as [p IH|p IH|]; simpl digits2_pos.
  - rewrite Pos2Z.inj_succ.
    replace (Z.succ (Zpos (digits2_pos p)) - 1) with (Z.succ (Zpos (digits2_pos p) - 1)) by lia.
    rewrite !Z.pow_succ_r by lia. lia.
  - rewrite Pos2Z.inj_succ.
    replace (Z.succ (Zpos (digits2_pos p)) - 1) with (Z.succ (Zpos (digits2_pos p) - 1)) by lia.
    rewrite !Z.pow_succ_r by lia. lia.
  - simpl. lia.
Qed.

Lemma digits2_pos_unique (p : positive) (k : Z) :
  2 ^ (k - 1) <= Zpos p < 2 ^ k -> Zpos (digits2_pos p) = k.
Proof.
  intros [Hlo Hhi]. pose proof (digits2_pos_bounds p) as [Blo Bhi].
  set (d := Zpos (digits2_pos p)) in *.
  assert (Hd : 0 < d) by (unfold d; lia).
  destruct (Z.lt_trichotomy d k) as [Hlt|[Heq|Hgt]]; [|exact Heq|].
  - assert (2 ^ d <= 2 ^ (k - 1)) by (apply Z.pow_le_mono_r; lia). lia.
  - assert (0 <= k).
    { destruct (Z.leb_spec 0 k); [assumption|].
      rewrite (Z.pow_neg_r 2 k) in Hhi by lia. lia. }
    assert (2 ^ k <= 2 ^ (d - 1)) by (apply Z.pow_le_mono_r; lia). lia.
Qed.

Lemma Pos_iter_xO (p k : positive) :
  Zpos (Pos.iter xO p k) = Zpos p * 2 ^ Zpos k.
Proof.
  induction k as [|k IH] using Pos.peano_ind.
  - simpl. lia.
  - rewrite Pos.iter_succ, Pos2Z.inj_succ, Z.pow_succ_r by lia.
    rewrite Pos2Z.inj_xO, IH. lia.
Qed.

(** *** Rounding a mantissa that has exactly 53 digits *)

Lemma loc_of_shr_record_of_loc m l :
  loc_of_shr_record (shr_record_of_loc m l) = l.
Proof. destruct l as [|[| |]]; reflexivity. Qed.

Lemma shr_m_shr_record_of_loc m l : shr_m (shr_record_of_loc m l) = m.
Proof. destruct l as [|[| |]]; reflexivity. Qed.

Lemma fexp_normal (x : Z) : -1021 <= x -> fexp 53 1024 x = x - 53.
Proof. intros H. unfold fexp, emin. lia. Qed.

Lemma shr_fexp_53 (m : positive) (e : Z) (l : location) :
  Zpos (digits2_pos m) = 53 -> -1074 <= e ->
  shr_fexp 53 1024 (Zpos m) e l = (shr_record_of_loc (Zpos m) l, e).
Proof.
  intros Hd He. unfold shr_fexp. simpl Zdigits2. rewrite Hd.
  rewrite fexp_normal by lia.
  replace (53 + e - 53 - e) with 0 by lia. reflexivity.
Qed.

(** The result of rounding is the mantissa itself, or the next one when
    the remainder is above the half, renormalised when that is 2^53. *)
Lemma binary_round_aux_53 (s : bool) (m : positive) (e : Z) (l : location) :
  Zpos (digits2_pos m) = 53 -> -1074 <= e <= 970 ->
  binary_round_aux 53 1024 s (Zpos m) e l =
  let m1 := round_nearest_even (Zpos m) l in
  if m1 <? 2 ^ 53 then S754_finite s (Z.to_pos m1) e
  else S754_finite s (Z.to_pos (2 ^ 52)) (e + 1).
Proof.
  intros Hd He. unfold binary_round_aux.
  rewrite shr_fexp_53 by lia.
  rewrite loc_of_shr_record_of_loc, shr_m_shr_record_of_loc.
  pose proof (digits2_pos_bounds m) as Bm. rewrite Hd in Bm.
  set (m1 := round_nearest_even (Zpos m) l).
  assert (Hm1 : m1 = Zpos m \/ m1 = Zpos m + 1).
  { unfold m1, round_nearest_even. destruct l as [|[| |]]; auto.
    destruct (Z.even (Zpos m)); auto. }
  cbv zeta.
  destruct (Z.ltb_spec m1 (2 ^ 53)) as [Hlt|Hge].
  - assert (Hpos : m1 = Zpos (Z.to_pos m1)) by (rewrite Z2Pos.id; lia).
    rewrite Hpos at 1.
    rewrite shr_fexp_53; [| |lia].
    + simpl shr_m. replace (e <=? 1024 - 53) with true by (symmetry; apply Z.leb_le; lia).
      reflexivity.
    + apply digits2_pos_unique. rewrite <- Hpos. lia.
  - assert (Hm1' : m1 = 2 ^ 53) by lia.
    rewrite Hm1'. change (2 ^ 53) with (Zpos (Z.to_pos (2 ^ 53))).
    unfold shr_fexp. simpl Zdigits2.
    replace (Zpos (digits2_pos (Z.to_pos (2 ^ 53)))) with 54 by reflexivity.
    rewrite fexp_normal by lia.
    replace (54 + e - 53 - e) with 1 by lia.
    simpl. replace (e + 1 <=? 971) with true by (symmetry; apply Z.leb_le; lia).
    reflexivity.
Qed.


(** *** Integers below 2^53 convert exactly *)

Lemma binary_round_exact (s : bool) (p : positive) :
  Zpos p < 2 ^ 53 ->
  let d := Zpos (digits2_pos p) in
  binary_round 53 1024 s p 0
  = S754_finite s (Z.to_pos (Zpos p * 2 ^ (53 - d))) (d - 53).
Proof.
  intros Hp d. pose proof (digits2_pos_bounds p) as Bp. fold d in Bp.
  assert (Hd : 1 <= d <= 53).
  { split; [unfold d; lia|].
    destruct (Z.leb_spec d 53); [assumption|].
    assert (2 ^ 53 <= 2 ^ (d - 1)) by (apply Z.pow_le_mono_r; lia). lia. }
  unfold binary_round.
  replace (Zpos (digits2_pos p) + 0) with d by (unfold d; lia).
  rewrite fexp_normal by lia.
  assert (Hpow : 0 < 2 ^ (53 - d)) by (apply Z.pow_pos_nonneg; lia).
  assert (Hmz : exists mz, shl_align p 0 (d - 53) = (mz, d - 53)
                           /\ Zpos mz = Zpos p * 2 ^ (53 - d)).
  { unfold shl_align. destruct (d - 53 - 0) as [|k|k] eqn:Ek; [|lia|].
    - exists p. replace (d - 53) with 0 by lia. split; [reflexivity|].
      replace (53 - d) with 0 by lia. lia.
    - exists (Pos.iter xO p k). split; [reflexivity|].
      rewrite Pos_iter_xO. f_equal. f_equal. lia. }
  destruct Hmz as (mz & -> & Hmz).
  assert (Dmz : Zpos (digits2_pos mz) = 53).
  { apply digits2_pos_unique. rewrite Hmz. split.
    - replace (53 - 1) with ((d - 1) + (53 - d)) by lia.
      rewrite Z.pow_add_r by lia. apply Z.mul_le_mono_nonneg_r; lia.
    - replace 53 with (d + (53 - d)) at 2 by lia.
      rewrite Z.pow_add_r by lia. apply Z.mul_lt_mono_pos_r; lia. }
  rewrite binary_round_aux_53 by lia.
  cbv zeta. unfold round_nearest_even.
  pose proof (digits2_pos_bounds mz) as Bmz. rewrite Dmz in Bmz.
  replace (Zpos mz <? 2 ^ 53) with true by (symmetry; apply Z.ltb_lt; lia).
  rewrite <- Hmz. reflexivity.
Qed.

Lemma of_Z_exact (p : positive) :
  Zpos p < 2 ^ 53 ->
  let d := Zpos (digits2_pos p) in
  Double.of_Z (Zpos p) = S754_finite false (Z.to_pos (Zpos p * 2 ^ (53 - d))) (d - 53).
Proof. intros Hp. exact (binary_round_exact false p Hp). Qed.

Lemma of_Z_negative (p : positive) :
  Zpos p < 2 ^ 53 ->
  let d := Zpos (digits2_pos p) in
  Double.of_Z (Zneg p) = S754_finite true (Z.to_pos (Zpos p * 2 ^ (53 - d))) (d - 53).
Proof. intros Hp. exact (binary_round_exact true p Hp). Qed.

(** *** The square root of an integer below 2^52 *)

Lemma sqrt_scaled (n T : Z) :
  0 <= n -> 0 < T ->
  Z.sqrt n * T <= Z.sqrt (n * (T * T)) < (Z.sqrt n + 1) * T.
Proof.
  intros Hn HT.
  pose proof (Z.sqrt_spec n Hn) as [Hk1 Hk2].
  assert (Hm : 0 <= n * (T * T)) by nia.
  pose proof (Z.sqrt_spec _ Hm) as [Hq1 Hq2].
  pose proof (Z.sqrt_nonneg n) as Hk0.
  pose proof (Z.sqrt_nonneg (n * (T * T))) as Hq0.
  set (k := Z.sqrt n) in *. set (q := Z.sqrt (n * (T * T))) in *.
  unfold Z.succ in *.
  split.
  - destruct (Z.le_gt_cases (k * T) q) as [H|H]; [exact H|]. exfalso.
    assert ((q + 1) * (q + 1) <= (k * T) * (k * T)) by nia. nia.
  - destruct (Z.lt_ge_cases q ((k + 1) * T)) as [H|H]; [exact H|]. exfalso.
    assert (((k + 1) * T) * ((k + 1) * T) <= q * q) by nia. nia.
Qed.

Lemma sqrt_core (p : positive) :
  let d := Zpos (digits2_pos p) in
  let t := 53 - (d + 1) / 2 in
  d <= 52 ->
  exists q r,
    SFsqrt_core_binary 53 1024 (Zpos p * 2 ^ (53 - d)) (d - 53)
    = (q, - t, if r =? 0 then loc_Exact
               else loc_Inexact (if r <=? q then Lt else Gt))
    /\ q = Z.sqrt (Zpos p * (2 ^ t * 2 ^ t))
    /\ Zpos p * (2 ^ t * 2 ^ t) = q * q + r
    /\ 0 <= r <= 2 * q
    /\ 27 <= t <= 52
    /\ 2 ^ 52 <= q < 2 ^ 53.
Proof.
  intros d t Hd52. pose proof (digits2_pos_bounds p) as Bp. fold d in Bp.
  assert (Hd1 : 1 <= d) by (unfold d; lia).
  set (c := (d + 1) / 2) in *.
  assert (Hc : 2 * c <= d + 1 <= 2 * c + 1).
  { unfold c. pose proof (Z.div_mod (d + 1) 2 ltac:(lia)).
    pose proof (Z.mod_pos_bound (d + 1) 2 ltac:(lia)). lia. }
  assert (Ht : 27 <= t <= 52) by (unfold t; lia).
  assert (Hpow : 0 < 2 ^ (53 - d)) by (apply Z.pow_pos_nonneg; lia).
  assert (HT : 0 < 2 ^ t) by (apply Z.pow_pos_nonneg; lia).
  set (mz := Zpos p * 2 ^ (53 - d)).
  assert (Hmzpos : 0 < mz) by (unfold mz; nia).
  assert (Dmz : Zdigits2 mz = 53).
  { destruct mz as [|m|m] eqn:Em; try lia. simpl.
    apply digits2_pos_unique. rewrite <- Em. unfold mz. split.
    - replace (53 - 1) with ((d - 1) + (53 - d)) by lia.
      rewrite Z.pow_add_r by lia. apply Z.mul_le_mono_nonneg_r; lia.
    - replace 53 with (d + (53 - d)) at 2 by lia.
      rewrite Z.pow_add_r by lia. apply Z.mul_lt_mono_pos_r; lia. }
  unfold SFsqrt_core_binary. rewrite Dmz, !Z.div2_div.
  replace (53 + (d - 53) + 1) with (d + 1) by lia. fold c.
  rewrite fexp_normal by lia.
  set (g := (d - 53) / 2).
  assert (Hg : 2 * g <= d - 53 <= 2 * g + 1).
  { unfold g. pose proof (Z.div_mod (d - 53) 2 ltac:(lia)).
    pose proof (Z.mod_pos_bound (d - 53) 2 ltac:(lia)). lia. }
  replace (Z.min (c - 53) g) with (- t) by (unfold t; lia).
  set (s := d - 53 - 2 * - t).
  assert (Hs : s = d + 53 - 2 * c) by (unfold s, t; lia).
  assert (Hm' : Z.shiftl mz s = Zpos p * (2 ^ t * 2 ^ t)).
  { rewrite Z.shiftl_mul_pow2 by lia. unfold mz.
    rewrite <- Z.mul_assoc, <- !Z.pow_add_r by lia. f_equal. f_equal. unfold t. lia. }
  destruct s as [|sp|sp] eqn:Es; try lia.
  rewrite Hm'.
  set (m' := Zpos p * (2 ^ t * 2 ^ t)) in *.
  assert (Hm'0 : 0 <= m') by (unfold m'; nia).
  pose proof (Z.sqrtrem_spec m' Hm'0) as Hsr.
  pose proof (Z.sqrtrem_sqrt m') as Hsq.
  destruct (Z.sqrtrem m') as [q r]. simpl in Hsq. destruct Hsr as [Hsr1 Hsr2].
  exists q, r. repeat split; try lia.
  - (* 2^52 <= q *)
    assert (Hlow : 2 ^ 104 <= m').
    { unfold m'.
      replace 104 with ((d - 1) + (105 - d)) by lia. rewrite Z.pow_add_r by lia.
      assert (2 ^ (105 - d) <= 2 ^ (t + t)) by (apply Z.pow_le_mono_r; unfold t; lia).
      assert (0 < 2 ^ (105 - d)) by (apply Z.pow_pos_nonneg; lia).
      rewrite (Z.pow_add_r 2 t t) in * by lia.
      apply Z.le_trans with (Zpos p * 2 ^ (105 - d)).
      - apply Z.mul_le_mono_nonneg_r; lia.
      - apply Z.mul_le_mono_nonneg_l; lia. }
    destruct (Z.le_gt_cases (2 ^ 52) q) as [H|H]; [exact H|]. exfalso.
    assert ((q + 1) * (q + 1) <= 2 ^ 52 * 2 ^ 52) by nia.
    change (2 ^ 52 * 2 ^ 52) with (2 ^ 104) in *. nia.
  - (* q < 2^53 *)
    assert (Hhigh : m' < 2 ^ 106).
    { unfold m'.
      replace 106 with (d + (106 - d)) by lia. rewrite Z.pow_add_r by lia.
      assert (2 ^ (t + t) <= 2 ^ (106 - d)) by (apply Z.pow_le_mono_r; unfold t; lia).
      assert (0 < 2 ^ (t + t)) by (apply Z.pow_pos_nonneg; lia).
      rewrite Z.pow_add_r in * by lia.
      apply Z.lt_le_trans with (2 ^ d * (2 ^ t * 2 ^ t)).
      - apply Zmult_lt_compat_r; lia.
      - apply Z.mul_le_mono_nonneg_l; lia. }
    destruct (Z.lt_ge_cases q (2 ^ 53)) as [H|H]; [exact H|]. exfalso.
    assert (2 ^ 53 * 2 ^ 53 <= q * q) by nia.
    change (2 ^ 53 * 2 ^ 53) with (2 ^ 106) in *. nia.
Qed.


(** The double square root of an integer below 2^52, cut to an integer,
    is the integer square root. *)
Lemma sqrt_of_Z_floor (n : Z) :
  0 <= n < 2 ^ 52 ->
  Double.to_uint64 (Double.sqrt (Double.of_Z n)) = Some (Z.sqrt n).
Proof.
  intros [Hn0 Hn]. destruct n as [|p|p]; [reflexivity| |lia].
  pose proof (digits2_pos_bounds p) as Bp.
  set (d := Zpos (digits2_pos p)) in *.
  assert (Hd : 1 <= d <= 52).
  { split; [unfold d; lia|].
    destruct (Z.leb_spec d 52); [assumption|].
    assert (2 ^ 52 <= 2 ^ (d - 1)) by (apply Z.pow_le_mono_r; lia). lia. }
  rewrite of_Z_exact by lia. fold d.
  assert (Hpow : 0 < 2 ^ (53 - d)) by (apply Z.pow_pos_nonneg; lia).
  unfold Double.sqrt, SFsqrt, Double.prec, Double.emax.
  rewrite Z2Pos.id by nia.
  destruct (sqrt_core p ltac:(fold d; lia))
    as (q & r & Hcore & Hq & Hqr & Hr & Ht & Hq53).
  fold d in Hcore, Hq, Hqr, Ht.
  set (t := 53 - (d + 1) / 2) in *.
  rewrite Hcore. clear Hcore.
  set (l := if r =? 0 then loc_Exact else loc_Inexact (if r <=? q then Lt else Gt)).
  assert (HT : 0 < 2 ^ t) by (apply Z.pow_pos_nonneg; lia).
  assert (HT27 : 2 ^ 27 <= 2 ^ t) by (apply Z.pow_le_mono_r; lia).
  pose proof (sqrt_scaled (Zpos p) (2 ^ t) ltac:(lia) HT) as Hsc.
  rewrite <- Hq in Hsc.
  set (k := Z.sqrt (Zpos p)) in *.
  assert (Hk0 : 0 <= k) by apply Z.sqrt_nonneg.
  pose proof (Z.sqrt_spec (Zpos p) ltac:(lia)) as [Hk1 Hk2]. fold k in Hk1, Hk2.
  unfold Z.succ in Hk2.
  assert (Hkb : k < 2 ^ 26).
  { destruct (Z.lt_ge_cases k (2 ^ 26)) as [H|H]; [exact H|]. exfalso.
    assert (2 ^ 26 * 2 ^ 26 <= k * k) by nia.
    change (2 ^ 26 * 2 ^ 26) with (2 ^ 52) in *. lia. }
  assert (Hqpos : q = Zpos (Z.to_pos q)) by (rewrite Z2Pos.id; lia).
  rewrite Hqpos at 1.
  rewrite binary_round_aux_53; [| |lia].
  2:{ apply digits2_pos_unique. rewrite <- Hqpos. lia. }
  rewrite <- Hqpos. cbv zeta.
  set (m1 := round_nearest_even q l).
  (* the rounded mantissa stays below the next integer *)
  assert (Hm1 : k * 2 ^ t <= m1 < (k + 1) * 2 ^ t).
  { unfold m1, l, round_nearest_even.
    destruct (Z.eqb_spec r 0) as [Hr0|Hr0]; [lia|].
    destruct (Z.leb_spec r q) as [Hle|Hgt]; [lia|].
    split; [lia|].
    destruct (Z.lt_ge_cases (q + 1) ((k + 1) * 2 ^ t)) as [H|H]; [exact H|]. exfalso.
    assert (Heq : q + 1 = (k + 1) * 2 ^ t) by lia.
    assert (Hsq : 2 ^ 27 * 2 ^ 27 <= 2 ^ t * 2 ^ t) by nia.
    change (2 ^ 27 * 2 ^ 27) with (2 ^ 54) in Hsq.
    assert (Hle53 : 2 ^ t * 2 ^ t <= q).
    { assert (Zpos p * (2 ^ t * 2 ^ t) <= (q + 1) * (q + 1) - 2 ^ t * 2 ^ t).
      { rewrite Heq. nia. }
      nia. }
    assert (2 ^ 53 < 2 ^ 54) by reflexivity. lia. }
  assert (Hm1q : q <= m1 <= q + 1).
  { unfold m1, l, round_nearest_even.
    destruct (r =? 0); [lia|]. destruct (r <=? q); lia. }
  assert (Hdiv : m1 / 2 ^ t = k).
  { symmetry. apply (Z.div_unique m1 (2 ^ t) k (m1 - k * 2 ^ t)); lia. }
  unfold Double.to_uint64, Double.trunc.
  destruct (Z.ltb_spec m1 (2 ^ 53)) as [Hlt|Hge].
  - replace (0 <=? - t) with false by (symmetry; apply Z.leb_gt; lia).
    rewrite Z2Pos.id by lia. rewrite Z.opp_involutive, Hdiv.
    replace ((0 <=? k) && (k <? 2 ^ 64)) with true; [reflexivity|].
    symmetry. apply andb_true_iff. split; [apply Z.leb_le; lia|apply Z.ltb_lt].
    assert (2 ^ 26 < 2 ^ 64) by reflexivity. lia.
  - assert (Hm153 : m1 = 2 ^ 53) by lia.
    replace (0 <=? - t + 1) with false by (symmetry; apply Z.leb_gt; lia).
    rewrite Z2Pos.id by reflexivity.
    replace (- (- t + 1)) with (t - 1) by lia.
    assert (Hk' : 2 ^ 52 / 2 ^ (t - 1) = k).
    { assert (E : 2 ^ t = 2 ^ (t - 1) * 2).
      { replace t with (t - 1 + 1) at 1 by lia.
        rewrite Z.pow_add_r by lia. reflexivity. }
      rewrite <- Hdiv, Hm153, E.
      change (2 ^ 53) with (2 ^ 52 * 2).
      rewrite Z.div_mul_cancel_r; [reflexivity| |lia].
      apply Z.pow_nonzero; lia. }
    rewrite Hk'.
    replace ((0 <=? k) && (k <? 2 ^ 64)) with true; [reflexivity|].
    symmetry. apply andb_true_iff. split; [apply Z.leb_le; lia|apply Z.ltb_lt].
    assert (2 ^ 26 < 2 ^ 64) by reflexivity. lia.
Qed.

End DoubleFacts.

(** *** Division of integers below 2^52 *)

(** A mantissa of 54 digits loses its last digit before it is rounded. *)
Lemma binary_round_aux_54 (s : bool) (p : positive) (e : Z) (l : location) :
  Zpos (digits2_pos p) = 54 -> -1074 <= e ->
  binary_round_aux 53 1024 s (Zpos p) e l =
  binary_round_aux 53 1024 s (Zpos p / 2) (e + 1)
    (loc_of_shr_record (shr_1 (shr_record_of_loc (Zpos p) l))).
Proof.
  intros Hd He.
  assert (Hfst : shr_fexp 53 1024 (Zpos p) e l
                 = (shr_1 (shr_record_of_loc (Zpos p) l), e + 1)).
  { unfold shr_fexp. simpl Zdigits2. rewrite Hd. rewrite fexp_normal by lia.
    replace (54 + e - 53 - e) with 1 by lia. reflexivity. }
  assert (Hp : exists p', Zpos p / 2 = Zpos p' /\ Zpos (digits2_pos p') = 53
                          /\ shr_m (shr_1 (shr_record_of_loc (Zpos p) l)) = Zpos p').
  { destruct p as [p'|p'|]; [| |discriminate Hd]; exists p'; simpl digits2_pos in Hd;
      (split; [|split; [lia|destruct l as [|[| |]]; reflexivity]]).
    - rewrite Pos2Z.inj_xI. symmetry. apply (Z.div_unique _ 2 _ 1); lia.
    - rewrite Pos2Z.inj_xO. symmetry. apply (Z.div_unique _ 2 _ 0); lia. }
  destruct Hp as (p' & Hhalf & Hd' & Hm).
  unfold binary_round_aux at 1 2. rewrite Hfst, Hhalf.
  rewrite shr_fexp_53 by lia.
  rewrite shr_m_shr_record_of_loc, loc_of_shr_record_of_loc, Hm. reflexivity.
Qed.

(** Rounding a quotient of 53 or 54 digits: the result has a mantissa of
    53 digits, is not below the quotient cut to the digits that are kept
    and is at most one above it. *)
Lemma round_quotient (s : bool) (q e : Z) (l : location) :
  2 ^ 52 <= q < 2 ^ 54 -> -1074 <= e <= 900 ->
  exists M E,
    binary_round_aux 53 1024 s q e l = S754_finite s M E
    /\ 2 ^ 52 <= Zpos M < 2 ^ 53
    /\ e <= E
    /\ q / 2 ^ (E - e) <= Zpos M
    /\ Zpos M * 2 ^ (E - e) <= q + 1.
Proof.
  intros Hq He.
  destruct q as [|p|p]; [lia| |lia].
  assert (Hrne : forall m l', round_nearest_even m l' = m \/ round_nearest_even m l' = m + 1).
  { intros m l'. unfold round_nearest_even. destruct l' as [|[| |]]; auto.
    destruct (Z.even m); auto. }
  assert (Hfin : forall (p2 : positive) e2 l2,
             Zpos (digits2_pos p2) = 53 -> -1074 <= e2 <= 970 ->
             exists M E,
               binary_round_aux 53 1024 s (Zpos p2) e2 l2 = S754_finite s M E
               /\ 2 ^ 52 <= Zpos M < 2 ^ 53
               /\ ((E = e2 /\ Zpos M = round_nearest_even (Zpos p2) l2)
                   \/ (E = e2 + 1 /\ Zpos M = 2 ^ 52
                       /\ round_nearest_even (Zpos p2) l2 = 2 ^ 53))).
  { intros p2 e2 l2 Hd2 He2. rewrite binary_round_aux_53 by assumption. cbv zeta.
    pose proof (digits2_pos_bounds p2) as B2. rewrite Hd2 in B2.
    change (53 - 1) with 52 in B2.
    destruct (Hrne (Zpos p2) l2) as [Hr|Hr];
      destruct (Z.ltb_spec (round_nearest_even (Zpos p2) l2) (2 ^ 53)) as [Hlt|Hge].
    - eexists _, _. split; [reflexivity|]. rewrite Z2Pos.id by lia.
      split; [lia|]. left. auto.
    - lia.
    - eexists _, _. split; [reflexivity|]. rewrite Z2Pos.id by lia.
      split; [lia|]. left. auto.
    - eexists _, _. split; [reflexivity|]. rewrite Z2Pos.id by lia.
      split; [lia|]. right. split; [reflexivity|]. split; [reflexivity|]. lia. }
  destruct (Z.ltb_spec (Zpos p) (2 ^ 53)) as [Hlt|Hge].
  - assert (Hd : Zpos (digits2_pos p) = 53) by (apply digits2_pos_unique; lia).
    destruct (Hfin p e l Hd ltac:(lia)) as (M & E & HR & HM & [[-> HV]|(-> & HV & Hr)]).
    + exists M, e. split; [exact HR|]. split; [exact HM|]. split; [lia|].
      replace (e - e) with 0 by lia. rewrite Z.pow_0_r, Z.div_1_r, Z.mul_1_r.
      destruct (Hrne (Zpos p) l); lia.
    + exists M, (e + 1). split; [exact HR|]. split; [exact HM|]. split; [lia|].
      replace (e + 1 - e) with 1 by lia. rewrite Z.pow_1_r.
      destruct (Hrne (Zpos p) l) as [H|H]; [lia|].
      split; [|lia]. apply Z.div_le_upper_bound; lia.
  - assert (Hd : Zpos (digits2_pos p) = 54) by (apply digits2_pos_unique; lia).
    rewrite binary_round_aux_54 by lia.
    set (l' := loc_of_shr_record (shr_1 (shr_record_of_loc (Zpos p) l))).
    assert (Hhalf : exists p', Zpos p / 2 = Zpos p'
                               /\ (round_nearest_even (Zpos p') l' = Zpos p'
                                   \/ (round_nearest_even (Zpos p') l' = Zpos p' + 1
                                       /\ Zpos p = 2 * Zpos p' + 1))
                               /\ 2 * Zpos p' <= Zpos p <= 2 * Zpos p' + 1).
    { destruct p as [p'|p'|]; [| |discriminate Hd]; exists p'.
      - split; [rewrite Pos2Z.inj_xI; symmetry; apply (Z.div_unique _ 2 _ 1); lia|].
        split; [|lia]. destruct (Hrne (Zpos p') l'); [left|right]; auto.
      - split; [rewrite Pos2Z.inj_xO; symmetry; apply (Z.div_unique _ 2 _ 0); lia|].
        split; [|lia]. left. unfold l'. destruct l as [|[| |]]; reflexivity. }
    destruct Hhalf as (p' & Hhalf & Hround & Hpp). rewrite Hhalf.
    assert (Hd' : Zpos (digits2_pos p') = 53) by (apply digits2_pos_unique; lia).
    destruct (Hfin p' (e + 1) l' Hd' ltac:(lia))
      as (M & E & HR & HM & [[-> HV]|(-> & HV & Hr)]).
    + exists M, (e + 1). split; [exact HR|]. split; [exact HM|]. split; [lia|].
      replace (e + 1 - e) with 1 by lia. rewrite Z.pow_1_r.
      split; [rewrite Hhalf; destruct Hround as [H|[H _]]; lia|].
      destruct Hround as [H|[H H']]; lia.
    + exists M, (e + 1 + 1). split; [exact HR|]. split; [exact HM|]. split; [lia|].
      replace (e + 1 + 1 - e) with 2 by lia. change (2 ^ 2) with 4.
      split; [apply Z.div_le_upper_bound; lia|].
      destruct Hround as [H|[H H']]; lia.
Qed.

Lemma div_core (mx my : positive) (ex ey : Z) :
  Zpos (digits2_pos mx) = 53 -> Zpos (digits2_pos my) = 53 -> -1021 <= ex - ey ->
  SFdiv_core_binary 53 1024 (Zpos mx) ex (Zpos my) ey
  = (Zpos mx * 2 ^ 53 / Zpos my, ex - ey - 53,
     new_location (Zpos my) (Zpos mx * 2 ^ 53 mod Zpos my)).
Proof.
  intros Hx Hy He. unfold SFdiv_core_binary. simpl Zdigits2. rewrite Hx, Hy.
  replace (53 + ex - (53 + ey)) with (ex - ey) by lia.
  rewrite fexp_normal by lia.
  replace (Z.min (ex - ey - 53) (ex - ey)) with (ex - ey - 53) by lia.
  replace (ex - ey - (ex - ey - 53)) with 53 by lia.
  cbv zeta. rewrite Z.shiftl_mul_pow2 by lia.
  unfold Z.div, Z.modulo.
  destruct (Z.div_eucl (Zpos mx * 2 ^ 53) (Zpos my)) as [q r]. reflexivity.
Qed.

(** The mantissa and exponent [Double.of_Z] gives an integer of [d]
    digits. *)
Lemma of_Z_mantissa (p : positive) :
  Zpos p < 2 ^ 53 ->
  let d := Zpos (digits2_pos p) in
  1 <= d <= 53
  /\ Zpos (Z.to_pos (Zpos p * 2 ^ (53 - d))) = Zpos p * 2 ^ (53 - d)
  /\ Zpos (digits2_pos (Z.to_pos (Zpos p * 2 ^ (53 - d)))) = 53.
Proof.
  intros Hp d. pose proof (digits2_pos_bounds p) as Bp. fold d in Bp.
  assert (Hd : 1 <= d <= 53).
  { split; [unfold d; lia|].
    destruct (Z.leb_spec d 53); [assumption|].
    assert (2 ^ 53 <= 2 ^ (d - 1)) by (apply Z.pow_le_mono_r; lia). lia. }
  assert (Hpow : 0 < 2 ^ (53 - d)) by (apply Z.pow_pos_nonneg; lia).
  assert (Hid : Zpos (Z.to_pos (Zpos p * 2 ^ (53 - d))) = Zpos p * 2 ^ (53 - d))
    by (rewrite Z2Pos.id; lia).
  split; [exact Hd|]. split; [exact Hid|].
  apply digits2_pos_unique. rewrite Hid. split.
  - replace (53 - 1) with ((d - 1) + (53 - d)) by lia.
    rewrite Z.pow_add_r by lia. apply Z.mul_le_mono_nonneg_r; lia.
  - replace 53 with (d + (53 - d)) at 2 by lia.
    rewrite Z.pow_add_r by lia. apply Z.mul_lt_mono_pos_r; lia.
Qed.

Lemma quotient_bounds (a b T : Z) :
  0 <= a -> 0 < b < T ->
  (a / b) * T <= a * T / b /\ a * T / b + 1 < (a / b + 1) * T.
Proof.
  intros Ha Hb.
  pose proof (Z.mul_div_le a b ltac:(lia)) as H1.
  pose proof (Z.mul_succ_div_gt a b ltac:(lia)) as H2. unfold Z.succ in H2.
  set (k := a / b) in *.
  assert (Hk : 0 <= k) by (apply Z.div_pos; lia).
  split.
  - apply Z.div_le_lower_bound; [lia|]. nia.
  - assert (a * T / b < (k + 1) * T - 1); [|lia].
    apply Z.div_lt_upper_bound; [lia|]. nia.
Qed.

Lemma rounded_quotient_floor (a b S J M : Z) :
  0 <= a -> 0 < S -> 0 < J -> 0 < b < S * J ->
  a * (S * J) / b / J <= M -> M * J <= a * (S * J) / b + 1 ->
  M / S = a / b.
Proof.
  intros Ha HS HJ Hb Hlo Hhi.
  destruct (quotient_bounds a b (S * J) Ha Hb) as [H1 H2].
  set (q := a * (S * J) / b) in *. set (k := a / b) in *.
  assert (Hk : k * S <= M).
  { apply Z.le_trans with (q / J); [|exact Hlo].
    apply Z.div_le_lower_bound; [lia|]. lia. }
  assert (Hk' : M < (k + 1) * S) by nia.
  symmetry. apply (Z.div_unique_pos M S k (M - k * S)); lia.
Qed.

Lemma rounded_quotient_small (a b T P M : Z) :
  0 <= a -> 0 < b < T -> 1 <= P ->
  M * (T * P) <= a * T / b + 1 -> M <= a / b.
Proof.
  intros Ha Hb HP Hhi.
  destruct (quotient_bounds a b T Ha Hb) as [H1 H2].
  set (q := a * T / b) in *. set (k := a / b) in *.
  assert (0 <= k) by (apply Z.div_pos; lia).
  destruct (Z.le_gt_cases M k); [assumption|].
  assert (Hm : (k + 1) * T <= M * (T * P)).
  { apply Z.mul_le_mono_nonneg; try lia.
    replace T with (T * 1) at 1 by lia. apply Z.mul_le_mono_nonneg_l; lia. }
  lia.
Qed.

(** Dividing an integer below 2^52 by a positive one and taking the floor
    gives the integer quotient: the quotient is further from the next
    integer than the rounding can move it. *)
Lemma div_of_Z_floor (a b : Z) :
  0 <= a < 2 ^ 52 -> 0 < b < 2 ^ 52 ->
  Double.floor (Double.div (Double.of_Z a) (Double.of_Z b)) = Double.of_Z (a / b).
Proof.
  intros Ha Hb.
  destruct b as [|pb|pb]; [lia| |lia].
  pose proof (of_Z_exact pb ltac:(lia)) as Eb. cbv zeta in Eb.
  destruct (of_Z_mantissa pb ltac:(lia)) as (Hdb & Hmb & Hdigb).
  pose proof (digits2_pos_bounds pb) as Bb.
  set (db := Zpos (digits2_pos pb)) in *.
  destruct a as [|pa|pa]; [|destruct Ha as [_ Ha]|lia].
  { rewrite Eb. reflexivity. }
  pose proof (of_Z_exact pa ltac:(lia)) as Ea. cbv zeta in Ea.
  destruct (of_Z_mantissa pa ltac:(lia)) as (Hda & Hma & Hdiga).
  pose proof (digits2_pos_bounds pa) as Ba.
  set (da := Zpos (digits2_pos pa)) in *.
  assert (Hda' : da <= 52).
  { destruct (Z.leb_spec da 52); [assumption|].
    assert (2 ^ 52 <= 2 ^ (da - 1)) by (apply Z.pow_le_mono_r; lia). lia. }
  rewrite Ea, Eb. unfold Double.div, SFdiv, Double.prec, Double.emax.
  rewrite div_core by (assumption || lia).
  rewrite Hma, Hmb.
  set (mx := Zpos pa * 2 ^ (53 - da)). set (my := Zpos pb * 2 ^ (53 - db)).
  pose proof (digits2_pos_bounds (Z.to_pos (Zpos pa * 2 ^ (53 - da)))) as Bx.
  pose proof (digits2_pos_bounds (Z.to_pos (Zpos pb * 2 ^ (53 - db)))) as By.
  rewrite Hdiga, Hma in Bx. rewrite Hdigb, Hmb in By.
  fold mx in Bx. fold my in By. change (53 - 1) with 52 in Bx, By.
  set (q := mx * 2 ^ 53 / my).
  assert (Hq : 2 ^ 52 <= q < 2 ^ 54).
  { unfold q. split.
    - apply Z.div_le_lower_bound; [lia|].
      apply Z.le_trans with (2 ^ 53 * 2 ^ 52).
      + apply Z.mul_le_mono_nonneg_r; lia.
      + rewrite Z.mul_comm. apply Z.mul_le_mono_nonneg_r; lia.
    - apply Z.div_lt_upper_bound; [lia|].
      apply Z.lt_le_trans with (2 ^ 53 * 2 ^ 53); [apply Z.mul_lt_mono_pos_r; lia|].
      apply Z.le_trans with (2 ^ 52 * 2 ^ 54); [vm_compute; discriminate|].
      apply Z.mul_le_mono_nonneg_r; lia. }
  set (e := da - 53 - (db - 53) - 53).
  destruct (round_quotient (xorb false false) q e
              (new_location my (mx * 2 ^ 53 mod my)) Hq ltac:(unfold e; lia))
    as (M & E & HR & HM & HE & Hlo & Hhi).
  rewrite HR. simpl xorb.
  set (T := 2 ^ (53 + db - da)).
  assert (HT : Zpos pb < T).
  { apply Z.lt_le_trans with (2 ^ db); [lia|]. apply Z.pow_le_mono_r; lia. }
  assert (HqT : q = Zpos pa * T / Zpos pb).
  { unfold q, mx, my, T.
    replace (Zpos pa * 2 ^ (53 - da) * 2 ^ 53)
      with (Zpos pa * 2 ^ (53 + db - da) * 2 ^ (53 - db)).
    - apply Z.div_mul_cancel_r; [lia|]. apply Z.pow_nonzero; lia.
    - rewrite <- !Z.mul_assoc. f_equal. rewrite <- !Z.pow_add_r by lia. f_equal. lia. }
  assert (Hk : Zpos pa / Zpos pb < 2 ^ 52).
  { apply Z.le_lt_trans with (Zpos pa); [|lia]. apply Z.div_le_upper_bound; [lia|]. nia. }
  unfold Double.floor.
  destruct (Z.leb_spec 0 E) as [HE0|HE0].
  - exfalso.
    assert (HJ : 2 ^ (E - e) = T * 2 ^ E).
    { unfold T, e. rewrite <- Z.pow_add_r by lia. f_equal. lia. }
    rewrite HJ, HqT in Hhi.
    assert (1 <= 2 ^ E) by (pose proof (Z.pow_pos_nonneg 2 E); lia).
    pose proof (rounded_quotient_small (Zpos pa) (Zpos pb) T (2 ^ E) (Zpos M)
                  ltac:(lia) ltac:(lia) ltac:(lia) Hhi).
    lia.
  - unfold Double.of_Z. f_equal.
    assert (HJ : T = 2 ^ (- E) * 2 ^ (E - e)).
    { unfold T, e. rewrite <- Z.pow_add_r by lia. f_equal. lia. }
    apply (rounded_quotient_floor (Zpos pa) (Zpos pb) (2 ^ (- E)) (2 ^ (E - e)) (Zpos M)).
    + lia.
    + apply Z.pow_pos_nonneg; lia.
    + apply Z.pow_pos_nonneg; lia.
    + rewrite <- HJ. lia.
    + rewrite <- HJ, <- HqT. exact Hlo.
    + rewrite <- HJ, <- HqT. exact Hhi.
Qed.

(** *** Order, minimum and conversion to int on integers below 2^53 *)

Lemma compare_of_Z (a b : Z) :
  0 <= a < 2 ^ 53 -> 0 <= b < 2 ^ 53 ->
  SFcompare (Double.of_Z a) (Double.of_Z b) = Some (a ?= b).
Proof.
  intros Ha Hb.
  destruct a as [|pa|pa]; [| |lia]; destruct b as [|pb|pb]; try lia.
  - reflexivity.
  - rewrite (of_Z_exact pb) by lia. reflexivity.
  - rewrite (of_Z_exact pa) by lia. reflexivity.
  - rewrite (of_Z_exact pa), (of_Z_exact pb) by lia. cbv zeta.
    destruct (of_Z_mantissa pa ltac:(lia)) as (Hda & Hma & _).
    destruct (of_Z_mantissa pb ltac:(lia)) as (Hdb & Hmb & _).
    pose proof (digits2_pos_bounds pa) as Ba.
    pose proof (digits2_pos_bounds pb) as Bb.
    set (da := Zpos (digits2_pos pa)) in *. set (db := Zpos (digits2_pos pb)) in *.
    unfold SFcompare. f_equal.
    destruct (Z.compare_spec da db) as [Heq|Hlt|Hgt].
    + rewrite Heq, Z.compare_refl.
      change (Pos.compare_cont Eq ?x ?y) with (Pos.compare x y).
      rewrite Heq in Hma.
      rewrite (Pos2Z.inj_compare (Z.to_pos (Zpos pa * 2 ^ (53 - db)))), Hma, Hmb.
      assert (Hpow : 0 < 2 ^ (53 - db)) by (apply Z.pow_pos_nonneg; lia).
      destruct (Z.compare_spec (Zpos pa) (Zpos pb)) as [He|Hl|Hg].
      * rewrite He. apply Z.compare_refl.
      * apply Z.compare_lt_iff. apply Z.mul_lt_mono_pos_r; assumption.
      * apply Z.compare_gt_iff. apply Z.mul_lt_mono_pos_r; assumption.
    + replace (da - 53 ?= db - 53) with Lt by (symmetry; apply Z.compare_lt_iff; lia).
      symmetry. apply Z.compare_lt_iff.
      apply Z.lt_le_trans with (2 ^ da); [lia|].
      apply Z.le_trans with (2 ^ (db - 1)); [apply Z.pow_le_mono_r; lia|lia].
    + replace (da - 53 ?= db - 53) with Gt by (symmetry; apply Z.compare_gt_iff; lia).
      symmetry. apply Z.compare_gt_iff.
      apply Z.lt_le_trans with (2 ^ db); [lia|].
      apply Z.le_trans with (2 ^ (da - 1)); [apply Z.pow_le_mono_r; lia|lia].
Qed.

Lemma geb_of_Z (a b : Z) :
  - 2 ^ 53 < a < 2 ^ 53 -> 0 < b < 2 ^ 53 ->
  Double.geb (Double.of_Z a) (Double.of_Z b) = (b <=? a).
Proof.
  intros Ha Hb. unfold Double.geb, SFleb.
  destruct (Z.lt_ge_cases a 0) as [Hneg|Hpos].
  - destruct a as [|pa|pa]; try lia. destruct b as [|pb|pb]; try lia.
    rewrite (of_Z_exact pb), (of_Z_negative pa) by lia. cbv zeta. simpl.
    symmetry. apply Z.leb_gt. lia.
  - rewrite compare_of_Z by lia.
    destruct (Z.compare_spec b a); symmetry;
      [apply Z.leb_le|apply Z.leb_le|apply Z.leb_gt]; lia.
Qed.

Lemma min_of_Z (x y : Z) :
  0 <= x < 2 ^ 53 -> 0 <= y < 2 ^ 53 ->
  Double.min (Double.of_Z x) (Double.of_Z y) = Double.of_Z (Z.min x y).
Proof.
  intros Hx Hy. unfold Double.min, Double.leb, SFleb.
  rewrite compare_of_Z by lia.
  assert (Hnan : Double.is_nan (Double.of_Z x) = false).
  { destruct x as [|px|px]; [reflexivity| |lia]. rewrite of_Z_exact by lia. reflexivity. }
  assert (Hneg : match Double.of_Z y with S754_zero true => true | _ => false end = false).
  { destruct y as [|py|py]; [reflexivity| |lia]. rewrite of_Z_exact by lia. reflexivity. }
  rewrite Hnan, Hneg, andb_false_r.
  destruct (Z.compare_spec x y); f_equal; lia.
Qed.

Lemma to_int_of_Z (k : Z) :
  0 <= k < 2 ^ 53 -> Double.to_int (Double.of_Z k) = Z.min (2 ^ 31 - 1) k.
Proof.
  intros Hk. destruct k as [|p|p]; [reflexivity| |lia].
  rewrite of_Z_exact by lia. cbv zeta.
  destruct (of_Z_mantissa p ltac:(lia)) as (Hd & Hm & _).
  set (d := Zpos (digits2_pos p)) in *.
  unfold Double.to_int, Double.trunc. rewrite Hm.
  assert (Hmag : (if 0 <=? d - 53 then Zpos p * 2 ^ (53 - d) * 2 ^ (d - 53)
                  else Zpos p * 2 ^ (53 - d) / 2 ^ (- (d - 53))) = Zpos p).
  { destruct (Z.leb_spec 0 (d - 53)).
    - replace d with 53 by lia. simpl. lia.
    - replace (- (d - 53)) with (53 - d) by lia.
      apply Z.div_mul. apply Z.pow_nonzero; lia. }
  rewrite Hmag. lia.
Qed.

(** *** Doubles in general: mantissa, exponent, order and quotient *)

Lemma bounded_spec (m : positive) (e : Z) :
  bounded 53 1024 m e = true ->
  -1074 <= e <= 971 /\ Zpos (digits2_pos m) <= 53
  /\ (Zpos (digits2_pos m) = 53 \/ e = -1074).
Proof.
  unfold bounded, canonical_mantissa, fexp, emin. intros H.
  apply andb_prop in H. destruct H as [Hc He].
  apply Z.eqb_eq in Hc. apply Z.leb_le in He.
  pose proof (Pos2Z.is_pos (digits2_pos m)). lia.
Qed.

Lemma units_finite (s : bool) (m : positive) (e u : Z) :
  Spec.units (S754_finite s m e) = Some u ->
  bounded 53 1024 m e = true
  /\ u = (if s then - Zpos m else Zpos m) * 2 ^ (e + 1074).
Proof.
  unfold Spec.units, Double.prec, Double.emax.
  destruct (bounded 53 1024 m e); [|discriminate].
  intros H. injection H as <-. auto.
Qed.

(** The order of two positive doubles is the order of their values. *)
Lemma compare_bounded (m1 m2 : positive) (e1 e2 : Z) :
  bounded 53 1024 m1 e1 = true -> bounded 53 1024 m2 e2 = true ->
  match e1 ?= e2 with
  | Eq => Pos.compare_cont Eq m1 m2
  | Lt => Lt
  | Gt => Gt
  end
  = (Zpos m1 * 2 ^ (e1 + 1074) ?= Zpos m2 * 2 ^ (e2 + 1074)).
Proof.
  intros B1 B2.
  destruct (bounded_spec m1 e1 B1) as (He1 & Hd1 & Hn1).
  destruct (bounded_spec m2 e2 B2) as (He2 & Hd2 & Hn2).
  pose proof (digits2_pos_bounds m1) as D1. pose proof (digits2_pos_bounds m2) as D2.
  assert (Hup : forall (m : positive), Zpos (digits2_pos m) <= 53 -> Zpos m < 2 ^ 53).
  { intros m Hd. pose proof (digits2_pos_bounds m) as [_ Hm].
    apply Z.lt_le_trans with (2 ^ Zpos (digits2_pos m)); [exact Hm|].
    apply Z.pow_le_mono_r; lia. }
  assert (Hlt : forall (ma mb : positive) ea eb,
             Zpos ma < 2 ^ 53 -> 2 ^ 52 <= Zpos mb -> -1074 <= ea < eb ->
             Zpos ma * 2 ^ (ea + 1074) < Zpos mb * 2 ^ (eb + 1074)).
  { intros ma mb ea eb Ha Hb Hab.
    assert (0 < 2 ^ (ea + 1074)) by (apply Z.pow_pos_nonneg; lia).
    assert (2 ^ (ea + 1075) <= 2 ^ (eb + 1074)) by (apply Z.pow_le_mono_r; lia).
    assert (E : 2 ^ (ea + 1075) = 2 * 2 ^ (ea + 1074)).
    { replace (ea + 1075) with (Z.succ (ea + 1074)) by lia.
      apply Z.pow_succ_r. lia. }
    apply Z.lt_le_trans with (2 ^ 52 * 2 ^ (ea + 1075)).
    - rewrite E. change (2 ^ 53) with (2 ^ 52 * 2) in Ha. nia.
    - apply Z.mul_le_mono_nonneg; lia. }
  destruct (Z.compare_spec e1 e2) as [Heq|Hl|Hg].
  - subst e2. change (Pos.compare_cont Eq m1 m2) with (Zpos m1 ?= Zpos m2).
    assert (0 < 2 ^ (e1 + 1074)) by (apply Z.pow_pos_nonneg; lia).
    destruct (Z.compare_spec (Zpos m1) (Zpos m2)) as [E|E|E]; symmetry.
    + apply Z.compare_eq_iff. rewrite E. reflexivity.
    + apply Z.compare_lt_iff. nia.
    + apply Z.compare_gt_iff. nia.
  - symmetry. apply Z.compare_lt_iff. apply Hlt; [apply Hup; lia| |lia].
    destruct Hn2 as [Hn2|Hn2]; [|lia]. rewrite Hn2 in D2. exact (proj1 D2).
  - symmetry. apply Z.compare_gt_iff. apply Hlt; [apply Hup; lia| |lia].
    destruct Hn1 as [Hn1|Hn1]; [|lia]. rewrite Hn1 in D1. exact (proj1 D1).
Qed.

Lemma compare_units (x y : Double.double) (ux uy : Z) :
  Spec.units x = Some ux -> Spec.units y = Some uy ->
  SFcompare x y = Some (ux ?= uy).
Proof.
  intros Hx Hy.
  destruct x as [sx| | |sx mx ex]; try discriminate;
    destruct y as [sy| | |sy my ey]; try discriminate.
  - injection Hx as <-. injection Hy as <-. reflexivity.
  - injection Hx as <-. destruct (units_finite _ _ _ _ Hy) as [By ->].
    assert (0 < 2 ^ (ey + 1074)).
    { apply Z.pow_pos_nonneg; [lia|]. destruct (bounded_spec _ _ By). lia. }
    unfold SFcompare. f_equal. destruct sy; symmetry;
      [apply Z.compare_gt_iff|apply Z.compare_lt_iff]; nia.
  - injection Hy as <-. destruct (units_finite _ _ _ _ Hx) as [Bx ->].
    assert (0 < 2 ^ (ex + 1074)).
    { apply Z.pow_pos_nonneg; [lia|]. destruct (bounded_spec _ _ Bx). lia. }
    unfold SFcompare. f_equal. destruct sx; symmetry;
      [apply Z.compare_lt_iff|apply Z.compare_gt_iff]; nia.
  - destruct (units_finite _ _ _ _ Hx) as [Bx ->].
    destruct (units_finite _ _ _ _ Hy) as [By ->].
    assert (0 < 2 ^ (ex + 1074)).
    { apply Z.pow_pos_nonneg; [lia|]. destruct (bounded_spec _ _ Bx). lia. }
    assert (0 < 2 ^ (ey + 1074)).
    { apply Z.pow_pos_nonneg; [lia|]. destruct (bounded_spec _ _ By). lia. }
    unfold SFcompare. f_equal.
    pose proof (compare_bounded mx my ex ey Bx By) as Hc.
    destruct sx, sy.
    + transitivity (CompOpp (Zpos mx * 2 ^ (ex + 1074) ?= Zpos my * 2 ^ (ey + 1074))).
      * rewrite <- Hc. destruct (ex ?= ey); reflexivity.
      * rewrite !Z.mul_opp_l, Z.compare_opp. symmetry. apply Z.compare_antisym.
    + symmetry. apply Z.compare_lt_iff. nia.
    + symmetry. apply Z.compare_gt_iff. nia.
    + exact Hc.
Qed.

Lemma leb_units (x y : Double.double) (ux uy : Z) :
  Spec.units x = Some ux -> Spec.units y = Some uy ->
  SFleb x y = (ux <=? uy).
Proof.
  intros Hx Hy. unfold SFleb. rewrite (compare_units x y ux uy Hx Hy).
  unfold Z.leb. destruct (ux ?= uy); reflexivity.
Qed.

(** The division of a double by a smaller positive one: the quotient of
    the mantissas has 53 or 54 digits. *)
Lemma div_core_ge (mx my : positive) (ex ey : Z) :
  bounded 53 1024 mx ex = true -> bounded 53 1024 my ey = true ->
  Zpos my * 2 ^ (ey + 1074) <= Zpos mx * 2 ^ (ex + 1074) ->
  let s := 53 - Zpos (digits2_pos mx) + Zpos (digits2_pos my) in
  SFdiv_core_binary 53 1024 (Zpos mx) ex (Zpos my) ey
  = (Zpos mx * 2 ^ s / Zpos my, ex - ey - s,
     new_location (Zpos my) (Zpos mx * 2 ^ s mod Zpos my))
  /\ 2 ^ 52 <= Zpos mx * 2 ^ s / Zpos my < 2 ^ 54
  /\ 1 <= s
  /\ -53 <= ex - ey - s.
Proof.
  intros Bx By Hle s.
  destruct (bounded_spec mx ex Bx) as (Hex & Hdx & _).
  destruct (bounded_spec my ey By) as (Hey & Hdy & _).
  pose proof (digits2_pos_bounds mx) as Dx. pose proof (digits2_pos_bounds my) as Dy.
  set (dx := Zpos (digits2_pos mx)) in *. set (dy := Zpos (digits2_pos my)) in *.
  assert (Hdx1 : 1 <= dx) by (unfold dx; lia).
  assert (Hdy1 : 1 <= dy) by (unfold dy; lia).
  assert (Hs : 1 <= s) by (unfold s; lia).
  assert (HE : 0 <= dx + ex - (dy + ey)).
  { assert (H1 : 2 ^ (dy - 1 + (ey + 1074)) <= Zpos my * 2 ^ (ey + 1074)).
    { rewrite Z.pow_add_r by lia. apply Z.mul_le_mono_nonneg_r; [|lia].
      apply Z.pow_nonneg; lia. }
    assert (H2 : Zpos mx * 2 ^ (ex + 1074) < 2 ^ (dx + (ex + 1074))).
    { rewrite (Z.pow_add_r 2 dx (ex + 1074)) by lia.
      apply Z.mul_lt_mono_pos_r; [|lia].
      apply Z.pow_pos_nonneg; lia. }
    assert (H3 : 2 ^ (dy - 1 + (ey + 1074)) < 2 ^ (dx + (ex + 1074))) by lia.
    apply Z.pow_lt_mono_r_iff in H3; lia. }
  split; [|split; [|split; [exact Hs|unfold s; lia]]].
  - unfold SFdiv_core_binary. simpl Zdigits2. fold dx dy.
    rewrite fexp_normal by lia.
    replace (Z.min (dx + ex - (dy + ey) - 53) (ex - ey)) with (ex - ey - s)
      by (unfold s; lia).
    replace (ex - ey - (ex - ey - s)) with s by lia.
    cbv zeta. destruct s as [|ps|ps] eqn:Es; [lia| |lia].
    rewrite Z.shiftl_mul_pow2 by lia.
    unfold Z.div, Z.modulo.
    destruct (Z.div_eucl (Zpos mx * 2 ^ Zpos ps) (Zpos my)) as [q r]. reflexivity.
  - assert (Hlo : 2 ^ (52 + dy) <= Zpos mx * 2 ^ s).
    { replace (52 + dy) with (dx - 1 + s) by (unfold s; lia).
      rewrite Z.pow_add_r by lia. apply Z.mul_le_mono_nonneg_r; [|lia].
      apply Z.pow_nonneg; lia. }
    assert (Hhi : Zpos mx * 2 ^ s < 2 ^ (53 + dy)).
    { replace (53 + dy) with (dx + s) by (unfold s; lia).
      rewrite Z.pow_add_r by lia. apply Z.mul_lt_mono_pos_r; [|lia].
      apply Z.pow_pos_nonneg; lia. }
    split.
    + apply Z.div_le_lower_bound; [lia|].
      apply Z.le_trans with (2 ^ (52 + dy)); [|exact Hlo].
      rewrite Z.pow_add_r by lia. lia.
    + apply Z.div_lt_upper_bound; [lia|].
      apply Z.lt_le_trans with (2 ^ (53 + dy)); [exact Hhi|].
      replace (53 + dy) with (dy - 1 + 54) by lia.
      rewrite Z.pow_add_r by lia. lia.
Qed.

(** The floor of the quotient of the values, from the quotient of the
    mantissas. *)
Lemma quotient_units (mx my a b s : Z) :
  0 < mx -> 0 < my -> 0 <= a -> 0 <= b -> 0 <= s ->
  let q := mx * 2 ^ s / my in
  let e := a - b - s in
  (e <= 0 -> mx * 2 ^ a / (my * 2 ^ b) = q / 2 ^ (- e))
  /\ (0 < e -> q * 2 ^ e <= mx * 2 ^ a / (my * 2 ^ b)).
Proof.
  intros Hmx Hmy Ha Hb Hs q e. split.
  - intros He. unfold q.
    rewrite Z.div_div by (try apply Z.pow_pos_nonneg; lia).
    destruct (Z.le_ge_cases a s) as [Has|Has].
    + rewrite <- (Z.div_mul_cancel_r (mx * 2 ^ a) (my * 2 ^ b) (2 ^ (s - a)));
        [| |apply Z.pow_nonzero; lia].
      2:{ assert (0 < 2 ^ b) by (apply Z.pow_pos_nonneg; lia). nia. }
      f_equal.
      * rewrite <- Z.mul_assoc, <- Z.pow_add_r by lia. f_equal. f_equal. lia.
      * rewrite <- Z.mul_assoc, <- Z.pow_add_r by lia. f_equal. f_equal. unfold e. lia.
    + rewrite <- (Z.div_mul_cancel_r (mx * 2 ^ s) (my * 2 ^ (- e)) (2 ^ (a - s)));
        [| |apply Z.pow_nonzero; lia].
      2:{ assert (0 < 2 ^ (- e)) by (apply Z.pow_pos_nonneg; lia). nia. }
      f_equal.
      * rewrite <- Z.mul_assoc, <- Z.pow_add_r by lia. f_equal. f_equal. lia.
      * rewrite <- Z.mul_assoc, <- Z.pow_add_r by lia. f_equal. f_equal. unfold e. lia.
  - intros He.
    assert (E : mx * 2 ^ a = mx * 2 ^ s * 2 ^ e * 2 ^ b).
    { rewrite <- !Z.mul_assoc, <- !Z.pow_add_r by lia. f_equal. f_equal. unfold e. lia. }
    rewrite E, Z.div_mul_cancel_r; [|lia|apply Z.pow_nonzero; lia].
    unfold q. rewrite (Z.mul_comm (mx * 2 ^ s / my)), (Z.mul_comm (mx * 2 ^ s)).
    apply Z.div_mul_le; [|lia|].
    + assert (0 < 2 ^ s) by (apply Z.pow_pos_nonneg; lia). nia.
    + apply Z.pow_nonneg. lia.
Qed.

(** Rounding a mantissa of 53 digits at any exponent: past the largest
    exponent the result is an infinity. *)
Lemma binary_round_aux_53_any (s : bool) (m : positive) (e : Z) (l : location) :
  Zpos (digits2_pos m) = 53 -> -1074 <= e ->
  binary_round_aux 53 1024 s (Zpos m) e l =
  let m1 := round_nearest_even (Zpos m) l in
  if m1 <? 2 ^ 53
  then (if e <=? 971 then S754_finite s (Z.to_pos m1) e else S754_infinity s)
  else (if e + 1 <=? 971 then S754_finite s (Z.to_pos (2 ^ 52)) (e + 1)
        else S754_infinity s).
Proof.
  intros Hd He. unfold binary_round_aux.
  rewrite shr_fexp_53 by lia.
  rewrite loc_of_shr_record_of_loc, shr_m_shr_record_of_loc.
  pose proof (digits2_pos_bounds m) as Bm. rewrite Hd in Bm.
  set (m1 := round_nearest_even (Zpos m) l).
  assert (Hm1 : m1 = Zpos m \/ m1 = Zpos m + 1).
  { unfold m1, round_nearest_even. destruct l as [|[| |]]; auto.
    destruct (Z.even (Zpos m)); auto. }
  cbv zeta.
  destruct (Z.ltb_spec m1 (2 ^ 53)) as [Hlt|Hge].
  - assert (Hpos : m1 = Zpos (Z.to_pos m1)) by (rewrite Z2Pos.id; lia).
    rewrite Hpos at 1.
    rewrite shr_fexp_53; [| |lia].
    + simpl shr_m. reflexivity.
    + apply digits2_pos_unique. rewrite <- Hpos. lia.
  - assert (Hm1' : m1 = 2 ^ 53) by lia.
    rewrite Hm1'. change (2 ^ 53) with (Zpos (Z.to_pos (2 ^ 53))).
    unfold shr_fexp. simpl Zdigits2.
    replace (Zpos (digits2_pos (Z.to_pos (2 ^ 53)))) with 54 by reflexivity.
    rewrite fexp_normal by lia.
    replace (54 + e - 53 - e) with 1 by lia.
    simpl. reflexivity.
Qed.

Lemma round_quotient_large (s : bool) (q e : Z) (l : location) :
  2 ^ 52 <= q < 2 ^ 54 -> 0 < e ->
  binary_round_aux 53 1024 s q e l = S754_infinity s
  \/ exists M E,
       binary_round_aux 53 1024 s q e l = S754_finite s M E
       /\ 2 ^ 52 <= Zpos M < 2 ^ 53 /\ e <= E.
Proof.
  intros Hq He.
  destruct q as [|p|p]; [lia| |lia].
  assert (Hrne : forall m l', round_nearest_even m l' = m \/ round_nearest_even m l' = m + 1).
  { intros m l'. unfold round_nearest_even. destruct l' as [|[| |]]; auto.
    destruct (Z.even m); auto. }
  assert (Hfin : forall (p2 : positive) e2 l2,
             Zpos (digits2_pos p2) = 53 -> 0 < e2 ->
             binary_round_aux 53 1024 s (Zpos p2) e2 l2 = S754_infinity s
             \/ exists M E,
                  binary_round_aux 53 1024 s (Zpos p2) e2 l2 = S754_finite s M E
                  /\ 2 ^ 52 <= Zpos M < 2 ^ 53 /\ e2 <= E).
  { intros p2 e2 l2 Hd2 He2. rewrite binary_round_aux_53_any by lia. cbv zeta.
    pose proof (digits2_pos_bounds p2) as B2. rewrite Hd2 in B2.
    change (53 - 1) with 52 in B2.
    destruct (Z.ltb_spec (round_nearest_even (Zpos p2) l2) (2 ^ 53)) as [Hlt|Hge].
    - destruct (e2 <=? 971); [|left; reflexivity].
      right. eexists _, _. split; [reflexivity|]. rewrite Z2Pos.id.
      + destruct (Hrne (Zpos p2) l2); lia.
      + destruct (Hrne (Zpos p2) l2); lia.
    - destruct (e2 + 1 <=? 971); [|left; reflexivity].
      right. eexists _, _. split; [reflexivity|]. rewrite Z2Pos.id by lia.
      split; [lia|lia]. }
  destruct (Z.ltb_spec (Zpos p) (2 ^ 53)) as [Hlt|Hge].
  - assert (Hd : Zpos (digits2_pos p) = 53) by (apply digits2_pos_unique; lia).
    apply Hfin; assumption.
  - assert (Hd : Zpos (digits2_pos p) = 54) by (apply digits2_pos_unique; lia).
    rewrite binary_round_aux_54 by lia.
    assert (Hhalf : exists p', Zpos p / 2 = Zpos p' /\ 2 * Zpos p' <= Zpos p <= 2 * Zpos p' + 1).
    { destruct p as [p'|p'|]; [| |discriminate Hd]; exists p'.
      - split; [rewrite Pos2Z.inj_xI; symmetry; apply (Z.div_unique _ 2 _ 1); lia|lia].
      - split; [rewrite Pos2Z.inj_xO; symmetry; apply (Z.div_unique _ 2 _ 0); lia|lia]. }
    destruct Hhalf as (p' & Hhalf & Hpp). rewrite Hhalf.
    assert (Hd' : Zpos (digits2_pos p') = 53) by (apply digits2_pos_unique; lia).
    destruct (Hfin p' (e + 1) (loc_of_shr_record (shr_1 (shr_record_of_loc (Zpos p) l)))
                Hd' ltac:(lia)) as [Hinf|(M & E & HR & HM & HE)].
    + left. exact Hinf.
    + right. exists M, E. split; [exact HR|]. split; [exact HM|lia].
Qed.

(** *** The integer part of a double with a mantissa of 53 digits *)

Lemma trunc_normal_mono (M1 M2 : positive) (E1 E2 : Z) :
  2 ^ 52 <= Zpos M1 < 2 ^ 53 -> 2 ^ 52 <= Zpos M2 < 2 ^ 53 ->
  E1 < E2 \/ (E1 = E2 /\ Zpos M1 <= Zpos M2) ->
  (if 0 <=? E1 then Zpos M1 * 2 ^ E1 else Zpos M1 / 2 ^ (- E1))
  <= (if 0 <=? E2 then Zpos M2 * 2 ^ E2 else Zpos M2 / 2 ^ (- E2)).
Proof.
  intros H1 H2 [Hlt|[-> Hle]].
  - assert (Hhalf : forall k, 1 <= k -> Zpos M1 / 2 ^ k < 2 ^ 52).
    { intros k Hk. apply Z.div_lt_upper_bound; [apply Z.pow_pos_nonneg; lia|].
      assert (2 ^ 1 <= 2 ^ k) by (apply Z.pow_le_mono_r; lia).
      change (2 ^ 1) with 2 in *. change (2 ^ 53) with (2 * 2 ^ 52) in H1. nia. }
    destruct (Z.leb_spec 0 E1) as [P1|P1]; destruct (Z.leb_spec 0 E2) as [P2|P2]; try lia.
    + assert (0 < 2 ^ E1) by (apply Z.pow_pos_nonneg; lia).
      assert (2 ^ (E1 + 1) <= 2 ^ E2) by (apply Z.pow_le_mono_r; lia).
      rewrite Z.pow_add_r in * by lia. change (2 ^ 1) with 2 in *.
      change (2 ^ 53) with (2 * 2 ^ 52) in H1. nia.
    + assert (1 <= 2 ^ E2) by (pose proof (Z.pow_pos_nonneg 2 E2); lia).
      specialize (Hhalf (- E1) ltac:(lia)). nia.
    + replace (- E1) with ((E2 - E1) + (- E2)) by lia.
      rewrite Z.pow_add_r by lia.
      rewrite <- Z.div_div by (try apply Z.pow_pos_nonneg; lia).
      apply Z.div_le_mono; [apply Z.pow_pos_nonneg; lia|].
      specialize (Hhalf (E2 - E1) ltac:(lia)). lia.
  - destruct (Z.leb_spec 0 E2).
    + apply Z.mul_le_mono_nonneg_r; [apply Z.pow_nonneg|]; lia.
    + apply Z.div_le_mono; [apply Z.pow_pos_nonneg; lia|exact Hle].
Qed.

Lemma to_int_finite (M : positive) (E : Z) :
  Double.to_int (S754_finite false M E)
  = Z.max (- 2 ^ 31)
      (Z.min (2 ^ 31 - 1) (if 0 <=? E then Zpos M * 2 ^ E else Zpos M / 2 ^ (- E))).
Proof. reflexivity. Qed.

(** The minimum of two positive doubles with mantissas of 53 digits, or
    plus infinity, and its conversion to int. *)
Lemma min_normal (a b : Double.double) :
  (a = S754_infinity false
   \/ exists M E, a = S754_finite false M E /\ 2 ^ 52 <= Zpos M < 2 ^ 53) ->
  (b = S754_infinity false
   \/ exists M E, b = S754_finite false M E /\ 2 ^ 52 <= Zpos M < 2 ^ 53) ->
  (Double.min a b = S754_infinity false
   \/ exists M E, Double.min a b = S754_finite false M E /\ 2 ^ 52 <= Zpos M < 2 ^ 53)
  /\ Double.to_int (Double.min a b) = Z.min (Double.to_int a) (Double.to_int b).
Proof.
  intros [->|(M1 & E1 & -> & H1)] [->|(M2 & E2 & -> & H2)].
  - split; [left; reflexivity|reflexivity].
  - split; [right; exists M2, E2; auto|].
    change (Double.min (S754_infinity false) (S754_finite false M2 E2))
      with (S754_finite false M2 E2).
    rewrite to_int_finite. change (Double.to_int (S754_infinity false)) with (2 ^ 31 - 1).
    lia.
  - split; [right; exists M1, E1; auto|].
    change (Double.min (S754_finite false M1 E1) (S754_infinity false))
      with (S754_finite false M1 E1).
    rewrite to_int_finite. change (Double.to_int (S754_infinity false)) with (2 ^ 31 - 1).
    lia.
  - assert (Hmin : Double.min (S754_finite false M1 E1) (S754_finite false M2 E2)
                   = if match E1 ?= E2 with
                        | Eq => match Pos.compare_cont Eq M1 M2 with Gt => false | _ => true end
                        | Lt => true
                        | Gt => false
                        end
                     then S754_finite false M1 E1 else S754_finite false M2 E2).
    { unfold Double.min, Double.leb, SFleb, SFcompare. simpl.
      destruct (E1 ?= E2); try reflexivity.
      all: destruct (Pos.compare_cont Eq M1 M2); reflexivity. }
    rewrite Hmin. rewrite !to_int_finite.
    change (Pos.compare_cont Eq M1 M2) with (Zpos M1 ?= Zpos M2).
    destruct (Z.compare_spec E1 E2) as [HE|HE|HE].
    + destruct (Z.compare_spec (Zpos M1) (Zpos M2)) as [HM|HM|HM].
      * split; [right; exists M1, E1; auto|]. rewrite to_int_finite.
        pose proof (trunc_normal_mono M1 M2 E1 E2 H1 H2 ltac:(right; lia)). lia.
      * split; [right; exists M1, E1; auto|]. rewrite to_int_finite.
        pose proof (trunc_normal_mono M1 M2 E1 E2 H1 H2 ltac:(right; lia)). lia.
      * split; [right; exists M2, E2; auto|]. rewrite to_int_finite.
        pose proof (trunc_normal_mono M2 M1 E2 E1 H2 H1 ltac:(right; lia)). lia.
    + split; [right; exists M1, E1; auto|]. rewrite to_int_finite.
      pose proof (trunc_normal_mono M1 M2 E1 E2 H1 H2 ltac:(left; lia)). lia.
    + split; [right; exists M2, E2; auto|]. rewrite to_int_finite.
      pose proof (trunc_normal_mono M2 M1 E2 E1 H2 H1 ltac:(left; lia)). lia.
Qed.

(** *** The floor of a quotient of doubles

    For a double divided by a smaller positive one, the floor of the
    double quotient, cut at the largest int, lies between the floor of
    the exact quotient and that plus one. *)
Lemma floor_div_bounds (x f : Double.double) (ux uf : Z) :
  Spec.units x = Some ux -> Spec.units f = Some uf -> 0 < uf -> uf <= ux ->
  let F := Double.floor (Double.div x f) in
  (F = S754_infinity false
   \/ exists M E, F = S754_finite false M E /\ 2 ^ 52 <= Zpos M < 2 ^ 53)
  /\ Z.min (2 ^ 31 - 1) (ux / uf) <= Double.to_int F <= Z.min (2 ^ 31 - 1) (ux / uf + 1).
Proof.
  intros Hx Hf Hpos Hle F.
  destruct x as [sx| | |sx mx ex]; try discriminate.
  { injection Hx as <-. lia. }
  destruct f as [sf| | |sf my ey]; try discriminate.
  { injection Hf as <-. lia. }
  destruct (units_finite _ _ _ _ Hx) as [Bx Eux].
  destruct (units_finite _ _ _ _ Hf) as [Bf Euf].
  destruct (bounded_spec mx ex Bx) as (Hex & _ & _).
  destruct (bounded_spec my ey Bf) as (Hey & _ & _).
  assert (Tx : 0 < 2 ^ (ex + 1074)) by (apply Z.pow_pos_nonneg; lia).
  assert (Tf : 0 < 2 ^ (ey + 1074)) by (apply Z.pow_pos_nonneg; lia).
  destruct sf; [nia|]. destruct sx; [nia|].
  subst ux uf.
  destruct (div_core_ge mx my ex ey Bx Bf Hle) as (Hcore & Hq & Hs & He53).
  cbv zeta in Hcore, Hq, Hs, He53.
  set (s := 53 - Zpos (digits2_pos mx) + Zpos (digits2_pos my)) in *.
  destruct (quotient_units (Zpos mx) (Zpos my) (ex + 1074) (ey + 1074) s
              ltac:(lia) ltac:(lia) ltac:(lia) ltac:(lia) ltac:(lia)) as [Hsmall Hlarge].
  cbv zeta in Hsmall, Hlarge.
  replace (ex + 1074 - (ey + 1074) - s) with (ex - ey - s) in Hsmall, Hlarge by lia.
  set (q := Zpos mx * 2 ^ s / Zpos my) in *.
  set (e := ex - ey - s) in *.
  set (n := Zpos mx * 2 ^ (ex + 1074) / (Zpos my * 2 ^ (ey + 1074))) in *.
  assert (Hn1 : 1 <= n).
  { unfold n. apply Z.div_le_lower_bound; lia. }
  assert (HF : F = Double.floor (binary_round_aux 53 1024 false q e
                                   (new_location (Zpos my) (Zpos mx * 2 ^ s mod Zpos my)))).
  { unfold F, Double.div, SFdiv, Double.prec, Double.emax. rewrite Hcore. reflexivity. }
  destruct (Z.le_gt_cases e 0) as [He0|He0].
  - specialize (Hsmall He0).
    destruct (round_quotient false q e
                (new_location (Zpos my) (Zpos mx * 2 ^ s mod Zpos my)) Hq ltac:(lia))
      as (M & E & HR & HM & HE & Hlo & Hhi).
    rewrite HR in HF.
    assert (HJ : 0 < 2 ^ (E - e)) by (apply Z.pow_pos_nonneg; lia).
    destruct (Z.le_gt_cases 0 E) as [HE0|HE0].
    + assert (HFe : F = S754_finite false M E).
      { rewrite HF. unfold Double.floor.
        replace (0 <=? E) with true by (symmetry; apply Z.leb_le; lia). reflexivity. }
      split; [right; exists M, E; auto|].
      rewrite HFe, to_int_finite.
      replace (0 <=? E) with true by (symmetry; apply Z.leb_le; lia).
      assert (1 <= 2 ^ E) by (pose proof (Z.pow_pos_nonneg 2 E); lia).
      assert (Hn : 2 ^ 50 <= n).
      { rewrite Hsmall. apply Z.div_le_lower_bound; [apply Z.pow_pos_nonneg; lia|].
        assert (2 ^ (- e) <= 2 ^ (E - e)) by (apply Z.pow_le_mono_r; lia).
        assert (2 ^ (E - e) <= 4) by nia.
        assert (0 < 2 ^ (- e)) by (apply Z.pow_pos_nonneg; lia). nia. }
      assert (2 ^ 31 - 1 < 2 ^ 50) by reflexivity.
      assert (2 ^ 50 < 2 ^ 52) by reflexivity.
      assert (2 ^ 52 <= Zpos M * 2 ^ E) by nia.
      lia.
    + set (R := 2 ^ (- E)) in *.
      assert (HRpos : 0 < R) by (apply Z.pow_pos_nonneg; lia).
      assert (HP : 2 ^ (- e) = 2 ^ (E - e) * R).
      { unfold R. rewrite <- Z.pow_add_r by lia. f_equal. lia. }
      assert (Hnq : n = q / 2 ^ (E - e) / R).
      { rewrite Hsmall, HP. symmetry. apply Z.div_div; lia. }
      set (k := Zpos M / R).
      assert (Hkn : n <= k).
      { rewrite Hnq. apply Z.div_le_mono; lia. }
      assert (Hkn1 : k <= n + 1).
      { assert (HMq : Zpos M <= (q + 1) / 2 ^ (E - e)).
        { apply Z.div_le_lower_bound; lia. }
        apply Z.le_trans with ((q + 1) / 2 ^ (E - e) / R).
        - apply Z.div_le_mono; lia.
        - rewrite Z.div_div by lia. rewrite <- HP, Hsmall.
          assert (0 < 2 ^ (- e)) by (apply Z.pow_pos_nonneg; lia).
          apply Z.le_trans with ((q + 1 * 2 ^ (- e)) / 2 ^ (- e)).
          + apply Z.div_le_mono; lia.
          + rewrite Z.div_add by lia. lia. }
      assert (Hk53 : k < 2 ^ 53).
      { unfold k. apply Z.le_lt_trans with (Zpos M); [|lia].
        apply Z.div_le_upper_bound; [lia|]. nia. }
      assert (HFk : F = Double.of_Z k).
      { rewrite HF. unfold Double.floor.
        replace (0 <=? E) with false by (symmetry; apply Z.leb_gt; lia). reflexivity. }
      rewrite HFk. destruct k as [|pk|pk] eqn:Ek; [lia| |lia].
      split.
      * right. rewrite of_Z_exact by lia. cbv zeta.
        destruct (of_Z_mantissa pk ltac:(lia)) as (Hd & Hm & Hdig).
        eexists _, _. split; [reflexivity|].
        pose proof (digits2_pos_bounds
                      (Z.to_pos (Zpos pk * 2 ^ (53 - Zpos (digits2_pos pk))))) as B.
        rewrite Hdig in B. change (53 - 1) with 52 in B. exact B.
      * rewrite to_int_of_Z by lia. lia.
  - specialize (Hlarge He0).
    assert (1 < 2 ^ e).
    { apply Z.lt_le_trans with (2 ^ 1); [reflexivity|]. apply Z.pow_le_mono_r; lia. }
    assert (Hn : 2 ^ 52 <= n) by nia.
    assert (2 ^ 31 - 1 < 2 ^ 52) by reflexivity.
    destruct (round_quotient_large false q e
                (new_location (Zpos my) (Zpos mx * 2 ^ s mod Zpos my)) Hq He0)
      as [HR|(M & E & HR & HM & HE)]; rewrite HR in HF.
    + assert (HFe : F = S754_infinity false) by (rewrite HF; reflexivity).
      split; [left; exact HFe|]. rewrite HFe.
      change (Double.to_int (S754_infinity false)) with (2 ^ 31 - 1). lia.
    + assert (HFe : F = S754_finite false M E).
      { rewrite HF. unfold Double.floor.
        replace (0 <=? E) with true by (symmetry; apply Z.leb_le; lia). reflexivity. }
      split; [right; exists M, E; auto|].
      rewrite HFe, to_int_finite.
      replace (0 <=? E) with true by (symmetry; apply Z.leb_le; lia).
      assert (1 <= 2 ^ E) by (pose proof (Z.pow_pos_nonneg 2 E); lia).
      assert (2 ^ 52 <= Zpos M * 2 ^ E) by nia.
      lia.
Qed.

(** The same for any double that is at least the divisor, plus infinity
    included: the floor of the quotient is at least one. *)
Lemma floor_div_ge (x f : Double.double) (uf : Z) :
  valid_binary 53 1024 x = true -> Spec.units f = Some uf -> 0 < uf ->
  Double.geb x f = true ->
  let F := Double.floor (Double.div x f) in
  (F = S754_infinity false
   \/ exists M E, F = S754_finite false M E /\ 2 ^ 52 <= Zpos M < 2 ^ 53)
  /\ 1 <= Double.to_int F.
Proof.
  intros Vx Hf Hpos Hge F.
  destruct f as [sf| | |sf my ey]; try discriminate.
  { injection Hf as <-. lia. }
  destruct (units_finite _ _ _ _ Hf) as [Bf Euf].
  destruct (bounded_spec my ey Bf) as (Hey & _ & _).
  assert (Tf : 0 < 2 ^ (ey + 1074)) by (apply Z.pow_pos_nonneg; lia).
  destruct sf; [nia|].
  destruct x as [sx|sx| |sx mx ex].
  - discriminate Hge.
  - destruct sx; [discriminate Hge|].
    split; [left; reflexivity|]. unfold F. vm_compute. discriminate.
  - discriminate Hge.
  - assert (Hx : Spec.units (S754_finite sx mx ex)
                 = Some ((if sx then - Zpos mx else Zpos mx) * 2 ^ (ex + 1074))).
    { unfold Spec.units, Double.prec, Double.emax. simpl in Vx. rewrite Vx. reflexivity. }
    unfold Double.geb in Hge. rewrite (leb_units _ _ _ _ Hf Hx) in Hge.
    apply Z.leb_le in Hge.
    destruct (floor_div_bounds _ _ _ _ Hx Hf Hpos Hge) as [G B]. cbv zeta in G, B.
    split; [exact G|]. fold F in B.
    assert (1 <= (if sx then - Zpos mx else Zpos mx) * 2 ^ (ex + 1074) / uf).
    { apply Z.div_le_lower_bound; lia. }
    lia.
Qed.

(** ** NodePrioritizer: failure replacement *)

Section ReplacementFacts.
Import Provisioning.

Lemma filter_filter_andb {A : Type} (p q : A -> bool) (l : list A) :
  filter p (filter q l) = filter (fun x => q x && p x) l.
Proof.
  induction l as [|x l IH]; simpl; [reflexivity|].
  destruct (q x); simpl; [destruct (p x)|]; rewrite ?IH; reflexivity.
Qed.

Lemma filter_ext_bool {A : Type} (p q : A -> bool) (l : list A) :
  (forall x, p x = q x) -> filter p l = filter q l.
Proof.
  intros H; induction l as [|x l IH]; simpl; [reflexivity|].
  rewrite H, IH; reflexivity.
Qed.

Lemma allocatedTo_split appId clusterId node :
  Spec.allocatedTo appId clusterId node =
  isPresent (allocation node) && ownedBy appId node && inCluster clusterId node.
Proof.
  unfold Spec.allocatedTo, isPresent, ownedBy, inCluster, is_null.
  destruct (allocation node); simpl; reflexivity.
Qed.

Lemma nofNodesInCluster_clusterSize allNodes appId clusterId :
  nofNodesInCluster allNodes appId clusterId = Spec.clusterSize allNodes appId clusterId.
Proof.
  unfold nofNodesInCluster, Spec.clusterSize.
  rewrite !filter_filter_andb. f_equal. f_equal.
  apply filter_ext_bool; intros x. rewrite allocatedTo_split.
  destruct (isPresent (allocation x)), (ownedBy appId x), (inCluster clusterId x); reflexivity.
Qed.

Lemma nofFailedNodes_failedCount allNodes appId clusterId :
  nofFailedNodes allNodes appId clusterId = Spec.failedCount allNodes appId clusterId.
Proof.
  unfold nofFailedNodes, Spec.failedCount.
  rewrite !filter_filter_andb. f_equal. f_equal.
  apply filter_ext_bool; intros x. rewrite allocatedTo_split.
  destruct (NodeState_eqb (state x) failed), (isPresent (allocation x)),
    (ownedBy appId x), (inCluster clusterId x); reflexivity.
Qed.

Lemma isReplacement_iff spec size failedNodes :
  isReplacement spec size failedNodes = true <->
  failedNodes <> 0 /\ size - failedNodes < Spec.requestedCount spec.
Proof.
  unfold isReplacement, Spec.requestedCount.
  destruct (Z.eqb_spec failedNodes 0) as [E|E].
  - split; [discriminate|]. intros [H _]; contradiction.
  - destruct spec; rewrite Z.ltb_lt; tauto.
Qed.

End ReplacementFacts.

(** C5. The allocation is a failure replacement exactly when the number
    of failed nodes of the application and cluster is not zero and the
    requested node count is greater than the cluster size less the failed
    count; with size 5, two failed nodes and a request for 4 nodes it is
    one. *)
Theorem C5_isAllocatingForReplacement :
  (forall allNodes appId clusterId nodeSpec,
     Provisioning.isAllocatingForReplacement allNodes appId clusterId nodeSpec = true <->
     Spec.failedCount allNodes appId clusterId <> 0 /\
     Spec.clusterSize allNodes appId clusterId - Spec.failedCount allNodes appId clusterId
       < Spec.requestedCount nodeSpec)
  /\ (forall flavor,
        Provisioning.isReplacement (Provisioning.CountNodeSpec 4 flavor) 5 2 = true)
  /\ (forall allNodes appId clusterId flavor,
        Spec.clusterSize allNodes appId clusterId = 5 ->
        Spec.failedCount allNodes appId clusterId = 2 ->
        Provisioning.isAllocatingForReplacement allNodes appId clusterId
          (Provisioning.CountNodeSpec 4 flavor) = true).
Proof.
  split; [|split].
  - intros. unfold Provisioning.isAllocatingForReplacement.
    rewrite isReplacement_iff, nofNodesInCluster_clusterSize, nofFailedNodes_failedCount.
    reflexivity.
  - intros. reflexivity.
  - intros allNodes appId clusterId flavor Hs Hf.
    unfold Provisioning.isAllocatingForReplacement.
    rewrite nofNodesInCluster_clusterSize, nofFailedNodes_failedCount, Hs, Hf.
    reflexivity.
Qed.

(** ** ReferenceAttribute: when a commit compacts *)

Section CompactionFacts.
Import ReferenceAttribute.

Context {UniqueStore EntryRef ICompactionContext : Type}.
Variable store_compactWorst : UniqueStore -> option ICompactionContext * UniqueStore.
Variable context_compact : ICompactionContext -> list EntryRef -> list EntryRef.
Variable store_getMemoryUsage : UniqueStore -> MemoryUsage.
Variable store_onGenerationChange : Z -> UniqueStore -> UniqueStore.

Lemma considerCompact_eq strategy (a : ReferenceAttribute UniqueStore EntryRef) :
  considerCompact store_compactWorst context_compact strategy a =
  if Spec.compactionDue strategy (_cachedUniqueStoreMemoryUsage a)
  then (true, compactWorst store_compactWorst context_compact a) else (false, a).
Proof. reflexivity. Qed.

Lemma incGeneration_cached (a : ReferenceAttribute UniqueStore EntryRef) :
  _cachedUniqueStoreMemoryUsage (incGeneration store_onGenerationChange a)
  = _cachedUniqueStoreMemoryUsage a.
Proof. reflexivity. Qed.

Lemma onCommit_eq strategy (a : ReferenceAttribute UniqueStore EntryRef) :
  onCommit store_compactWorst context_compact store_getMemoryUsage
    store_onGenerationChange strategy a =
  if Spec.compactionDue strategy (_cachedUniqueStoreMemoryUsage a)
  then onUpdateStat store_getMemoryUsage
         (incGeneration store_onGenerationChange
            (compactWorst store_compactWorst context_compact
               (incGeneration store_onGenerationChange a)))
  else incGeneration store_onGenerationChange a.
Proof.
  unfold onCommit. rewrite considerCompact_eq, incGeneration_cached.
  destruct (Spec.compactionDue strategy _); reflexivity.
Qed.

End CompactionFacts.


(** At exactly DEAD_BYTES_SLACK dead bytes the slack test passes: with
    1000 used bytes and the ratio 1/4 the attribute is due for
    compaction, with one dead byte less it is not. *)
Example considerCompact_at_slack :
  Spec.compactionDue
    (ReferenceAttribute.mkCompactionStrategy (Double.div (Double.of_Z 1) (Double.of_Z 4)))
    (ReferenceAttribute.mkMemoryUsage 100000 1000 65536 0) = true
  /\ Spec.compactionDue
    (ReferenceAttribute.mkCompactionStrategy (Double.div (Double.of_Z 1) (Double.of_Z 4)))
    (ReferenceAttribute.mkMemoryUsage 100000 1000 65535 0) = false.
Proof. split; vm_compute; reflexivity. Qed.

(** ** DynamicDocsumWriter: all-generated classes never read the store *)

Section DocsumFacts.
Import DocSummary.
Context {S : Type}.
Variable inplaceUnpack : option ResultClass -> string -> option (list ResEntry).

Lemma insertDocsum_generated (w : DynamicDocsumWriter S) rci docid state docinfos :
  allGenerated rci = true ->
  fst (insertDocsum inplaceUnpack w rci docid state docinfos) = docinfos.
Proof. intros H. unfold insertDocsum. rewrite H. reflexivity. Qed.

Lemma insertDocsum_stored (w : DynamicDocsumWriter S) rci docid state docinfos :
  allGenerated rci = false ->
  reads (fst (insertDocsum inplaceUnpack w rci docid state docinfos))
  = reads docinfos ++ [(docid, true)].
Proof. intros H. unfold insertDocsum. rewrite H. reflexivity. Qed.

(** *** The override table and the counters *)

Lemma set_nth_length {A : Type} (i : nat) (x : A) (l : list A) :
  length (set_nth i x l) = length l.
Proof.
  revert i; induction l as [|y l IH]; intros [|i]; simpl; auto.
Qed.

Lemma nth_error_set_nth {A : Type} (i j : nat) (x : A) (l : list A) :
  (i < length l)%nat ->
  nth_error (set_nth i x l) j = if Nat.eqb j i then Some x else nth_error l j.
Proof.
  revert i j; induction l as [|y l IH]; intros i j Hi; simpl in Hi; [lia|].
  destruct i as [|i], j as [|j]; simpl; auto.
  apply IH; lia.
Qed.

Lemma indexFromEnumValue_found es v i :
  0 <= i ->
  (0 <=? indexFromEnumValue es v i) = existsb (fun e => _enumValue e =? v) es.
Proof.
  revert i; induction es as [|e es IH]; intros i Hi; simpl; [reflexivity|].
  destruct (_enumValue e =? v); simpl.
  - apply Z.leb_le; lia.
  - apply IH; lia.
Qed.

Lemma filter_length_update {A : Type} (key : A -> Z) (f f' : A -> bool)
    (v : Z) (b : bool) (l : list A) :
  NoDup (map key l) ->
  (forall x, key x <> v -> f' x = f x) ->
  (forall x, key x = v -> f x = false /\ f' x = b) ->
  Z.of_nat (length (filter f' l)) =
  Z.of_nat (length (filter f l))
  + (if b && existsb (fun x => key x =? v) l then 1 else 0).
Proof.
  intros ND Hne Heq. induction l as [|x l IH]; simpl.
  - rewrite andb_false_r. reflexivity.
  - inversion ND as [|? ? Hnotin ND']; subst.
    destruct (Z.eqb_spec (key x) v) as [E|E].
    + destruct (Heq x E) as [Hf Hf']. rewrite Hf, Hf'.
      assert (Hrest : existsb (fun y => key y =? v) l = false).
      { apply not_true_is_false. intros Hex. apply existsb_exists in Hex.
        destruct Hex as [y [Hy Hk]]. apply Z.eqb_eq in Hk.
        apply Hnotin. rewrite E, <- Hk. now apply in_map. }
      specialize (IH ND'). rewrite Hrest, andb_false_r in IH.
      rewrite orb_true_l, andb_true_r.
      destruct b; simpl length; lia.
    + rewrite (Hne x E), orb_false_l. specialize (IH ND').
      destruct (f x); simpl length; lia.
Qed.

Lemma filter_all_false {A : Type} (f : A -> bool) (l : list A) :
  (forall x, In x l -> f x = false) -> filter f l = [].
Proof.
  induction l as [|x l IH]; intros H; simpl; [reflexivity|].
  rewrite (H x (or_introl eq_refl)). apply IH. intros y Hy. apply H. now right.
Qed.

Lemma filter_length_all {A : Type} (f : A -> bool) (l : list A) :
  length (filter f l) = length l <-> (forall x, In x l -> f x = true).
Proof.
  induction l as [|x l IH]; simpl; [tauto|].
  pose proof (filter_length_le f l) as Hle.
  destruct (f x) eqn:E; simpl.
  - split.
    + intros H y [<-|Hy]; [exact E|]. apply IH; [lia|exact Hy].
    + intros H. f_equal. apply IH. intros y Hy. apply H. now right.
  - split; [lia|]. intros H. rewrite (H x (or_introl eq_refl)) in E. discriminate.
Qed.

Lemma overrideSlot_new cfg n v :
  overrideSlot (DynamicDocsumWriter_new (GetDocsumsState := S) cfg n) v = None.
Proof.
  unfold overrideSlot, DynamicDocsumWriter_new; simpl.
  destruct (v <? 0); [reflexivity|].
  destruct (nth_error _ _) as [slot|] eqn:E; [|reflexivity].
  apply nth_error_In, repeat_spec in E. exact E.
Qed.

Lemma writerInv_new cfg n : Spec.writerInv (S := S) (DynamicDocsumWriter_new cfg n).
Proof.
  split; [|split].
  - simpl. apply repeat_length.
  - simpl. apply length_map.
  - intros i c info Hc Hi _. simpl in Hi.
    rewrite nth_error_map in Hi. simpl in Hc. rewrite Hc in Hi. simpl in Hi.
    injection Hi as <-. split; simpl.
    + rewrite filter_all_false; [reflexivity|].
      intros e _. unfold Spec.overridden. now rewrite overrideSlot_new.
    + rewrite filter_all_false; [reflexivity|].
      intros e _. unfold Spec.generated. now rewrite overrideSlot_new.
Qed.


Lemma Override_rejected (w : DynamicDocsumWriter S) fieldName writer :
  fst (Override w fieldName writer) = false ->
  snd (Override w fieldName writer) = w.
Proof.
  unfold Override. destruct (_ || _); simpl; [reflexivity|discriminate].
Qed.

Lemma Override_accepted (w : DynamicDocsumWriter S) fieldName writer :
  Spec.writerInv w ->
  fst (Override w fieldName writer) = true ->
  let v := wrap32 (FieldNameEnum_Lookup (_resultConfig w) fieldName) in
  let w' := snd (Override w fieldName writer) in
  overrideSlot w v = None
  /\ (forall x, overrideSlot w' x = if x =? v then Some writer else overrideSlot w x)
  /\ _resultConfig w' = _resultConfig w
  /\ _numEnumValues w' = _numEnumValues w
  /\ length (_overrideTable w') = length (_overrideTable w)
  /\ _classInfoTable w' =
     map (fun ci : ResultClass * DynamicInfo =>
            if 0 <=? GetIndexFromEnumValue (fst ci) v then
              mkDynamicInfo (_overrideCnt (snd ci) + 1)
                (if IsGenerated writer then _generateCnt (snd ci) + 1
                 else _generateCnt (snd ci))
            else snd ci)
         (combine (classes (_resultConfig w)) (_classInfoTable w)).
Proof.
  intros [Hlen _] Hacc v w'. subst w'. unfold Override in *. fold v in Hacc |- *.
  destruct ((_numEnumValues w <=? v) || negb (is_null (overrideSlot w v))) eqn:E;
    simpl in Hacc; [discriminate|].
  apply orb_false_iff in E. destruct E as [Hlt Hnone].
  apply Z.leb_gt in Hlt. apply negb_false_iff in Hnone.
  assert (Hv : 0 <= v) by (apply Z.mod_pos_bound; reflexivity).
  simpl. repeat split.
  - destruct (overrideSlot w v); [discriminate|reflexivity].
  - intros x. unfold overrideSlot; simpl.
    destruct (Z.ltb_spec x 0) as [Hx|Hx].
    + destruct (Z.eqb_spec x v); [lia|reflexivity].
    + rewrite nth_error_set_nth by lia.
      destruct (Z.eqb_spec x v) as [->|Hne].
      * now rewrite Nat.eqb_refl.
      * destruct (Nat.eqb_spec (Z.to_nat x) (Z.to_nat v)) as [Heq|_]; [lia|reflexivity].
  - apply set_nth_length.
  - apply map_ext. intros [c info]. reflexivity.
Qed.

Lemma writerInv_Override (w : DynamicDocsumWriter S) fieldName writer :
  Spec.writerInv w -> Spec.writerInv (snd (Override w fieldName writer)).
Proof.
  intros Inv. destruct (fst (Override w fieldName writer)) eqn:Hacc.
  2:{ now rewrite Override_rejected. }
  destruct (Override_accepted w fieldName writer Inv Hacc)
    as (Hnone & Hslot & Hcfg & Hnum & Hlen & Hinfos).
  set (v := wrap32 (FieldNameEnum_Lookup (_resultConfig w) fieldName)) in *.
  set (w' := snd (Override w fieldName writer)) in *.
  destruct Inv as (Il & Ic & Icnt).
  split; [|split].
  - now rewrite Hlen, Hnum.
  - rewrite Hinfos, Hcfg, length_map, length_combine. lia.
  - intros i c info' Hc Hi ND. rewrite Hcfg in Hc.
    rewrite Hinfos, nth_error_map in Hi.
    destruct (nth_error (combine _ _) i) as [[c0 info]|] eqn:Ecomb; [|discriminate].
    simpl in Hi. injection Hi as <-.
    assert (Hc0 : nth_error (classes (_resultConfig w)) i = Some c0
                  /\ nth_error (_classInfoTable w) i = Some info).
    { clear - Ecomb. revert Ecomb. generalize (classes (_resultConfig w)) (_classInfoTable w).
      induction i as [|i IH]; intros [|a l] [|b l'] H; simpl in *; try discriminate.
      - injection H as <- <-. auto.
      - now apply IH. }
    destruct Hc0 as [Hc0 Hinfo]. rewrite Hc in Hc0. injection Hc0 as <-.
    destruct (Icnt i c info Hc Hinfo ND) as [Ho Hg].
    unfold GetIndexFromEnumValue. rewrite indexFromEnumValue_found by lia.
    pose proof (filter_length_update _enumValue (Spec.overridden w) (Spec.overridden w')
                  v true (entries c) ND) as Uo.
    pose proof (filter_length_update _enumValue (Spec.generated w) (Spec.generated w')
                  v (IsGenerated writer) (entries c) ND) as Ug.
    assert (Uo' := Uo
      ltac:(intros x Hx; unfold Spec.overridden; rewrite Hslot;
            destruct (Z.eqb_spec (_enumValue x) v); [contradiction|reflexivity])
      ltac:(intros x Hx; unfold Spec.overridden; rewrite Hslot, Hx, Hnone, Z.eqb_refl;
            split; reflexivity)).
    assert (Ug' := Ug
      ltac:(intros x Hx; unfold Spec.generated; rewrite Hslot;
            destruct (Z.eqb_spec (_enumValue x) v); [contradiction|reflexivity])
      ltac:(intros x Hx; unfold Spec.generated; rewrite Hslot, Hx, Hnone, Z.eqb_refl;
            split; reflexivity)).
    clear Uo Ug. simpl fst; simpl snd. unfold Spec.countsAgree.
    rewrite Uo', Ug'. simpl andb.
    destruct (existsb _ (entries c)); simpl.
    + destruct (IsGenerated writer); simpl; lia.
    + rewrite andb_false_r. lia.
Qed.

Lemma overrideAll_config (w : DynamicDocsumWriter S) ovs :
  _resultConfig (Spec.overrideAll w ovs) = _resultConfig w
  /\ _defaultOutputClass (Spec.overrideAll w ovs) = _defaultOutputClass w.
Proof.
  revert w; induction ovs as [|[n wr] ovs IH]; intros w; simpl; [auto|].
  destruct (IH (snd (Override w n wr))) as [-> ->].
  unfold Override. destruct (_ || _); simpl; auto.
Qed.

Lemma writerInv_overrideAll (w : DynamicDocsumWriter S) ovs :
  Spec.writerInv w -> Spec.writerInv (Spec.overrideAll w ovs).
Proof.
  revert w; induction ovs as [|[n wr] ovs IH]; intros w Inv; simpl; [exact Inv|].
  apply IH, writerInv_Override, Inv.
Qed.

Lemma lookupClass_nth cs id k i c :
  lookupClass cs id k = Some (i, c) ->
  (k <= i)%nat /\ nth_error cs (i - k) = Some c.
Proof.
  revert k; induction cs as [|c0 cs IH]; intros k H; simpl in H; [discriminate|].
  destruct (classId c0 =? id).
  - injection H as <- <-. rewrite Nat.sub_diag. auto.
  - apply IH in H. destruct H as [Hle Hn]. split; [lia|].
    replace (i - k)%nat with (Datatypes.S (i - Datatypes.S k)) by lia. exact Hn.
Qed.

(** resolveOutputClass on a writer that satisfies the invariant. *)
Lemma resolveOutputClass_spec (w : DynamicDocsumWriter S) summaryClass :
  Spec.writerInv w ->
  (forall c, In c (classes (_resultConfig w)) -> Spec.distinctFields c) ->
  exists rci,
    resolveOutputClass w summaryClass = Ok rci
    /\ (allGenerated rci = true <->
        exists oC, outputClass rci = Some oC
                   /\ forall e, In e (entries oC) -> Spec.generated w e = true).
Proof.
  intros (Il & Ic & Icnt) ND. unfold resolveOutputClass.
  set (id := LookupResultClassId _ _ _).
  destruct (id =? NoClassID (_resultConfig w)); simpl.
  { eexists; split; [reflexivity|]. simpl. split; [discriminate|].
    intros (oC & H & _); discriminate. }
  unfold LookupResultClass.
  destruct (lookupClass _ id 0) as [[i oC]|] eqn:El.
  2:{ eexists; split; [reflexivity|]. simpl. split; [discriminate|].
      intros (oC & H & _); discriminate. }
  apply lookupClass_nth in El. destruct El as [_ Hc]. rewrite Nat.sub_0_r in Hc.
  destruct (nth_error (_classInfoTable w) i) as [info|] eqn:Ei.
  2:{ apply nth_error_None in Ei.
      assert (i < length (classes (_resultConfig w)))%nat
        by (apply nth_error_Some; congruence).
      lia. }
  simpl.
  assert (NDc : Spec.distinctFields oC) by (apply ND; eapply nth_error_In; eauto).
  destruct (Icnt i oC info Hc Ei NDc) as [Ho Hg].
  unfold GetNumEntries.
  destruct (Z.eqb_spec (_generateCnt info) (Z.of_nat (length (entries oC)))) as [E|E].
  - assert (Hall : forall e, In e (entries oC) -> Spec.generated w e = true).
    { apply filter_length_all. lia. }
    assert (Hov : length (filter (Spec.overridden w) (entries oC)) = length (entries oC)).
    { apply filter_length_all. intros e He. specialize (Hall e He).
      unfold Spec.generated, Spec.overridden in *.
      destruct (overrideSlot w (_enumValue e)); [reflexivity|discriminate]. }
    replace (_overrideCnt info =? _generateCnt info) with true
      by (symmetry; apply Z.eqb_eq; lia).
    simpl. eexists; split; [reflexivity|]. simpl. split; [|reflexivity].
    intros _. exists oC. auto.
  - eexists; split; [reflexivity|]. simpl. split; [discriminate|].
    intros (oC' & HoC & Hall). injection HoC as <-.
    apply filter_length_all in Hall. lia.
Qed.

Lemma writerInv_SetDefaultOutputClass (w : DynamicDocsumWriter S) (classID : Z) :
  Spec.writerInv w ->
  Spec.writerInv (snd (DynamicDocsumWriter.SetDefaultOutputClass w classID))
  /\ _resultConfig (snd (DynamicDocsumWriter.SetDefaultOutputClass w classID))
     = _resultConfig w.
Proof.
  intros Inv. unfold DynamicDocsumWriter.SetDefaultOutputClass.
  destruct (_ || _); simpl; [auto|]. split; [|reflexivity].
  unfold Spec.writerInv, Spec.countsAgree, Spec.overridden, Spec.generated,
    overrideSlot in *. simpl. exact Inv.
Qed.

Lemma writerInv_setUp (w : DynamicDocsumWriter S) (calls : list (Spec.SetupCall S)) :
  Spec.writerInv w ->
  Spec.writerInv (Spec.setUp w calls)
  /\ _resultConfig (Spec.setUp w calls) = _resultConfig w.
Proof.
  revert w. induction calls as [|[fieldName writer|classID] calls IH]; intros w Inv; simpl.
  - auto.
  - destruct (IH _ (writerInv_Override w fieldName writer Inv)) as [Hinv Hcfg].
    split; [exact Hinv|]. rewrite Hcfg.
    unfold Override. destruct (_ || _); reflexivity.
  - destruct (writerInv_SetDefaultOutputClass w classID Inv) as [Inv' Hcfg'].
    destruct (IH _ Inv') as [Hinv Hcfg].
    split; [exact Hinv|]. rewrite Hcfg. exact Hcfg'.
Qed.

(** resolveClassInfo on a writer that satisfies the invariant: it
    returns, and the class is flagged exactly when the request names a
    class and every field of that class has a generated writer. *)
Lemma resolveClassInfo_spec (w : DynamicDocsumWriter S) summaryClass inputClassId :
  Spec.writerInv w ->
  (forall c, In c (classes (_resultConfig w)) -> Spec.distinctFields c) ->
  exists rci,
    resolveClassInfo w summaryClass inputClassId = Ok rci
    /\ (allGenerated rci = true <->
        exists oC, Spec.requestedClass w summaryClass = Some oC
                   /\ forall e, In e (entries oC) -> Spec.generated w e = true)
    /\ (allGenerated rci = true -> outputClass rci = Spec.requestedClass w summaryClass)
    /\ (Spec.requestedClass w summaryClass = None ->
        forall i inC, LookupResultClass (_resultConfig w) inputClassId = Some (i, inC) ->
                      LookupResultClassId (_resultConfig w) summaryClass
                        (_defaultOutputClass w) = NoClassID (_resultConfig w) ->
                      outputClass rci = Some inC).
Proof.
  intros (Il & Ic & Icnt) ND.
  unfold resolveClassInfo, resolveOutputClass, Spec.requestedClass.
  set (id := LookupResultClassId _ _ _).
  destruct (Z.eqb_spec id (NoClassID (_resultConfig w))) as [Hid|Hid]; simpl.
  { unfold resolveInputClass. simpl.
    destruct (LookupResultClass (_resultConfig w) inputClassId) as [[i inC]|] eqn:Hin.
    - rewrite Hid, Z.eqb_refl. simpl. eexists; split; [reflexivity|]. simpl.
      split; [split; [discriminate|intros (oC & H & _); discriminate]|].
      split; [discriminate|]. intros _ i' inC' H _. injection H as _ <-. reflexivity.
    - eexists; split; [reflexivity|]. simpl.
      split; [split; [discriminate|intros (oC & H & _); discriminate]|].
      split; [discriminate|]. intros _ i' inC' H. discriminate. }
  destruct (LookupResultClass (_resultConfig w) id) as [[i oC]|] eqn:El.
  2:{ simpl. eexists; split; [reflexivity|]. simpl.
      split; [split; [discriminate|intros (oC & H & _); discriminate]|].
      split; [discriminate|]. intros _ i' inC' _ H. contradiction. }
  unfold LookupResultClass in El. apply lookupClass_nth in El. destruct El as [_ Hc]. rewrite Nat.sub_0_r in Hc.
  destruct (nth_error (_classInfoTable w) i) as [info|] eqn:Ei.
  2:{ apply nth_error_None in Ei.
      assert (i < length (classes (_resultConfig w)))%nat
        by (apply nth_error_Some; congruence).
      lia. }
  simpl.
  assert (NDc : Spec.distinctFields oC) by (apply ND; eapply nth_error_In; eauto).
  destruct (Icnt i oC info Hc Ei NDc) as [Ho Hg].
  unfold GetNumEntries.
  destruct (Z.eqb_spec (_generateCnt info) (Z.of_nat (length (entries oC)))) as [E|E].
  - assert (Hall : forall e, In e (entries oC) -> Spec.generated w e = true).
    { apply filter_length_all. lia. }
    assert (Hov : length (filter (Spec.overridden w) (entries oC)) = length (entries oC)).
    { apply filter_length_all. intros e He. specialize (Hall e He).
      unfold Spec.generated, Spec.overridden in *.
      destruct (overrideSlot w (_enumValue e)); [reflexivity|discriminate]. }
    replace (_overrideCnt info =? _generateCnt info) with true
      by (symmetry; apply Z.eqb_eq; lia).
    simpl. eexists; split; [reflexivity|]. simpl.
    split; [split; [intros _; exists oC; auto|reflexivity]|].
    split; [reflexivity|]. discriminate.
  - simpl. unfold resolveInputClass. simpl.
    destruct (LookupResultClass (_resultConfig w) inputClassId) as [[i' inC]|];
      (eexists; split; [reflexivity|]; simpl;
       split; [split; [discriminate|
                       intros (oC' & HoC & Hall); injection HoC as <-;
                       apply filter_length_all in Hall; lia]|];
       split; discriminate).
Qed.

End DocsumFacts.

(** C3 (amended). For a writer set up by its constructor and any
    sequence of Override and SetDefaultOutputClass calls, over a
    configuration whose classes have distinct fields: resolveClassInfo
    returns, and it flags allGenerated exactly when the request names a
    class (by the class name, or by the default output class of the
    writer) and every field of that class has a generated override
    writer registered.  insertDocsum, as WriteDocsum calls it, leaves the
    summary store as it was for a flagged class (getMappedDocsum is not
    called), whatever the document id, the state and the outcome, and it
    reads the store once, for that document, in every other case: also
    when the request names no class and the class of the stored summary
    becomes the output class, whatever writers its fields have.  For any
    class info at all, insertDocsum reads the store exactly when
    allGenerated is not set. *)
Theorem C3_allGenerated_never_reads_store :
  forall (S : Type)
         (inplaceUnpack : option DocSummary.ResultClass -> string ->
                          option (list DocSummary.ResEntry))
         (config : DocSummary.ResultConfig) (numEnumValues : Z)
         (calls : list (Spec.SetupCall S))
         (summaryClass : string) (docid : Z) (state : S)
         (docinfos : DocSummary.IDocsumStore),
    (forall c, In c (DocSummary.classes config) -> Spec.distinctFields c) ->
    let w := Spec.setUp (DocSummary.DynamicDocsumWriter_new config numEnumValues) calls in
    exists rci,
      DocSummary.resolveClassInfo w summaryClass (DocSummary.getSummaryClassId docinfos)
      = Ok rci
      /\ DocSummary.WriteDocsum inplaceUnpack w summaryClass docid state docinfos
         = DocSummary.insertDocsum inplaceUnpack w rci docid state docinfos
      /\ (DocSummary.allGenerated rci = true <->
          exists oC, Spec.requestedClass w summaryClass = Some oC
                     /\ forall e, In e (DocSummary.entries oC) -> Spec.generated w e = true)
      /\ (DocSummary.allGenerated rci = true ->
          DocSummary.outputClass rci = Spec.requestedClass w summaryClass
          /\ fst (DocSummary.insertDocsum inplaceUnpack w rci docid state docinfos)
             = docinfos)
      /\ (DocSummary.allGenerated rci = false ->
          DocSummary.reads
            (fst (DocSummary.insertDocsum inplaceUnpack w rci docid state docinfos))
          = DocSummary.reads docinfos ++ [(docid, true)])
      /\ (forall i inC,
            DocSummary.LookupResultClassId config summaryClass
              (DocSummary._defaultOutputClass w) = DocSummary.NoClassID config ->
            DocSummary.LookupResultClass config (DocSummary.getSummaryClassId docinfos)
            = Some (i, inC) ->
            DocSummary.outputClass rci = Some inC
            /\ DocSummary.reads
                 (fst (DocSummary.insertDocsum inplaceUnpack w rci docid state docinfos))
               = DocSummary.reads docinfos ++ [(docid, true)])
      /\ (forall rci' docid' state' docinfos',
            (DocSummary.allGenerated rci' = true ->
             fst (DocSummary.insertDocsum inplaceUnpack w rci' docid' state' docinfos')
             = docinfos')
            /\ (DocSummary.allGenerated rci' = false ->
                DocSummary.reads
                  (fst (DocSummary.insertDocsum inplaceUnpack w rci' docid' state'
                          docinfos'))
                = DocSummary.reads docinfos' ++ [(docid', true)])).
Proof.
  intros S inplaceUnpack config numEnumValues calls summaryClass docid state docinfos ND w.
  destruct (writerInv_setUp (DocSummary.DynamicDocsumWriter_new config numEnumValues) calls
              (writerInv_new config numEnumValues)) as [Inv Hcfg].
  fold w in Inv, Hcfg. simpl in Hcfg.
  destruct (resolveClassInfo_spec w summaryClass (DocSummary.getSummaryClassId docinfos) Inv)
    as (rci & Hr & Hall & Hout & Hstored).
  { rewrite Hcfg. exact ND. }
  assert (Hnone : DocSummary.LookupResultClassId config summaryClass
                    (DocSummary._defaultOutputClass w) = DocSummary.NoClassID config ->
                  Spec.requestedClass w summaryClass = None).
  { intros Hid. unfold Spec.requestedClass. rewrite Hcfg, Hid, Z.eqb_refl. reflexivity. }
  exists rci. split; [exact Hr|].
  split; [unfold DocSummary.WriteDocsum; rewrite Hr; reflexivity|].
  split; [exact Hall|]. split; [|split; [|split]].
  4:{ intros rci' docid' state' docinfos'. split.
      - apply insertDocsum_generated.
      - apply insertDocsum_stored. }
  - intros Hg. split; [exact (Hout Hg)|]. apply insertDocsum_generated, Hg.
  - apply insertDocsum_stored.
  - intros i inC Hid Hin.
    assert (Hng : DocSummary.allGenerated rci = false).
    { destruct (DocSummary.allGenerated rci) eqn:Hg; [|reflexivity].
      destruct (proj1 Hall eq_refl) as (oC & HoC & _).
      rewrite (Hnone Hid) in HoC. discriminate. }
    split.
    + apply (Hstored (Hnone Hid) i inC); rewrite Hcfg; assumption.
    + apply insertDocsum_stored, Hng.
Qed.

(** C3 as the claim has it fails: in the sample configuration both
    fields of the class "default" have a generated writer, but a request
    for a class name the configuration does not know, on a writer
    without default output class, takes the class of the stored summary,
    which is that class, as output class without flagging it, and
    insertDocsum reads the store. *)
Lemma C3_counterexample :
  let w := Spec.overrideAll (DocSummary.DynamicDocsumWriter_new Sample.docsumConfig 2)
             [("distance"%string, Sample.constantWriter 42);
              ("title"%string, Sample.constantWriter 7)] in
  let default :=
    DocSummary.mkResultClass 0 "default"
      [DocSummary.mkResConfigEntry DocSummary.RES_INT "distance" 0;
       DocSummary.mkResConfigEntry DocSummary.RES_STRING "title" 1] in
  let rci :=
    DocSummary.mkResolveClassInfo false false 0 (Some default)
      (Some (DocSummary.mkDynamicInfo 2 2)) (Some default) in
  forallb (Spec.generated w) (DocSummary.entries default) = true
  /\ DocSummary.resolveClassInfo w "nosuch"
       (DocSummary.getSummaryClassId Sample.docsumStore) = Ok rci
  /\ DocSummary.reads
       (fst (DocSummary.insertDocsum Sample.unpackBlob w rci 3 tt Sample.docsumStore))
     = [(3, true)]
  /\ DocSummary.reads
       (fst (DocSummary.WriteDocsum Sample.unpackBlob w "nosuch" 3 tt Sample.docsumStore))
     = [(3, true)].
Proof.
  cbv zeta. repeat split; vm_compute; reflexivity.
Qed.

Lemma C3_allGenerated_never_reads_store_witness :
  (forall c, In c (DocSummary.classes Sample.docsumConfig) -> Spec.distinctFields c)
  /\ exists rci,
      DocSummary.resolveClassInfo
        (Spec.setUp (DocSummary.DynamicDocsumWriter_new Sample.docsumConfig 2)
           [Spec.CallOverride "distance" (Sample.constantWriter 42);
            Spec.CallSetDefaultOutputClass 0;
            Spec.CallOverride "title" (Sample.constantWriter 7)])
        "nosuch" (DocSummary.getSummaryClassId Sample.docsumStore) = Ok rci
      /\ DocSummary.allGenerated rci = true
      /\ fst (DocSummary.insertDocsum Sample.unpackBlob
                (Spec.setUp (DocSummary.DynamicDocsumWriter_new Sample.docsumConfig 2)
                   [Spec.CallOverride "distance" (Sample.constantWriter 42);
                    Spec.CallSetDefaultOutputClass 0;
                    Spec.CallOverride "title" (Sample.constantWriter 7)])
                rci 3 tt Sample.docsumStore)
         = Sample.docsumStore.
Proof.
  assert (ND : forall c, In c (DocSummary.classes Sample.docsumConfig) ->
                         Spec.distinctFields c).
  { intros c [<-|[]]. unfold Spec.distinctFields; simpl.
    repeat constructor; simpl; intuition discriminate. }
  split; [exact ND|].
  destruct (C3_allGenerated_never_reads_store unit Sample.unpackBlob
              Sample.docsumConfig 2
              [Spec.CallOverride "distance" (Sample.constantWriter 42);
               Spec.CallSetDefaultOutputClass 0;
               Spec.CallOverride "title" (Sample.constantWriter 7)]
              "nosuch"%string 3 tt Sample.docsumStore ND)
    as (rci & Hr & _ & _ & Hgen & _).
  exists rci. split; [exact Hr|].
  assert (Hg : DocSummary.allGenerated rci = true).
  { vm_compute in Hr. injection Hr as <-. reflexivity. }
  split; [exact Hg|].
  apply (proj2 (Hgen Hg)).
Defined.

(** The two branches on the sample configuration: with both fields
    generated the docsum is built and nothing is read; with "title"
    copied from the stored summary the store is read once. *)
Example WriteDocsum_generated :
  DocSummary.WriteDocsum Sample.unpackBlob
    (Spec.overrideAll (DocSummary.DynamicDocsumWriter_new Sample.docsumConfig 2)
       [("distance"%string, Sample.constantWriter 42);
        ("title"%string, Sample.constantWriter 7)])
    "default" 3 tt Sample.docsumStore
  = (Sample.docsumStore,
     Ok (DocSummary.SlimeObject
           [("distance"%string, DocSummary.SlimeLong 42);
            ("title"%string, DocSummary.SlimeLong 7)], tt)).
Proof. reflexivity. Qed.

Example WriteDocsum_stored :
  DocSummary.reads
    (fst (DocSummary.WriteDocsum Sample.unpackBlob
            (Spec.overrideAll (DocSummary.DynamicDocsumWriter_new Sample.docsumConfig 2)
               [("distance"%string, Sample.constantWriter 42);
                ("title"%string, Sample.copyWriter)])
            "default" 3 tt Sample.docsumStore))
  = [(3, true)].
Proof. reflexivity. Qed.

(** ** FieldPathUpdate: how often applyTo iterates the document *)

Section ApplyToFacts.
Import FieldPathUpdate.
Context {Document FieldPath IteratorHandler VariableMap : Type}.
Variable iterateNested :
  FieldPath -> IteratorHandler -> Document -> Document * IteratorHandler.
Variable setVariables : VariableMap -> IteratorHandler -> IteratorHandler.

Lemma applyTo_results_spec path results handler doc log :
  let '(final, steps) :=
    Spec.iteratePerBinding iterateNested setVariables path
      (Spec.trueBindings results) handler doc in
  exists handler',
    applyTo_results iterateNested setVariables path results handler doc log
    = (final, handler', log ++ steps).
Proof.
  revert handler doc log.
  induction results as [|[vars r] results IH]; intros handler doc log; simpl.
  - exists handler. now rewrite app_nil_r.
  - unfold Spec.trueBindings in *; simpl.
    destruct (Result_is_True r); simpl.
    + destruct (iterateNested path (setVariables vars handler) doc) as [doc' handler'].
      specialize (IH handler' doc' (log ++ [(path, setVariables vars handler, doc)])).
      destruct (Spec.iteratePerBinding _ _ _ _ handler' doc') as [final steps].
      destruct IH as [h IH]. exists h. rewrite IH, <- app_assoc. reflexivity.
    + apply IH.
Qed.

Lemma iteratePerBinding_length path bindings handler doc :
  length (snd (Spec.iteratePerBinding iterateNested setVariables path bindings handler doc))
  = length bindings.
Proof.
  revert handler doc; induction bindings as [|v bs IH]; intros handler doc; simpl;
    [reflexivity|].
  destruct (iterateNested path (setVariables v handler) doc) as [doc' handler'].
  specialize (IH handler' doc').
  destruct (Spec.iteratePerBinding _ _ _ _ handler' doc'). simpl in *. now rewrite IH.
Qed.

End ApplyToFacts.


(** ** vespa-get: validation of the command line *)

Section CommandLineFacts.
Import VespaGet.
Variable createNumber : string -> Throws Number.
Context {Priority : Type}.
Variable Priority_values : list Priority.
Variable Priority_getValue : Priority -> Z.
Variable NORMAL_2 : Priority.

Lemma isEmpty_true (s : string) : isEmpty s = true <-> s = EmptyString.
Proof. destruct s; simpl; split; intros H; try reflexivity; discriminate. Qed.

Lemma isEmpty_false (s : string) : isEmpty s = false <-> s <> EmptyString.
Proof.
  destruct s; simpl; split; intros H; try reflexivity; try discriminate.
  now contradiction H.
Qed.

Lemma getOptionValueOr_absent cl opt dflt :
  hasOption cl opt = false -> getOptionValueOr cl opt dflt = dflt.
Proof.
  unfold hasOption, getOptionValueOr, getOptionValue.
  destruct (findOption opt (options cl)); simpl; [discriminate|reflexivity].
Qed.

(** The outcomes of the body of the [try] block, by the way it ends. *)
Lemma parseCommandLine_cases stdIn cl :
  let r := parseCommandLine createNumber Priority_values Priority_getValue NORMAL_2
             stdIn cl in
  snd r = stdIn
  /\ ((exists e, fst r = Throw e)
      \/ (exists p, fst r = Return p
            /\ documentIds p = fst (getDocumentIds stdIn cl)
            /\ (hasOption cl PRINTIDS_OPTION && hasOption cl HEADERSONLY_OPTION = false)
            /\ (negb (isEmpty (getOptionValueOr cl CLUSTER_OPTION EmptyString))
                && negb (isEmpty (getOptionValueOr cl ROUTE_OPTION EmptyString)) = false)
            /\ route p =
               (if isEmpty (getOptionValueOr cl ROUTE_OPTION EmptyString)
                   && isEmpty (getOptionValueOr cl CLUSTER_OPTION EmptyString)
                then "default"%string else getOptionValueOr cl ROUTE_OPTION EmptyString))).
Proof.
  unfold parseCommandLine.
  destruct (tbind (getTrace createNumber cl) _) as [[[trace prio] tmo]|e]; simpl.
  2:{ split; [reflexivity|]. left. eauto. }
  unfold getDocumentIds.
  destruct (is_nil (getArgs cl) || _); simpl;
  (destruct (hasOption cl PRINTIDS_OPTION && hasOption cl HEADERSONLY_OPTION) eqn:E1;
     simpl; [split; [reflexivity|left; eauto]|];
   destruct ((hasOption cl PRINTIDS_OPTION || hasOption cl HEADERSONLY_OPTION)
             && negb (isEmpty (getOptionValueOr cl FIELDSET_OPTION EmptyString))) eqn:E2;
     simpl; [split; [reflexivity|left; eauto]|];
   destruct (negb (isEmpty (getOptionValueOr cl CLUSTER_OPTION EmptyString))
             && negb (isEmpty (getOptionValueOr cl ROUTE_OPTION EmptyString))) eqn:E3;
     simpl; [split; [reflexivity|left; eauto]|];
   destruct ((trace <? 0) || (9 <? trace)) eqn:E4;
     simpl; [split; [reflexivity|left; eauto]|];
   split; [reflexivity|]; right; eexists; split; [reflexivity|]; simpl; auto).
Qed.

End CommandLineFacts.

(** C8 (amended). Parsing reads nothing from the standard input and
    consumes none of the positional arguments: the stream is returned as
    it was and the parameters hold an iterator that has not been
    advanced.  Every failure is an IllegalArgumentException.  An argument
    vector with both --printids and --headersonly is rejected, and so is
    one that gives both --cluster and --route a non-empty value; when
    neither --cluster nor --route is given, parameters that are returned
    have the route "default". *)
Theorem C8_parseCommandLineArguments :
  forall (DefaultParser_parse : list string -> VespaGet.Throws VespaGet.CommandLine)
         (createNumber : string -> VespaGet.Throws VespaGet.Number)
         (Priority : Type) (Priority_values : list Priority)
         (Priority_getValue : Priority -> Z) (NORMAL_2 : Priority)
         (stdIn : VespaGet.InputStream) (args : list string),
    let out :=
      VespaGet.parseCommandLineArguments DefaultParser_parse createNumber
        Priority_values Priority_getValue NORMAL_2 stdIn args in
    snd out = stdIn
    /\ (forall e, fst out = VespaGet.Throw e ->
                  exists m, e = VespaGet.IllegalArgumentException m)
    /\ (forall cl, DefaultParser_parse args = VespaGet.Return cl ->
          VespaGet.hasOption cl VespaGet.PRINTIDS_OPTION = true ->
          VespaGet.hasOption cl VespaGet.HEADERSONLY_OPTION = true ->
          exists m, fst out = VespaGet.Throw (VespaGet.IllegalArgumentException m))
    /\ (forall cl, DefaultParser_parse args = VespaGet.Return cl ->
          VespaGet.getOptionValueOr cl VespaGet.CLUSTER_OPTION EmptyString <> EmptyString ->
          VespaGet.getOptionValueOr cl VespaGet.ROUTE_OPTION EmptyString <> EmptyString ->
          exists m, fst out = VespaGet.Throw (VespaGet.IllegalArgumentException m))
    /\ (forall cl p, DefaultParser_parse args = VespaGet.Return cl ->
          fst out = VespaGet.Return p ->
          VespaGet.hasOption cl VespaGet.CLUSTER_OPTION = false ->
          VespaGet.hasOption cl VespaGet.ROUTE_OPTION = false ->
          VespaGet.route p = "default"%string)
    /\ (forall p, fst out = VespaGet.Return p ->
          exists cl, DefaultParser_parse args = VespaGet.Return cl
                     /\ VespaGet.documentIds p = fst (VespaGet.getDocumentIds stdIn cl)).
Proof.
  intros. subst out. unfold VespaGet.parseCommandLineArguments.
  destruct (DefaultParser_parse args) as [cl|e0] eqn:Ep.
  - pose proof (parseCommandLine_cases createNumber Priority_values Priority_getValue
                  NORMAL_2 stdIn cl) as H. cbv zeta in H.
    destruct (VespaGet.parseCommandLine createNumber Priority_values Priority_getValue
                NORMAL_2 stdIn cl) as [r s]. simpl in H.
    destruct H as [-> [[e ->]|(p & -> & Hids & Hpi & Hcr & Hroute)]].
    + destruct e as [m|m]; simpl; repeat split.
      * intros e' He'. injection He' as <-. eauto.
      * intros; eauto.
      * intros; eauto.
      * intros cl' p _ Hr. discriminate.
      * intros p Hr. discriminate.
      * intros e' He'. injection He' as <-. eauto.
      * intros; eauto.
      * intros; eauto.
      * intros cl' p _ Hr. discriminate.
      * intros p Hr. discriminate.
    + simpl. repeat split.
      * intros e He. discriminate.
      * intros cl' Hcl' H1 H2. injection Hcl' as <-. rewrite H1, H2 in Hpi. discriminate.
      * intros cl' Hcl' H1 H2. injection Hcl' as <-.
        apply isEmpty_false in H1, H2. rewrite H1, H2 in Hcr. discriminate.
      * intros cl' p' Hcl' Hp' H1 H2. injection Hcl' as <-. injection Hp' as <-.
        rewrite Hroute, !getOptionValueOr_absent by assumption. reflexivity.
      * intros p' Hp'. injection Hp' as <-. exists cl. auto.
  - destruct e0 as [m|m]; simpl; repeat split;
      try (intros e He; injection He as <-; eauto);
      try (intros cl Hcl; discriminate);
      try (intros cl p Hcl; discriminate);
      try (intros p Hp; discriminate).
Qed.

(** C8 without the restriction to non-empty values fails on an argument vector that names both
    --cluster and --route but gives the cluster the empty value: both
    options are in the parsed command line, the call returns parameters,
    and their route is the one given. *)
Lemma C8_counterexample :
  In "--cluster"%string ["--cluster"; EmptyString; "--route"; "bar"; "id:doc:1"]%string
  /\ In "--route"%string ["--cluster"; EmptyString; "--route"; "bar"; "id:doc:1"]%string
  /\ (exists cl,
        Sample.parse ["--cluster"; EmptyString; "--route"; "bar"; "id:doc:1"]%string
        = VespaGet.Return cl
        /\ VespaGet.hasOption cl VespaGet.CLUSTER_OPTION = true
        /\ VespaGet.hasOption cl VespaGet.ROUTE_OPTION = true)
  /\ (exists p,
        Sample.parseCommandLineArguments ["line"%string]
          ["--cluster"; EmptyString; "--route"; "bar"; "id:doc:1"]%string
        = (VespaGet.Return p, ["line"%string])
        /\ VespaGet.route p = "bar"%string
        /\ VespaGet.cluster p = EmptyString).
Proof.
  split; [simpl; auto|]. split; [simpl; auto 6|]. split.
  - eexists. split; [reflexivity|]. split; reflexivity.
  - eexists. split; [reflexivity|]. split; reflexivity.
Qed.

(** The spec's three cases, run.  The stream is untouched in each. *)
Lemma C8_parseCommandLineArguments_witness :
  snd (Sample.parseCommandLineArguments ["id:doc:9"%string]
         ["--printids"; "--headersonly"]%string) = ["id:doc:9"%string]
  /\ (exists m, fst (Sample.parseCommandLineArguments ["id:doc:9"%string]
                       ["--printids"; "--headersonly"]%string)
                = VespaGet.Throw (VespaGet.IllegalArgumentException m))
  /\ (exists m, fst (Sample.parseCommandLineArguments ["id:doc:9"%string]
                       ["--cluster"; "foo"; "--route"; "bar"]%string)
                = VespaGet.Throw (VespaGet.IllegalArgumentException m))
  /\ (forall p, fst (Sample.parseCommandLineArguments ["id:doc:9"%string] [])
                = VespaGet.Return p ->
                VespaGet.route p = "default"%string).
Proof.
  pose proof (C8_parseCommandLineArguments Sample.parse Sample.createNumber Z
                Sample.priorities (fun p => p) 6 ["id:doc:9"%string]
                ["--printids"; "--headersonly"]%string) as H1.
  pose proof (C8_parseCommandLineArguments Sample.parse Sample.createNumber Z
                Sample.priorities (fun p => p) 6 ["id:doc:9"%string]
                ["--cluster"; "foo"; "--route"; "bar"]%string) as H2.
  pose proof (C8_parseCommandLineArguments Sample.parse Sample.createNumber Z
                Sample.priorities (fun p => p) 6 ["id:doc:9"%string] []) as H3.
  cbv zeta in H1, H2, H3.
  destruct H1 as (S1 & _ & P1 & _).
  destruct H2 as (_ & _ & _ & P2 & _).
  destruct H3 as (_ & _ & _ & _ & P3 & _).
  split; [exact S1|]. split; [|split].
  - eapply P1; reflexivity.
  - eapply P2; [reflexivity| |]; vm_compute; discriminate.
  - intros p Hp. eapply P3; [reflexivity|exact Hp| |]; reflexivity.
Defined.

(** ** AbsDistanceDFW: the distance that is written *)

Section DistanceFacts.
Import Positions.
Variable ZCurve_decode : Z -> Z * Z.

Lemma findMinDistance_loop_fold location pos i n absdist :
  (i + n <= length pos)%nat ->
  findMinDistance_loop ZCurve_decode location pos i n absdist
  = fold_left (Spec.closer ZCurve_decode location) (firstn n (skipn i pos)) absdist.
Proof.
  revert i absdist. induction n as [|n IH]; intros i absdist Hlen; simpl; [reflexivity|].
  rewrite IH by lia.
  destruct (skipn i pos) as [|v rest] eqn:Es.
  - assert (length (skipn i pos) = 0%nat) by (rewrite Es; reflexivity).
    rewrite length_skipn in H. lia.
  - assert (Hnth : nth i pos 0 = v).
    { rewrite <- (firstn_skipn i pos) at 1. rewrite Es.
      rewrite app_nth2; rewrite length_firstn; [|lia].
      replace (i - Nat.min i (length pos))%nat with 0%nat by lia. reflexivity. }
    assert (Hs : skipn (Datatypes.S i) pos = rest).
    { replace (Datatypes.S i) with (1 + i)%nat by lia.
      rewrite <- skipn_skipn, Es. reflexivity. }
    rewrite Hnth, Hs. simpl. reflexivity.
Qed.

Lemma attribute_get_fits values pos :
  (length values <= length pos)%nat ->
  attribute_get values pos
  = (wrap32 (Z.of_nat (length values)), values ++ skipn (length values) pos).
Proof.
  intros H. unfold attribute_get. now rewrite firstn_all2.
Qed.

Lemma attribute_get_short values pos :
  (length pos <= length values)%nat ->
  attribute_get values pos
  = (wrap32 (Z.of_nat (length values)), firstn (length pos) values).
Proof.
  intros H. unfold attribute_get. rewrite skipn_all2 by exact H.
  now rewrite app_nil_r.
Qed.

(** The two calls of [get] leave all the values in the buffer. *)
Lemma findMinDistance_fold docid state location :
  _parsedLocation state = Some location ->
  Z.of_nat (length (vec state docid)) < 2 ^ 32 ->
  findMinDistance ZCurve_decode docid state =
  match Double.to_uint64
          (Double.sqrt (Double.of_Z
             (fold_left (Spec.closer ZCurve_decode location) (vec state docid) INT64_MAX))) with
  | Some d => Ok d
  | None => Err (AssertionFailed "(uint64_t) std::sqrt((double) absdist)")
  end.
Proof.
  intros Hloc Hlen. unfold findMinDistance. rewrite Hloc.
  unfold deref. unfold bind at 1. cbv beta iota.
  set (values := vec state docid) in *.
  assert (Hw : wrap32 (Z.of_nat (length values)) = Z.of_nat (length values)).
  { unfold wrap32. apply Z.mod_small. lia. }
  clear Hlen.
  destruct (Nat.le_gt_cases (length values) 16) as [H16|H16].
  - rewrite attribute_get_fits by (rewrite repeat_length; exact H16).
    rewrite Hw.
    assert (Hl : length (values ++ skipn (length values) (repeat 0 16)) = 16%nat).
    { rewrite length_app, length_skipn, repeat_length. clear - H16. lia. }
    rewrite Hl.
    replace (Z.of_nat 16 <? Z.of_nat (length values)) with false
      by (symmetry; apply Z.ltb_ge; clear - H16; lia).
    unfold bind. cbv beta iota. rewrite Nat2Z.id.
    rewrite findMinDistance_loop_fold by (rewrite Hl; clear - H16; lia).
    rewrite skipn_O, firstn_app, firstn_all, Nat.sub_diag, firstn_O, app_nil_r.
    reflexivity.
  - rewrite attribute_get_short by (rewrite repeat_length; clear - H16; lia).
    rewrite Hw, repeat_length.
    assert (Hl : length (firstn 16 values) = 16%nat).
    { rewrite length_firstn. apply Nat.min_l. clear - H16. lia. }
    rewrite Hl.
    replace (Z.of_nat 16 <? Z.of_nat (length values)) with true
      by (symmetry; apply Z.ltb_lt; clear - H16; lia).
    rewrite Nat2Z.id.
    rewrite attribute_get_fits.
    2:{ rewrite length_app, repeat_length, Hl. clear - H16. lia. }
    rewrite Hw.
    assert (Hs : skipn (length values)
                   (firstn 16 values ++ repeat 0 (length values - 16)) = []).
    { apply skipn_all2. rewrite length_app, repeat_length, Hl. clear - H16. lia. }
    rewrite Hs, app_nil_r.
    replace (Z.of_nat (length values) <=? Z.of_nat (length values)) with true
      by (symmetry; apply Z.leb_refl).
    unfold assert, bind. cbv beta iota. rewrite Nat2Z.id.
    rewrite findMinDistance_loop_fold by (clear; lia).
    rewrite skipn_O, firstn_all. reflexivity.
Qed.

(** *** One position *)

Lemma to_int32_range z : - 2 ^ 31 <= to_int32 z < 2 ^ 31.
Proof.
  unfold to_int32. pose proof (Z.mod_pos_bound (z + 2 ^ 31) (2 ^ 32) ltac:(reflexivity)).
  change (2 ^ 32) with (2 * 2 ^ 31) in *. lia.
Qed.

(** Without aspect correction and with the location's coordinates in
    [int32_t], a round computes the squared planar distance modulo 2^64. *)
Lemma distance2_planar location docxy :
  getXAspect location = 0 ->
  - 2 ^ 31 <= getX location < 2 ^ 31 ->
  - 2 ^ 31 <= getY location < 2 ^ 31 ->
  distance2 ZCurve_decode location docxy
  = wrap64 (Spec.squaredDistance ZCurve_decode location docxy).
Proof.
  intros Ha Hx Hy. unfold distance2, Spec.squaredDistance, Spec.docX, Spec.docY.
  rewrite Ha. simpl negb. cbv iota.
  pose proof (to_int32_range (fst (ZCurve_decode docxy))) as Rx.
  pose proof (to_int32_range (snd (ZCurve_decode docxy))) as Ry.
  set (docx := to_int32 (fst (ZCurve_decode docxy))) in *.
  set (docy := to_int32 (snd (ZCurve_decode docxy))) in *.
  assert (Hdx : (if docx <? getX location then wrap32 (getX location - docx)
                 else wrap32 (docx - getX location))
                = Z.abs (getX location - docx)).
  { unfold wrap32. change (2 ^ 32) with (2 * 2 ^ 31).
    destruct (Z.ltb_spec docx (getX location)); rewrite Z.mod_small; lia. }
  assert (Hdy : (if docy <? getY location then wrap32 (getY location - docy)
                 else wrap32 (docy - getY location))
                = Z.abs (getY location - docy)).
  { unfold wrap32. change (2 ^ 32) with (2 * 2 ^ 31).
    destruct (Z.ltb_spec docy (getY location)); rewrite Z.mod_small; lia. }
  rewrite Hdx, Hdy. unfold wrap64.
  rewrite <- Z.add_mod by (intro; discriminate). reflexivity.
Qed.

Lemma squaredDistance_nonneg location docxy :
  0 <= Spec.squaredDistance ZCurve_decode location docxy.
Proof. unfold Spec.squaredDistance. nia. Qed.

Lemma closer_planar location absdist docxy :
  getXAspect location = 0 ->
  - 2 ^ 31 <= getX location < 2 ^ 31 ->
  - 2 ^ 31 <= getY location < 2 ^ 31 ->
  Spec.squaredDistance ZCurve_decode location docxy < 2 ^ 64 ->
  Spec.closer ZCurve_decode location absdist docxy
  = Z.min absdist (Spec.squaredDistance ZCurve_decode location docxy).
Proof.
  intros Ha Hx Hy Hs. unfold Spec.closer. rewrite distance2_planar by assumption.
  pose proof (squaredDistance_nonneg location docxy).
  unfold wrap64. rewrite Z.mod_small by lia.
  destruct (Z.ltb_spec (Spec.squaredDistance ZCurve_decode location docxy) absdist); lia.
Qed.

Lemma fold_closer_min location values absdist :
  getXAspect location = 0 ->
  - 2 ^ 31 <= getX location < 2 ^ 31 ->
  - 2 ^ 31 <= getY location < 2 ^ 31 ->
  (forall v, In v values -> Spec.squaredDistance ZCurve_decode location v < 2 ^ 64) ->
  fold_left (Spec.closer ZCurve_decode location) values absdist
  = fold_left Z.min (map (Spec.squaredDistance ZCurve_decode location) values) absdist.
Proof.
  intros Ha Hx Hy. revert absdist.
  induction values as [|v values IH]; intros absdist Hall; simpl; [reflexivity|].
  rewrite closer_planar; auto; [|apply Hall; now left].
  apply IH. intros w Hw. apply Hall. now right.
Qed.

Lemma fold_min_le (l : list Z) (a : Z) : fold_left Z.min l a <= a.
Proof.
  revert a; induction l as [|x l IH]; intros a; simpl; [lia|].
  specialize (IH (Z.min a x)). lia.
Qed.

Lemma fold_min_sqrt (l : list Z) (a : Z) :
  Z.sqrt (fold_left Z.min l a) = fold_left Z.min (map Z.sqrt l) (Z.sqrt a).
Proof.
  revert a; induction l as [|x l IH]; intros a; simpl; [reflexivity|].
  rewrite IH. f_equal.
  destruct (Z.le_ge_cases a x) as [H|H].
  - rewrite Z.min_l by assumption. rewrite Z.min_l; [reflexivity|].
    now apply Z.sqrt_le_mono.
  - rewrite Z.min_r by lia. rewrite Z.min_r; [reflexivity|].
    apply Z.sqrt_le_mono. lia.
Qed.

Lemma fold_min_absorb (l : list Z) (x a : Z) :
  x <= a -> fold_left Z.min l (Z.min a x) = fold_left Z.min l x.
Proof. intros H. now rewrite Z.min_r. Qed.

(** The accumulator after the loop, when at least one position is
    nearer than the initial value. *)
Lemma fold_min_from_max (l : list Z) (a : Z) :
  l <> [] -> (forall x, In x l -> x <= a) ->
  fold_left Z.min l a = Spec.minimum a l.
Proof.
  intros Hne Hall. destruct l as [|x l]; [contradiction|]. simpl.
  rewrite Z.min_r; [reflexivity|]. apply Hall. now left.
Qed.


Lemma fold_min_ge (l : list Z) (a b : Z) :
  b <= a -> (forall x, In x l -> b <= x) -> b <= fold_left Z.min l a.
Proof.
  revert a; induction l as [|x l IH]; intros a Ha Hall; simpl; [exact Ha|].
  apply IH.
  - specialize (Hall x (or_introl eq_refl)). lia.
  - intros y Hy. apply Hall. now right.
Qed.

(** *** insertField: when the field is forced empty and when it is not *)

Lemma location_given (s : string) :
  s <> EmptyString -> (0 <? Z.of_nat (String.length s)) = true.
Proof. destruct s; [contradiction|]. intros _. apply Z.ltb_lt. simpl. lia. Qed.

Lemma insertField_no_location docid state type :
  args_getLocation state = EmptyString ->
  insertField ZCurve_decode docid state type = Ok ([], state).
Proof. intros H. unfold insertField. rewrite H. reflexivity. Qed.

Lemma resolved_state state location :
  Spec.locationOf state = Some location ->
  (if is_null (_parsedLocation state) then ParseLocation state else state)
  = Spec.withLocation state location.
Proof.
  unfold Spec.locationOf, Spec.withLocation, ParseLocation.
  destruct state as [a pl cb v]; simpl.
  destruct pl as [loc|]; simpl; intros H.
  - now injection H as ->.
  - now rewrite H.
Qed.

Lemma insertField_parse_error docid state type location err :
  args_getLocation state <> EmptyString ->
  Spec.locationOf state = Some location ->
  getParseError location = Some err ->
  insertField ZCurve_decode docid state type
  = Ok ([], Spec.withLocation state location).
Proof.
  intros Hs Hl He. unfold insertField.
  rewrite (location_given _ Hs), (resolved_state _ _ Hl).
  change (_parsedLocation (Spec.withLocation state location)) with (Some location).
  cbv beta iota. rewrite He. reflexivity.
Qed.

Lemma insertField_parsed docid state type location :
  Spec.parsedLocation state location ->
  insertField ZCurve_decode docid state type
  = (absdist <- findMinDistance ZCurve_decode docid (Spec.withLocation state location) ;;
     Ok (Spec.insertsDistance type absdist, Spec.withLocation state location)).
Proof.
  intros (Hs & Hl & He). unfold insertField.
  rewrite (location_given _ Hs), (resolved_state _ _ Hl).
  change (_parsedLocation (Spec.withLocation state location)) with (Some location).
  cbv beta iota. rewrite He. unfold is_null, bind at 1. cbv beta iota.
  destruct (findMinDistance _ _ _) as [absdist|f]; [|reflexivity].
  unfold bind. destruct type; reflexivity.
Qed.

(** *** The distance to the nearest of the stored positions *)

Lemma fold_min_le_In (l : list Z) (a x : Z) :
  In x l -> fold_left Z.min l a <= x.
Proof.
  revert a; induction l as [|y l IH]; intros a Hin; [contradiction|]. simpl.
  destruct Hin as [->|Hin].
  - pose proof (fold_min_le l (Z.min a x)). lia.
  - apply IH, Hin.
Qed.

Lemma fold_min_assoc (l : list Z) (a b : Z) :
  fold_left Z.min l (Z.min a b) = Z.min a (fold_left Z.min l b).
Proof.
  revert b; induction l as [|x l IH]; intros b; simpl; [reflexivity|].
  rewrite <- Z.min_assoc. apply IH.
Qed.

Lemma findMinDistance_nearest docid state location :
  _parsedLocation state = Some location ->
  getXAspect location = 0 ->
  - 2 ^ 31 <= getX location < 2 ^ 31 ->
  - 2 ^ 31 <= getY location < 2 ^ 31 ->
  Z.of_nat (length (vec state docid)) < 2 ^ 32 ->
  (forall p, In p (vec state docid) ->
             Spec.squaredDistance ZCurve_decode location p < 2 ^ 64) ->
  (exists p, In p (vec state docid)
             /\ Spec.squaredDistance ZCurve_decode location p < 2 ^ 52) ->
  findMinDistance ZCurve_decode docid state
  = Ok (Spec.minimum 0 (map (Spec.floorDistance ZCurve_decode location) (vec state docid))).
Proof.
  intros Hloc Ha Hx Hy Hlen Hall (near & Hnear & Hnear52).
  rewrite (findMinDistance_fold docid state location Hloc Hlen).
  set (positions := vec state docid) in *.
  assert (H52 : 2 ^ 52 < INT64_MAX) by reflexivity.
  rewrite fold_closer_min; auto.
  destruct positions as [|p rest] eqn:Ep; [contradiction|].
  pose proof (squaredDistance_nonneg location p) as Hp0.
  simpl map. simpl fold_left at 1.
  rewrite fold_min_assoc.
  set (m := fold_left Z.min _ (Spec.squaredDistance ZCurve_decode location p)).
  assert (Hm : 0 <= m < 2 ^ 52).
  { split.
    - apply fold_min_ge; [exact Hp0|].
      intros x Hx'. apply in_map_iff in Hx'. destruct Hx' as (v & <- & _).
      apply squaredDistance_nonneg.
    - apply Z.le_lt_trans with (Spec.squaredDistance ZCurve_decode location near);
        [|exact Hnear52].
      destruct Hnear as [<-|Hin].
      + apply fold_min_le.
      + apply fold_min_le_In, in_map, Hin. }
  rewrite Z.min_r by lia.
  rewrite (sqrt_of_Z_floor m Hm). f_equal.
  unfold m. rewrite fold_min_sqrt, map_map. reflexivity.
Qed.

End DistanceFacts.

(** C4 (amended). Without a location string, or when the location did
    not parse, insertField writes nothing.  With a parsed location without
    aspect correction, stored positions whose squared planar distance
    dx^2 + dy^2 fits the uint64_t it is computed in, and the nearest of
    them at a squared distance below 2^52, the writer produces the least
    of the values floor(sqrt(dx^2 + dy^2)) over all the positions,
    however far the other ones are: for one position that value itself.
    The squared distance fits whenever the two coordinate differences
    fit int32_t. *)
Theorem C4_AbsDistanceDFW :
  forall (ZCurve_decode : Z -> Z * Z) (docid : Z)
         (state : Positions.GetDocsumsState) (location : Positions.Location),
    (forall type, Positions.args_getLocation state = EmptyString ->
       Positions.insertField ZCurve_decode docid state type = Ok ([], state))
    /\ (forall type err,
          Positions.args_getLocation state <> EmptyString ->
          Spec.locationOf state = Some location ->
          Positions.getParseError location = Some err ->
          Positions.insertField ZCurve_decode docid state type
          = Ok ([], Spec.withLocation state location))
    /\ (Spec.parsedLocation state location ->
        Positions.getXAspect location = 0 ->
        - 2 ^ 31 <= Positions.getX location < 2 ^ 31 ->
        - 2 ^ 31 <= Positions.getY location < 2 ^ 31 ->
        Z.of_nat (length (Positions.vec state docid)) < 2 ^ 32 ->
        (forall p, In p (Positions.vec state docid) ->
                   Spec.squaredDistance ZCurve_decode location p < 2 ^ 64) ->
        (exists p, In p (Positions.vec state docid)
                   /\ Spec.squaredDistance ZCurve_decode location p < 2 ^ 52) ->
        let nearest :=
          Spec.minimum 0
            (map (Spec.floorDistance ZCurve_decode location) (Positions.vec state docid)) in
        Positions.findMinDistance ZCurve_decode docid (Spec.withLocation state location)
        = Ok nearest
        /\ (forall type,
              Positions.insertField ZCurve_decode docid state type
              = Ok (Spec.insertsDistance type nearest, Spec.withLocation state location))
        /\ Positions.insertField ZCurve_decode docid state DocSummary.RES_INT
           = Ok ([DocSummary.SlimeLong nearest], Spec.withLocation state location)
        /\ (forall p, Positions.vec state docid = [p] ->
                      nearest = Spec.floorDistance ZCurve_decode location p))
    /\ (forall p,
          Z.abs (Positions.getX location - Spec.docX ZCurve_decode p) < 2 ^ 31 ->
          Z.abs (Positions.getY location - Spec.docY ZCurve_decode p) < 2 ^ 31 ->
          Spec.squaredDistance ZCurve_decode location p < 2 ^ 64).
Proof.
  intros. split; [|split; [|split]].
  4:{ intros p Hdx Hdy. unfold Spec.squaredDistance.
      pose proof (Z.abs_nonneg (Positions.getX location - Spec.docX ZCurve_decode p)).
      pose proof (Z.abs_nonneg (Positions.getY location - Spec.docY ZCurve_decode p)).
      assert (H64 : 2 ^ 31 * 2 ^ 31 + 2 ^ 31 * 2 ^ 31 < 2 ^ 64) by reflexivity.
      nia. }
  - intros type H. now apply insertField_no_location.
  - intros type err Hs Hl He. eapply insertField_parse_error; eauto.
  - intros Hparsed Ha Hx Hy Hlen Hall Hnear nearest.
    assert (Hfind : Positions.findMinDistance ZCurve_decode docid
                      (Spec.withLocation state location) = Ok nearest).
    { apply (findMinDistance_nearest ZCurve_decode docid
               (Spec.withLocation state location) location); auto. }
    assert (Hins : forall type,
               Positions.insertField ZCurve_decode docid state type
               = Ok (Spec.insertsDistance type nearest, Spec.withLocation state location)).
    { intros type.
      rewrite (insertField_parsed ZCurve_decode docid state _ location Hparsed), Hfind.
      reflexivity. }
    split; [exact Hfind|]. split; [exact Hins|]. split.
    + apply (Hins DocSummary.RES_INT).
    + intros p Hp. unfold nearest. rewrite Hp. reflexivity.
Qed.

(** C4 without the bound on the distance fails for one stored position:
    from 2^52 on the double root can round up to the next integer.  With
    the position (0, 0) and the query location (67117698, 11586) the
    squared distance is 67117699^2 - 1; the writer gives 67117699, the
    floor of the root is 67117698. *)
Lemma C4_counterexample :
  Positions.findMinDistance Sample.zcurveDecode 1
    (Spec.withLocation
       (Sample.geoState 67117698 11586 (fun _ => [Sample.zcurveEncode 0 0]))
       (Positions.mkLocation 67117698 11586 0 None))
  = Ok 67117699
  /\ Spec.squaredDistance Sample.zcurveDecode (Positions.mkLocation 67117698 11586 0 None)
       (Sample.zcurveEncode 0 0) = 67117699 * 67117699 - 1
  /\ Spec.floorDistance Sample.zcurveDecode (Positions.mkLocation 67117698 11586 0 None)
       (Sample.zcurveEncode 0 0) = 67117698
  /\ Positions.insertField Sample.zcurveDecode 1
       (Sample.geoState 67117698 11586 (fun _ => [Sample.zcurveEncode 0 0]))
       DocSummary.RES_INT
     = Ok ([DocSummary.SlimeLong 67117699],
           Spec.withLocation
             (Sample.geoState 67117698 11586 (fun _ => [Sample.zcurveEncode 0 0]))
             (Positions.mkLocation 67117698 11586 0 None)).
Proof. repeat split; vm_compute; reflexivity. Qed.

(** A document with the positions (100000000, 0) and (3, 4) and the
    query location (0, 0): the distance written is 5, although the
    squared distance of the first position is above 2^52. *)
Lemma C4_AbsDistanceDFW_witness :
  Positions.findMinDistance Sample.zcurveDecode 1
    (Spec.withLocation
       (Sample.geoState 0 0
          (fun _ => [Sample.zcurveEncode 100000000 0; Sample.zcurveEncode 3 4]))
       (Positions.mkLocation 0 0 0 None))
  = Ok 5.
Proof.
  destruct (C4_AbsDistanceDFW Sample.zcurveDecode 1
              (Sample.geoState 0 0
                 (fun _ => [Sample.zcurveEncode 100000000 0; Sample.zcurveEncode 3 4]))
              (Positions.mkLocation 0 0 0 None)) as (_ & _ & H & _).
  refine (proj1 (H _ _ _ _ _ _ _)).
  - repeat split; discriminate.
  - reflexivity.
  - simpl; lia.
  - simpl; lia.
  - simpl; lia.
  - intros p [<-|[<-|[]]]; vm_compute; reflexivity.
  - exists (Sample.zcurveEncode 3 4). split; [right; left; reflexivity|].
    vm_compute. reflexivity.
Defined.

(** ** AbsDistanceDFW: a document without stored positions *)

Lemma findMinDistance_no_positions ZCurve_decode docid state location :
  Positions._parsedLocation state = Some location ->
  Positions.vec state docid = [] ->
  Positions.findMinDistance ZCurve_decode docid state = Ok 3037000499.
Proof.
  intros Hloc Hvec.
  rewrite (findMinDistance_fold ZCurve_decode docid state location Hloc).
  - rewrite Hvec. vm_compute. reflexivity.
  - rewrite Hvec. reflexivity.
Qed.

(** C10 (amended). For a document without stored positions and a query
    location that parsed, the distance the writer computes is 3037000499,
    the floor of the square root of 2^63 - 1, the initial value of the
    accumulator.  It is inserted as a long for the result type int and as
    its decimal digits for the string and data types; for the other
    result types nothing is inserted. *)
Theorem C10_no_stored_positions :
  forall (ZCurve_decode : Z -> Z * Z) (docid : Z)
         (state : Positions.GetDocsumsState) (location : Positions.Location)
         (type : DocSummary.ResType),
    Spec.parsedLocation state location ->
    Positions.vec state docid = [] ->
    Positions.findMinDistance ZCurve_decode docid (Spec.withLocation state location)
    = Ok 3037000499
    /\ Positions.insertField ZCurve_decode docid state type
       = Ok (Spec.insertsDistance type 3037000499, Spec.withLocation state location)
    /\ Spec.insertsDistance DocSummary.RES_INT 3037000499
       = [DocSummary.SlimeLong 3037000499]
    /\ Spec.insertsDistance DocSummary.RES_STRING 3037000499
       = [DocSummary.SlimeString "3037000499"]
    /\ Z.sqrt INT64_MAX = 3037000499
    /\ INT64_MAX = 2 ^ 63 - 1.
Proof.
  intros ZCurve_decode docid state location type Hparsed Hvec.
  assert (Hfind : Positions.findMinDistance ZCurve_decode docid
                    (Spec.withLocation state location) = Ok 3037000499).
  { apply (findMinDistance_no_positions ZCurve_decode docid _ location);
      [reflexivity|exact Hvec]. }
  split; [exact Hfind|]. split.
  - rewrite (insertField_parsed ZCurve_decode docid state type location Hparsed), Hfind.
    reflexivity.
  - repeat split; vm_compute; reflexivity.
Qed.

Lemma C10_no_stored_positions_witness :
  Positions.insertField Sample.zcurveDecode 2
    (Sample.geoState 10 20 (fun docid => if docid =? 1 then [Sample.zcurveEncode 3 4] else []))
    DocSummary.RES_INT
  = Ok ([DocSummary.SlimeLong 3037000499],
        Spec.withLocation
          (Sample.geoState 10 20
             (fun docid => if docid =? 1 then [Sample.zcurveEncode 3 4] else []))
          (Positions.mkLocation 10 20 0 None)).
Proof.
  refine (proj1 (proj2 (C10_no_stored_positions Sample.zcurveDecode 2
            (Sample.geoState 10 20
               (fun docid => if docid =? 1 then [Sample.zcurveEncode 3 4] else []))
            (Positions.mkLocation 10 20 0 None) DocSummary.RES_INT _ _))).
  - repeat split; discriminate.
  - reflexivity.
Defined.

(** C10 without the restriction on the result type fails for a field of result type float: the
    document has no stored positions, the location parsed, and nothing is
    inserted. *)
Lemma C10_counterexample :
  Positions.vec (Sample.geoState 10 20 (fun _ => [])) 2 = []
  /\ Spec.locationOf (Sample.geoState 10 20 (fun _ => []))
     = Some (Positions.mkLocation 10 20 0 None)
  /\ Positions.insertField Sample.zcurveDecode 2 (Sample.geoState 10 20 (fun _ => []))
       DocSummary.RES_FLOAT
     = Ok ([], Spec.withLocation (Sample.geoState 10 20 (fun _ => []))
                 (Positions.mkLocation 10 20 0 None)).
Proof. repeat split. Qed.

(** ** WriteableFileChunk: append and the roll-over of the active chunk *)

Section AppendFacts.
Import FileChunk.
Variable hasRoom : Chunk -> Z -> bool.
Variable getChunkIdLimit : Z.
Variable setSerialNum : Z -> Z -> Z.
Variable adjustSize : Z -> Z.
Variable getMaxChunkBytes : Z.
Variable getFileId : Z.
Hypothesis setSerialNum_same : forall cur, setSerialNum cur cur = cur.

Lemma to_int32_small z : 0 <= z < 2 ^ 31 -> to_int32 z = z /\ wrap32 z = z.
Proof.
  intros H. unfold to_int32, wrap32. change (2 ^ 32) with (2 * 2 ^ 31).
  split; rewrite Z.mod_small; lia.
Qed.

(** The flush that append asks for, with the serial number the instance
    already has: it never forces an empty chunk out. *)
Lemma flush_nonblocking_own_serial (s : WriteableFileChunk) :
  flush_nonblocking getChunkIdLimit setSerialNum getMaxChunkBytes (_serialNum s) s =
  if 1000 <? Z.of_nat (length (_chunkMap s)) then
    Err (WouldBlock "Summary write overload at least 1000 outstanding chunks")
  else if empty (_active s) then Ok s
  else if _nextChunkId s <? getChunkIdLimit then
    if 0 <=? to_int32 (getId (_active s)) then
      Ok (with_executor
            (_executor s ++ [InternalFlush (wrap32 (to_int32 (getId (_active s))))
                               (_serialNum s)])
            (with_nextChunkId (wrap32 (_nextChunkId s + 1))
               (with_active (newChunk (_nextChunkId s) getMaxChunkBytes)
                  (with_chunkMap
                     (OrderedMap.assign (wrap32 (to_int32 (getId (_active s))))
                        (_active s) (_chunkMap s))
                     s))))
    else
      Ok (with_nextChunkId (wrap32 (_nextChunkId s + 1))
            (with_active (newChunk (_nextChunkId s) getMaxChunkBytes)
               (with_chunkMap
                  (OrderedMap.assign (wrap32 (to_int32 (getId (_active s))))
                     (_active s) (_chunkMap s))
                  s)))
  else Err (AssertionFailed "_nextChunkId < LidInfo::getChunkIdLimit()").
Proof.
  unfold flush_nonblocking, flushLastIfNonEmpty. rewrite Z.ltb_irrefl.
  destruct (1000 <? Z.of_nat (length (_chunkMap s))); [reflexivity|].
  destruct s as [sn fr df cm pc nci act al fc wt wq oc ex ci lp ab wl]; simpl.
  destruct (empty act); simpl; [reflexivity|].
  destruct (nci <? getChunkIdLimit); simpl; [|reflexivity].
  destruct (0 <=? to_int32 (getId act)); simpl; [|reflexivity].
  rewrite setSerialNum_same. reflexivity.
Qed.

Lemma flush_nonblocking_serial (s s' : WriteableFileChunk) :
  flush_nonblocking getChunkIdLimit setSerialNum getMaxChunkBytes (_serialNum s) s = Ok s' ->
  _serialNum s' = _serialNum s /\ _frozen s' = _frozen s /\ _addedBytes s' = _addedBytes s.
Proof.
  rewrite flush_nonblocking_own_serial.
  destruct (1000 <? _); [discriminate|].
  destruct (empty _); [intros H; injection H as <-; auto|].
  destruct (_ <? getChunkIdLimit); [|discriminate].
  destruct (0 <=? _); intros H; injection H as <-; auto.
Qed.

(** append once its first assertion has passed and the flush, if one was
    needed, has returned. *)
Lemma append_after_flush serialNum lid buffer (s s' : WriteableFileChunk) :
  _frozen s = false ->
  (if negb (hasRoom (_active s) (Z.of_nat (length buffer)))
   then flush_nonblocking getChunkIdLimit setSerialNum getMaxChunkBytes (_serialNum s) s
   else Ok s) = Ok s' ->
  _serialNum s <= serialNum ->
  append hasRoom getChunkIdLimit setSerialNum adjustSize getMaxChunkBytes getFileId
    serialNum lid buffer s
  = Ok (mkLidInfo getFileId (getId (_active s')) (Z.of_nat (length buffer)),
        Spec.appended adjustSize serialNum lid buffer s').
Proof.
  intros Hfr Hflush Hser. unfold append. rewrite Hfr. simpl assert. unfold bind at 1.
  rewrite Hflush. unfold bind at 1.
  assert (Hs' : _serialNum s' = _serialNum s).
  { destruct (negb _); [now apply flush_nonblocking_serial in Hflush|].
    now injection Hflush as <-. }
  rewrite Hs'. replace (_serialNum s <=? serialNum) with true
    by (symmetry; apply Z.leb_le; exact Hser).
  reflexivity.
Qed.

End AppendFacts.

(** C9 (amended). append asserts that the instance is not frozen and
    that the serial number is not below the instance's.  On a frozen
    instance the first assertion fails; on one that is not frozen, with a
    serial number not below the current one, neither assertion of append
    fails.  If the bytes fit, they are appended to the active chunk.  If
    they do not fit and the active chunk holds entries, the chunk is
    rolled over without blocking (it goes into the chunk map, a packing
    task goes to the executor, a fresh chunk with the next id becomes
    active) and the bytes are appended to the fresh chunk; this needs at
    most 1000 chunks in flight and a next chunk id below the limit.  An
    active chunk without entries is not rolled over: the bytes are
    appended to it.  With a serial number below the current one the call
    does not return. *)
Theorem C9_append :
  forall (hasRoom : FileChunk.Chunk -> Z -> bool) (getChunkIdLimit : Z)
         (setSerialNum : Z -> Z -> Z) (adjustSize : Z -> Z)
         (getMaxChunkBytes getFileId : Z)
         (serialNum lid : Z) (buffer : list FileChunk.byte)
         (s : FileChunk.WriteableFileChunk),
    (forall cur, setSerialNum cur cur = cur) ->
    let len := Z.of_nat (length buffer) in
    let result :=
      FileChunk.append hasRoom getChunkIdLimit setSerialNum adjustSize
        getMaxChunkBytes getFileId serialNum lid buffer s in
    (FileChunk._frozen s = true -> result = Err (AssertionFailed "!frozen()"))
    /\ (FileChunk._frozen s = false -> FileChunk._serialNum s <= serialNum ->
        result <> Err (AssertionFailed "!frozen()")
        /\ result <> Err (AssertionFailed "serialNum >= _serialNum")
        /\ (hasRoom (FileChunk._active s) len = true ->
            result = Ok (FileChunk.mkLidInfo getFileId
                           (FileChunk.getId (FileChunk._active s)) len,
                         Spec.appended adjustSize serialNum lid buffer s))
        /\ (hasRoom (FileChunk._active s) len = false ->
            FileChunk.empty (FileChunk._active s) = false ->
            Z.of_nat (length (FileChunk._chunkMap s)) <= 1000 ->
            FileChunk._nextChunkId s < getChunkIdLimit ->
            0 <= FileChunk.getId (FileChunk._active s) < 2 ^ 31 ->
            result = Ok (FileChunk.mkLidInfo getFileId (FileChunk._nextChunkId s) len,
                         Spec.appended adjustSize serialNum lid buffer
                           (Spec.rolledOver getMaxChunkBytes s)))
        /\ (hasRoom (FileChunk._active s) len = false ->
            FileChunk.empty (FileChunk._active s) = true ->
            Z.of_nat (length (FileChunk._chunkMap s)) <= 1000 ->
            result = Ok (FileChunk.mkLidInfo getFileId
                           (FileChunk.getId (FileChunk._active s)) len,
                         Spec.appended adjustSize serialNum lid buffer s)))
    /\ (FileChunk._frozen s = false -> serialNum < FileChunk._serialNum s ->
        forall r, result <> Ok r).
Proof.
  intros hasRoom getChunkIdLimit setSerialNum adjustSize getMaxChunkBytes getFileId
    serialNum lid buffer s Hset len result.
  pose proof (flush_nonblocking_own_serial getChunkIdLimit setSerialNum
                getMaxChunkBytes Hset s) as Hflush.
  split; [|split].
  - intros Hfr. unfold result, FileChunk.append. rewrite Hfr. reflexivity.
  - intros Hfr Hser.
    assert (Hroom : hasRoom (FileChunk._active s) len = true ->
                    result = Ok (FileChunk.mkLidInfo getFileId
                                   (FileChunk.getId (FileChunk._active s)) len,
                                 Spec.appended adjustSize serialNum lid buffer s)).
    { intros Hr. unfold result.
      apply (append_after_flush hasRoom getChunkIdLimit setSerialNum adjustSize
               getMaxChunkBytes getFileId Hset serialNum lid buffer s s Hfr);
        [|exact Hser].
      fold len. rewrite Hr. reflexivity. }
    assert (Hroll : hasRoom (FileChunk._active s) len = false ->
                    FileChunk.empty (FileChunk._active s) = false ->
                    Z.of_nat (length (FileChunk._chunkMap s)) <= 1000 ->
                    FileChunk._nextChunkId s < getChunkIdLimit ->
                    0 <= FileChunk.getId (FileChunk._active s) < 2 ^ 31 ->
                    result = Ok (FileChunk.mkLidInfo getFileId (FileChunk._nextChunkId s) len,
                                 Spec.appended adjustSize serialNum lid buffer
                                   (Spec.rolledOver getMaxChunkBytes s))).
    { intros Hr He Hm Hn Hid. unfold result.
      destruct (to_int32_small _ Hid) as [Hi Hw].
      rewrite (append_after_flush hasRoom getChunkIdLimit setSerialNum adjustSize
                 getMaxChunkBytes getFileId Hset serialNum lid buffer s
                 (Spec.rolledOver getMaxChunkBytes s) Hfr); [reflexivity| |exact Hser].
      fold len. rewrite Hr. simpl negb. cbv iota. rewrite Hflush.
      replace (1000 <? Z.of_nat (length (FileChunk._chunkMap s))) with false
        by (symmetry; apply Z.ltb_ge; exact Hm).
      rewrite He.
      replace (FileChunk._nextChunkId s <? getChunkIdLimit) with true
        by (symmetry; apply Z.ltb_lt; exact Hn).
      rewrite Hi, Hw.
      replace (0 <=? FileChunk.getId (FileChunk._active s)) with true
        by (symmetry; apply Z.leb_le; lia).
      reflexivity. }
    assert (Hkeep : hasRoom (FileChunk._active s) len = false ->
                    FileChunk.empty (FileChunk._active s) = true ->
                    Z.of_nat (length (FileChunk._chunkMap s)) <= 1000 ->
                    result = Ok (FileChunk.mkLidInfo getFileId
                                   (FileChunk.getId (FileChunk._active s)) len,
                                 Spec.appended adjustSize serialNum lid buffer s)).
    { intros Hr He Hm. unfold result.
      apply (append_after_flush hasRoom getChunkIdLimit setSerialNum adjustSize
               getMaxChunkBytes getFileId Hset serialNum lid buffer s s Hfr);
        [|exact Hser].
      fold len. rewrite Hr. simpl negb. cbv iota. rewrite Hflush.
      replace (1000 <? Z.of_nat (length (FileChunk._chunkMap s))) with false
        by (symmetry; apply Z.ltb_ge; exact Hm).
      rewrite He. reflexivity. }
    assert (Hcases :
              (exists r, result = Ok r)
              \/ result = Err (WouldBlock "Summary write overload at least 1000 outstanding chunks")
              \/ result = Err (AssertionFailed "_nextChunkId < LidInfo::getChunkIdLimit()")).
    { destruct (hasRoom (FileChunk._active s) len) eqn:Hr.
      - left. eexists. apply Hroom. reflexivity.
      - destruct (FileChunk.flush_nonblocking getChunkIdLimit setSerialNum
                    getMaxChunkBytes (FileChunk._serialNum s) s) as [s'|f] eqn:Ef.
        + left. eexists. unfold result.
          apply (append_after_flush hasRoom getChunkIdLimit setSerialNum adjustSize
                   getMaxChunkBytes getFileId Hset serialNum lid buffer s s' Hfr);
            [|exact Hser].
          fold len. rewrite Hr. exact Ef.
        + assert (Hres : result = Err f).
          { unfold result, FileChunk.append. rewrite Hfr. simpl assert.
            unfold bind at 1. fold len. rewrite Hr. simpl negb. cbv iota.
            rewrite Ef. reflexivity. }
          rewrite Hres. right. clear Hres Ef. revert Hflush.
          destruct (1000 <? _);
            [intros E; injection E as ->; left; reflexivity|].
          destruct (FileChunk.empty _); [discriminate|].
          destruct (_ <? getChunkIdLimit).
          * destruct (0 <=? _); discriminate.
          * intros E; injection E as ->. right; reflexivity. }
    split; [|split; [|split; [exact Hroom|split; [exact Hroll|exact Hkeep]]]].
    + destruct Hcases as [[r ->]|[->| ->]]; discriminate.
    + destruct Hcases as [[r ->]|[->| ->]]; discriminate.
  - intros Hfr Hser r. unfold result, FileChunk.append. rewrite Hfr.
    simpl assert. unfold bind at 1. fold len.
    destruct (if negb (hasRoom (FileChunk._active s) len) then _ else _)
      as [s'|f] eqn:Ef; [|discriminate].
    unfold bind at 1.
    assert (Hs' : FileChunk._serialNum s' = FileChunk._serialNum s).
    { destruct (negb _).
      - now apply (flush_nonblocking_serial getChunkIdLimit setSerialNum
                     getMaxChunkBytes Hset) in Ef.
      - now injection Ef as <-. }
    rewrite Hs'.
    replace (FileChunk._serialNum s <=? serialNum) with false
      by (symmetry; apply Z.leb_gt; exact Hser).
    discriminate.
Qed.

(** The assertion of flushLastIfNonEmpty is reachable from a call of
    append that meets both of append's own assertions: the instance is not
    frozen, the serial number 11 is above the current 10, the two bytes do
    not fit next to the three the active chunk holds (budget 4), and the
    next chunk id has reached the limit. *)
Lemma C9_counterexample :
  let s := Sample.fileChunk
             (FileChunk.mkChunk 4194303 0 [(1, [Byte.x01; Byte.x02; Byte.x03])] 4)
             4194304 in
  FileChunk._frozen s = false
  /\ FileChunk._serialNum s <= 11
  /\ Sample.hasRoom (FileChunk._active s) 2 = false
  /\ Sample.append 11 7 [Byte.x04; Byte.x05] s
     = Err (AssertionFailed "_nextChunkId < LidInfo::getChunkIdLimit()").
Proof.
  cbv zeta. repeat split; vm_compute; discriminate.
Qed.

Lemma C9_append_witness :
  let s := Sample.fileChunk
             (FileChunk.mkChunk 3 0 [(1, [Byte.x01; Byte.x02; Byte.x03])] 4) 4 in
  let result := Sample.append 11 7 [Byte.x04; Byte.x05] s in
  result = Ok (FileChunk.mkLidInfo 0 4 2,
               Spec.appended (fun len => len + 8) 11 7 [Byte.x04; Byte.x05]
                 (Spec.rolledOver 4 s))
  /\ result <> Err (AssertionFailed "!frozen()")
  /\ result <> Err (AssertionFailed "serialNum >= _serialNum").
Proof.
  intros s result.
  destruct (C9_append Sample.hasRoom 4194304 Z.max (fun len => len + 8) 4 0
              11 7 [Byte.x04; Byte.x05] s Z.max_id) as (_ & H & _).
  destruct (H eq_refl ltac:(vm_compute; discriminate)) as (H1 & H2 & _ & H3 & _).
  split; [|split; [exact H1|exact H2]].
  apply H3; [reflexivity|reflexivity|vm_compute; discriminate|reflexivity|
             split; vm_compute; [discriminate|reflexivity]].
Defined.

(** The same call on an instance whose active chunk has room: nothing is
    handed to the executor. *)
Example append_with_room :
  let s := Sample.fileChunk (FileChunk.mkChunk 3 0 [(1, [Byte.x01])] 4) 4 in
  match Sample.append 11 7 [Byte.x04; Byte.x05] s with
  | Ok (info, s') =>
      FileChunk.li_chunkId info = 3
      /\ FileChunk._executor s' = []
      /\ FileChunk.getLids (FileChunk._active s')
         = [(1, [Byte.x01]); (7, [Byte.x04; Byte.x05])]
  | Err _ => False
  end.
Proof. vm_compute. repeat split. Qed.

(** ** ResourceCapacity: free capacity in instances of a flavor *)

Lemma Qfloor_div (a b : Z) : 0 < b -> Qfloor (inject_Z a / inject_Z b) = a / b.
Proof.
  intros Hb. destruct b as [|pb|pb]; [lia| |lia].
  unfold Qdiv, Qinv, Qmult, inject_Z, Qfloor. simpl Qnum. simpl Qden.
  rewrite Z.mul_1_r. reflexivity.
Qed.

Lemma Qfloor_min (x y : Q) : Qfloor (Qmin x y) = Z.min (Qfloor x) (Qfloor y).
Proof.
  destruct (Qlt_le_dec y x) as [Hlt|Hle].
  - rewrite (Qfloor_comp _ _ (Q.min_r x y (Qlt_le_weak _ _ Hlt))).
    pose proof (Qfloor_resp_le _ _ (Qlt_le_weak _ _ Hlt)). lia.
  - rewrite (Qfloor_comp _ _ (Q.min_l x y Hle)).
    pose proof (Qfloor_resp_le _ _ Hle). lia.
Qed.

Lemma flavorEquivalence_quotients (m c d fm fc fd : Z) :
  0 < fm -> 0 < fc -> 0 < fd ->
  Spec.flavorEquivalence m c d fm fc fd = Z.min (Z.min (m / fm) (c / fc)) (d / fd).
Proof.
  intros Hm Hc Hd. unfold Spec.flavorEquivalence.
  rewrite !Qfloor_min, !Qfloor_div by assumption. reflexivity.
Qed.

Lemma quotient_range (a b : Z) :
  0 <= a < 2 ^ 52 -> 0 < b -> 0 <= a / b < 2 ^ 53.
Proof.
  intros Ha Hb. split; [apply Z.div_pos; lia|].
  apply Z.le_lt_trans with a; [|lia].
  apply Z.div_le_upper_bound; [lia|]. nia.
Qed.

(** The value computed past the capacity test, on integers. *)
Lemma aggregateFactor_of_Z (m c d fm fc fd : Z) :
  0 <= m < 2 ^ 52 -> 0 <= c < 2 ^ 52 -> 0 <= d < 2 ^ 52 ->
  0 < fm < 2 ^ 52 -> 0 < fc < 2 ^ 52 -> 0 < fd < 2 ^ 52 ->
  Double.to_int
    (Double.min
       (Double.min (Double.floor (Double.div (Double.of_Z m) (Double.of_Z fm)))
                   (Double.floor (Double.div (Double.of_Z c) (Double.of_Z fc))))
       (Double.floor (Double.div (Double.of_Z d) (Double.of_Z fd))))
  = Z.min (2 ^ 31 - 1) (Z.min (Z.min (m / fm) (c / fc)) (d / fd)).
Proof.
  intros Hm Hc Hd Hfm Hfc Hfd.
  pose proof (quotient_range m fm Hm ltac:(lia)).
  pose proof (quotient_range c fc Hc ltac:(lia)).
  pose proof (quotient_range d fd Hd ltac:(lia)).
  rewrite !div_of_Z_floor by assumption.
  rewrite min_of_Z by assumption.
  rewrite min_of_Z by lia.
  rewrite to_int_of_Z by lia. reflexivity.
Qed.

Lemma hasCapacityFor_of_Z (m c d fm fc fd : Z) :
  - 2 ^ 52 < m < 2 ^ 52 -> - 2 ^ 52 < c < 2 ^ 52 -> - 2 ^ 52 < d < 2 ^ 52 ->
  0 < fm < 2 ^ 52 -> 0 < fc < 2 ^ 52 -> 0 < fd < 2 ^ 52 ->
  Provisioning.hasCapacityFor
    (Provisioning.mkResourceCapacity (Double.of_Z m) (Double.of_Z c) (Double.of_Z d))
    (Provisioning.mkFlavor (Double.of_Z fm) (Double.of_Z fc) (Double.of_Z fd))
  = (fm <=? m) && (fc <=? c) && (fd <=? d).
Proof.
  intros. unfold Provisioning.hasCapacityFor. simpl.
  rewrite !geb_of_Z by lia. reflexivity.
Qed.

Lemma freeCapacity_of_Z (m c d fm fc fd : Z) :
  - 2 ^ 52 < m < 2 ^ 52 -> - 2 ^ 52 < c < 2 ^ 52 -> - 2 ^ 52 < d < 2 ^ 52 ->
  0 < fm < 2 ^ 52 -> 0 < fc < 2 ^ 52 -> 0 < fd < 2 ^ 52 ->
  Provisioning.freeCapacityInFlavorEquivalence
    (Provisioning.mkResourceCapacity (Double.of_Z m) (Double.of_Z c) (Double.of_Z d))
    (Provisioning.mkFlavor (Double.of_Z fm) (Double.of_Z fc) (Double.of_Z fd))
  = if (fm <=? m) && (fc <=? c) && (fd <=? d)
    then Z.min (2 ^ 31 - 1) (Z.min (Z.min (m / fm) (c / fc)) (d / fd))
    else 0.
Proof.
  intros Hm Hc Hd Hfm Hfc Hfd. unfold Provisioning.freeCapacityInFlavorEquivalence.
  rewrite hasCapacityFor_of_Z by assumption.
  destruct ((fm <=? m) && (fc <=? c) && (fd <=? d)) eqn:Hhas; [|reflexivity].
  apply andb_prop in Hhas. destruct Hhas as [Hhas H3].
  apply andb_prop in Hhas. destruct Hhas as [H1 H2].
  apply Z.leb_le in H1, H2, H3.
  simpl negb. cbv iota zeta. simpl.
  apply aggregateFactor_of_Z; lia.
Qed.

(** On integer-valued components the double operations are exact. *)
Lemma freeCapacity_integers (m c d fm fc fd : Z) :
  0 <= m < 2 ^ 52 -> 0 <= c < 2 ^ 52 -> 0 <= d < 2 ^ 52 ->
  0 < fm < 2 ^ 52 -> 0 < fc < 2 ^ 52 -> 0 < fd < 2 ^ 52 ->
  Provisioning.freeCapacityInFlavorEquivalence
    (Provisioning.mkResourceCapacity (Double.of_Z m) (Double.of_Z c) (Double.of_Z d))
    (Provisioning.mkFlavor (Double.of_Z fm) (Double.of_Z fc) (Double.of_Z fd))
  = Z.min (Spec.flavorEquivalence m c d fm fc fd) (2 ^ 31 - 1).
Proof.
  intros Hm Hc Hd Hfm Hfc Hfd.
  rewrite freeCapacity_of_Z by lia.
  rewrite flavorEquivalence_quotients by lia.
  assert (Hs : forall a b, 0 <= a < b -> a / b = 0) by (intros; apply Z.div_small; lia).
  assert (Hn : forall a b, 0 <= a -> 0 < b -> 0 <= a / b) by (intros; apply Z.div_pos; lia).
  pose proof (Hn m fm ltac:(lia) ltac:(lia)). pose proof (Hn c fc ltac:(lia) ltac:(lia)).
  pose proof (Hn d fd ltac:(lia) ltac:(lia)).
  destruct (Z.leb_spec fm m); simpl andb;
    [destruct (Z.leb_spec fc c); simpl andb; [destruct (Z.leb_spec fd d)|]|];
    try lia.
  - rewrite (Hs d fd) by lia. lia.
  - rewrite (Hs c fc) by lia. lia.
  - rewrite (Hs m fm) by lia. lia.
Qed.

(** The capacity test and the result on doubles in general. *)
Lemma hasCapacityFor_units (capacity : Provisioning.ResourceCapacity)
    (flavor : Provisioning.Flavor) (m c d fm fc fd : Z) :
  Spec.units (Provisioning.memory capacity) = Some m ->
  Spec.units (Provisioning.cpu capacity) = Some c ->
  Spec.units (Provisioning.disk capacity) = Some d ->
  Spec.units (Provisioning.getMinMainMemoryAvailableGb flavor) = Some fm ->
  Spec.units (Provisioning.getMinCpuCores flavor) = Some fc ->
  Spec.units (Provisioning.getMinDiskAvailableGb flavor) = Some fd ->
  Provisioning.hasCapacityFor capacity flavor = (fm <=? m) && (fc <=? c) && (fd <=? d).
Proof.
  intros Hm Hc Hd Hfm Hfc Hfd. unfold Provisioning.hasCapacityFor, Double.geb.
  rewrite (leb_units _ _ fm m Hfm Hm), (leb_units _ _ fc c Hfc Hc),
    (leb_units _ _ fd d Hfd Hd). reflexivity.
Qed.

Lemma freeCapacity_units (capacity : Provisioning.ResourceCapacity)
    (flavor : Provisioning.Flavor) (m c d fm fc fd : Z) :
  Spec.units (Provisioning.memory capacity) = Some m ->
  Spec.units (Provisioning.cpu capacity) = Some c ->
  Spec.units (Provisioning.disk capacity) = Some d ->
  Spec.units (Provisioning.getMinMainMemoryAvailableGb flavor) = Some fm ->
  Spec.units (Provisioning.getMinCpuCores flavor) = Some fc ->
  Spec.units (Provisioning.getMinDiskAvailableGb flavor) = Some fd ->
  0 < fm <= m -> 0 < fc <= c -> 0 < fd <= d ->
  Z.min (2 ^ 31 - 1) (Z.min (Z.min (m / fm) (c / fc)) (d / fd))
  <= Provisioning.freeCapacityInFlavorEquivalence capacity flavor
  <= Z.min (2 ^ 31 - 1) (Z.min (Z.min (m / fm) (c / fc)) (d / fd) + 1).
Proof.
  intros Hm Hc Hd Hfm Hfc Hfd Lm Lc Ld.
  unfold Provisioning.freeCapacityInFlavorEquivalence.
  rewrite (hasCapacityFor_units capacity flavor m c d fm fc fd) by assumption.
  replace (fm <=? m) with true by (symmetry; apply Z.leb_le; lia).
  replace (fc <=? c) with true by (symmetry; apply Z.leb_le; lia).
  replace (fd <=? d) with true by (symmetry; apply Z.leb_le; lia).
  simpl negb. cbv iota zeta.
  destruct (floor_div_bounds _ _ m fm Hm Hfm ltac:(lia) ltac:(lia)) as [G1 B1].
  destruct (floor_div_bounds _ _ c fc Hc Hfc ltac:(lia) ltac:(lia)) as [G2 B2].
  destruct (floor_div_bounds _ _ d fd Hd Hfd ltac:(lia) ltac:(lia)) as [G3 B3].
  cbv zeta in G1, G2, G3, B1, B2, B3.
  destruct (min_normal _ _ G1 G2) as [G12 T12].
  destruct (min_normal _ _ G12 G3) as [_ T123].
  rewrite T123, T12. lia.
Qed.

(** Whatever doubles the capacity holds: past the capacity test the
    result is at least one. *)
Lemma freeCapacity_positive (capacity : Provisioning.ResourceCapacity)
    (flavor : Provisioning.Flavor) (fm fc fd : Z) :
  valid_binary 53 1024 (Provisioning.memory capacity) = true ->
  valid_binary 53 1024 (Provisioning.cpu capacity) = true ->
  valid_binary 53 1024 (Provisioning.disk capacity) = true ->
  Spec.units (Provisioning.getMinMainMemoryAvailableGb flavor) = Some fm ->
  Spec.units (Provisioning.getMinCpuCores flavor) = Some fc ->
  Spec.units (Provisioning.getMinDiskAvailableGb flavor) = Some fd ->
  0 < fm -> 0 < fc -> 0 < fd ->
  Provisioning.hasCapacityFor capacity flavor = true ->
  1 <= Provisioning.freeCapacityInFlavorEquivalence capacity flavor.
Proof.
  intros Vm Vc Vd Hfm Hfc Hfd Pm Pc Pd Hhas.
  unfold Provisioning.freeCapacityInFlavorEquivalence. rewrite Hhas.
  simpl negb. cbv iota zeta.
  unfold Provisioning.hasCapacityFor in Hhas.
  apply andb_prop in Hhas. destruct Hhas as [Hhas H3].
  apply andb_prop in Hhas. destruct Hhas as [H1 H2].
  destruct (floor_div_ge _ _ fm Vm Hfm Pm H1) as [G1 B1].
  destruct (floor_div_ge _ _ fc Vc Hfc Pc H2) as [G2 B2].
  destruct (floor_div_ge _ _ fd Vd Hfd Pd H3) as [G3 B3].
  cbv zeta in G1, G2, G3, B1, B2, B3.
  destruct (min_normal _ _ G1 G2) as [G12 T12].
  destruct (min_normal _ _ G12 G3) as [_ T123].
  rewrite T123, T12. lia.
Qed.




(** Fractional values go through the same operations: half a core
    against a flavor of a quarter core. *)
Example freeCapacity_fractional :
  let half := Double.div (Double.of_Z 1) (Double.of_Z 2) in
  let quarter := Double.div (Double.of_Z 1) (Double.of_Z 4) in
  Provisioning.freeCapacityInFlavorEquivalence
    (Provisioning.mkResourceCapacity (Double.of_Z 16) half (Double.of_Z 100))
    (Provisioning.mkFlavor (Double.of_Z 4) quarter (Double.of_Z 10)) = 2.
Proof. vm_compute. reflexivity. Qed.

(** ** WriteableFileChunk: the background writer *)

(** *** Event sequences *)

Lemma run_snoc (valid : FileChunk.ChunkInfo -> bool) (evs : list FileChunk.Event)
    (e : FileChunk.Event) (s : FileChunk.WriteableFileChunk) :
  FileChunk.run valid s (evs ++ [e])
  = bind (FileChunk.run valid s evs) (fun s' => FileChunk.step valid s' e).
Proof.
  revert s. induction evs as [|e0 evs IH]; intros s; simpl.
  - destruct (FileChunk.step valid s e); reflexivity.
  - destruct (FileChunk.step valid s e0) as [s1|f]; simpl; [apply IH|reflexivity].
Qed.

Lemma enqueued_snoc (evs : list FileChunk.Event) (e : FileChunk.Event) :
  Spec.enqueued (evs ++ [e])
  = Spec.enqueued evs ++ match e with FileChunk.EvEnque tmp => [tmp] | _ => [] end.
Proof.
  induction evs as [|e0 evs IH]; simpl.
  - destruct e; reflexivity.
  - destruct e0; simpl; rewrite IH; reflexivity.
Qed.

Lemma takeFileWriter_restart (tasks : list FileChunk.Task) (n : Z) :
  FileChunk.takeFileWriter tasks = None ->
  FileChunk.takeFileWriter (tasks ++ [FileChunk.FileWriter n]) = Some (n, tasks).
Proof.
  induction tasks as [|t tasks IH]; simpl; [reflexivity|].
  destruct t as [c sn|m]; [|discriminate].
  destruct (FileChunk.takeFileWriter tasks) as [[m r]|]; [discriminate|].
  intros _. rewrite IH by reflexivity. reflexivity.
Qed.

(** *** Order of occurrence in a list *)

Lemma before_app_r {A : Type} (x y : A) (l m : list A) :
  Spec.before x y l -> Spec.before x y (l ++ m).
Proof.
  intros (l1 & l2 & l3 & ->). exists l1, l2, (l3 ++ m).
  rewrite <- ?app_assoc. simpl. rewrite <- ?app_assoc. reflexivity.
Qed.

Lemma before_across {A : Type} (x y : A) (l m : list A) :
  In x l -> In y m -> Spec.before x y (l ++ m).
Proof.
  intros Hx Hy.
  apply in_split in Hx. destruct Hx as (l1 & l2 & ->).
  apply in_split in Hy. destruct Hy as (m1 & m2 & ->).
  exists l1, (l2 ++ m1), m2. rewrite <- ?app_assoc. simpl.
  rewrite <- ?app_assoc. reflexivity.
Qed.

Lemma before_once {A : Type} (x y : A) (l : list A) :
  NoDup l -> Spec.before x y l -> Spec.before y x l -> Logic.False.
Proof.
  intros Hnd (l1 & l2 & l3 & H1) (m1 & m2 & m3 & H2).
  subst l. revert m1 H2 Hnd.
  induction l1 as [|a l1 IH]; intros m1 H2 Hnd.
  - simpl in H2, Hnd. inversion Hnd as [|? ? Hx _]; subst.
    destruct m1 as [|b m1]; simpl in H2.
    + injection H2 as <- H2. apply Hx. apply in_or_app. right. left. reflexivity.
    + injection H2 as <- H2. apply Hx. rewrite H2.
      apply in_or_app. right. right. apply in_or_app. right. left. reflexivity.
  - simpl in H2, Hnd. inversion Hnd as [|? ? Ha Hnd']; subst.
    destruct m1 as [|b m1]; simpl in H2.
    + injection H2 as <- H2. apply Ha.
      apply in_or_app. right. right. apply in_or_app. right. left. reflexivity.
    + injection H2 as <- H2. apply (IH m1 H2 Hnd').
Qed.

(** *** insertChunks and fetchNextChain on [_orderedChunks] *)

Ltac lia_max := unfold UINT32_MAX in *; simpl in *; lia.

Lemma ordered_weaken (lo lo' : Z) (O : FileChunk.ProcessedChunkMap) :
  lo' <= lo -> Spec.ordered lo O -> Spec.ordered lo' O.
Proof.
  destruct O as [|[k v] O]; simpl; [tauto|].
  intros Hle (Hk & Hv & Hr). repeat split; [lia|exact Hv|exact Hr].
Qed.

Lemma ordered_In (lo : Z) (O : FileChunk.ProcessedChunkMap) (k : Z)
    (v : FileChunk.ProcessedChunkUP) :
  Spec.ordered lo O -> In (k, v) O ->
  lo <= k /\ match v with
             | Some c => FileChunk._chunkId c = k /\ k < UINT32_MAX
             | None => k = UINT32_MAX
             end.
Proof.
  revert lo. induction O as [|[k' v'] O IH]; intros lo Ho Hin; [contradiction|].
  simpl in Ho. destruct Ho as (Hk & Hv & Hr). destruct Hin as [Heq|Hin].
  - injection Heq as <- <-. auto.
  - destruct (IH _ Hr Hin) as [Hlo Hw]. split; [lia|exact Hw].
Qed.

Lemma ordered_after_null (O : FileChunk.ProcessedChunkMap) :
  Spec.ordered (UINT32_MAX + 1) O -> O = [].
Proof.
  destruct O as [|[k v] O]; [reflexivity|]. simpl. intros (Hk & Hv & _).
  destruct v as [c|]; [destruct Hv|]; lia_max.
Qed.

Lemma assign_In {V : Type} (k k0 : Z) (v v0 : V) (m : list (Z * V)) :
  In (k, v) (OrderedMap.assign k0 v0 m) -> (k = k0 /\ v = v0) \/ In (k, v) m.
Proof.
  induction m as [|[k' v'] m IH]; simpl.
  - intros [H|[]]. injection H as <- <-. auto.
  - destruct (k0 <? k').
    + intros [H|H]; [injection H as <- <-; auto|auto].
    + destruct (k0 =? k').
      * intros [H|H]; [injection H as <- <-; auto|auto].
      * intros [H|H]; [auto|]. destruct (IH H); auto.
Qed.

Lemma assign_ordered_chunk (lo : Z) (O : FileChunk.ProcessedChunkMap)
    (c : FileChunk.ProcessedChunk) :
  Spec.ordered lo O -> lo <= FileChunk._chunkId c < UINT32_MAX ->
  OrderedMap.find (FileChunk._chunkId c) O = None ->
  Spec.ordered lo (OrderedMap.assign (FileChunk._chunkId c) (Some c) O).
Proof.
  set (k := FileChunk._chunkId c). revert lo.
  induction O as [|[k' v'] O IH]; intros lo Ho Hk Hfind.
  - simpl. repeat split; lia.
  - simpl in Ho. destruct Ho as (Hk' & Hv & Hr). simpl in Hfind. simpl.
    destruct (Z.ltb_spec k k').
    + simpl. repeat split; try lia; assumption.
    + destruct (Z.eqb_spec k k') as [Heq|Hne].
      * rewrite Heq, Z.eqb_refl in Hfind. discriminate.
      * replace (k' =? k) with false in Hfind by (symmetry; apply Z.eqb_neq; lia).
        simpl. repeat split; [exact Hk'|exact Hv|].
        apply IH; [exact Hr|lia|exact Hfind].
Qed.

Lemma assign_ordered_null (lo : Z) (O : FileChunk.ProcessedChunkMap) :
  Spec.ordered lo O -> lo <= UINT32_MAX ->
  Spec.ordered lo (OrderedMap.assign UINT32_MAX None O).
Proof.
  revert lo. induction O as [|[k' v'] O IH]; intros lo Ho Hlo.
  - simpl. split; [lia|]. split; [reflexivity|exact I].
  - simpl in Ho. destruct Ho as (Hk' & Hv & Hr).
    assert (Hle : k' <= UINT32_MAX) by (destruct v' as [c|]; [destruct Hv|]; lia).
    cbn [OrderedMap.assign].
    replace (UINT32_MAX <? k') with false by (symmetry; apply Z.ltb_ge; lia).
    destruct (Z.eqb_spec UINT32_MAX k') as [Heq|Hne].
    + cbn [Spec.ordered]. split; [lia|]. split; [reflexivity|]. rewrite Heq. exact Hr.
    + cbn [Spec.ordered]. split; [exact Hk'|]. split; [exact Hv|].
      apply IH; [exact Hr|lia].
Qed.

(** insertChunks keeps the map ordered and puts nothing into it but what
    is in the queue. *)
Lemma insertChunks_spec (newChunks : FileChunk.ProcessedChunkQ) :
  forall (O O1 : FileChunk.ProcessedChunkMap) (nextChunkId : Z),
    Spec.ordered nextChunkId O -> nextChunkId <= UINT32_MAX ->
    (forall c, In (Some c) newChunks -> FileChunk._chunkId c < UINT32_MAX) ->
    FileChunk.insertChunks O newChunks nextChunkId = Ok O1 ->
    Spec.ordered nextChunkId O1
    /\ (forall k v, In (k, v) O1 -> In (k, v) O \/ In v newChunks).
Proof.
  induction newChunks as [|[c|] Q IH]; intros O O1 n Ho Hn Hids Hins.
  - simpl in Hins. injection Hins as <-. auto.
  - simpl in Hins. unfold assert, bind in Hins.
    destruct (Z.leb_spec n (FileChunk._chunkId c)) as [Hge|]; [|discriminate].
    destruct (OrderedMap.find (FileChunk._chunkId c) O) as [x|] eqn:Hfind;
      [discriminate|]. simpl in Hins.
    destruct (IH _ _ _ (assign_ordered_chunk n O c Ho
                          ltac:(split; [lia|apply Hids; left; reflexivity]) Hfind)
                Hn ltac:(intros c' Hc'; apply Hids; right; exact Hc') Hins)
      as [Ho1 Hin].
    split; [exact Ho1|]. intros k v Hkv.
    destruct (Hin k v Hkv) as [H|H]; [|right; right; exact H].
    destruct (assign_In _ _ _ _ _ H) as [[-> ->]|H']; [right; left; reflexivity|auto].
  - simpl in Hins.
    destruct (IH _ _ _ (assign_ordered_null n O Ho Hn) Hn
                ltac:(intros c' Hc'; apply Hids; right; exact Hc') Hins)
      as [Ho1 Hin].
    split; [exact Ho1|]. intros k v Hkv.
    destruct (Hin k v Hkv) as [H|H]; [|right; right; exact H].
    destruct (assign_In _ _ _ _ _ H) as [[-> ->]|H']; [right; left; reflexivity|auto].
Qed.

(** fetchNextChain takes from the map the chunks stored under
    [firstChunkId], [firstChunkId + 1], ... as far as they are there, and
    the null chunk when nothing is left before it; what stays in the map
    starts above the next id. *)
Lemma fetchNextChain_loop_spec (O : FileChunk.ProcessedChunkMap) :
  forall (firstChunkId : Z) (acc : FileChunk.ProcessedChunkQ),
    let x := firstChunkId + Z.of_nat (length acc) in
    0 <= x <= UINT32_MAX -> Spec.ordered x O ->
    exists (batch : list FileChunk.ProcessedChunk) (done : bool)
           (rest : FileChunk.ProcessedChunkMap),
      FileChunk.fetchNextChain_loop O firstChunkId acc
      = (acc ++ map Some batch ++ (if done then [None] else []), rest)
      /\ O = map (fun c => (FileChunk._chunkId c, Some c)) batch
             ++ (if done then [(UINT32_MAX, None)] else []) ++ rest
      /\ Spec.consecutive x (map FileChunk._chunkId batch)
      /\ Spec.ordered (x + Z.of_nat (length batch) + 1) rest
      /\ (done = true -> rest = [])
      /\ x + Z.of_nat (length batch) <= UINT32_MAX.
Proof.
  induction O as [|[k v] O IH]; intros first acc x Hx Ho.
  - exists [], false, []. simpl. rewrite app_nil_r.
    repeat split; try reflexivity; try discriminate; lia.
  - cbn [Spec.ordered] in Ho. destruct Ho as (Hk & Hv & Hr).
    assert (Hwrap : wrap64 x = x).
    { unfold wrap64. apply Z.mod_small. unfold UINT32_MAX in Hx. lia. }
    cbn [FileChunk.fetchNextChain_loop]. fold x. rewrite Hwrap.
    destruct v as [c|].
    + destruct Hv as [Hid Hlt]. unfold is_null. rewrite orb_false_r.
      destruct (Z.eqb_spec k x) as [Heq|Hne]; cbv iota.
      * assert (Hlen : first + Z.of_nat (length (acc ++ [Some c])) = x + 1).
        { rewrite length_app. simpl. unfold x. lia. }
        destruct (IH first (acc ++ [Some c])) as (batch & done & rest & Hf & HO & Hc & Hrest & Hd & Hb).
        { rewrite Hlen. lia. }
        { rewrite Hlen. rewrite <- Heq. exact Hr. }
        rewrite Hlen in Hc, Hrest, Hb.
        exists (c :: batch), done, rest.
        split; [etransitivity; [exact Hf|]; rewrite <- app_assoc; reflexivity|].
        split; [simpl; rewrite Hid, HO; reflexivity|].
        split; [simpl; split; [lia|exact Hc]|].
        simpl length. rewrite Nat2Z.inj_succ.
        split; [replace (x + Z.succ (Z.of_nat (length batch)) + 1)
                  with (x + 1 + Z.of_nat (length batch) + 1) by lia; exact Hrest|].
        split; [exact Hd|lia].
      * exists [], false, ((k, Some c) :: O). simpl. rewrite app_nil_r.
        split; [reflexivity|]. split; [reflexivity|]. split; [exact I|].
        split; [|split; [discriminate|lia]].
        split; [lia|]. split; [split; assumption|exact Hr].
    + unfold is_null. rewrite orb_true_r. cbv iota.
      rewrite Hv in Hr. apply ordered_after_null in Hr. subst O.
      exists [], true, []. simpl.
      split; [reflexivity|]. split; [rewrite Hv; reflexivity|].
      repeat split; lia.
Qed.

Lemma fetchNextChain_spec (O : FileChunk.ProcessedChunkMap) (firstChunkId : Z) :
  0 <= firstChunkId <= UINT32_MAX -> Spec.ordered firstChunkId O ->
  exists (batch : list FileChunk.ProcessedChunk) (done : bool)
         (rest : FileChunk.ProcessedChunkMap),
    FileChunk.fetchNextChain O firstChunkId
    = (map Some batch ++ (if done then [None] else []), rest)
    /\ O = map (fun c => (FileChunk._chunkId c, Some c)) batch
           ++ (if done then [(UINT32_MAX, None)] else []) ++ rest
    /\ Spec.consecutive firstChunkId (map FileChunk._chunkId batch)
    /\ Spec.ordered (firstChunkId + Z.of_nat (length batch) + 1) rest
    /\ (done = true -> rest = [])
    /\ firstChunkId + Z.of_nat (length batch) <= UINT32_MAX.
Proof.
  intros Hf Ho.
  destruct (fetchNextChain_loop_spec O firstChunkId []) as (batch & done & rest & H).
  - simpl. lia.
  - simpl. rewrite Z.add_0_r. exact Ho.
  - simpl in H. rewrite Z.add_0_r in H. exists batch, done, rest. exact H.
Qed.

(** *** One run of the writer *)

Lemma getAlignedStartPos_spec (file file' : list FileChunk.byte) (startPos : Z) :
  FileChunk.getAlignedStartPos file = Ok (startPos, file') ->
  exists pad : nat,
    file' = file ++ repeat Byte.x00 pad /\ startPos = Z.of_nat (length file').
Proof.
  unfold FileChunk.getAlignedStartPos.
  destruct (Z.land (Z.of_nat (length file)) (FileChunk.Alignment - 1) =? 0) eqn:Hal.
  - rewrite Hal. simpl. intros H. injection H as <- <-.
    exists O. simpl. rewrite app_nil_r. auto.
  - cbv zeta.
    set (file1 := file ++ repeat Byte.x00 _).
    destruct (Z.land (Z.of_nat (length file1)) (FileChunk.Alignment - 1) =? 0);
      simpl; [|discriminate].
    intros H. injection H as <- <-. eexists. split; reflexivity.
Qed.

Lemma with_pendingChunks_same (s : FileChunk.WriteableFileChunk) :
  FileChunk.with_pendingChunks (FileChunk._pendingChunks s) s = s.
Proof. destruct s; reflexivity. Qed.

Lemma with_pendingChunks_twice (p q : list FileChunk.PendingChunk)
    (s : FileChunk.WriteableFileChunk) :
  FileChunk.with_pendingChunks q (FileChunk.with_pendingChunks p s)
  = FileChunk.with_pendingChunks q s.
Proof. reflexivity. Qed.

(** The loop of computeChunkMeta appends one index record per chunk, in
    the order of the chunks, each with the offset of the bytes of its
    chunk, and changes nothing else of the instance. *)
Lemma computeChunkMeta_loop_spec (batch : list FileChunk.ProcessedChunk) (dn : bool) :
  forall (s : FileChunk.WriteableFileChunk) (startPos : Z)
         (kept : list FileChunk.ProcessedChunk) (cmetaV : list FileChunk.ChunkMeta)
         (sz lastSerial : Z) (d0 : bool) r,
    FileChunk.computeChunkMeta_loop s startPos
      (map Some batch ++ (if dn then [None] else [])) kept cmetaV sz lastSerial d0 = Ok r ->
    exists recs cmetaV' sz',
      r = (FileChunk.with_pendingChunks (FileChunk._pendingChunks s ++ recs) s,
           kept ++ batch, cmetaV', sz', d0 || dn)
      /\ Spec.described (startPos + sz) (map (fun c => (O, c)) batch) recs.
Proof.
  induction batch as [|c batch IH]; intros s startPos kept cmetaV sz ls d0 r Hr.
  - exists [], cmetaV, sz. rewrite !app_nil_r, with_pendingChunks_same.
    destruct dn; simpl in Hr; injection Hr as <-.
    + rewrite orb_true_r. split; [reflexivity|exact I].
    + rewrite orb_false_r. split; [reflexivity|exact I].
  - simpl in Hr. unfold deref in Hr at 1.
    destruct (OrderedMap.find (FileChunk._chunkId c) (FileChunk._chunkMap s))
      as [active|]; [|discriminate].
    unfold bind in Hr at 1. unfold FileChunk.computeChunkMeta1 in Hr.
    unfold assert in Hr at 1.
    destruct (FileChunk.getDataLen c mod FileChunk._alignment s =? 0); [|discriminate].
    unfold bind in Hr at 1 2. cbv beta iota zeta in Hr.
    unfold assert in Hr at 1.
    match type of Hr with
    | context [if ?b then Ok tt else _] => destruct b; [|discriminate]
    end.
    unfold bind in Hr at 1.
    apply IH in Hr. destruct Hr as (recs & cmetaV' & sz' & -> & Hdesc).
    eexists (_ :: recs), cmetaV', sz'.
    split.
    + rewrite with_pendingChunks_twice. simpl FileChunk._pendingChunks.
      rewrite <- !app_assoc. reflexivity.
    + simpl. split; [lia|]. split; [reflexivity|].
      replace (startPos + sz + 0 + FileChunk.getDataLen c)
        with (startPos + (sz + FileChunk.getDataLen c)) by lia.
      exact Hdesc.
Qed.

Lemma computeChunkMeta_spec (batch : list FileChunk.ProcessedChunk) (dn : bool)
    (s : FileChunk.WriteableFileChunk) (startPos : Z) r :
  FileChunk.computeChunkMeta s (map Some batch ++ (if dn then [None] else [])) startPos
  = Ok r ->
  exists recs cmetaV sz,
    r = (FileChunk.with_pendingChunks (FileChunk._pendingChunks s ++ recs) s,
         batch, cmetaV, sz, dn)
    /\ Spec.described startPos (map (fun c => (O, c)) batch) recs.
Proof.
  unfold FileChunk.computeChunkMeta. intros Hr.
  destruct (rev (FileChunk._pendingChunks s)) as [|pc rest].
  - unfold bind in Hr at 1. apply computeChunkMeta_loop_spec in Hr.
    destruct Hr as (recs & cmetaV & sz & -> & Hd).
    exists recs, cmetaV, sz. rewrite Z.add_0_r in Hd. auto.
  - unfold assert in Hr.
    destruct (FileChunk._lastPersistedSerialNum s <=? FileChunk._lastSerial pc);
      [|discriminate].
    unfold bind in Hr at 1 2. apply computeChunkMeta_loop_spec in Hr.
    destruct Hr as (recs & cmetaV & sz & -> & Hd).
    exists recs, cmetaV, sz. rewrite Z.add_0_r in Hd. auto.
Qed.

(** updateChunkInfo touches [_chunkMap] and [_chunkInfo] only. *)
Lemma updateChunkInfo_frame (chunks : list FileChunk.ProcessedChunk) :
  forall (s s' : FileChunk.WriteableFileChunk) (cmetaV : list FileChunk.ChunkMeta),
    FileChunk.updateChunkInfo s chunks cmetaV = Ok s' ->
    s' = FileChunk.with_chunkMap (FileChunk._chunkMap s')
           (FileChunk.with_chunkInfo (FileChunk._chunkInfo s') s).
Proof.
  induction chunks as [|c chunks IH]; intros s s' cmetaV Hu.
  - simpl in Hu. injection Hu as <-. destruct s; reflexivity.
  - simpl in Hu. unfold deref in Hu at 1.
    destruct (OrderedMap.begin (FileChunk._chunkMap s)) as [[k active]|]; [|discriminate].
    unfold bind in Hu at 1. unfold assert in Hu.
    destruct (k =? FileChunk._chunkId c); [|discriminate].
    unfold bind in Hu at 1. unfold deref in Hu.
    destruct (hd_error cmetaV) as [cmeta|]; [|discriminate].
    unfold bind in Hu. apply IH in Hu. rewrite Hu. destruct s; reflexivity.
Qed.

(** One run of the writer up to its closing section: the queue is taken
    over, the chunks [e], [e + 1], ... that are at hand go to the end of
    the data file, after alignment padding, as one piece, and each gets
    its index record. *)
Lemma fileWriter_block_spec (e : Z) (s s' : FileChunk.WriteableFileChunk) :
  0 <= e <= UINT32_MAX ->
  Spec.ordered (e + 1) (FileChunk._orderedChunks s) ->
  (forall c, In (Some c) (FileChunk._writeQ s) -> FileChunk._chunkId c < UINT32_MAX) ->
  FileChunk.fileWriter_block e s = Ok s' ->
  exists (batch : list FileChunk.ProcessedChunk) (done : bool) (pad : nat)
         (recs : list FileChunk.PendingChunk) (n : Z),
    FileChunk._writeQ s' = []
    /\ Spec.ordered (e + Z.of_nat (length batch) + 1) (FileChunk._orderedChunks s')
    /\ (forall k v, In (k, v) (FileChunk._orderedChunks s') ->
                    In (k, v) (FileChunk._orderedChunks s) \/ In v (FileChunk._writeQ s))
    /\ (forall c, In c batch ->
                  In (FileChunk._chunkId c, Some c) (FileChunk._orderedChunks s)
                  \/ In (Some c) (FileChunk._writeQ s))
    /\ (done = true ->
        In (UINT32_MAX, None) (FileChunk._orderedChunks s) \/ In None (FileChunk._writeQ s))
    /\ Spec.consecutive e (map FileChunk._chunkId batch)
    /\ e + Z.of_nat (length batch) <= UINT32_MAX
    /\ FileChunk._dataFile s'
       = FileChunk._dataFile s ++ repeat Byte.x00 pad ++ flat_map FileChunk._buf batch
    /\ FileChunk._pendingChunks s' = FileChunk._pendingChunks s ++ recs
    /\ Spec.described (Z.of_nat (length (FileChunk._dataFile s)) + Z.of_nat pad)
         (map (fun c => (O, c)) batch) recs
    /\ FileChunk.writerLocals s' = Some (n, done)
    /\ (done = false -> n = e + Z.of_nat (length batch))
    /\ FileChunk._executor s' = FileChunk._executor s
    /\ FileChunk._writeTaskIsRunning s' = FileChunk._writeTaskIsRunning s
    /\ FileChunk._firstChunkIdToBeWritten s' = FileChunk._firstChunkIdToBeWritten s.
Proof.
  intros He Ho Hids Hb. unfold FileChunk.fileWriter_block, FileChunk.drainQ in Hb.
  cbv beta iota zeta in Hb.
  destruct (FileChunk._writeQ s) as [|q0 Q] eqn:HQ.
  - simpl in Hb. injection Hb as <-.
    exists [], false, O, [], e. simpl. rewrite !app_nil_r, Z.add_0_r.
    repeat split; auto; try discriminate; try lia.
  - set (newChunks := q0 :: Q) in *.
    change (negb (is_nil newChunks)) with true in Hb. cbv iota in Hb.
    simpl FileChunk._orderedChunks in Hb.
    destruct (FileChunk.insertChunks (FileChunk._orderedChunks s) newChunks e)
      as [O1|] eqn:Hins; [|discriminate].
    unfold bind in Hb at 1.
    destruct (insertChunks_spec newChunks _ _ e (ordered_weaken (e + 1) e _ ltac:(lia) Ho)
                ltac:(lia) Hids Hins) as [Ho1 Hin1].
    destruct (fetchNextChain_spec O1 e He Ho1)
      as (batch & done & rest & Hf & HO1 & Hcons & Hrest & Hdone & Hbound).
    rewrite Hf in Hb. cbv iota beta in Hb.
    simpl FileChunk._dataFile in Hb.
    destruct (FileChunk.getAlignedStartPos (FileChunk._dataFile s))
      as [[startPos file']|] eqn:Hal; [|discriminate].
    unfold bind in Hb at 1. cbv iota beta in Hb.
    destruct (getAlignedStartPos_spec _ _ _ Hal) as (pad & Hfile & Hpos).
    destruct (FileChunk.computeChunkMeta _ _ startPos) as [r|] eqn:Hcm; [|discriminate].
    unfold bind in Hb at 1.
    destruct (computeChunkMeta_spec _ _ _ _ _ Hcm) as (recs & cmetaV & sz & -> & Hdesc).
    cbv iota beta in Hb.
    destruct (FileChunk.updateChunkInfo _ batch cmetaV) as [s2|] eqn:Hup; [|discriminate].
    unfold bind in Hb. injection Hb as <-.
    apply updateChunkInfo_frame in Hup. rewrite Hup.
    exists batch, done, pad, recs,
      (wrap32 (e + Z.of_nat (length (map Some batch ++ (if done then [None] else []))))).
    simpl.
    split; [reflexivity|]. split; [exact Hrest|].
    split.
    { intros k v Hkv. apply Hin1. rewrite HO1. apply in_or_app. right.
      apply in_or_app. right. exact Hkv. }
    split.
    { intros c Hc. apply Hin1. rewrite HO1. apply in_or_app. left.
      apply in_map_iff. exists c. auto. }
    split.
    { intros ->. apply Hin1. rewrite HO1. apply in_or_app. right. left. reflexivity. }
    split; [exact Hcons|]. split; [exact Hbound|].
    split; [rewrite Hfile, <- app_assoc; reflexivity|].
    split; [reflexivity|].
    split.
    { rewrite Hpos, Hfile, length_app, repeat_length, Nat2Z.inj_add in Hdesc.
      exact Hdesc. }
    split; [reflexivity|].
    split.
    { intros ->. rewrite app_nil_r, length_map. unfold wrap32.
      apply Z.mod_small. unfold UINT32_MAX in *. lia. }
    auto.
Qed.

(** *** Segments, index records and order of arrival *)

Lemma consecutive_app (first : Z) (l1 l2 : list Z) :
  Spec.consecutive first (l1 ++ l2)
  <-> Spec.consecutive first l1 /\ Spec.consecutive (first + Z.of_nat (length l1)) l2.
Proof.
  revert first. induction l1 as [|x l1 IH]; intros first.
  - simpl. rewrite Z.add_0_r. tauto.
  - simpl length. rewrite Nat2Z.inj_succ. simpl. rewrite IH.
    replace (first + 1 + Z.of_nat (length l1)) with (first + Z.succ (Z.of_nat (length l1)))
      by lia.
    tauto.
Qed.

Lemma described_app (W1 W2 : list (nat * FileChunk.ProcessedChunk)) :
  forall (pos : Z) (P1 P2 : list FileChunk.PendingChunk),
    Spec.described pos W1 P1 ->
    Spec.described (pos + Z.of_nat (length (Spec.written W1))) W2 P2 ->
    Spec.described pos (W1 ++ W2) (P1 ++ P2).
Proof.
  induction W1 as [|w W1 IH]; intros pos P1 P2 H1 H2.
  - destruct P1; [|contradiction]. simpl in H2. rewrite Z.add_0_r in H2. exact H2.
  - destruct P1 as [|pc P1]; [contradiction|]. simpl in H1.
    destruct H1 as (Hoff & Hlen & H1). simpl.
    split; [exact Hoff|]. split; [exact Hlen|].
    apply IH; [exact H1|].
    unfold Spec.written in H2. simpl in H2. unfold Spec.segment in H2 at 1.
    rewrite !length_app, repeat_length, !Nat2Z.inj_add in H2.
    unfold FileChunk.getDataLen, Spec.written.
    replace (pos + Z.of_nat (fst w) + Z.of_nat (length (FileChunk._buf (snd w)))
             + Z.of_nat (length (flat_map Spec.segment W1)))
      with (pos + (Z.of_nat (fst w) + Z.of_nat (length (FileChunk._buf (snd w)))
                   + Z.of_nat (length (flat_map Spec.segment W1)))) by lia.
    exact H2.
Qed.

Lemma described_first_pad (pos : Z) (pad : nat) (c : FileChunk.ProcessedChunk)
    (W : list (nat * FileChunk.ProcessedChunk)) (P : list FileChunk.PendingChunk) :
  Spec.described (pos + Z.of_nat pad) ((O, c) :: W) P ->
  Spec.described pos ((pad, c) :: W) P.
Proof.
  destruct P as [|pc P]; [contradiction|]. simpl.
  rewrite !Z.add_0_r. tauto.
Qed.

Lemma adjacent_mono (E E' : FileChunk.ProcessedChunkQ)
    (W : list (nat * FileChunk.ProcessedChunk)) :
  (forall x y, Spec.before x y E -> Spec.before x y E') ->
  forall prev, Spec.adjacent E prev W -> Spec.adjacent E' prev W.
Proof.
  intros Hmono. induction W as [|w W IH]; intros prev; simpl; [tauto|].
  intros [H1 H2]. split; [|apply IH; exact H2].
  destruct prev as [p|]; [|exact I]. intros Hpad. apply Hmono, H1, Hpad.
Qed.

Lemma last_cons {A : Type} (a d : A) (l : list A) : last (a :: l) d = last l a.
Proof.
  revert a d. induction l as [|b l IH]; intros a d; [reflexivity|].
  change (last (a :: b :: l) d) with (last (b :: l) d). rewrite !IH. reflexivity.
Qed.

Lemma last_In {A : Type} (d : A) (l : list A) : last l d = d \/ In (last l d) l.
Proof.
  revert d. induction l as [|a l IH]; intros d; [left; reflexivity|].
  right. rewrite last_cons. destruct (IH a) as [H|H]; [left; auto|right; exact H].
Qed.

Lemma adjacent_app (E : FileChunk.ProcessedChunkQ)
    (W1 W2 : list (nat * FileChunk.ProcessedChunk)) :
  forall prev,
    Spec.adjacent E prev W1 ->
    Spec.adjacent E (last (map (fun w => Some (snd w)) W1) prev) W2 ->
    Spec.adjacent E prev (W1 ++ W2).
Proof.
  induction W1 as [|w W1 IH]; intros prev H1 H2; [exact H2|].
  simpl in H1. destruct H1 as [Hw H1]. simpl. split; [exact Hw|].
  apply IH; [exact H1|]. simpl map in H2. rewrite last_cons in H2. exact H2.
Qed.

Lemma adjacent_unpadded (E : FileChunk.ProcessedChunkQ) (l : list FileChunk.ProcessedChunk) :
  forall prev, Spec.adjacent E prev (map (fun c => (O, c)) l).
Proof.
  induction l as [|c l IH]; intros prev; simpl; [exact I|].
  split; [|apply IH]. destruct prev; [|exact I]. intros H. contradiction H. reflexivity.
Qed.

Lemma adjacent_nth (E : FileChunk.ProcessedChunkQ)
    (W : list (nat * FileChunk.ProcessedChunk)) :
  forall prev (i : nat) w w',
    Spec.adjacent E prev W ->
    nth_error W i = Some w -> nth_error W (S i) = Some w' ->
    fst w' <> O -> Spec.before (Some (snd w)) (Some (snd w')) E.
Proof.
  induction W as [|w0 W IH]; intros prev i w w' Ha Hi Hi' Hpad.
  - destruct i; discriminate.
  - simpl in Ha. destruct Ha as [_ Ha]. destruct i as [|i].
    + simpl in Hi. injection Hi as <-. simpl in Hi'.
      destruct W as [|w1 W]; [discriminate|]. simpl in Hi'. injection Hi' as <-.
      simpl in Ha. destruct Ha as [Ha _]. apply Ha, Hpad.
    + simpl in Hi, Hi'. apply (IH _ i w w' Ha Hi Hi' Hpad).
Qed.

(** *** The invariant, step by step *)

Lemma fileWriterInv_enque (s0 s : FileChunk.WriteableFileChunk)
    (E : FileChunk.ProcessedChunkQ) (tmp : FileChunk.ProcessedChunkUP) :
  Spec.fileWriterInv s0 E s ->
  (forall l1 l2, E ++ [tmp] = l1 ++ None :: l2 -> l2 = []) ->
  Spec.fileWriterInv s0 (E ++ [tmp]) (FileChunk.enque tmp s).
Proof.
  intros (D & W & tail & P & HE & Hfile & Hcons & Hf0 & He & Hpend & Hdesc & Hord
          & HinO & HinW & Hadj & Hph) Hnull.
  exists D, W, tail, P.
  assert (Hadj' : Spec.adjacent (E ++ [tmp]) None W).
  { apply (adjacent_mono E); [|exact Hadj]. intros x y. apply before_app_r. }
  destruct s as [sn fr df cm pc nci act al fc wt wq oc ex ci lp ab wl].
  unfold FileChunk.enque. unfold Spec.writerPhase in *. simpl in *.
  destruct Hph as [(Hwt & Hex & Hwl & Hwq & Hfirst)|[(Hwt & Hwl & tasks & Hex & Htasks)
                                                    |(Hwt & Hex & n & done & Hwl & Hn & Hd)]];
    subst wt; simpl.
  - subst wq wl. rewrite app_nil_r in HE. subst E.
    assert (Hfc : fc = FileChunk._firstChunkIdToBeWritten s0 + Z.of_nat (length W)).
    { destruct Hfirst as [H|H]; [exact H|exfalso].
      apply in_split in H. destruct H as (l1 & l2 & ->).
      specialize (Hnull l1 (l2 ++ [tmp])). rewrite <- app_assoc in Hnull.
      specialize (Hnull eq_refl). destruct l2; discriminate. }
    repeat (split; [first [assumption|reflexivity]|]).
    right. left. split; [reflexivity|]. split; [reflexivity|].
    exists ex. rewrite <- Hfc. split; [apply takeFileWriter_restart; exact Hex|exact Hex].
  - rewrite HE, <- app_assoc.
    repeat (split; [first [assumption|reflexivity]|]).
    split; [rewrite app_assoc, <- HE; exact Hadj'|].
    right. left. split; [reflexivity|]. split; [exact Hwl|]. exists tasks. auto.
  - rewrite HE, <- app_assoc.
    repeat (split; [first [assumption|reflexivity]|]).
    split; [rewrite app_assoc, <- HE; exact Hadj'|].
    right. right. split; [reflexivity|]. split; [exact Hex|]. exists n, done. auto.
Qed.

Lemma fileWriterInv_rollOver (s0 s : FileChunk.WriteableFileChunk)
    (E : FileChunk.ProcessedChunkQ) (m : list (Z * FileChunk.Chunk)) :
  Spec.fileWriterInv s0 E s -> Spec.fileWriterInv s0 E (FileChunk.with_chunkMap m s).
Proof.
  intros (D & W & tail & P & H). exists D, W, tail, P. exact H.
Qed.

Lemma fileWriterInv_tail (valid : FileChunk.ChunkInfo -> bool)
    (s0 s s' : FileChunk.WriteableFileChunk) (E : FileChunk.ProcessedChunkQ) :
  Spec.fileWriterInv s0 E s ->
  FileChunk.fileWriter_tail valid s = Ok s' ->
  Spec.fileWriterInv s0 E s'.
Proof.
  intros (D & W & tail & P & HE & Hfile & Hcons & Hf0 & He & Hpend & Hdesc & Hord
          & HinO & HinW & Hadj & Hph) Ht.
  exists D, W, tail, P.
  destruct s as [sn fr df cm pc nci act al fc wt wq oc ex ci lp ab wl].
  unfold FileChunk.fileWriter_tail in Ht. unfold Spec.writerPhase in *. simpl in *.
  destruct Hph as [(Hwt & Hex & Hwl & Hwq & Hfirst)|[(Hwt & Hwl & tasks & Hex & Htasks)
                                                    |(Hwt & Hex & n & done & Hwl & Hn & Hd)]];
    subst wt wl; [discriminate|discriminate|].
  destruct done.
  - unfold assert, bind in Ht.
    destruct wq as [|q wq]; [|discriminate]. simpl in Ht.
    destruct (OrderedMap.empty cm); [|discriminate].
    destruct (forallb _ ci); [|discriminate].
    injection Ht as <-. simpl.
    repeat (split; [first [assumption|reflexivity]|]).
    left. repeat split; auto.
  - specialize (Hn eq_refl). subst n. destruct wq as [|q wq]; simpl in Ht.
    + injection Ht as <-. simpl.
      repeat (split; [first [assumption|reflexivity]|]).
      left. repeat split; auto.
    + injection Ht as <-. simpl.
      repeat (split; [first [assumption|reflexivity]|]).
      right. left. split; [reflexivity|]. split; [reflexivity|].
      exists ex. split; [apply takeFileWriter_restart; exact Hex|exact Hex].
Qed.

Lemma written_unpadded (l : list FileChunk.ProcessedChunk) :
  Spec.written (map (fun c => (O, c)) l) = flat_map FileChunk._buf l.
Proof.
  unfold Spec.written. induction l as [|c l IH]; [reflexivity|].
  simpl. rewrite IH. reflexivity.
Qed.

Lemma written_app (W1 W2 : list (nat * FileChunk.ProcessedChunk)) :
  Spec.written (W1 ++ W2) = Spec.written W1 ++ Spec.written W2.
Proof. apply flat_map_app. Qed.

Lemma chunkIds_unpadded (l : list FileChunk.ProcessedChunk) :
  Spec.chunkIds (map (fun c => (O, c)) l) = map FileChunk._chunkId l.
Proof. unfold Spec.chunkIds. rewrite map_map. reflexivity. Qed.

Lemma fileWriterInv_block (s0 s s' : FileChunk.WriteableFileChunk)
    (E : FileChunk.ProcessedChunkQ) (fc : Z) (tasks : list FileChunk.Task) :
  Spec.fileWriterInv s0 E s ->
  (forall c, In (Some c) E -> FileChunk._chunkId c < UINT32_MAX) ->
  FileChunk.takeFileWriter (FileChunk._executor s) = Some (fc, tasks) ->
  FileChunk.fileWriter_block fc (FileChunk.with_executor tasks s) = Ok s' ->
  Spec.fileWriterInv s0 E s'.
Proof.
  intros (D & W & tail & P & HE & Hfile & Hcons & Hf0 & He & Hpend & Hdesc & Hord
          & HinO & HinW & Hadj & Hph) Hids Htake Hblock.
  set (f := FileChunk._firstChunkIdToBeWritten s0) in *.
  set (e := f + Z.of_nat (length W)) in *.
  assert (Hsched : fc = e /\ FileChunk.takeFileWriter tasks = None
                   /\ FileChunk._writeTaskIsRunning s = true).
  { destruct Hph as [(Hwt & Hex & _)|[(Hwt & Hwl & tasks' & Hex & Htasks)
                                     |(Hwt & Hex & _)]];
      rewrite Hex in Htake; try discriminate.
    injection Htake as <- <-. auto. }
  destruct Hsched as (-> & Htasks & Hrun).
  destruct (fileWriter_block_spec e (FileChunk.with_executor tasks s) s'
              ltac:(lia) Hord
              ltac:(intros c Hc; apply Hids; rewrite HE; apply in_or_app; right; exact Hc)
              Hblock)
    as (batch & done & pad & recs & n & HQ' & Hord' & HinO' & Hbatch & Hdone & Hcons'
        & Hbound & Hfile' & Hpend' & Hdesc' & Hwl' & Hn & Hex' & Hrun' & Hfirst').
  simpl in HinO', Hbatch, Hdone, Hfile', Hpend', Hdesc', Hex', Hrun', Hfirst'.
  assert (HD : forall v, In v D \/ In v (FileChunk._writeQ s)
                         -> In v (D ++ FileChunk._writeQ s))
    by (intros v Hv; apply in_or_app; exact Hv).
  assert (Hphase : forall e', (done = false -> n = e') ->
             Spec.writerPhase s' e' (D ++ FileChunk._writeQ s)).
  { intros e' Hn'. right. right. rewrite Hrun', Hex'. simpl.
    split; [exact Hrun|]. split; [exact Htasks|].
    exists n, done. split; [exact Hwl'|]. split; [exact Hn'|].
    intros Hd. apply HD. destruct (Hdone Hd) as [H|H]; [left; eapply HinO; exact H|auto]. }
  assert (HinO2 : forall k v, In (k, v) (FileChunk._orderedChunks s')
                              -> In v (D ++ FileChunk._writeQ s)).
  { intros k v Hkv. apply HD. destruct (HinO' k v Hkv) as [H|H]; [left; eapply HinO; exact H|auto]. }
  assert (Hlen : Z.of_nat (length (FileChunk._dataFile s))
                 = Z.of_nat (length (FileChunk._dataFile s0))
                   + Z.of_nat (length (Spec.written W)) + Z.of_nat tail).
  { rewrite Hfile, !length_app, repeat_length, !Nat2Z.inj_add. lia. }
  destruct batch as [|c1 r].
  - exists (D ++ FileChunk._writeQ s), W, (tail + pad)%nat, P.
    destruct recs as [|rc recs]; [|contradiction].
    simpl in Hord', Hbound, Hfile', Hpend', Hn. rewrite Z.add_0_r in Hord', Hn.
    rewrite HQ', app_nil_r.
    split; [exact HE|].
    split; [rewrite Hfile', Hfile, app_nil_r, repeat_app, <- !app_assoc; reflexivity|].
    split; [exact Hcons|]. split; [exact Hf0|]. split; [exact He|].
    split; [rewrite Hpend', Hpend, app_nil_r; reflexivity|].
    split; [exact Hdesc|]. split; [exact Hord'|]. split; [exact HinO2|].
    split; [intros w Hw; apply in_or_app; left; apply HinW, Hw|].
    split; [exact Hadj|]. apply Hphase. exact Hn.
  - set (Wn := (tail + pad, c1)%nat :: map (fun c => (O, c)) r).
    exists (D ++ FileChunk._writeQ s), (W ++ Wn), O, (P ++ recs).
    assert (Hlen' : Z.of_nat (length (W ++ Wn)) = Z.of_nat (length W) + Z.of_nat (length (c1 :: r))).
    { rewrite length_app, Nat2Z.inj_add. unfold Wn. simpl length. rewrite length_map.
      reflexivity. }
    rewrite Hlen'. rewrite HQ', app_nil_r.
    assert (Heq : FileChunk._firstChunkIdToBeWritten s0
                  + (Z.of_nat (length W) + Z.of_nat (length (c1 :: r)))
                  = e + Z.of_nat (length (c1 :: r))) by (unfold e, f; lia).
    rewrite Heq.
    split; [exact HE|].
    split.
    { rewrite Hfile', Hfile, written_app. unfold Wn.
      change (Spec.written ((tail + pad, c1)%nat :: map (fun c => (O, c)) r))
        with (Spec.segment ((tail + pad)%nat, c1) ++ Spec.written (map (fun c => (O, c)) r)).
      rewrite written_unpadded. unfold Spec.segment. simpl fst. simpl snd.
      rewrite repeat_app. simpl flat_map. simpl repeat.
      rewrite <- !app_assoc, app_nil_r. reflexivity. }
    split.
    { unfold Spec.chunkIds. rewrite map_app. apply consecutive_app.
      split; [exact Hcons|]. rewrite length_map. fold e. unfold Wn. simpl map.
      rewrite map_map. simpl. exact Hcons'. }
    split; [exact Hf0|]. split; [exact Hbound|].
    split; [rewrite Hpend', Hpend, app_assoc; reflexivity|].
    split.
    { apply described_app; [exact Hdesc|]. unfold Wn. apply described_first_pad.
      rewrite Hlen in Hdesc'. rewrite Nat2Z.inj_add.
      replace (Z.of_nat (length (FileChunk._dataFile s0))
               + Z.of_nat (length (Spec.written W)) + (Z.of_nat tail + Z.of_nat pad))
        with (Z.of_nat (length (FileChunk._dataFile s0))
              + Z.of_nat (length (Spec.written W)) + Z.of_nat tail + Z.of_nat pad) by lia.
      exact Hdesc'. }
    split; [exact Hord'|]. split; [exact HinO2|].
    split.
    { intros w Hw. apply in_app_or in Hw. destruct Hw as [Hw|Hw].
      - apply in_or_app. left. apply HinW, Hw.
      - apply HD.
        assert (Hc : In (snd w) (c1 :: r)).
        { unfold Wn in Hw. destruct Hw as [<-|Hw]; [left; reflexivity|].
          apply in_map_iff in Hw. destruct Hw as (c & <- & Hc). right. exact Hc. }
        destruct (Hbatch _ Hc) as [H|H]; [left; eapply HinO; exact H|auto]. }
    split.
    { apply adjacent_app; [exact Hadj|]. unfold Wn. simpl.
      split; [|apply adjacent_unpadded].
      destruct (last_In None (map (fun w => Some (snd w)) W)) as [Hl|Hl].
      - rewrite Hl. exact I.
      - destruct (last (map (fun w => Some (snd w)) W) None) as [p|] eqn:Hlast; [|exact I].
        intros _. rewrite HE. apply before_across.
        + apply in_map_iff in Hl. destruct Hl as (w & Hw & Hin).
          rewrite <- Hw. apply HinW, Hin.
        + destruct (Hbatch c1 ltac:(left; reflexivity)) as [H|H]; [exfalso|exact H].
          destruct (ordered_In _ _ _ _ Hord H) as [Hge _].
          simpl in Hcons'. destruct Hcons' as [Hid _]. lia. }
    apply Hphase. exact Hn.
Qed.

Lemma fileWriterInv_init (s0 : FileChunk.WriteableFileChunk) :
  Spec.writerIdle s0 -> Spec.fileWriterInv s0 [] s0.
Proof.
  intros (HQ & HO & Hrun & Hwl & Hex & Hf).
  exists [], [], O, []. simpl. rewrite HQ, HO, !app_nil_r, Z.add_0_r.
  repeat (split; [first [reflexivity|lia|exact I|contradiction]|]).
  left. repeat split; auto.
Qed.

(** Every state the instance reaches satisfies the invariant. *)
Lemma fileWriterInv_run (valid : FileChunk.ChunkInfo -> bool)
    (s0 : FileChunk.WriteableFileChunk) (evs : list FileChunk.Event) :
  Spec.writerIdle s0 ->
  (forall c, In (Some c) (Spec.enqueued evs) -> FileChunk._chunkId c < UINT32_MAX) ->
  (forall l1 l2, Spec.enqueued evs = l1 ++ None :: l2 -> l2 = []) ->
  forall s, FileChunk.run valid s0 evs = Ok s ->
            Spec.fileWriterInv s0 (Spec.enqueued evs) s.
Proof.
  intros Hidle. induction evs as [|ev evs IH] using rev_ind; intros Hids Hnull s Hrun.
  - simpl in Hrun. injection Hrun as <-. apply fileWriterInv_init, Hidle.
  - rewrite run_snoc in Hrun. rewrite enqueued_snoc in Hids, Hnull |- *.
    destruct (FileChunk.run valid s0 evs) as [s1|] eqn:Hrun1; [|discriminate].
    simpl in Hrun.
    assert (Hinv : Spec.fileWriterInv s0 (Spec.enqueued evs) s1).
    { apply IH; [| |reflexivity].
      - intros c Hc. apply Hids. apply in_or_app. left. exact Hc.
      - intros l1 l2 Hl. specialize (Hnull l1 (l2 ++ match ev with
                                                       | FileChunk.EvEnque tmp => [tmp]
                                                       | _ => []
                                                       end)).
        rewrite Hl, <- app_assoc in Hnull. specialize (Hnull eq_refl).
        apply app_eq_nil in Hnull. tauto. }
    destruct ev as [tmp|ch| |]; simpl in Hrun.
    + injection Hrun as <-. apply fileWriterInv_enque; assumption.
    + injection Hrun as <-. rewrite app_nil_r. apply fileWriterInv_rollOver, Hinv.
    + rewrite app_nil_r in *.
      destruct (FileChunk.takeFileWriter (FileChunk._executor s1)) as [[fc tasks]|] eqn:Ht;
        [|discriminate].
      eapply fileWriterInv_block; eassumption.
    + rewrite app_nil_r. eapply fileWriterInv_tail; eassumption.
Qed.

(** C1. From an instance whose writer is at rest, let chunks be handed to
    enque in any order (ids below UINT32_MAX, the null chunk of freeze
    last) while the writer runs at any times; take any state [s] reached.
    Then the data file is what it was, followed by one segment per written
    chunk, and the written chunks have the ids f, f + 1, f + 2, ... from
    the first expected id f on, each of them a chunk that was enqueued.  A
    segment is the chunk's bytes, with alignment padding before them only
    at the start of a batch: a chunk that was enqueued before its
    predecessor (chunk n + 1 packed before chunk n) has no padding, so the
    bytes of chunk n are immediately before its bytes.  The index records
    added are one per written chunk, in the same ascending order, each with
    the offset and length of the bytes of its chunk.  And fetchNextChain
    returns exactly the run of consecutive ids from firstChunkId that the
    map holds (with the null chunk after it when nothing else is left),
    leaving a map that starts above the next id. *)
Theorem C1_fileWriter_contiguous :
  forall (valid : FileChunk.ChunkInfo -> bool)
         (s0 s : FileChunk.WriteableFileChunk) (evs : list FileChunk.Event),
    Spec.writerIdle s0 ->
    (forall c, In (Some c) (Spec.enqueued evs) -> FileChunk._chunkId c < UINT32_MAX) ->
    (forall l1 l2, Spec.enqueued evs = l1 ++ None :: l2 -> l2 = []) ->
    FileChunk.run valid s0 evs = Ok s ->
    (forall (orderedChunks : FileChunk.ProcessedChunkMap) (firstChunkId : Z),
        0 <= firstChunkId <= UINT32_MAX ->
        Spec.ordered firstChunkId orderedChunks ->
        exists (batch : list FileChunk.ProcessedChunk) (done : bool)
               (rest : FileChunk.ProcessedChunkMap),
          FileChunk.fetchNextChain orderedChunks firstChunkId
          = (map Some batch ++ (if done then [None] else []), rest)
          /\ orderedChunks
             = map (fun c => (FileChunk._chunkId c, Some c)) batch
               ++ (if done then [(UINT32_MAX, None)] else []) ++ rest
          /\ Spec.consecutive firstChunkId (map FileChunk._chunkId batch)
          /\ Spec.ordered (firstChunkId + Z.of_nat (length batch) + 1) rest)
    /\ exists (W : list (nat * FileChunk.ProcessedChunk)) (tail : nat)
              (P : list FileChunk.PendingChunk),
        FileChunk._dataFile s
        = FileChunk._dataFile s0 ++ Spec.written W ++ repeat Byte.x00 tail
        /\ Spec.consecutive (FileChunk._firstChunkIdToBeWritten s0) (Spec.chunkIds W)
        /\ (forall w, In w W -> In (Some (snd w)) (Spec.enqueued evs))
        /\ (forall i w w',
               nth_error W i = Some w -> nth_error W (S i) = Some w' ->
               fst w' <> O ->
               Spec.before (Some (snd w)) (Some (snd w')) (Spec.enqueued evs))
        /\ (NoDup (Spec.enqueued evs) ->
            forall i w w',
              nth_error W i = Some w -> nth_error W (S i) = Some w' ->
              Spec.before (Some (snd w')) (Some (snd w)) (Spec.enqueued evs) ->
              fst w' = O)
        /\ FileChunk._pendingChunks s = FileChunk._pendingChunks s0 ++ P
        /\ Spec.described (Z.of_nat (length (FileChunk._dataFile s0))) W P.
Proof.
  intros valid s0 s evs Hidle Hids Hnull Hrun. split.
  - intros O first Hfirst Ho.
    destruct (fetchNextChain_spec O first Hfirst Ho)
      as (batch & done & rest & Hf & HO & Hc & Hr & _).
    exists batch, done, rest. auto.
  - destruct (fileWriterInv_run valid s0 evs Hidle Hids Hnull s Hrun)
      as (D & W & tail & P & HE & Hfile & Hcons & Hf0 & He & Hpend & Hdesc & Hord
          & HinO & HinW & Hadj & Hph).
    exists W, tail, P.
    split; [exact Hfile|]. split; [exact Hcons|].
    split; [intros w Hw; rewrite HE; apply in_or_app; left; apply HinW, Hw|].
    split; [intros i w w' Hi Hi' Hpad; exact (adjacent_nth _ _ _ i w w' Hadj Hi Hi' Hpad)|].
    split; [|split; [exact Hpend|exact Hdesc]].
    intros Hnd i w w' Hi Hi' Hbefore.
    destruct (Nat.eq_dec (fst w') O) as [Hz|Hnz]; [exact Hz|exfalso].
    apply (before_once _ _ _ Hnd Hbefore).
    exact (adjacent_nth _ _ _ i w w' Hadj Hi Hi' Hnz).
Qed.

Lemma C1_fileWriter_contiguous_witness :
  let evs := Sample.sixFirst ++ Sample.thenFiveAndSeven in
  exists s,
    FileChunk.run (fun _ => true) Sample.writerStart evs = Ok s
    /\ exists W tail P,
         FileChunk._dataFile s = Spec.written W ++ repeat Byte.x00 tail
         /\ Spec.consecutive 5 (Spec.chunkIds W)
         /\ (forall w, In w W -> In (Some (snd w)) (Spec.enqueued evs))
         /\ FileChunk._pendingChunks s = P
         /\ Spec.described 0 W P.
Proof.
  intros evs.
  destruct (FileChunk.run (fun _ => true) Sample.writerStart evs) as [s|f] eqn:Hrun;
    [|vm_compute in Hrun; discriminate].
  exists s. split; [reflexivity|].
  destruct (C1_fileWriter_contiguous (fun _ => true) Sample.writerStart s evs) as [_ H].
  - unfold Spec.writerIdle. simpl. unfold UINT32_MAX.
    repeat split; try reflexivity; lia.
  - intros c Hc. simpl in Hc.
    destruct Hc as [Hc|[Hc|[Hc|[]]]]; injection Hc as <-; reflexivity.
  - intros l1 l2 Hl. exfalso.
    assert (Hin : In None (Spec.enqueued evs))
      by (rewrite Hl; apply in_or_app; right; left; reflexivity).
    simpl in Hin. destruct Hin as [Hin|[Hin|[Hin|[]]]]; discriminate.
  - exact Hrun.
  - destruct H as (W & tail & P & Hfile & Hcons & Hin & _ & _ & Hpend & Hdesc).
    exists W, tail, P. simpl in Hfile, Hpend, Hdesc. auto.
Defined.

(** The run of the witness, step by step: chunk 6 alone is held back and
    nothing reaches the data file; once chunk 5 is there, the bytes of 5,
    6 and 7 are written as one piece, and the index records follow the
    ids. *)
Example fileWriter_six_first :
  match FileChunk.run (fun _ => true) Sample.writerStart Sample.sixFirst with
  | Ok s =>
      FileChunk._dataFile s = []
      /\ FileChunk._pendingChunks s = []
      /\ map fst (FileChunk._orderedChunks s) = [6]
  | Err _ => Logic.False
  end
  /\ match FileChunk.run (fun _ => true) Sample.writerStart
            (Sample.sixFirst ++ Sample.thenFiveAndSeven) with
     | Ok s =>
         FileChunk._dataFile s
         = [Byte.x35; Byte.x35; Byte.x36; Byte.x36; Byte.x37; Byte.x37]
         /\ map FileChunk._dataOffset (FileChunk._pendingChunks s) = [0; 2; 4]
         /\ map FileChunk._lastSerial (FileChunk._pendingChunks s) = [5; 6; 7]
         /\ FileChunk._orderedChunks s = []
         /\ FileChunk._firstChunkIdToBeWritten s = 8
     | Err _ => Logic.False
     end.
Proof. vm_compute. repeat split. Qed.

(** ** WriteableFileChunk: alignment, the packing task and the index flush *)

Lemma land_Alignment (z : Z) :
  Z.land z (FileChunk.Alignment - 1) = z mod 4096.
Proof.
  change (FileChunk.Alignment - 1) with (Z.ones 12).
  rewrite Z.land_ones by lia. reflexivity.
Qed.

Lemma length_app_repeat {A : Type} (l : list A) (x : A) (n : nat) :
  Z.of_nat (length (l ++ repeat x n)) = Z.of_nat (length l) + Z.of_nat n.
Proof. rewrite length_app, repeat_length. lia. Qed.

(** X1. getAlignedStartPos never hits its assertion.  It returns the least
    multiple of 4096 that is not below the length of the file, after it has
    appended the zero bytes (fewer than 4096) that lead there; a file whose
    length is a multiple of 4096 is left as it is. *)
Theorem getAlignedStartPos_next_multiple :
  forall file : list FileChunk.byte,
    let len := Z.of_nat (length file) in
    let pad := (- len) mod 4096 in
    FileChunk.getAlignedStartPos file
    = Ok (len + pad, file ++ repeat Byte.x00 (Z.to_nat pad))
    /\ 0 <= pad < 4096
    /\ (len + pad) mod 4096 = 0
    /\ (forall m, len <= m -> m mod 4096 = 0 -> len + pad <= m)
    /\ (len mod 4096 = 0 -> FileChunk.getAlignedStartPos file = Ok (len, file)).
Proof.
  intros file len pad.
  assert (Hpad : 0 <= pad < 4096) by (apply Z.mod_pos_bound; lia).
  assert (Hsum : (len + pad) mod 4096 = 0).
  { unfold pad. rewrite Zplus_mod_idemp_r. replace (len + - len) with 0 by lia.
    reflexivity. }
  assert (Hcases : (len mod 4096 = 0 /\ pad = 0)
                   \/ (len mod 4096 <> 0 /\ pad = 4096 - len mod 4096)).
  { unfold pad. destruct (Z.eq_dec (len mod 4096) 0) as [E|E].
    - left. split; [exact E|]. apply Z_mod_zero_opp_full. exact E.
    - right. split; [exact E|]. apply Z_mod_nz_opp_full. exact E. }
  assert (Haligned : len mod 4096 = 0 -> FileChunk.getAlignedStartPos file = Ok (len, file)).
  { intros E. unfold FileChunk.getAlignedStartPos. fold len.
    rewrite land_Alignment, E. simpl. rewrite land_Alignment, E. reflexivity. }
  split; [|split; [exact Hpad|split; [exact Hsum|split; [|exact Haligned]]]].
  - destruct Hcases as [[E Hp]|[E Hp]].
    + rewrite Hp. simpl. rewrite app_nil_r, Z.add_0_r. apply Haligned, E.
    + unfold FileChunk.getAlignedStartPos. fold len.
      rewrite land_Alignment.
      destruct (Z.eqb_spec (len mod 4096) 0) as [E'|_]; [contradiction|].
      change FileChunk.Alignment with 4096. rewrite <- Hp.
      cbv zeta. cbv beta iota.
      rewrite land_Alignment, length_app_repeat, Z2Nat.id by lia.
      fold len. rewrite Hsum. reflexivity.
  - intros m Hm Hmod.
    assert (Hlen : len = 4096 * (len / 4096) + len mod 4096) by (apply Z.div_mod; lia).
    assert (Hm' : m = 4096 * (m / 4096)).
    { rewrite (Z.div_mod m 4096) at 1 by lia. rewrite Hmod. lia. }
    assert (Hr : 0 <= len mod 4096 < 4096) by (apply Z.mod_pos_bound; lia).
    destruct Hcases as [[E Hp]|[E Hp]]; [lia|].
    assert (len / 4096 < m / 4096) by nia. nia.
Qed.

Lemma pad_aligns (al p : Z) :
  0 < al -> (p + (al - p mod al) mod al) mod al = 0.
Proof.
  intros Hal. rewrite Zplus_mod_idemp_r.
  replace (p + (al - p mod al)) with (al * (p / al + 1)).
  - rewrite Z.mul_comm. apply Z_mod_mult.
  - pose proof (Z.div_mod p al ltac:(lia)) as H.
    rewrite Z.mul_add_distr_l. lia.
Qed.

Lemma writeQ_enque (tmp : FileChunk.ProcessedChunkUP) (s : FileChunk.WriteableFileChunk) :
  FileChunk._writeQ (FileChunk.enque tmp s) = FileChunk._writeQ s ++ [tmp].
Proof.
  unfold FileChunk.enque. simpl.
  destruct (FileChunk._writeTaskIsRunning s); reflexivity.
Qed.

Lemma find_assign {V : Type} (k : Z) (v : V) (m : list (Z * V)) :
  OrderedMap.find k (OrderedMap.assign k v m) = Some v.
Proof.
  induction m as [|[k' v'] m IH]; simpl.
  - rewrite Z.eqb_refl. reflexivity.
  - destruct (Z.ltb_spec k k') as [Hlt|Hge].
    + simpl. rewrite Z.eqb_refl. reflexivity.
    + destruct (Z.eqb_spec k k') as [->|Hne].
      * simpl. rewrite Z.eqb_refl. reflexivity.
      * simpl. destruct (Z.eqb_spec k' k) as [E|_]; [congruence|]. exact IH.
Qed.

(** What internalFlush makes of the bytes [pack] gave it. *)
Lemma internalFlush_found (pack : Z -> FileChunk.Chunk -> FileChunk.Chunk * list FileChunk.byte)
    (chunkId serialNum : Z) (s : FileChunk.WriteableFileChunk) (active : FileChunk.Chunk) :
  1 <= FileChunk._alignment s ->
  OrderedMap.find chunkId (FileChunk._chunkMap s) = Some active ->
  Z.of_nat (length (snd (pack serialNum active))) < 2 ^ 32 ->
  let packed := snd (pack serialNum active) in
  exists (pad : nat) (tmp : FileChunk.ProcessedChunk),
    FileChunkTasks.internalFlush pack chunkId serialNum s
    = Ok (FileChunk.enque (Some tmp)
            (FileChunk.with_chunkMap
               (OrderedMap.assign chunkId (fst (pack serialNum active))
                  (FileChunk._chunkMap s)) s))
    /\ FileChunk._chunkId tmp = chunkId
    /\ FileChunk._payLoad tmp = Z.of_nat (length packed)
    /\ FileChunk._buf tmp = packed ++ repeat Byte.x00 pad
    /\ Z.of_nat pad < FileChunk._alignment s
    /\ FileChunk.getDataLen tmp mod FileChunk._alignment s = 0.
Proof.
  intros Hal Hfind Hlen packed.
  unfold FileChunkTasks.internalFlush. rewrite Hfind. simpl.
  fold packed in Hlen.
  destruct (pack serialNum active) as [active' bytes] eqn:Hpack.
  simpl in packed. subst packed. simpl.
  assert (Hwrap : wrap32 (Z.of_nat (length bytes)) = Z.of_nat (length bytes)).
  { unfold wrap32. apply Z.mod_small. lia. }
  rewrite Hwrap.
  set (al := FileChunk._alignment s) in *.
  set (p := Z.of_nat (length bytes)) in *.
  destruct (Z.ltb_spec 1 al) as [Hgt|Hle].
  - exists (Z.to_nat ((al - p mod al) mod al)).
    eexists. split; [reflexivity|]. simpl.
    assert (Hpad : 0 <= (al - p mod al) mod al < al) by (apply Z.mod_pos_bound; lia).
    repeat split; try lia.
    unfold FileChunk.getDataLen. simpl.
    rewrite length_app_repeat, Z2Nat.id by lia. apply pad_aligns. lia.
  - exists O. eexists. split; [reflexivity|]. simpl.
    repeat split; try lia.
    + rewrite app_nil_r. reflexivity.
    + assert (al = 1) by lia. rewrite H. apply Z.mod_1_r.
Qed.

(** X2. internalFlush hands over an aligned buffer: for a chunk that is
    in the chunk map and packs into fewer than 2^32 bytes, the processed
    chunk it enqueues carries the packed bytes followed by fewer than
    [_alignment] zero bytes, its payload is the packed length and its data
    length is a multiple of [_alignment], so that computeChunkMeta's
    alignment assertion holds for it.  A chunk id that is not in the chunk
    map makes the task dereference a null pointer. *)
Theorem internalFlush_aligned :
  forall (pack : Z -> FileChunk.Chunk -> FileChunk.Chunk * list FileChunk.byte)
         (chunkId serialNum : Z) (s : FileChunk.WriteableFileChunk),
    1 <= FileChunk._alignment s ->
    (forall active,
        OrderedMap.find chunkId (FileChunk._chunkMap s) = Some active ->
        Z.of_nat (length (snd (pack serialNum active))) < 2 ^ 32 ->
        let packed := snd (pack serialNum active) in
        exists (pad : nat) (tmp : FileChunk.ProcessedChunk) (s' : FileChunk.WriteableFileChunk),
          FileChunkTasks.internalFlush pack chunkId serialNum s = Ok s'
          /\ FileChunk._writeQ s' = FileChunk._writeQ s ++ [Some tmp]
          /\ FileChunk._chunkId tmp = chunkId
          /\ FileChunk._payLoad tmp = Z.of_nat (length packed)
          /\ FileChunk._buf tmp = packed ++ repeat Byte.x00 pad
          /\ Z.of_nat pad < FileChunk._alignment s
          /\ FileChunk.getDataLen tmp mod FileChunk._alignment s = 0
          /\ forall offset chunk,
               FileChunk.computeChunkMeta1 s' offset tmp chunk
               <> Err (AssertionFailed "(dataLen%_alignment) == 0"))
    /\ (OrderedMap.find chunkId (FileChunk._chunkMap s) = None ->
        FileChunkTasks.internalFlush pack chunkId serialNum s
        = Err (NullDereference "_chunkMap[chunkId].get()")).
Proof.
  intros pack chunkId serialNum s Hal. split.
  - intros active Hfind Hlen packed.
    destruct (internalFlush_found pack chunkId serialNum s active Hal Hfind Hlen)
      as (pad & tmp & Hrun & Hid & Hpay & Hbuf & Hpad & Hmod).
    exists pad, tmp. eexists. split; [exact Hrun|].
    rewrite writeQ_enque. simpl.
    repeat split; try assumption.
    intros offset chunk. unfold FileChunk.computeChunkMeta1.
    assert (Hal' : FileChunk._alignment
                     (FileChunk.enque (Some tmp)
                        (FileChunk.with_chunkMap
                           (OrderedMap.assign chunkId (fst (pack serialNum active))
                              (FileChunk._chunkMap s)) s))
                   = FileChunk._alignment s).
    { unfold FileChunk.enque. simpl.
      destruct (FileChunk._writeTaskIsRunning s); reflexivity. }
    rewrite Hal', Hmod. simpl. discriminate.
  - intros Hnone. unfold FileChunkTasks.internalFlush. rewrite Hnone. reflexivity.
Qed.

(** A chunk of one byte in an instance with alignment 4. *)
Lemma internalFlush_aligned_witness :
  exists (pad : nat) (tmp : FileChunk.ProcessedChunk) (s' : FileChunk.WriteableFileChunk),
    FileChunkTasks.internalFlush (fun _ c => (c, flat_map snd (FileChunk.getLids c))) 7 10
      (FileChunk.with_chunkMap [(7, Sample.sealed 7)]
         (FileChunk.mkWFC 10 false [] [] [] 8 (FileChunk.newChunk 8 4) 4 5 false [] [] []
            [] 0 0 None))
    = Ok s'
    /\ FileChunk._buf tmp
       = flat_map snd (FileChunk.getLids (Sample.sealed 7)) ++ repeat Byte.x00 pad
    /\ FileChunk.getDataLen tmp mod 4 = 0.
Proof.
  pose proof (internalFlush_aligned
                (fun _ c => (c, flat_map snd (FileChunk.getLids c))) 7 10
                (FileChunk.with_chunkMap [(7, Sample.sealed 7)]
                   (FileChunk.mkWFC 10 false [] [] [] 8 (FileChunk.newChunk 8 4) 4 5
                      false [] [] [] [] 0 0 None))
                ltac:(simpl; lia)) as [H _].
  destruct (H (Sample.sealed 7) eq_refl ltac:(vm_compute; reflexivity))
    as (pad & tmp & s' & Hrun & _ & _ & _ & Hbuf & _ & Hmod & _).
  exists pad, tmp, s'. split; [exact Hrun|]. split; [exact Hbuf|exact Hmod].
Defined.

Lemma to_int32_id (z : Z) : 0 <= z < 2 ^ 31 -> FileChunk.to_int32 z = z.
Proof.
  intros H. unfold FileChunk.to_int32. rewrite Z.mod_small; lia.
Qed.

Lemma wrap32_id (z : Z) : 0 <= z < 2 ^ 32 -> wrap32 z = z.
Proof. intros H. unfold wrap32. apply Z.mod_small. exact H. Qed.

Lemma internalFlush_enqueues
    (pack : Z -> FileChunk.Chunk -> FileChunk.Chunk * list FileChunk.byte)
    (chunkId serialNum : Z) (s : FileChunk.WriteableFileChunk) (active : FileChunk.Chunk)
    (q : FileChunk.ProcessedChunkQ) :
  OrderedMap.find chunkId (FileChunk._chunkMap s) = Some active ->
  FileChunk._writeQ s = q ->
  exists (s'' : FileChunk.WriteableFileChunk) (tmp : FileChunk.ProcessedChunk),
    FileChunkTasks.internalFlush pack chunkId serialNum s = Ok s''
    /\ FileChunk._writeQ s'' = q ++ [Some tmp]
    /\ FileChunk._chunkId tmp = chunkId.
Proof.
  intros Hfind <-. unfold FileChunkTasks.internalFlush. rewrite Hfind. simpl.
  destruct (pack serialNum active) as [active' packed]. simpl.
  eexists. eexists. split; [reflexivity|]. rewrite writeQ_enque. simpl.
  split; reflexivity.
Qed.

(** X3. The packing task that flush schedules finds its chunk.  A
    non-blocking flush either has nothing to do (the token is not ahead of
    the serial number and the active chunk is empty) and leaves the
    instance as it is, or it moves the active chunk into the chunk map
    under its id, starts an empty active chunk with the next id and
    schedules internalFlush for the moved chunk with the new serial
    number; running that task then does not dereference a null pointer
    and enqueues a processed chunk with the id of the moved chunk. *)
Theorem flush_schedules_internalFlush :
  forall (pack : Z -> FileChunk.Chunk -> FileChunk.Chunk * list FileChunk.byte)
         (getChunkIdLimit : Z) (setSerialNum : Z -> Z -> Z) (getMaxChunkBytes : Z)
         (syncToken : Z) (s s' : FileChunk.WriteableFileChunk),
    0 <= FileChunk.getId (FileChunk._active s) < 2 ^ 31 ->
    FileChunk.flush_nonblocking getChunkIdLimit setSerialNum getMaxChunkBytes syncToken s
    = Ok s' ->
    (syncToken <= FileChunk._serialNum s
     /\ FileChunk.empty (FileChunk._active s) = true
     /\ s' = s)
    \/ ((FileChunk._serialNum s < syncToken \/ FileChunk.empty (FileChunk._active s) = false)
        /\ let id := FileChunk.getId (FileChunk._active s) in
           FileChunk._executor s'
           = FileChunk._executor s ++ [FileChunk.InternalFlush id (FileChunk._serialNum s')]
           /\ FileChunk._serialNum s' = setSerialNum (FileChunk._serialNum s) syncToken
           /\ FileChunk._active s' = FileChunk.newChunk (FileChunk._nextChunkId s) getMaxChunkBytes
           /\ FileChunk._nextChunkId s < getChunkIdLimit
           /\ OrderedMap.find id (FileChunk._chunkMap s') = Some (FileChunk._active s)
           /\ exists (s'' : FileChunk.WriteableFileChunk) (tmp : FileChunk.ProcessedChunk),
                FileChunkTasks.internalFlush pack id (FileChunk._serialNum s') s' = Ok s''
                /\ FileChunk._writeQ s'' = FileChunk._writeQ s ++ [Some tmp]
                /\ FileChunk._chunkId tmp = id).
Proof.
  intros pack limit setSerialNum maxBytes syncToken s s' Hid Hflush.
  unfold FileChunk.flush_nonblocking, FileChunk.flushLastIfNonEmpty in Hflush.
  destruct (1000 <? Z.of_nat (length (FileChunk._chunkMap s))); [discriminate|].
  rewrite (to_int32_id _ Hid) in Hflush.
  assert (Hw : wrap32 (FileChunk.getId (FileChunk._active s))
               = FileChunk.getId (FileChunk._active s)) by (apply wrap32_id; lia).
  rewrite ?Hw in Hflush.
  destruct (Z.ltb_spec (FileChunk._serialNum s) syncToken) as [Hforce|Hnot];
    destruct (FileChunk.empty (FileChunk._active s)) eqn:Hempty; simpl in Hflush.
  3: { left. injection Hflush as <-. repeat split; lia. }
  all: right; split; [first [left; lia|right; reflexivity]|].
  all: destruct (Z.ltb_spec (FileChunk._nextChunkId s) limit) as [Hlim|Hlim];
         [|discriminate]; simpl in Hflush.
  all: destruct (Z.leb_spec 0 (FileChunk.getId (FileChunk._active s))) as [_|Hneg];
         [|lia].
  all: rewrite ?Hw in Hflush; injection Hflush as <-; simpl.
  all: repeat split; try assumption; try apply find_assign.
  all: apply internalFlush_enqueues with (active := FileChunk._active s);
         [simpl; apply find_assign|reflexivity].
Qed.

(** The active chunk of [Sample.writerStart] holds nothing, so a token
    ahead of the serial number is what forces it out. *)
Lemma flush_schedules_internalFlush_witness :
  exists (s' s'' : FileChunk.WriteableFileChunk) (tmp : FileChunk.ProcessedChunk),
    FileChunk.flush_nonblocking 100 Z.max 4 11 Sample.writerStart = Ok s'
    /\ FileChunkTasks.internalFlush (fun _ c => (c, flat_map snd (FileChunk.getLids c)))
         8 (FileChunk._serialNum s') s' = Ok s''
    /\ FileChunk._writeQ s'' = [Some tmp]
    /\ FileChunk._chunkId tmp = 8.
Proof.
  destruct (FileChunk.flush_nonblocking 100 Z.max 4 11 Sample.writerStart) as [s'|f] eqn:Hrun;
    [|vm_compute in Hrun; discriminate].
  destruct (flush_schedules_internalFlush
              (fun _ c => (c, flat_map snd (FileChunk.getLids c))) 100 Z.max 4 11
              Sample.writerStart s' ltac:(vm_compute; split; [discriminate|reflexivity]) Hrun)
    as [(Hle & _)|(_ & H)].
  - vm_compute in Hle. exfalso. apply Hle. reflexivity.
  - cbv zeta in H. destruct H as (_ & _ & _ & _ & _ & s'' & tmp & Hrun' & Hq & Hid).
    exists s', s'', tmp. split; [reflexivity|]. split; [exact Hrun'|]. split; assumption.
Defined.

(** *** One writer at a time *)

Lemma fileWriters_app (a b : list FileChunk.Task) :
  Props.fileWriters (a ++ b) = (Props.fileWriters a + Props.fileWriters b)%nat.
Proof. unfold Props.fileWriters. rewrite filter_app, length_app. reflexivity. Qed.

Lemma fileWriters_take (tasks : list FileChunk.Task) :
  match FileChunk.takeFileWriter tasks with
  | Some (_, rest) => Props.fileWriters tasks = S (Props.fileWriters rest)
  | None => Props.fileWriters tasks = O
  end.
Proof.
  induction tasks as [|t tasks IH]; simpl; [reflexivity|].
  destruct t as [c n|n]; simpl.
  - destruct (FileChunk.takeFileWriter tasks) as [[n' rest]|]; simpl; exact IH.
  - reflexivity.
Qed.

Lemma computeChunkMeta_loop_frame (todo : FileChunk.ProcessedChunkQ) :
  forall (s : FileChunk.WriteableFileChunk) (startPos : Z)
         (kept : list FileChunk.ProcessedChunk) (cmetaV : list FileChunk.ChunkMeta)
         (sz lastSerial : Z) (d : bool) s' kept' cmetaV' sz' d',
    FileChunk.computeChunkMeta_loop s startPos todo kept cmetaV sz lastSerial d
    = Ok (s', kept', cmetaV', sz', d') ->
    s' = FileChunk.with_pendingChunks (FileChunk._pendingChunks s') s.
Proof.
  induction todo as [|[chunk|] todo IH]; intros s startPos kept cmetaV sz lastSerial d
    s' kept' cmetaV' sz' d' H; simpl in H.
  - injection H as <- _ _ _ _. destruct s; reflexivity.
  - destruct (OrderedMap.find (FileChunk._chunkId chunk) (FileChunk._chunkMap s))
      as [active|]; [|discriminate]. simpl in H.
    unfold FileChunk.computeChunkMeta1 in H.
    destruct (FileChunk.getDataLen chunk mod FileChunk._alignment s =? 0); [|discriminate].
    simpl in H.
    destruct (lastSerial <=? FileChunk.getLastSerial active); [|discriminate]. simpl in H.
    apply IH in H. rewrite H at 1. destruct s; reflexivity.
  - destruct (is_nil todo); [|discriminate]. simpl in H. apply IH in H. exact H.
Qed.

(** What a run of the block of fileWriter leaves of the control state. *)
Lemma fileWriter_block_control (e : Z) (s s' : FileChunk.WriteableFileChunk) :
  FileChunk.fileWriter_block e s = Ok s' ->
  FileChunk._executor s' = FileChunk._executor s
  /\ FileChunk._writeTaskIsRunning s' = FileChunk._writeTaskIsRunning s
  /\ FileChunk._writeQ s' = []
  /\ exists l, FileChunk.writerLocals s' = Some l.
Proof.
  unfold FileChunk.fileWriter_block, FileChunk.drainQ. intros H.
  destruct (is_nil (FileChunk._writeQ s)); simpl in H.
  - injection H as <-. simpl. repeat split. eexists. reflexivity.
  - destruct (FileChunk.insertChunks _ _ _) as [ordered|]; [|discriminate]. simpl in H.
    destruct (FileChunk.fetchNextChain ordered e) as [chunks ordered'].
    destruct (FileChunk.getAlignedStartPos _) as [[startPos file]|]; [|discriminate].
    simpl in H.
    destruct (FileChunk.computeChunkMeta _ _ _) as [[[[[s1 kept] cmetaV] sz] done]|] eqn:Hc;
      [|discriminate].
    simpl in H.
    destruct (FileChunk.updateChunkInfo _ _ _) as [s2|] eqn:Hu; [|discriminate].
    simpl in H. injection H as <-.
    apply updateChunkInfo_frame in Hu.
    unfold FileChunk.computeChunkMeta in Hc.
    destruct (match rev _ with [] => _ | _ => _ end) as [ls|]; [|discriminate].
    simpl in Hc. apply computeChunkMeta_loop_frame in Hc.
    rewrite Hu. simpl. rewrite Hc. simpl. repeat split. eexists. reflexivity.
Qed.

Lemma step_single_run (valid : FileChunk.ChunkInfo -> bool)
    (s s' : FileChunk.WriteableFileChunk) (ev : FileChunk.Event) :
  Props.inFlight s = (if FileChunk._writeTaskIsRunning s then 1 else 0)%nat ->
  (FileChunk._writeTaskIsRunning s = false -> FileChunk._writeQ s = []) ->
  FileChunk.step valid s ev = Ok s' ->
  Props.inFlight s' = (if FileChunk._writeTaskIsRunning s' then 1 else 0)%nat
  /\ (FileChunk._writeTaskIsRunning s' = false -> FileChunk._writeQ s' = []).
Proof.
  intros Hcount Hq Hstep. unfold Props.inFlight in *.
  destruct ev as [tmp|ch| |]; simpl in Hstep.
  - injection Hstep as <-. unfold FileChunk.enque, FileChunk.restart. simpl.
    destruct (FileChunk._writeTaskIsRunning s) eqn:Hr; simpl.
    + rewrite Hr. split; [exact Hcount|discriminate].
    + rewrite fileWriters_app. simpl. split; [|discriminate].
      change (Props.fileWriters [FileChunk.FileWriter (FileChunk._firstChunkIdToBeWritten s)])
        with 1%nat.
      lia.
  - injection Hstep as <-. simpl. split; assumption.
  - pose proof (fileWriters_take (FileChunk._executor s)) as Htake.
    destruct (FileChunk.takeFileWriter (FileChunk._executor s)) as [[n tasks]|];
      [|discriminate].
    apply fileWriter_block_control in Hstep. simpl in Hstep.
    destruct Hstep as (He & Hr & Hq' & l & Hl).
    rewrite He, Hr, Hl.
    destruct (FileChunk._writeTaskIsRunning s); [|lia].
    split; [lia|discriminate].
  - unfold FileChunk.fileWriter_tail in Hstep.
    destruct (FileChunk.writerLocals s) as [[n done]|] eqn:Hl; [|discriminate].
    destruct (FileChunk._writeTaskIsRunning s); [|lia].
    assert (Hnone : Props.fileWriters (FileChunk._executor s) = O) by lia.
    destruct done; simpl in Hstep.
    + destruct (is_nil (FileChunk._writeQ s)) eqn:Hnil; [|discriminate]. simpl in Hstep.
      destruct (OrderedMap.empty (FileChunk._chunkMap s)); [|discriminate]. simpl in Hstep.
      destruct (forallb _ _); [|discriminate]. simpl in Hstep.
      injection Hstep as <-. simpl. split; [lia|].
      intros _. destruct (FileChunk._writeQ s); [reflexivity|discriminate].
    + destruct (is_nil (FileChunk._writeQ s)) eqn:Hnil; injection Hstep as <-; simpl.
      * split; [lia|]. intros _. destruct (FileChunk._writeQ s); [reflexivity|discriminate].
      * unfold FileChunk.restart. simpl. rewrite fileWriters_app.
        change (Props.fileWriters [FileChunk.FileWriter n]) with 1%nat.
        split; [lia|discriminate].
Qed.

(** X4. One writer at a time, and none is ever missing.  Whatever the
    threads do (enque, roll-over, the writer's block and its closing
    section), the number of fileWriter runs that are scheduled with the
    executor or in progress is one while [_writeTaskIsRunning] is set and
    zero otherwise, and the write queue is empty whenever
    [_writeTaskIsRunning] is not set: no second writer is ever started,
    and no enqueued chunk is left without a writer to take it. *)
Theorem fileWriter_single_run :
  forall (valid : FileChunk.ChunkInfo -> bool) (evs : list FileChunk.Event)
         (s0 s : FileChunk.WriteableFileChunk),
    Props.inFlight s0 = (if FileChunk._writeTaskIsRunning s0 then 1 else 0)%nat ->
    (FileChunk._writeTaskIsRunning s0 = false -> FileChunk._writeQ s0 = []) ->
    FileChunk.run valid s0 evs = Ok s ->
    Props.inFlight s = (if FileChunk._writeTaskIsRunning s then 1 else 0)%nat
    /\ (FileChunk._writeTaskIsRunning s = false -> FileChunk._writeQ s = [])
    /\ (FileChunk._writeQ s <> [] -> Props.inFlight s = 1%nat).
Proof.
  intros valid evs.
  assert (H : forall s0 s,
             Props.inFlight s0 = (if FileChunk._writeTaskIsRunning s0 then 1 else 0)%nat ->
             (FileChunk._writeTaskIsRunning s0 = false -> FileChunk._writeQ s0 = []) ->
             FileChunk.run valid s0 evs = Ok s ->
             Props.inFlight s = (if FileChunk._writeTaskIsRunning s then 1 else 0)%nat
             /\ (FileChunk._writeTaskIsRunning s = false -> FileChunk._writeQ s = [])).
  { induction evs as [|ev evs IH]; intros s0 s Hcount Hq Hrun; simpl in Hrun.
    - injection Hrun as <-. split; assumption.
    - destruct (FileChunk.step valid s0 ev) as [s1|] eqn:Hstep; [|discriminate].
      simpl in Hrun.
      destruct (step_single_run valid s0 s1 ev Hcount Hq Hstep) as [Hcount1 Hq1].
      exact (IH s1 s Hcount1 Hq1 Hrun). }
  intros s0 s Hcount Hq Hrun. destruct (H s0 s Hcount Hq Hrun) as [Hc Hq'].
  split; [exact Hc|]. split; [exact Hq'|].
  intros Hne. rewrite Hc. destruct (FileChunk._writeTaskIsRunning s); [reflexivity|].
  exfalso. apply Hne, Hq'. reflexivity.
Qed.

Lemma fileWriter_single_run_witness :
  exists s,
    FileChunk.run (fun _ => true) Sample.writerStart Sample.sixFirst = Ok s
    /\ Props.inFlight s = (if FileChunk._writeTaskIsRunning s then 1 else 0)%nat.
Proof.
  destruct (FileChunk.run (fun _ => true) Sample.writerStart Sample.sixFirst) as [s|f] eqn:Hrun;
    [|vm_compute in Hrun; discriminate].
  exists s. split; [reflexivity|].
  apply (fileWriter_single_run (fun _ => true) Sample.sixFirst Sample.writerStart s
           eq_refl (fun _ => eq_refl) Hrun).
Defined.

(** *** The flush of the pending index records *)

Section FlushFacts.

Variable getIdxLen : FileChunk.PendingChunk -> Z.

Lemma flush_loop_spec (serialNum datFileLen : Z) (pending : list FileChunk.PendingChunk) :
  forall (pendingIdx pendingDat lastSerial : Z)
         (os : list (FileChunk.ChunkMeta * list FileChunk.LidMeta))
         pending' pendingIdx' pendingDat' lastSerial' os',
    FileChunkTasks.unconditionallyFlushPendingChunks_loop getIdxLen pending serialNum
      datFileLen pendingIdx pendingDat lastSerial os
    = Ok (pending', pendingIdx', pendingDat', lastSerial', os') ->
    exists flushed,
      pending = flushed ++ pending'
      /\ os' = os ++ map FileChunk._idx flushed
      /\ pendingIdx' = pendingIdx - Props.total getIdxLen flushed
      /\ pendingDat' = pendingDat - Props.total FileChunk._dataLen flushed
      /\ lastSerial' = last (map FileChunk._lastSerial flushed) lastSerial
      /\ lastSerial <= lastSerial'
      /\ (forall pc, In pc flushed ->
            FileChunk._lastSerial pc <= serialNum
            /\ wrap64 (FileChunk._dataOffset pc + FileChunk._dataLen pc) <= datFileLen)
      /\ FileChunkTasks.needFlushPendingChunks pending' serialNum datFileLen = Ok false.
Proof.
  induction pending as [|pc rest IH]; intros pendingIdx pendingDat lastSerial os
    pending' pendingIdx' pendingDat' lastSerial' os' H.
  - simpl in H. injection H as <- <- <- <- <-. exists []. simpl.
    rewrite app_nil_r. repeat split; try lia; try (intros ? []).
  - cbn [FileChunkTasks.unconditionallyFlushPendingChunks_loop] in H.
    destruct (FileChunkTasks.needFlushPendingChunks (pc :: rest) serialNum datFileLen)
      as [need|] eqn:Hneed; [|discriminate].
    simpl in H. destruct need; simpl in H.
    + destruct (getIdxLen pc <=? pendingIdx); [|discriminate]. simpl in H.
      destruct (FileChunk._dataLen pc <=? pendingDat); [|discriminate]. simpl in H.
      destruct (Z.leb_spec (wrap64 (FileChunk._dataOffset pc + FileChunk._dataLen pc))
                  datFileLen) as [Hdat|]; [|discriminate].
      simpl in H.
      destruct (Z.leb_spec lastSerial (FileChunk._lastSerial pc)) as [Hser|]; [|discriminate].
      simpl in H.
      apply IH in H.
      destruct H as (flushed & -> & -> & -> & -> & -> & Hle & Hall & Hstop).
      exists (pc :: flushed). rewrite <- app_assoc.
      assert (Hlast : forall (l : list Z) (d a : Z), last (a :: l) d = last l a).
      { induction l as [|b l IHl]; intros d a; [reflexivity|].
        change (last (a :: b :: l) d) with (last (b :: l) d).
        rewrite (IHl d b), (IHl a b). reflexivity. }
      repeat split; try reflexivity.
      * simpl. lia.
      * simpl. lia.
      * simpl map. rewrite Hlast. reflexivity.
      * lia.
      * destruct H as [<-|Hin]; [|apply Hall, Hin].
        unfold FileChunkTasks.needFlushPendingChunks in Hneed.
        destruct (Z.ltb_spec serialNum (FileChunk._lastSerial pc)); [discriminate|lia].
      * destruct H as [<-|Hin]; [exact Hdat|apply Hall, Hin].
      * exact Hstop.
    + injection H as <- <- <- <- <-. exists []. simpl. rewrite app_nil_r.
      repeat split; try lia; try exact Hneed; try (intros ? []).
Qed.

Lemma ascend_after (serialNum : Z) (pending : list FileChunk.PendingChunk) :
  forall lastSerial,
    Props.serialsAscend lastSerial pending -> serialNum < lastSerial ->
    filter (Props.after serialNum) pending = pending
    /\ filter (Props.upTo serialNum) pending = [].
Proof.
  induction pending as [|pc rest IH]; intros lastSerial Hasc Hlt; [split; reflexivity|].
  destruct Hasc as [Hle Hasc]. simpl. unfold Props.after at 1, Props.upTo at 1.
  destruct (Z.ltb_spec serialNum (FileChunk._lastSerial pc)); [|lia].
  destruct (Z.leb_spec (FileChunk._lastSerial pc) serialNum); [lia|].
  destruct (IH _ Hasc ltac:(lia)) as [-> ->]. split; reflexivity.
Qed.

Lemma total_nonneg (f : FileChunk.PendingChunk -> Z) (l : list FileChunk.PendingChunk) :
  (forall pc, In pc l -> 0 <= f pc) -> 0 <= Props.total f l.
Proof.
  induction l as [|pc l IH]; intros H; simpl; [lia|].
  pose proof (H pc (or_introl eq_refl)).
  pose proof (IH (fun pc' Hin => H pc' (or_intror Hin))). lia.
Qed.

Lemma flush_loop_sorted (serialNum datFileLen : Z) (pending : list FileChunk.PendingChunk) :
  datFileLen < 2 ^ 64 ->
  forall (pendingIdx pendingDat lastSerial : Z)
         (os : list (FileChunk.ChunkMeta * list FileChunk.LidMeta)),
    Props.serialsAscend lastSerial pending ->
    (forall pc, In pc pending -> Props.datWritten datFileLen pc /\ 0 <= getIdxLen pc) ->
    Props.total getIdxLen pending <= pendingIdx ->
    Props.total FileChunk._dataLen pending <= pendingDat ->
    FileChunkTasks.unconditionallyFlushPendingChunks_loop getIdxLen pending serialNum
      datFileLen pendingIdx pendingDat lastSerial os
    = Ok (filter (Props.after serialNum) pending,
          pendingIdx - Props.total getIdxLen (filter (Props.upTo serialNum) pending),
          pendingDat - Props.total FileChunk._dataLen (filter (Props.upTo serialNum) pending),
          last (map FileChunk._lastSerial (filter (Props.upTo serialNum) pending)) lastSerial,
          os ++ map FileChunk._idx (filter (Props.upTo serialNum) pending)).
Proof.
  intros Hfile.
  induction pending as [|pc rest IH]; intros pendingIdx pendingDat lastSerial os
    Hasc Hall Hidx Hdat.
  - simpl. rewrite app_nil_r, !Z.sub_0_r. reflexivity.
  - cbn [FileChunkTasks.unconditionallyFlushPendingChunks_loop].
    destruct Hasc as [Hle Hasc].
    destruct (Hall pc (or_introl eq_refl)) as [(Hoff & Hlen & Hon) Hil].
    assert (Hrest : forall pc', In pc' rest ->
                      Props.datWritten datFileLen pc' /\ 0 <= getIdxLen pc')
      by (intros pc' Hin; apply Hall; right; exact Hin).
    assert (Hti : 0 <= Props.total getIdxLen rest)
      by (apply total_nonneg; intros pc' Hin; apply Hrest, Hin).
    assert (Htd : 0 <= Props.total FileChunk._dataLen rest).
    { apply total_nonneg. intros pc' Hin. destruct (Hrest pc' Hin) as [(_ & H & _) _].
      exact H. }
    simpl in Hidx, Hdat.
    assert (Hwrap : wrap64 (FileChunk._dataOffset pc + FileChunk._dataLen pc)
                    = FileChunk._dataOffset pc + FileChunk._dataLen pc).
    { unfold wrap64. apply Z.mod_small. lia. }
    unfold FileChunkTasks.needFlushPendingChunks. rewrite Hwrap.
    destruct (Z.ltb_spec serialNum (FileChunk._lastSerial pc)) as [Hafter|Hupto].
    + cbn [bind negb].
      destruct (ascend_after serialNum (pc :: rest) (FileChunk._lastSerial pc)) as [-> ->].
      * split; [lia|exact Hasc].
      * exact Hafter.
      * simpl. rewrite app_nil_r, !Z.sub_0_r. reflexivity.
    + destruct (Z.leb_spec (FileChunk._dataOffset pc + FileChunk._dataLen pc) datFileLen);
        [|lia].
      assert (Hneed : (if FileChunk._lastSerial pc <? serialNum
                       then _ <- assert true "datWritten" ;; Ok true
                       else Ok true) = Ok true)
        by (destruct (FileChunk._lastSerial pc <? serialNum); reflexivity).
      rewrite Hneed. cbn [bind negb].
      destruct (Z.leb_spec (getIdxLen pc) pendingIdx); [|lia]. cbn [bind assert].
      destruct (Z.leb_spec (FileChunk._dataLen pc) pendingDat); [|lia]. cbn [bind assert].
      destruct (Z.leb_spec lastSerial (FileChunk._lastSerial pc)); [|lia]. cbn [bind assert].
      rewrite (IH _ _ _ _ Hasc Hrest) by lia.
      assert (Hup : Props.upTo serialNum pc = true)
        by (unfold Props.upTo; apply Z.leb_le; lia).
      assert (Haf : Props.after serialNum pc = false)
        by (unfold Props.after; apply Z.ltb_ge; lia).
      cbn [filter]. rewrite Hup, Haf.
      cbn [map]. rewrite <- app_assoc. cbn [app].
      assert (Hlast : forall (l : list Z) (d a : Z), last (a :: l) d = last l a).
      { induction l as [|b l IHl]; intros d a; [reflexivity|].
        change (last (a :: b :: l) d) with (last (b :: l) d).
        rewrite (IHl d b), (IHl a b). reflexivity. }
      rewrite Hlast. unfold Props.total. cbn [fold_right].
      rewrite !Z.sub_add_distr. reflexivity.
Qed.

End FlushFacts.

Lemma total_partition (f : FileChunk.PendingChunk -> Z) (serialNum : Z)
    (l : list FileChunk.PendingChunk) :
  Props.total f l
  = Props.total f (filter (Props.upTo serialNum) l)
    + Props.total f (filter (Props.after serialNum) l).
Proof.
  induction l as [|pc l IH]; [reflexivity|].
  cbn [filter]. unfold Props.upTo at 1, Props.after at 1.
  destruct (Z.leb_spec (FileChunk._lastSerial pc) serialNum);
    destruct (Z.ltb_spec serialNum (FileChunk._lastSerial pc)); try lia;
    unfold Props.total in *; cbn [fold_right]; lia.
Qed.

Lemma ascend_filter (serialNum : Z) (l : list FileChunk.PendingChunk) :
  forall lastSerial,
    Props.serialsAscend lastSerial l ->
    Props.serialsAscend
      (last (map FileChunk._lastSerial (filter (Props.upTo serialNum) l)) lastSerial)
      (filter (Props.after serialNum) l).
Proof.
  induction l as [|pc l IH]; intros lastSerial Hasc; [exact I|].
  destruct Hasc as [Hle Hasc].
  destruct (Z.ltb_spec serialNum (FileChunk._lastSerial pc)) as [Hafter|Hupto].
  - destruct (ascend_after serialNum (pc :: l) (FileChunk._lastSerial pc)) as [-> ->];
      [split; [lia|exact Hasc]|exact Hafter|].
    simpl. split; assumption.
  - assert (Hup : Props.upTo serialNum pc = true)
      by (unfold Props.upTo; apply Z.leb_le; lia).
    assert (Haf : Props.after serialNum pc = false)
      by (unfold Props.after; apply Z.ltb_ge; lia).
    cbn [filter]. rewrite Hup, Haf. cbn [map].
    replace (last (FileChunk._lastSerial pc
                   :: map FileChunk._lastSerial (filter (Props.upTo serialNum) l))
               lastSerial)
      with (last (map FileChunk._lastSerial (filter (Props.upTo serialNum) l))
              (FileChunk._lastSerial pc)).
    + apply IH, Hasc.
    + generalize (map FileChunk._lastSerial (filter (Props.upTo serialNum) l)).
      generalize (FileChunk._lastSerial pc). generalize lastSerial.
      intros d a l0. revert d a.
      induction l0 as [|b l0 IHl]; intros d a; [reflexivity|].
      change (last (a :: b :: l0) d) with (last (b :: l0) d).
      rewrite <- (IHl d b), <- (IHl a b). reflexivity.
Qed.

(** X5. flushPendingChunks persists a leading run of the pending index
    records, in their order.  When it returns, the records it appended to
    the index file are those of a prefix of [_pendingChunks], each of a
    chunk sealed at or before the given serial number whose data lies
    within the data file; the rest stays pending; the byte counters are
    reduced by what was flushed; [_lastPersistedSerialNum] has not
    decreased and is the serial number of the last record flushed;
    nothing else of the instance changes; a frozen instance is left as
    it is; and flushing again with the same serial number does nothing
    more. *)
Theorem flushPendingChunks_prefix :
  forall (getIdxLen : FileChunk.PendingChunk -> Z) (serialNum : Z)
         (s s' : FileChunk.WriteableFileChunk) (x x' : FileChunkTasks.IndexFile),
    FileChunkTasks.flushPendingChunks getIdxLen serialNum s x = Ok (s', x') ->
    exists flushed : list FileChunk.PendingChunk,
      FileChunk._pendingChunks s = flushed ++ FileChunk._pendingChunks s'
      /\ FileChunkTasks._idxFile x'
         = FileChunkTasks._idxFile x ++ map FileChunk._idx flushed
      /\ FileChunkTasks._pendingIdx x'
         = FileChunkTasks._pendingIdx x - Props.total getIdxLen flushed
      /\ FileChunkTasks._pendingDat x'
         = FileChunkTasks._pendingDat x - Props.total FileChunk._dataLen flushed
      /\ (forall pc, In pc flushed ->
            FileChunk._lastSerial pc <= serialNum
            /\ wrap64 (FileChunk._dataOffset pc + FileChunk._dataLen pc)
               <= Z.of_nat (length (FileChunk._dataFile s)))
      /\ FileChunk._lastPersistedSerialNum s'
         = last (map FileChunk._lastSerial flushed) (FileChunk._lastPersistedSerialNum s)
      /\ FileChunk._lastPersistedSerialNum s <= FileChunk._lastPersistedSerialNum s'
      /\ s' = FileChunkTasks.with_lastPersistedSerialNum
                (FileChunk._lastPersistedSerialNum s')
                (FileChunk.with_pendingChunks (FileChunk._pendingChunks s') s)
      /\ (FileChunk._frozen s = true -> flushed = [])
      /\ FileChunkTasks.flushPendingChunks getIdxLen serialNum s' x' = Ok (s', x').
Proof.
  intros getIdxLen serialNum s s' x x' H.
  unfold FileChunkTasks.flushPendingChunks in H.
  destruct (FileChunk._frozen s) eqn:Hfrozen.
  { injection H as <- <-. exists []. simpl. rewrite app_nil_r.
    repeat split; try lia; try (intros ? []).
    - destruct s; reflexivity.
    - unfold FileChunkTasks.flushPendingChunks. rewrite Hfrozen. reflexivity. }
  destruct (FileChunkTasks.needFlushPendingChunks (FileChunk._pendingChunks s) serialNum
              (Z.of_nat (length (FileChunk._dataFile s)))) as [need|] eqn:Hneed;
    [|discriminate].
  cbn [bind] in H. destruct need.
  - unfold FileChunkTasks.unconditionallyFlushPendingChunks in H.
    destruct (FileChunkTasks.unconditionallyFlushPendingChunks_loop _ _ _ _ _ _ _ _)
      as [[[[[pending' pendingIdx'] pendingDat'] lastSerial'] os']|] eqn:Hloop;
      [|discriminate].
    cbn [bind] in H.
    apply flush_loop_spec in Hloop.
    destruct Hloop as (flushed & Hpend & -> & -> & -> & -> & Hle & Hall & Hstop).
    simpl in H.
    assert (Hs' : s' = FileChunkTasks.with_lastPersistedSerialNum
                         (last (map FileChunk._lastSerial flushed)
                            (FileChunk._lastPersistedSerialNum s))
                         (FileChunk.with_pendingChunks pending' s)
                  /\ x' = FileChunkTasks.mkIndexFile
                            (FileChunkTasks._idxFile x ++ map FileChunk._idx flushed)
                            (FileChunkTasks._pendingIdx x - Props.total getIdxLen flushed)
                            (FileChunkTasks._pendingDat x
                             - Props.total FileChunk._dataLen flushed)).
    { destruct (Z.ltb_spec (FileChunk._lastPersistedSerialNum s)
                  (last (map FileChunk._lastSerial flushed)
                     (FileChunk._lastPersistedSerialNum s))) as [Hlt|Hge];
        injection H as <- <-; split; try reflexivity.
      assert (E : last (map FileChunk._lastSerial flushed)
                    (FileChunk._lastPersistedSerialNum s)
                  = FileChunk._lastPersistedSerialNum s) by lia.
      rewrite E. destruct s; reflexivity. }
    destruct Hs' as [-> ->]. exists flushed. simpl.
    repeat split; try assumption; try reflexivity; try (apply Hall; assumption).
    + intros Hf. discriminate Hf.
    + unfold FileChunkTasks.flushPendingChunks. simpl. rewrite Hfrozen, Hstop.
      reflexivity.
  - injection H as <- <-. exists []. simpl. rewrite app_nil_r.
    repeat split; try lia; try (intros ? []).
    + destruct s; reflexivity.
    + unfold FileChunkTasks.flushPendingChunks. rewrite Hfrozen, Hneed. reflexivity.
Qed.

Lemma flushPendingChunks_prefix_witness :
  exists (s' : FileChunk.WriteableFileChunk) (x' : FileChunkTasks.IndexFile),
    FileChunkTasks.flushPendingChunks (fun _ => 24) 5 Props.twoPending
      (FileChunkTasks.mkIndexFile [] 48 4) = Ok (s', x')
    /\ FileChunkTasks.flushPendingChunks (fun _ => 24) 5 s' x' = Ok (s', x').
Proof.
  destruct (FileChunkTasks.flushPendingChunks (fun _ => 24) 5 Props.twoPending
              (FileChunkTasks.mkIndexFile [] 48 4)) as [[s' x']|f] eqn:Hrun;
    [|vm_compute in Hrun; discriminate].
  exists s', x'. split; [reflexivity|].
  destruct (flushPendingChunks_prefix (fun _ => 24) 5 Props.twoPending s'
              (FileChunkTasks.mkIndexFile [] 48 4) x' Hrun)
    as (flushed & _ & _ & _ & _ & _ & _ & _ & _ & _ & Hagain).
  exact Hagain.
Defined.

(** X6. With the pending records in the order of their serial numbers,
    their data on disk and the byte counters covering them, a flush hits
    none of its assertions: flushPendingChunks returns, it persists
    exactly the records of the chunks sealed at or before the given
    serial number and leaves exactly the later ones pending, and the same
    conditions hold for the instance it leaves. *)
Theorem flushPendingChunks_sorted :
  forall (getIdxLen : FileChunk.PendingChunk -> Z) (serialNum : Z)
         (s : FileChunk.WriteableFileChunk) (x : FileChunkTasks.IndexFile),
    FileChunk._frozen s = false ->
    Z.of_nat (length (FileChunk._dataFile s)) < 2 ^ 64 ->
    Props.serialsAscend (FileChunk._lastPersistedSerialNum s) (FileChunk._pendingChunks s) ->
    (forall pc, In pc (FileChunk._pendingChunks s) ->
       Props.datWritten (Z.of_nat (length (FileChunk._dataFile s))) pc
       /\ 0 <= getIdxLen pc) ->
    Props.total getIdxLen (FileChunk._pendingChunks s) <= FileChunkTasks._pendingIdx x ->
    Props.total FileChunk._dataLen (FileChunk._pendingChunks s)
    <= FileChunkTasks._pendingDat x ->
    exists (s' : FileChunk.WriteableFileChunk) (x' : FileChunkTasks.IndexFile),
      FileChunkTasks.flushPendingChunks getIdxLen serialNum s x = Ok (s', x')
      /\ FileChunk._pendingChunks s'
         = filter (Props.after serialNum) (FileChunk._pendingChunks s)
      /\ FileChunkTasks._idxFile x'
         = FileChunkTasks._idxFile x
           ++ map FileChunk._idx (filter (Props.upTo serialNum) (FileChunk._pendingChunks s))
      /\ Props.serialsAscend (FileChunk._lastPersistedSerialNum s')
           (FileChunk._pendingChunks s')
      /\ Props.total getIdxLen (FileChunk._pendingChunks s') <= FileChunkTasks._pendingIdx x'
      /\ Props.total FileChunk._dataLen (FileChunk._pendingChunks s')
         <= FileChunkTasks._pendingDat x'
      /\ FileChunk._dataFile s' = FileChunk._dataFile s.
Proof.
  intros getIdxLen serialNum s x Hfrozen Hfile Hasc Hall Hidx Hdat.
  unfold FileChunkTasks.flushPendingChunks. rewrite Hfrozen.
  set (datFileLen := Z.of_nat (length (FileChunk._dataFile s))) in *.
  destruct (FileChunk._pendingChunks s) as [|pc rest] eqn:Hpending.
  { exists s, x. simpl. rewrite Hpending, app_nil_r. simpl.
    repeat split; try assumption; try reflexivity. }
  destruct (Z.ltb_spec serialNum (FileChunk._lastSerial pc)) as [Hafter|Hupto].
  - unfold FileChunkTasks.needFlushPendingChunks.
    destruct (Z.ltb_spec serialNum (FileChunk._lastSerial pc)); [|lia]. cbn [bind].
    destruct (ascend_after serialNum (pc :: rest) (FileChunk._lastSerial pc)) as [E1 E2];
      [split; [lia|apply Hasc]|exact Hafter|].
    exists s, x. rewrite E1, E2, Hpending. simpl map. rewrite app_nil_r.
    repeat split; try assumption; try reflexivity; apply Hasc.
  - destruct (Hall pc (or_introl eq_refl)) as [(Hoff & Hlen & Hon) Hil].
    assert (Hneed : FileChunkTasks.needFlushPendingChunks (pc :: rest) serialNum datFileLen
                    = Ok true).
    { unfold FileChunkTasks.needFlushPendingChunks.
      destruct (Z.ltb_spec serialNum (FileChunk._lastSerial pc)); [lia|].
      assert (Hwrap : wrap64 (FileChunk._dataOffset pc + FileChunk._dataLen pc)
                      = FileChunk._dataOffset pc + FileChunk._dataLen pc)
        by (unfold wrap64; apply Z.mod_small; lia).
      rewrite Hwrap.
      destruct (Z.leb_spec (FileChunk._dataOffset pc + FileChunk._dataLen pc) datFileLen);
        [|lia].
      destruct (FileChunk._lastSerial pc <? serialNum); reflexivity. }
    rewrite Hneed. cbn [bind].
    unfold FileChunkTasks.unconditionallyFlushPendingChunks. rewrite Hpending.
    pose proof (flush_loop_sorted getIdxLen serialNum datFileLen (pc :: rest) Hfile
                  _ _ _ [] Hasc Hall Hidx Hdat) as Hloop.
    rewrite Hloop. cbn [bind].
    apply flush_loop_spec in Hloop. destruct Hloop as (_ & _ & _ & _ & _ & _ & Hle & _).
    pose proof (ascend_filter serialNum (pc :: rest) _ Hasc) as Hasc'.
    pose proof (total_partition getIdxLen serialNum (pc :: rest)) as Hpi.
    pose proof (total_partition FileChunk._dataLen serialNum (pc :: rest)) as Hpd.
    set (upto := filter (Props.upTo serialNum) (pc :: rest)) in *.
    set (later := filter (Props.after serialNum) (pc :: rest)) in *.
    set (ls := last (map FileChunk._lastSerial upto) (FileChunk._lastPersistedSerialNum s))
      in *.
    exists (FileChunkTasks.with_lastPersistedSerialNum ls
              (FileChunk.with_pendingChunks later s)).
    eexists. split.
    + simpl. destruct (Z.ltb_spec (FileChunk._lastPersistedSerialNum s) ls) as [Hlt|Hge];
        [reflexivity|].
      assert (E : ls = FileChunk._lastPersistedSerialNum s) by lia.
      rewrite E. destruct s; reflexivity.
    + simpl. repeat split; try assumption; lia.
Qed.

(** The flush of the two pending records up to serial number 5 persists
    the first. *)
Lemma flushPendingChunks_sorted_witness :
  exists (s' : FileChunk.WriteableFileChunk) (x' : FileChunkTasks.IndexFile),
    FileChunkTasks.flushPendingChunks (fun _ => 24) 5 Props.twoPending
      (FileChunkTasks.mkIndexFile [] 48 4) = Ok (s', x')
    /\ map FileChunk._lastSerial (FileChunk._pendingChunks s') = [7]
    /\ FileChunkTasks._idxFile x'
       = [(FileChunk.mkChunkMeta 0 2 3 1, [FileChunk.mkLidMeta 1 2])].
Proof.
  destruct (flushPendingChunks_sorted (fun _ => 24) 5 Props.twoPending
              (FileChunkTasks.mkIndexFile [] 48 4)) as (s' & x' & Hrun & Hp & Hx & _).
  - reflexivity.
  - vm_compute. reflexivity.
  - vm_compute. repeat split; discriminate.
  - intros pc [<-|[<-|[]]]; vm_compute; repeat split; discriminate.
  - vm_compute. discriminate.
  - vm_compute. discriminate.
  - exists s', x'. split; [exact Hrun|]. rewrite Hp, Hx. split; reflexivity.
Defined.

(** ** The docsum writer: registration of overrides and the default class *)

Section OverrideFacts.
Import DocSummary.
Context {S : Type}.

Lemma Override_decision (w : DynamicDocsumWriter S) fieldName writer :
  let v := wrap32 (FieldNameEnum_Lookup (_resultConfig w) fieldName) in
  fst (Override w fieldName writer) = true
  <-> v < _numEnumValues w /\ overrideSlot w v = None.
Proof.
  intros v. unfold Override. fold v.
  destruct (Z.leb_spec (_numEnumValues w) v) as [Hge|Hlt]; simpl.
  - split; [discriminate|]. intros [H _]. lia.
  - destruct (overrideSlot w v) as [x|]; simpl.
    + split; [discriminate|]. intros [_ H]. discriminate.
    + split; [|reflexivity]. intros _. split; [lia|reflexivity].
Qed.

Lemma overrideSlot_range (w : DynamicDocsumWriter S) (v : Z) :
  Spec.writerInv w ->
  (v < 0 \/ _numEnumValues w <= v) -> overrideSlot w v = None.
Proof.
  intros (Hlen & _) Hv. unfold overrideSlot.
  destruct (Z.ltb_spec v 0) as [|Hnn]; [reflexivity|].
  destruct (nth_error (_overrideTable w) (Z.to_nat v)) as [slot|] eqn:E; [|reflexivity].
  assert (Hlt : (Z.to_nat v < length (_overrideTable w))%nat)
    by (apply nth_error_Some; rewrite E; discriminate).
  lia.
Qed.

Lemma overrideAll_numEnumValues (ovs : list (string * IDocsumFieldWriter S)) :
  forall w : DynamicDocsumWriter S,
    _numEnumValues (Spec.overrideAll w ovs) = _numEnumValues w.
Proof.
  induction ovs as [|[fieldName writer] rest IH]; intros w; [reflexivity|].
  simpl. rewrite IH. unfold Override.
  destruct (_ || _); reflexivity.
Qed.

Lemma overrideAll_slot (ovs : list (string * IDocsumFieldWriter S)) :
  forall (w : DynamicDocsumWriter S) (v : Z),
    Spec.writerInv w ->
    overrideSlot (Spec.overrideAll w ovs) v
    = match overrideSlot w v with
      | Some writer => Some writer
      | None =>
          if (0 <=? v) && (v <? _numEnumValues w)
          then Props.firstWriter (_resultConfig w) ovs v
          else None
      end.
Proof.
  induction ovs as [|[fieldName writer] rest IH]; intros w v Hinv.
  - simpl. destruct (overrideSlot w v); [reflexivity|].
    destruct ((0 <=? v) && (v <? _numEnumValues w)); reflexivity.
  - cbn [Spec.overrideAll Props.firstWriter].
    pose proof (writerInv_Override w fieldName writer Hinv) as Hinv1.
    rewrite (IH _ v Hinv1).
    pose proof (Override_decision w fieldName writer) as Hdec. cbv zeta in Hdec.
    set (vn := wrap32 (FieldNameEnum_Lookup (_resultConfig w) fieldName)) in *.
    assert (Hvn : 0 <= vn) by (unfold vn, wrap32; apply Z.mod_pos_bound; lia).
    destruct (fst (Override w fieldName writer)) eqn:Hok.
    + destruct (proj1 Hdec eq_refl) as [Hlt Hfree].
      destruct (Override_accepted w fieldName writer Hinv Hok)
        as (_ & Hslot & Hcfg & Hnum & _).
      cbv zeta in Hslot, Hcfg, Hnum. fold vn in Hslot.
      rewrite Hslot, Hcfg, Hnum. rewrite (Z.eqb_sym vn v).
      destruct (Z.eqb_spec v vn) as [->|Hne].
      * rewrite Hfree.
        destruct (Z.leb_spec 0 vn); [|lia].
        destruct (Z.ltb_spec vn (_numEnumValues w)); [|lia]. reflexivity.
      * reflexivity.
    + rewrite (Override_rejected w fieldName writer Hok).
      destruct (overrideSlot w v) as [x|] eqn:Hv; [reflexivity|].
      destruct (Z.eqb_spec vn v) as [E|Hne]; [|reflexivity].
      destruct (Z.leb_spec 0 v); [|reflexivity].
      destruct (Z.ltb_spec v (_numEnumValues w)) as [Hlt|]; [|reflexivity].
      exfalso. assert (true = true -> False); [|auto].
      intros _. destruct Hdec as [_ Hdec].
      rewrite E in Hdec. specialize (Hdec (conj Hlt Hv)). discriminate.
Qed.

End OverrideFacts.

(** X8. The first registration of a field wins.  In a writer that was
    constructed for a configuration and then given a list of overrides,
    the table slot of a field holds the first writer of the list that was
    registered under a name with that field's enum value, provided the
    value is below the number of enum values, and holds nothing
    otherwise.  A further Override is accepted exactly when the name is
    known and its slot is still empty; if it is rejected the writer is
    unchanged, and the same name is rejected ever after. *)
Theorem Override_first_wins :
  forall (S : Type) (cfg : DocSummary.ResultConfig) (numEnumValues : Z)
         (ovs : list (string * DocSummary.IDocsumFieldWriter S)),
    let w := Spec.overrideAll (DocSummary.DynamicDocsumWriter_new cfg numEnumValues) ovs in
    (forall v,
        DocSummary.overrideSlot w v
        = if (0 <=? v) && (v <? numEnumValues) then Props.firstWriter cfg ovs v else None)
    /\ (forall fieldName writer,
          let v := wrap32 (DocSummary.FieldNameEnum_Lookup cfg fieldName) in
          let r := DocSummary.Override w fieldName writer in
          (fst r = true <-> v < numEnumValues /\ Props.firstWriter cfg ovs v = None)
          /\ (fst r = false -> snd r = w)
          /\ (fst r = true -> DocSummary.overrideSlot (snd r) v = Some writer)
          /\ (forall writer', fst (DocSummary.Override (snd r) fieldName writer') = false)).
Proof.
  intros S cfg n ovs w.
  assert (Hinv0 : Spec.writerInv (S := S) (DocSummary.DynamicDocsumWriter_new cfg n))
    by apply writerInv_new.
  assert (Hinv : Spec.writerInv w) by (apply writerInv_overrideAll, Hinv0).
  assert (Hcfg : DocSummary._resultConfig w = cfg)
    by (unfold w; rewrite (proj1 (overrideAll_config _ _)); reflexivity).
  assert (Hnum : DocSummary._numEnumValues w = n)
    by (unfold w; rewrite overrideAll_numEnumValues; reflexivity).
  assert (Hslot : forall v,
             DocSummary.overrideSlot w v
             = if (0 <=? v) && (v <? n) then Props.firstWriter cfg ovs v else None).
  { intros v. unfold w. rewrite (overrideAll_slot ovs _ v Hinv0).
    rewrite overrideSlot_new. reflexivity. }
  split; [exact Hslot|].
  intros fieldName writer v r.
  assert (Hv : 0 <= v) by (unfold v, wrap32; apply Z.mod_pos_bound; lia).
  pose proof (Override_decision w fieldName writer) as Hdec. cbv zeta in Hdec.
  rewrite Hcfg, Hnum in Hdec. fold v in Hdec. fold r in Hdec.
  assert (Hfree : v < n -> DocSummary.overrideSlot w v = Props.firstWriter cfg ovs v).
  { intros Hlt. rewrite Hslot.
    destruct (Z.leb_spec 0 v); [|lia]. destruct (Z.ltb_spec v n); [|lia]. reflexivity. }
  split; [|split; [|split]].
  - rewrite Hdec. split; intros [Hlt H]; (split; [exact Hlt|]).
    + rewrite <- (Hfree Hlt). exact H.
    + rewrite (Hfree Hlt). exact H.
  - apply Override_rejected.
  - intros Hok.
    destruct (Override_accepted w fieldName writer Hinv Hok) as (_ & Hs & _).
    cbv zeta in Hs. rewrite Hcfg in Hs. fold v in Hs. fold r in Hs.
    rewrite Hs, Z.eqb_refl. reflexivity.
  - intros writer'.
    destruct (fst (DocSummary.Override (snd r) fieldName writer')) eqn:Hagain;
      [|reflexivity].
    exfalso.
    apply (Override_decision (snd r) fieldName writer') in Hagain.
    destruct Hagain as [Hlt Hnone].
    destruct (fst r) eqn:Hok.
    + destruct (Override_accepted w fieldName writer Hinv Hok) as (_ & Hs & Hc & _).
      cbv zeta in Hs, Hc. fold r in Hs, Hc.
      rewrite Hc in Hnone. rewrite Hs, Z.eqb_refl in Hnone. discriminate.
    + assert (Hsame : snd r = w) by (apply Override_rejected, Hok).
      rewrite Hsame in Hlt, Hnone.
      rewrite Hcfg in Hnone, Hlt. rewrite Hnum in Hlt. fold v in Hnone, Hlt.
      destruct Hdec as [_ Hdec]. specialize (Hdec (conj Hlt Hnone)). discriminate.
Qed.

Section DefaultClassFacts.
Import DocSummary.
Context {S : Type}.

Lemma lookupClass_classId (cs : list ResultClass) (id : Z) :
  forall (i j : nat) (c : ResultClass),
    lookupClass cs id i = Some (j, c) -> classId c = id.
Proof.
  induction cs as [|c0 cs IH]; intros i j c H; [discriminate|].
  simpl in H. destruct (Z.eqb_spec (classId c0) id) as [E|_].
  - injection H as _ <-. exact E.
  - exact (IH _ _ _ H).
Qed.

Lemma writerInv_default (w : DynamicDocsumWriter S) (classID : Z) :
  Spec.writerInv w ->
  Spec.writerInv (mkDocsumWriter (_resultConfig w) classID (_numEnumValues w)
                    (_classInfoTable w) (_overrideTable w)).
Proof.
  unfold Spec.writerInv, Spec.countsAgree, Spec.overridden, Spec.generated, overrideSlot.
  simpl. intros H. exact H.
Qed.

End DefaultClassFacts.

(** X9. The default output class is set once.  On a writer that was
    constructed and given its overrides, SetDefaultOutputClass succeeds
    exactly for an id the configuration has a class for; a failed call
    leaves the writer as it is; after a success with an id other than
    [NoClassID] every further call fails; and a request whose class name
    the configuration maps to that default then resolves to the class
    with the id, without being skipped. *)
Theorem SetDefaultOutputClass_once :
  forall (S : Type) (cfg : DocSummary.ResultConfig) (numEnumValues : Z)
         (ovs : list (string * DocSummary.IDocsumFieldWriter S)) (classID : Z),
    (forall c, In c (DocSummary.classes cfg) -> Spec.distinctFields c) ->
    let w := Spec.overrideAll (DocSummary.DynamicDocsumWriter_new cfg numEnumValues) ovs in
    let r := DynamicDocsumWriter.SetDefaultOutputClass w classID in
    (fst r = true <-> exists i c, DocSummary.LookupResultClass cfg classID = Some (i, c))
    /\ (fst r = false -> snd r = w)
    /\ (fst r = true ->
        DocSummary._defaultOutputClass (snd r) = classID
        /\ forall v, DocSummary.overrideSlot (snd r) v = DocSummary.overrideSlot w v)
    /\ (fst r = true -> classID <> DocSummary.NoClassID cfg ->
        forall classID',
          DynamicDocsumWriter.SetDefaultOutputClass (snd r) classID' = (false, snd r))
    /\ (fst r = true -> classID <> DocSummary.NoClassID cfg ->
        forall summaryClass,
          DocSummary.LookupResultClassId cfg summaryClass classID = classID ->
          exists rci oC,
            DocSummary.resolveOutputClass (snd r) summaryClass = Ok rci
            /\ DocSummary.mustSkip rci = false
            /\ DocSummary.outputClassId rci = classID
            /\ DocSummary.outputClass rci = Some oC
            /\ DocSummary.classId oC = classID).
Proof.
  intros S cfg n ovs classID Hdistinct w r.
  assert (Hinv : Spec.writerInv w)
    by (apply writerInv_overrideAll, writerInv_new).
  destruct (overrideAll_config (DocSummary.DynamicDocsumWriter_new (GetDocsumsState := S) cfg n)
              ovs) as [Hcfg Hdef].
  fold w in Hcfg, Hdef. simpl in Hcfg, Hdef.
  subst r. unfold DynamicDocsumWriter.SetDefaultOutputClass.
  rewrite Hcfg, Hdef, Z.eqb_refl.
  destruct (DocSummary.LookupResultClass cfg classID) as [[i c]|] eqn:Hlookup; simpl.
  - split; [split; [intros _; eauto|reflexivity]|].
    split; [discriminate|]. split; [intros _; split; reflexivity|].
    split.
    + intros _ Hne classID'. unfold DynamicDocsumWriter.SetDefaultOutputClass. simpl.
      destruct (Z.eqb_spec classID (DocSummary.NoClassID cfg)) as [E|_]; [contradiction|].
      rewrite orb_true_r. reflexivity.
    + intros _ Hne summaryClass Hname.
      set (w' := DocSummary.mkDocsumWriter cfg classID (DocSummary._numEnumValues w)
                   (DocSummary._classInfoTable w) (DocSummary._overrideTable w)).
      assert (Hinv' : Spec.writerInv w').
      { unfold w'. rewrite <- Hcfg. apply writerInv_default, Hinv. }
      destruct (resolveOutputClass_spec w' summaryClass Hinv' Hdistinct) as (rci & Hres & _).
      exists rci, c. split; [exact Hres|].
      unfold DocSummary.resolveOutputClass in Hres. simpl in Hres.
      rewrite Hname in Hres.
      destruct (Z.eqb_spec classID (DocSummary.NoClassID cfg)) as [E|_]; [contradiction|].
      simpl in Hres. rewrite Hlookup in Hres.
      destruct (nth_error (DocSummary._classInfoTable w) i) as [rcInfo|]; [|discriminate].
      simpl in Hres.
      assert (Hid : DocSummary.classId c = classID)
        by (apply (lookupClass_classId _ _ _ _ _ Hlookup)).
      destruct (DocSummary._generateCnt rcInfo =? DocSummary.GetNumEntries c).
      * destruct (DocSummary._overrideCnt rcInfo =? DocSummary._generateCnt rcInfo);
          [|discriminate].
        simpl in Hres. injection Hres as <-. simpl. repeat split. exact Hid.
      * injection Hres as <-. simpl. repeat split. exact Hid.
  - split; [split; [discriminate|intros (i & c & H); discriminate]|].
    split; [reflexivity|]. split; [discriminate|]. split; discriminate.
Qed.

Lemma SetDefaultOutputClass_once_witness :
  let w := Spec.overrideAll (DocSummary.DynamicDocsumWriter_new Sample.docsumConfig 2)
             [("distance"%string, Sample.constantWriter 7)] in
  fst (DynamicDocsumWriter.SetDefaultOutputClass w 0) = true
  /\ forall classID',
       DynamicDocsumWriter.SetDefaultOutputClass
         (snd (DynamicDocsumWriter.SetDefaultOutputClass w 0)) classID'
       = (false, snd (DynamicDocsumWriter.SetDefaultOutputClass w 0)).
Proof.
  intros w.
  assert (Hdistinct : forall c, In c (DocSummary.classes Sample.docsumConfig) ->
                                Spec.distinctFields c).
  { intros c [<-|[]]. unfold Spec.distinctFields. simpl.
    repeat constructor; simpl; intuition discriminate. }
  destruct (SetDefaultOutputClass_once unit Sample.docsumConfig 2
              [("distance"%string, Sample.constantWriter 7)] 0 Hdistinct)
    as (_ & _ & _ & Honce & _).
  split; [reflexivity|]. apply Honce; [reflexivity|discriminate].
Defined.

(** ** vespalib::stringify: the decimal digits of an unsigned integer *)

(** The little-endian decimal number with the digit [r] put before [d]. *)
Lemma to_lu_digit (p : positive) (r : Z) :
  0 <= r < 10 ->
  Props.charsOf (DecimalPos.Unsigned.to_lu (Z.to_N (10 * Z.pos p + r)))
  = Props.digitChar r :: Props.charsOf (DecimalPos.Unsigned.to_lu (N.pos p)).
Proof.
  intros Hr.
  assert (Hcases : r = 0 \/ r = 1 \/ r = 2 \/ r = 3 \/ r = 4 \/ r = 5 \/ r = 6
                   \/ r = 7 \/ r = 8 \/ r = 9) by lia.
  pose proof (DecimalPos.Unsigned.to_ldec_tenfold p) as H0.
  assert (Hs : forall n : N,
             DecimalPos.Unsigned.to_lu (N.succ n)
             = Decimal.Little.succ (DecimalPos.Unsigned.to_lu n))
    by apply DecimalPos.Unsigned.to_lu_succ.
  destruct Hcases as [->|[->|[->|[->|[->|[->|[->|[->|[->| ->]]]]]]]]].
  - replace (Z.to_N (10 * Z.pos p + 0))
      with (10 * N.pos p)%N by lia.
    rewrite ?Hs, H0. reflexivity.
  - replace (Z.to_N (10 * Z.pos p + 1))
      with (N.succ (10 * N.pos p)%N) by lia.
    rewrite ?Hs, H0. reflexivity.
  - replace (Z.to_N (10 * Z.pos p + 2))
      with (N.succ (N.succ (10 * N.pos p)%N)) by lia.
    rewrite ?Hs, H0. reflexivity.
  - replace (Z.to_N (10 * Z.pos p + 3))
      with (N.succ (N.succ (N.succ (10 * N.pos p)%N))) by lia.
    rewrite ?Hs, H0. reflexivity.
  - replace (Z.to_N (10 * Z.pos p + 4))
      with (N.succ (N.succ (N.succ (N.succ (10 * N.pos p)%N)))) by lia.
    rewrite ?Hs, H0. reflexivity.
  - replace (Z.to_N (10 * Z.pos p + 5))
      with (N.succ (N.succ (N.succ (N.succ (N.succ (10 * N.pos p)%N))))) by lia.
    rewrite ?Hs, H0. reflexivity.
  - replace (Z.to_N (10 * Z.pos p + 6))
      with (N.succ (N.succ (N.succ (N.succ (N.succ (N.succ (10 * N.pos p)%N)))))) by lia.
    rewrite ?Hs, H0. reflexivity.
  - replace (Z.to_N (10 * Z.pos p + 7))
      with (N.succ (N.succ (N.succ (N.succ (N.succ (N.succ (N.succ (10 * N.pos p)%N))))))) by lia.
    rewrite ?Hs, H0. reflexivity.
  - replace (Z.to_N (10 * Z.pos p + 8))
      with (N.succ (N.succ (N.succ (N.succ (N.succ (N.succ (N.succ (N.succ (10 * N.pos p)%N)))))))) by lia.
    rewrite ?Hs, H0. reflexivity.
  - replace (Z.to_N (10 * Z.pos p + 9))
      with (N.succ (N.succ (N.succ (N.succ (N.succ (N.succ (N.succ (N.succ (N.succ (10 * N.pos p)%N))))))))) by lia.
    rewrite ?Hs, H0. reflexivity.
Qed.

Lemma to_lu_small (r : Z) :
  0 <= r < 10 ->
  Props.charsOf (DecimalPos.Unsigned.to_lu (Z.to_N r)) = [Props.digitChar r].
Proof.
  intros Hr.
  assert (Hcases : r = 0 \/ r = 1 \/ r = 2 \/ r = 3 \/ r = 4 \/ r = 5 \/ r = 6
                   \/ r = 7 \/ r = 8 \/ r = 9) by lia.
  destruct Hcases as [->|[->|[->|[->|[->|[->|[->|[->|[->| ->]]]]]]]]]; reflexivity.
Qed.

(** The first loop leaves the digits of the number, least significant
    first, when the buffer has room for them. *)
Lemma stringify_digits_spec (room : nat) :
  forall (number : Z) (digits : list ascii),
    (0 < room)%nat ->
    0 <= number < 10 ^ Z.of_nat room ->
    Vespalib.stringify_digits room number digits
    = Some (digits ++ Props.charsOf (DecimalPos.Unsigned.to_lu (Z.to_N number))).
Proof.
  induction room as [|room IH]; intros number digits Hroom Hn; [lia|].
  cbn [Vespalib.stringify_digits].
  assert (Hq : number = 10 * (number / 10) + number mod 10) by (apply Z.div_mod; lia).
  assert (Hr : 0 <= number mod 10 < 10) by (apply Z.mod_pos_bound; lia).
  assert (Hpow : 10 ^ Z.of_nat (S room) = 10 * 10 ^ Z.of_nat room).
  { rewrite Nat2Z.inj_succ, Z.pow_succ_r by lia. reflexivity. }
  destruct (Z.ltb_spec 0 (number / 10)) as [Hpos|Hzero].
  - assert (Hroom' : (0 < room)%nat).
    { destruct room; [|lia]. simpl in Hpow. lia. }
    rewrite IH; [|exact Hroom'|lia].
    rewrite <- app_assoc. f_equal. f_equal. cbn [app].
    destruct (number / 10) as [|p|p] eqn:Hdiv; [lia| |lia].
    rewrite Hq at 2. rewrite (to_lu_digit p _ Hr). reflexivity.
  - assert (number / 10 = 0) by (pose proof (Z.div_pos number 10); lia).
    assert (number = number mod 10) by lia.
    rewrite H0 at 2. rewrite (to_lu_small _ Hr). reflexivity.
Qed.

Lemma stringify_digits_length (room : nat) :
  forall (number : Z) (digits result : list ascii),
    Vespalib.stringify_digits room number digits = Some result ->
    (length digits < length result <= length digits + room)%nat.
Proof.
  induction room as [|room IH]; intros number digits result H; [discriminate|].
  cbn [Vespalib.stringify_digits] in H.
  destruct (0 <? number / 10).
  - apply IH in H. rewrite length_app in H. simpl in H. lia.
  - injection H as <-. rewrite length_app. simpl. lia.
Qed.

(** The second loop appends the digits in reverse. *)
Lemma stringify_append_rev (digits : list ascii) :
  forall (numdigits : nat) (retval : string),
    (numdigits <= length digits)%nat ->
    Vespalib.stringify_append numdigits digits retval
    = (retval ++ string_of_list_ascii (rev (firstn numdigits digits)))%string.
Proof.
  induction numdigits as [|n IH]; intros retval Hn.
  - simpl. clear. induction retval as [|c r IHr]; simpl; [reflexivity|].
    rewrite <- IHr. reflexivity.
  - cbn [Vespalib.stringify_append]. rewrite IH by lia.
    assert (Hsplit : firstn (S n) digits = firstn n digits ++ [nth n digits Ascii.zero]).
    { clear IH. revert n Hn. induction digits as [|c l IHl]; intros n Hn; [simpl in Hn; lia|].
      destruct n as [|n]; [reflexivity|].
      simpl in Hn. cbn [firstn nth app]. rewrite <- IHl by lia. reflexivity. }
    rewrite Hsplit, rev_app_distr. cbn [rev app string_of_list_ascii].
    clear. induction retval as [|c r IHr]; simpl; [reflexivity|].
    rewrite IHr. reflexivity.
Qed.

Lemma string_of_revapp (d : Decimal.uint) :
  forall d' : Decimal.uint,
    NilEmpty.string_of_uint (Decimal.revapp d d')
    = (string_of_list_ascii (rev (Props.charsOf d)) ++ NilEmpty.string_of_uint d')%string.
Proof.
  assert (Happ : forall (l : list ascii) (c : ascii) (s : string),
             (string_of_list_ascii (l ++ [c]) ++ s)%string
             = (string_of_list_ascii l ++ String c s)%string).
  { induction l as [|a l IHl]; intros c s; simpl; [reflexivity|].
    rewrite IHl. reflexivity. }
  induction d as [|d IH|d IH|d IH|d IH|d IH|d IH|d IH|d IH|d IH|d IH]; intros d';
    [reflexivity|..]; cbn [Decimal.revapp Props.charsOf rev]; rewrite IH, Happ;
    reflexivity.
Qed.

Lemma to_uint_charsOf (n : N) :
  NilZero.string_of_uint (N.to_uint n)
  = string_of_list_ascii (rev (Props.charsOf (DecimalPos.Unsigned.to_lu n))).
Proof.
  assert (Hrev : N.to_uint n = Decimal.rev (DecimalPos.Unsigned.to_lu n))
    by (destruct n; reflexivity).
  assert (Hnonnil : N.to_uint n <> Decimal.Nil).
  { destruct n; [discriminate|]. apply DecimalPos.Unsigned.to_uint_nonnil. }
  assert (H : NilZero.string_of_uint (N.to_uint n)
              = NilEmpty.string_of_uint (N.to_uint n)).
  { unfold NilZero.string_of_uint.
    destruct (N.to_uint n); [contradiction|reflexivity..]. }
  rewrite H, Hrev. unfold Decimal.rev. rewrite string_of_revapp. simpl.
  generalize (string_of_list_ascii (rev (Props.charsOf (DecimalPos.Unsigned.to_lu n)))).
  intros s. induction s as [|c s IHs]; simpl; [reflexivity|]. rewrite IHs. reflexivity.
Qed.

Lemma valueOf_snoc (s : string) :
  forall (acc : Z) (c : ascii),
    Props.valueOf (s ++ String c EmptyString) acc
    = match Props.valueOf s acc with
      | Some v => Props.valueOf (String c EmptyString) v
      | None => None
      end.
Proof.
  induction s as [|a s IH]; intros acc c; [reflexivity|].
  cbn [append Props.valueOf].
  destruct ((0 <=? Z.of_nat (nat_of_ascii a) - 48) && (Z.of_nat (nat_of_ascii a) - 48 <=? 9));
    [apply IH|reflexivity].
Qed.

Lemma string_of_list_snoc (l : list ascii) (c : ascii) :
  string_of_list_ascii (l ++ [c]) = (string_of_list_ascii l ++ String c EmptyString)%string.
Proof.
  induction l as [|a l IH]; simpl; [reflexivity|]. rewrite IH. reflexivity.
Qed.

(** Reading the digits back, most significant first. *)
Lemma valueOf_charsOf (d : Decimal.uint) :
  forall acc : Z,
    Props.valueOf (string_of_list_ascii (rev (Props.charsOf d))) acc
    = Some (10 ^ Z.of_nat (length (Props.charsOf d)) * acc
            + Z.of_N (DecimalPos.Unsigned.of_lu d)).
Proof.
  induction d as [|d IH|d IH|d IH|d IH|d IH|d IH|d IH|d IH|d IH|d IH]; intros acc;
    [cbn [Props.charsOf rev length string_of_list_ascii Props.valueOf
          DecimalPos.Unsigned.of_lu];
     change (10 ^ Z.of_nat 0) with 1; f_equal; lia|..];
    cbn [Props.charsOf rev length DecimalPos.Unsigned.of_lu];
    rewrite string_of_list_snoc, valueOf_snoc, IH;
    rewrite Nat2Z.inj_succ, Z.pow_succ_r by lia;
    cbn [Props.valueOf];
    match goal with
    | |- context [nat_of_ascii (Props.digitChar ?k)] =>
        change (Z.of_nat (nat_of_ascii (Props.digitChar k)) - 48) with k
    end;
    cbn [Z.leb Z.compare andb Pos.compare Pos.compare_cont]; f_equal; lia.
Qed.

Lemma of_lu_to_lu (n : N) :
  DecimalPos.Unsigned.of_lu (DecimalPos.Unsigned.to_lu n) = n.
Proof.
  rewrite <- DecimalPos.Unsigned.of_lu_rev.
  replace (Decimal.rev (DecimalPos.Unsigned.to_lu n)) with (N.to_uint n)
    by (destruct n; reflexivity).
  apply DecimalN.Unsigned.of_to.
Qed.

(** X7. vespalib::stringify is the decimal notation.  For every unsigned
    64-bit number the two loops of stringify return its decimal digits,
    most significant first and without leading zeros (the notation the
    standard library gives, "0" for zero); the number has at most 20
    digits, so the 64-character buffer is never written past its end. *)
Theorem stringify_decimal :
  forall number : Z,
    0 <= number < 2 ^ 64 ->
    Vespalib.stringify number = Some (Positions.stringify number)
    /\ (exists digits,
           Vespalib.stringify_digits 64 number [] = Some digits
           /\ (1 <= length digits <= 20)%nat
           /\ Positions.stringify number = string_of_list_ascii (rev digits))
    /\ Props.valueOf (Positions.stringify number) 0 = Some number.
Proof.
  intros number Hn.
  set (digits := Props.charsOf (DecimalPos.Unsigned.to_lu (Z.to_N number))).
  assert (H64 : Vespalib.stringify_digits 64 number [] = Some digits).
  { apply (stringify_digits_spec 64 number []); [lia|].
    split; [lia|]. apply Z.lt_trans with (2 ^ 64); [lia|]. vm_compute. reflexivity. }
  assert (H20 : Vespalib.stringify_digits 20 number [] = Some digits).
  { apply (stringify_digits_spec 20 number []); [lia|].
    split; [lia|]. apply Z.lt_trans with (2 ^ 64); [lia|]. vm_compute. reflexivity. }
  apply stringify_digits_length in H20. simpl in H20.
  assert (Hstr : Positions.stringify number = string_of_list_ascii (rev digits)).
  { unfold Positions.stringify. apply to_uint_charsOf. }
  split; [|split].
  - unfold Vespalib.stringify. rewrite H64, Hstr.
    rewrite stringify_append_rev by lia. rewrite firstn_all. reflexivity.
  - exists digits. split; [exact H64|]. split; [lia|exact Hstr].
  - rewrite Hstr. unfold digits. rewrite valueOf_charsOf, of_lu_to_lu.
    rewrite Z.mul_0_r, Z2N.id by lia. reflexivity.
Qed.

Lemma stringify_decimal_witness :
  Vespalib.stringify 3037000499 = Some "3037000499"%string
  /\ Vespalib.stringify 0 = Some "0"%string.
Proof.
  split.
  - rewrite (proj1 (stringify_decimal 3037000499
                      ltac:(split; [discriminate|reflexivity]))).
    reflexivity.
  - rewrite (proj1 (stringify_decimal 0 ltac:(split; [discriminate|reflexivity]))).
    reflexivity.
Defined.

(** ** vespa-get: the parameters that parsing returns *)

Section ParameterFacts.
Import VespaGet.
Variable createNumber : string -> Throws Number.
Context {Priority : Type}.
Variable Priority_values : list Priority.
Variable Priority_getValue : Priority -> Z.
Variable NORMAL_2 : Priority.

Lemma parsePriority_loop_spec (ps : list Priority) (n : Z) :
  match parsePriority_loop _ Priority_getValue ps n with
  | Return p =>
      exists before after,
        ps = before ++ p :: after
        /\ Priority_getValue p = n
        /\ forall q, In q before -> Priority_getValue q <> n
  | Throw e =>
      e = IllegalArgumentException ("Invalid priority: " ++ decimal n)
      /\ forall q, In q ps -> Priority_getValue q <> n
  end.
Proof.
  induction ps as [|p ps IH]; simpl.
  - split; [reflexivity|]. intros q [].
  - destruct (Z.eqb_spec (Priority_getValue p) n) as [E|Hne].
    + exists [], ps. split; [reflexivity|]. split; [exact E|]. intros q [].
    + destruct (parsePriority_loop _ Priority_getValue ps n) as [p'|e].
      * destruct IH as (before & after & -> & Hv & Hbefore).
        exists (p :: before), after. split; [reflexivity|]. split; [exact Hv|].
        intros q [<-|Hin]; [exact Hne|apply Hbefore, Hin].
      * destruct IH as [-> Hall]. split; [reflexivity|].
        intros q [<-|Hin]; [exact Hne|apply Hall, Hin].
Qed.

(** The body of the [try] block, when it returns parameters. *)
Lemma parseCommandLine_returns stdIn cl p :
  fst (parseCommandLine createNumber Priority_values Priority_getValue NORMAL_2 stdIn cl)
  = Return p ->
  let printids := hasOption cl PRINTIDS_OPTION in
  let headers := hasOption cl HEADERSONLY_OPTION in
  let given := getOptionValueOr cl FIELDSET_OPTION EmptyString in
  getTrace createNumber cl = Return (traceLevel p)
  /\ getPriority createNumber Priority_values Priority_getValue NORMAL_2 cl
     = Return (priority p)
  /\ getTimeout createNumber cl = Return (timeout p)
  /\ 0 <= traceLevel p <= 9
  /\ printids && headers = false
  /\ (printids || headers) && negb (isEmpty given) = false
  /\ fieldSet p = (if printids then "[id]"
                   else if headers then "[header]"
                   else if isEmpty given then "[all]" else given)%string
  /\ printIdsOnly p = printids
  /\ cluster p = getOptionValueOr cl CLUSTER_OPTION EmptyString
  /\ negb (isEmpty (cluster p))
     && negb (isEmpty (getOptionValueOr cl ROUTE_OPTION EmptyString)) = false
  /\ route p = (if isEmpty (getOptionValueOr cl ROUTE_OPTION EmptyString)
                   && isEmpty (cluster p)
                then "default"%string else getOptionValueOr cl ROUTE_OPTION EmptyString)
  /\ configId p = (if isEmpty (getOptionValueOr cl CONFIGID_OPTION EmptyString)
                   then "client"%string
                   else getOptionValueOr cl CONFIGID_OPTION EmptyString).
Proof.
  unfold parseCommandLine.
  destruct (getTrace createNumber cl) as [trace|e]; simpl; [|discriminate].
  destruct (getPriority createNumber Priority_values Priority_getValue NORMAL_2 cl)
    as [prio|e]; simpl; [|discriminate].
  destruct (getTimeout createNumber cl) as [tmo|e]; simpl; [|discriminate].
  destruct (getDocumentIds stdIn cl) as [ids stdIn']. simpl.
  destruct (hasOption cl PRINTIDS_OPTION && hasOption cl HEADERSONLY_OPTION) eqn:E1;
    simpl; [discriminate|].
  destruct ((hasOption cl PRINTIDS_OPTION || hasOption cl HEADERSONLY_OPTION)
            && negb (isEmpty (getOptionValueOr cl FIELDSET_OPTION EmptyString))) eqn:E2;
    simpl; [discriminate|].
  destruct (negb (isEmpty (getOptionValueOr cl CLUSTER_OPTION EmptyString))
            && negb (isEmpty (getOptionValueOr cl ROUTE_OPTION EmptyString))) eqn:E3;
    simpl; [discriminate|].
  destruct (Z.ltb_spec trace 0) as [|Hlo]; simpl; [discriminate|].
  destruct (Z.ltb_spec 9 trace) as [|Hhi]; simpl; [discriminate|].
  intros H. injection H as <-. simpl.
  repeat split; try reflexivity; try assumption.
Qed.

End ParameterFacts.

(** X10. The parameters that parseCommandLineArguments returns are
    consistent.  Whenever it returns, the library had parsed the
    arguments, and: the trace level is between 0 and 9; the field set is
    not empty, being "[id]" with --printids, "[header]" with
    --headersonly and otherwise the given one or "[all]"; --printids and
    --headersonly were not both given; the config id is not empty
    ("client" by default); cluster and route are not both non-empty,
    and the route is non-empty when the cluster is empty; and the
    priority is one of the protocol's, with the value asked for or that
    of NORMAL_2. *)
Theorem parseCommandLineArguments_consistent :
  forall (DefaultParser_parse : list string -> VespaGet.Throws VespaGet.CommandLine)
         (createNumber : string -> VespaGet.Throws VespaGet.Number)
         (Priority : Type) (Priority_values : list Priority)
         (Priority_getValue : Priority -> Z) (NORMAL_2 : Priority)
         (stdIn : VespaGet.InputStream) (args : list string)
         (p : VespaGet.ClientParameters Priority),
    fst (VespaGet.parseCommandLineArguments DefaultParser_parse createNumber
           Priority_values Priority_getValue NORMAL_2 stdIn args) = VespaGet.Return p ->
    exists cl,
      DefaultParser_parse args = VespaGet.Return cl
      /\ 0 <= VespaGet.traceLevel p <= 9
      /\ VespaGet.fieldSet p <> EmptyString
      /\ (VespaGet.hasOption cl VespaGet.PRINTIDS_OPTION = true ->
          VespaGet.fieldSet p = "[id]"%string
          /\ VespaGet.hasOption cl VespaGet.HEADERSONLY_OPTION = false)
      /\ (VespaGet.hasOption cl VespaGet.HEADERSONLY_OPTION = true ->
          VespaGet.fieldSet p = "[header]"%string)
      /\ (VespaGet.hasOption cl VespaGet.PRINTIDS_OPTION = false ->
          VespaGet.hasOption cl VespaGet.HEADERSONLY_OPTION = false ->
          VespaGet.fieldSet p
          = if VespaGet.isEmpty (VespaGet.getOptionValueOr cl VespaGet.FIELDSET_OPTION
                                   EmptyString)
            then "[all]"%string
            else VespaGet.getOptionValueOr cl VespaGet.FIELDSET_OPTION EmptyString)
      /\ VespaGet.printIdsOnly p = VespaGet.hasOption cl VespaGet.PRINTIDS_OPTION
      /\ VespaGet.configId p <> EmptyString
      /\ (VespaGet.cluster p = EmptyString \/ VespaGet.route p = EmptyString)
      /\ (VespaGet.cluster p = EmptyString -> VespaGet.route p <> EmptyString)
      /\ In (VespaGet.priority p) Priority_values
      /\ (VespaGet.hasOption cl VespaGet.PRIORITY_OPTION = false ->
          Priority_getValue (VespaGet.priority p) = Priority_getValue NORMAL_2).
Proof.
  intros parse createNumber Priority values getValue NORMAL_2 stdIn args p H.
  unfold VespaGet.parseCommandLineArguments in H.
  destruct (parse args) as [cl|e] eqn:Hparse.
  2:{ simpl in H. destruct e; discriminate. }
  destruct (VespaGet.parseCommandLine createNumber values getValue NORMAL_2 stdIn cl)
    as [r stdIn'] eqn:Hbody.
  assert (Hr : r = VespaGet.Return p).
  { destruct r as [p'|[m|m]]; simpl in H; [exact H|discriminate|discriminate]. }
  subst r.
  pose proof (parseCommandLine_returns createNumber values getValue NORMAL_2 stdIn cl p) as F.
  rewrite Hbody in F. specialize (F eq_refl). cbv zeta in F.
  destruct F as (Htrace & Hprio & _ & Hrange & Hexcl & Hfs & Hfield & Hids & Hcluster
                 & Hcr & Hroute & Hconfig).
  exists cl. split; [reflexivity|]. split; [exact Hrange|].
  assert (Hne : forall s : string,
             VespaGet.isEmpty s = false -> s <> EmptyString)
    by (intros s; apply isEmpty_false).
  split; [|split; [|split; [|split; [|split; [exact Hids|split; [|split; [|split;
    [|split]]]]]]]].
  - rewrite Hfield.
    destruct (VespaGet.hasOption cl VespaGet.PRINTIDS_OPTION); [discriminate|].
    destruct (VespaGet.hasOption cl VespaGet.HEADERSONLY_OPTION); [discriminate|].
    destruct (VespaGet.isEmpty
                (VespaGet.getOptionValueOr cl VespaGet.FIELDSET_OPTION EmptyString)) eqn:E;
      [discriminate|].
    apply Hne, E.
  - intros Hp. rewrite Hp in Hfield, Hexcl. split; [exact Hfield|exact Hexcl].
  - intros Hh. rewrite Hh in Hfield, Hexcl. rewrite andb_true_r in Hexcl.
    rewrite Hexcl in Hfield. exact Hfield.
  - intros Hp Hh. rewrite Hp, Hh in Hfield. exact Hfield.
  - rewrite Hconfig.
    destruct (VespaGet.isEmpty
                (VespaGet.getOptionValueOr cl VespaGet.CONFIGID_OPTION EmptyString)) eqn:E;
      [discriminate|].
    apply Hne, E.
  - destruct (VespaGet.isEmpty (VespaGet.cluster p)) eqn:Ec.
    + left. apply isEmpty_true, Ec.
    + right. simpl in Hcr. apply negb_false_iff in Hcr.
      rewrite Hroute, Hcr. simpl. apply isEmpty_true, Hcr.
  - intros Hc. rewrite Hroute, Hc. simpl. rewrite andb_true_r.
    destruct (VespaGet.isEmpty
                (VespaGet.getOptionValueOr cl VespaGet.ROUTE_OPTION EmptyString)) eqn:E;
      [discriminate|].
    apply Hne, E.
  - unfold VespaGet.getPriority in Hprio.
    destruct (VespaGet.getParsedOptionValue createNumber cl VespaGet.PRIORITY_OPTION)
      as [obj|e]; [|discriminate].
    simpl in Hprio. unfold VespaGet.parsePriority in Hprio.
    match type of Hprio with
    | VespaGet.parsePriority_loop _ _ _ ?n = _ =>
        pose proof (parsePriority_loop_spec getValue values n) as Hspec
    end.
    rewrite Hprio in Hspec. destruct Hspec as (before & after & -> & _).
    apply in_or_app. right. left. reflexivity.
  - intros Hno. unfold VespaGet.getPriority, VespaGet.getParsedOptionValue in Hprio.
    unfold VespaGet.hasOption in Hno. unfold VespaGet.getOptionValue in Hprio.
    destruct (VespaGet.findOption VespaGet.PRIORITY_OPTION (VespaGet.options cl));
      [discriminate|].
    simpl in Hprio. unfold VespaGet.parsePriority in Hprio.
    pose proof (parsePriority_loop_spec getValue values (getValue NORMAL_2)) as Hspec.
    rewrite Hprio in Hspec. destruct Hspec as (before & after & _ & Hv & _). exact Hv.
Qed.

Lemma parseCommandLineArguments_consistent_witness :
  exists p,
    fst (Sample.parseCommandLineArguments [] ["--printids"; "--trace"; "3"; "id:doc:1"]%string)
    = VespaGet.Return p
    /\ VespaGet.fieldSet p = "[id]"%string
    /\ 0 <= VespaGet.traceLevel p <= 9.
Proof.
  destruct (fst (Sample.parseCommandLineArguments []
                   ["--printids"; "--trace"; "3"; "id:doc:1"]%string)) as [p|e] eqn:Hrun;
    [|vm_compute in Hrun; discriminate].
  exists p. split; [reflexivity|].
  destruct (parseCommandLineArguments_consistent Sample.parse Sample.createNumber Z
              Sample.priorities (fun p => p) 6 []
              ["--printids"; "--trace"; "3"; "id:doc:1"]%string p Hrun)
    as (cl & Hparse & Hrange & _ & Hids & _).
  split; [|exact Hrange].
  apply Hids. vm_compute in Hparse. injection Hparse as <-. reflexivity.
Defined.

(** X11. parsePriority returns the first priority with the number.  If
    it returns a priority, that is a member of the protocol's list with
    the given value and no earlier member has that value; it throws
    IllegalArgumentException "Invalid priority: n" exactly when no
    member has the value.  When the values of the list are pairwise
    distinct, every member is recovered from its own value. *)
Theorem parsePriority_first :
  forall (Priority : Type) (Priority_values : list Priority)
         (Priority_getValue : Priority -> Z) (n : Z),
    (forall p, VespaGet.parsePriority Priority_values Priority_getValue n = VespaGet.Return p ->
       exists before after,
         Priority_values = before ++ p :: after
         /\ Priority_getValue p = n
         /\ forall q, In q before -> Priority_getValue q <> n)
    /\ ((exists e, VespaGet.parsePriority Priority_values Priority_getValue n = VespaGet.Throw e)
        <-> forall q, In q Priority_values -> Priority_getValue q <> n)
    /\ (forall e, VespaGet.parsePriority Priority_values Priority_getValue n = VespaGet.Throw e ->
          e = VespaGet.IllegalArgumentException ("Invalid priority: " ++ VespaGet.decimal n))
    /\ (NoDup (map Priority_getValue Priority_values) ->
        forall p, In p Priority_values ->
          VespaGet.parsePriority Priority_values Priority_getValue (Priority_getValue p)
          = VespaGet.Return p).
Proof.
  intros Priority values getValue n. unfold VespaGet.parsePriority.
  split; [|split; [|split]].
  - intros p H. pose proof (parsePriority_loop_spec getValue values n) as Hspec.
    rewrite H in Hspec. exact Hspec.
  - pose proof (parsePriority_loop_spec getValue values n) as Hspec.
    destruct (VespaGet.parsePriority_loop _ getValue values n) as [p|e].
    + destruct Hspec as (before & after & -> & Hv & _). split.
      * intros [e He]. discriminate.
      * intros Hall. exfalso. apply (Hall p); [|exact Hv].
        apply in_or_app. right. left. reflexivity.
    + destruct Hspec as [_ Hall]. split; [intros _; exact Hall|]. intros _. eauto.
  - intros e H. pose proof (parsePriority_loop_spec getValue values n) as Hspec.
    rewrite H in Hspec. apply Hspec.
  - intros Hnodup p Hin.
    pose proof (parsePriority_loop_spec getValue values (getValue p)) as Hspec.
    destruct (VespaGet.parsePriority_loop _ getValue values (getValue p)) as [p'|e].
    + destruct Hspec as (before & after & Heq & Hv & Hbefore).
      f_equal. subst values.
      rewrite map_app in Hnodup. simpl in Hnodup.
      apply in_app_or in Hin. destruct Hin as [Hin|[<-|Hin]].
      * exfalso. apply (Hbefore p Hin). reflexivity.
      * reflexivity.
      * exfalso. apply NoDup_remove_2 in Hnodup. apply Hnodup.
        apply in_or_app. right. rewrite Hv. apply in_map, Hin.
    + destruct Hspec as [_ Hall]. exfalso. apply (Hall p Hin). reflexivity.
Qed.

(** ** ResourceCapacity: the order of capacities *)

Lemma SFcompare_antisym (x y : spec_float) :
  SFcompare y x = option_map CompOpp (SFcompare x y).
Proof.
  destruct x as [sx|sx| |sx mx ex], y as [sy|sy| |sy my ey]; simpl;
    try reflexivity;
    try (destruct sx; reflexivity);
    try (destruct sy; reflexivity);
    try (destruct sx, sy; reflexivity).
  destruct sx, sy; simpl; try reflexivity.
  - rewrite (Z.compare_antisym ex ey).
    destruct (ex ?= ey); simpl; try reflexivity.
    rewrite (Pos.compare_cont_antisym mx my Eq). reflexivity.
  - rewrite (Z.compare_antisym ex ey).
    destruct (ex ?= ey); simpl; try reflexivity.
    rewrite (Pos.compare_cont_antisym mx my Eq). reflexivity.
Qed.

Lemma SFcompare_defined (x y : spec_float) :
  Double.is_nan x = false -> Double.is_nan y = false ->
  exists c, SFcompare x y = Some c.
Proof.
  destruct x as [sx|sx| |sx mx ex], y as [sy|sy| |sy my ey]; simpl; intros Hx Hy;
    try discriminate; eauto.
Qed.

Ltac by_outcome a b :=
  rewrite (SFcompare_antisym a b); destruct (SFcompare a b) as [[| |]|]; simpl.

(** X12. compare and hasCapacityFor agree.  The comparison of two
    capacities is antisymmetric, also when a component is NaN; a capacity
    that has room for another never compares below it; two capacities
    that have room for each other compare equal; and, when no component
    is NaN, capacities that compare equal have room for each other. *)
Theorem compare_hasCapacityFor :
  forall this that : Provisioning.ResourceCapacity,
    ResourceCapacity.compare that this = - ResourceCapacity.compare this that
    /\ (ResourceCapacity.hasCapacityFor this that = true ->
        ResourceCapacity.compare this that = 0 \/ ResourceCapacity.compare this that = 1)
    /\ (ResourceCapacity.hasCapacityFor this that = true ->
        ResourceCapacity.hasCapacityFor that this = true ->
        ResourceCapacity.compare this that = 0)
    /\ (ResourceCapacity.compare this that = 0 ->
        Double.is_nan (Provisioning.memory this) = false ->
        Double.is_nan (Provisioning.memory that) = false ->
        Double.is_nan (Provisioning.disk this) = false ->
        Double.is_nan (Provisioning.disk that) = false ->
        Double.is_nan (Provisioning.cpu this) = false ->
        Double.is_nan (Provisioning.cpu that) = false ->
        ResourceCapacity.hasCapacityFor this that = true
        /\ ResourceCapacity.hasCapacityFor that this = true)
    /\ (forall flavor,
          Provisioning.hasCapacityFor this flavor
          = ResourceCapacity.hasCapacityFor this (Provisioning.ResourceCapacity_of flavor)).
Proof.
  intros [m1 c1 d1] [m2 c2 d2].
  unfold ResourceCapacity.compare, ResourceCapacity.hasCapacityFor, ResourceCapacity.gtb,
    Double.ltb, Double.geb, Double.leb, SFltb, SFleb.
  simpl.
  split; [|split; [|split; [|split]]].
  - by_outcome m1 m2; try reflexivity; by_outcome d1 d2; try reflexivity;
      by_outcome c1 c2; reflexivity.
  - by_outcome m1 m2; try discriminate; by_outcome c1 c2; try discriminate;
      by_outcome d1 d2; try discriminate; auto.
  - rewrite (SFcompare_antisym m1 m2), (SFcompare_antisym c1 c2), (SFcompare_antisym d1 d2).
    destruct (SFcompare m1 m2) as [[| |]|]; simpl; try discriminate;
      destruct (SFcompare c1 c2) as [[| |]|]; simpl; try discriminate;
      destruct (SFcompare d1 d2) as [[| |]|]; simpl; try discriminate; auto.
  - intros Hcmp Hm1 Hm2 Hd1 Hd2 Hc1 Hc2.
    destruct (SFcompare_defined m1 m2 Hm1 Hm2) as [cm Hm].
    destruct (SFcompare_defined d1 d2 Hd1 Hd2) as [cd Hd].
    destruct (SFcompare_defined c1 c2 Hc1 Hc2) as [cc Hc].
    revert Hcmp.
    rewrite (SFcompare_antisym m1 m2), (SFcompare_antisym c1 c2), (SFcompare_antisym d1 d2).
    rewrite Hm, Hd, Hc.
    destruct cm, cd, cc; simpl; intros Hcmp; try discriminate; split; reflexivity.
  - intros flavor. unfold Provisioning.hasCapacityFor, Double.geb, Double.leb, SFleb.
    reflexivity.
Qed.

(** ** NodePrioritizer: when an allocation can be a replacement *)

Lemma filter_andb_length {A : Type} (p q : A -> bool) (l : list A) :
  (length (filter (fun x => p x && q x) l) <= length (filter q l))%nat.
Proof.
  induction l as [|x l IH]; simpl; [lia|].
  destruct (p x), (q x); simpl; lia.
Qed.

Lemma failed_within_cluster (allNodes : list Provisioning.Node) (appId clusterId : string) :
  0 <= Provisioning.nofFailedNodes allNodes appId clusterId
    <= Provisioning.nofNodesInCluster allNodes appId clusterId.
Proof.
  rewrite nofFailedNodes_failedCount, nofNodesInCluster_clusterSize.
  unfold Spec.failedCount, Spec.clusterSize.
  pose proof (filter_andb_length
                (fun node => Provisioning.NodeState_eqb (Provisioning.state node)
                               Provisioning.failed)
                (Spec.allocatedTo appId clusterId) allNodes) as H.
  cbv beta in H. lia.
Qed.

(** X13. Where a replacement is impossible.  The failed nodes of a
    cluster are among its nodes, so their count never exceeds the cluster
    size; hence a request by node type, or for no nodes, is never
    treated as a failure replacement; a request for at least as many
    nodes as the cluster has is one exactly when some node has failed;
    and if a request is a replacement, so is every request for more
    nodes. *)
Theorem isAllocatingForReplacement_limits :
  forall (allNodes : list Provisioning.Node) (appId clusterId : string),
    let size := Provisioning.nofNodesInCluster allNodes appId clusterId in
    let failedNodes := Provisioning.nofFailedNodes allNodes appId clusterId in
    0 <= failedNodes <= size
    /\ (forall type,
          Provisioning.isAllocatingForReplacement allNodes appId clusterId
            (Provisioning.TypeNodeSpec type) = false)
    /\ (forall count flavor,
          count <= 0 ->
          Provisioning.isAllocatingForReplacement allNodes appId clusterId
            (Provisioning.CountNodeSpec count flavor) = false)
    /\ (forall count flavor,
          size <= count ->
          (Provisioning.isAllocatingForReplacement allNodes appId clusterId
             (Provisioning.CountNodeSpec count flavor) = true
           <-> failedNodes <> 0))
    /\ (forall count count' flavor flavor',
          count <= count' ->
          Provisioning.isAllocatingForReplacement allNodes appId clusterId
            (Provisioning.CountNodeSpec count flavor) = true ->
          Provisioning.isAllocatingForReplacement allNodes appId clusterId
            (Provisioning.CountNodeSpec count' flavor') = true).
Proof.
  intros allNodes appId clusterId size failedNodes.
  pose proof (failed_within_cluster allNodes appId clusterId) as Hbound.
  fold size failedNodes in Hbound.
  unfold Provisioning.isAllocatingForReplacement. fold size failedNodes.
  split; [exact Hbound|]. split; [|split; [|split]].
  - intros type.
    destruct (Provisioning.isReplacement (Provisioning.TypeNodeSpec type) size failedNodes)
      eqn:E; [|reflexivity].
    apply isReplacement_iff in E. simpl in E. lia.
  - intros count flavor Hcount.
    destruct (Provisioning.isReplacement (Provisioning.CountNodeSpec count flavor) size
                failedNodes) eqn:E; [|reflexivity].
    apply isReplacement_iff in E. simpl in E. lia.
  - intros count flavor Hcount. rewrite isReplacement_iff. simpl. split; [tauto|].
    intros Hne. split; [exact Hne|lia].
  - intros count count' flavor flavor' Hle. rewrite !isReplacement_iff. simpl.
    intros [Hne Hlt]. split; [exact Hne|lia].
Qed.

(** ** The reference attribute: clearing a range of documents *)

Section ClearFacts.
Import ReferenceAttribute ReferenceAttributeDocs.
Context {UniqueStore EntryRef : Type}.
Variable EntryRef_default : EntryRef.
Variable valid : EntryRef -> bool.
Variable store_remove : EntryRef -> UniqueStore -> UniqueStore.

Lemma set_nth_middle {A : Type} (pre : list A) (x y : A) (post : list A) :
  DocSummary.set_nth (length pre) x (pre ++ y :: post) = pre ++ x :: post.
Proof.
  induction pre as [|a pre IH]; simpl; [reflexivity|]. rewrite IH. reflexivity.
Qed.

Lemma nth_error_middle {A : Type} (pre : list A) (y : A) (post : list A) :
  nth_error (pre ++ y :: post) (length pre) = Some y.
Proof.
  induction pre as [|a pre IH]; simpl; [reflexivity|]. exact IH.
Qed.

Lemma cleared_round (pre : list EntryRef) (r : EntryRef) (post : list EntryRef)
    (store : UniqueStore) usage g :
  (if valid r
   then clearRef EntryRef_default store_remove (Z.of_nat (length pre)) r
          (mkReferenceAttribute store (pre ++ r :: post) usage g)
   else mkReferenceAttribute store (pre ++ r :: post) usage g)
  = mkReferenceAttribute (Props.removeAll valid store_remove [r] store)
      ((pre ++ [Props.cleared EntryRef_default valid r]) ++ post) usage g.
Proof.
  unfold Props.removeAll, Props.cleared, clearRef. simpl. rewrite <- app_assoc. simpl.
  destruct (valid r); simpl; [|reflexivity].
  rewrite Nat2Z.id, set_nth_middle. reflexivity.
Qed.

Lemma removeAll_cons (r : EntryRef) (refs : list EntryRef) (store : UniqueStore) :
  Props.removeAll valid store_remove (r :: refs) store
  = Props.removeAll valid store_remove refs (Props.removeAll valid store_remove [r] store).
Proof.
  unfold Props.removeAll. simpl. destruct (valid r); reflexivity.
Qed.

Lemma clearDocs_loop_spec (mid : list EntryRef) :
  forall (pre post : list EntryRef) (store : UniqueStore) usage g,
    clearDocs_loop EntryRef_default valid store_remove (length mid)
      (Z.of_nat (length pre)) (mkReferenceAttribute store (pre ++ mid ++ post) usage g)
    = Ok (mkReferenceAttribute (Props.removeAll valid store_remove mid store)
            (pre ++ map (Props.cleared EntryRef_default valid) mid ++ post) usage g).
Proof.
  induction mid as [|r mid IH]; intros pre post store usage g; [reflexivity|].
  cbn [length clearDocs_loop app _indices]. rewrite Nat2Z.id, nth_error_middle.
  cbn [deref bind]. rewrite cleared_round.
  replace (Z.of_nat (length pre) + 1)
    with (Z.of_nat (length (pre ++ [Props.cleared EntryRef_default valid r])))
    by (rewrite length_app; simpl; lia).
  rewrite IH, <- removeAll_cons, <- app_assoc. reflexivity.
Qed.

Lemma clearEach_spec (mid : list EntryRef) :
  forall (pre post : list EntryRef) (store : UniqueStore) usage g,
    Props.clearEach EntryRef_default valid store_remove (length mid)
      (Z.of_nat (length pre)) (mkReferenceAttribute store (pre ++ mid ++ post) usage g)
    = Ok (Z.of_nat (length (filter valid mid)),
          mkReferenceAttribute (Props.removeAll valid store_remove mid store)
            (pre ++ map (Props.cleared EntryRef_default valid) mid ++ post) usage g).
Proof.
  induction mid as [|r mid IH]; intros pre post store usage g; [reflexivity|].
  cbn [length Props.clearEach]. unfold clearDoc. cbn [_indices app].
  assert (Hlt : (Z.of_nat (length pre) <? Z.of_nat (length (pre ++ r :: mid ++ post)))
                = true).
  { apply Z.ltb_lt. rewrite length_app. simpl. lia. }
  rewrite Hlt, Nat2Z.id, nth_error_middle. cbn [assert deref bind].
  pose proof (cleared_round pre r (mid ++ post) store usage g) as Hround.
  replace (Z.of_nat (length pre) + 1)
    with (Z.of_nat (length (pre ++ [Props.cleared EntryRef_default valid r])))
    by (rewrite length_app; simpl; lia).
  cbn [filter]. destruct (valid r); cbn [bind]; rewrite Hround, IH; cbn [bind];
    rewrite <- removeAll_cons, <- app_assoc; cbn [app length]; f_equal; f_equal; lia.
Qed.

Lemma range_split (lidLow lidLimit : Z) (l : list EntryRef) :
  0 <= lidLow <= lidLimit -> lidLimit <= Z.of_nat (length l) ->
  l = firstn (Z.to_nat lidLow) l ++ Props.range lidLow lidLimit l
        ++ skipn (Z.to_nat lidLimit) l
  /\ length (firstn (Z.to_nat lidLow) l) = Z.to_nat lidLow
  /\ length (Props.range lidLow lidLimit l) = Z.to_nat (lidLimit - lidLow).
Proof.
  intros Hlo Hhi. unfold Props.range.
  assert (Hskip : skipn (Z.to_nat lidLimit) l
                  = skipn (Z.to_nat (lidLimit - lidLow)) (skipn (Z.to_nat lidLow) l)).
  { rewrite skipn_skipn. f_equal. lia. }
  split; [|split].
  - rewrite Hskip, firstn_skipn, firstn_skipn. reflexivity.
  - rewrite firstn_length_le; lia.
  - rewrite firstn_length_le; [reflexivity|]. rewrite length_skipn. lia.
Qed.

Lemma cleared_twice (Hdefault : valid EntryRef_default = false) (refs : list EntryRef) :
  map (Props.cleared EntryRef_default valid) (map (Props.cleared EntryRef_default valid) refs)
  = map (Props.cleared EntryRef_default valid) refs
  /\ filter valid (map (Props.cleared EntryRef_default valid) refs) = [].
Proof.
  induction refs as [|r refs [IH1 IH2]]; [split; reflexivity|].
  assert (Hc : valid (Props.cleared EntryRef_default valid r) = false).
  { unfold Props.cleared. destruct (valid r) eqn:E; [exact Hdefault|exact E]. }
  assert (Hcc : Props.cleared EntryRef_default valid (Props.cleared EntryRef_default valid r)
                = Props.cleared EntryRef_default valid r).
  { unfold Props.cleared at 1. rewrite Hc. reflexivity. }
  cbn [map filter]. rewrite IH1, IH2, Hc, Hcc. split; reflexivity.
Qed.

End ClearFacts.



(** ** WriteableFileChunk: the ids of the chunks *)

Lemma In_assign_same {V : Type} (k : Z) (v : V) (m : list (Z * V)) :
  In (k, v) (OrderedMap.assign k v m).
Proof.
  induction m as [|[k' v'] m IH]; simpl; [auto|].
  destruct (k <? k'); [left; reflexivity|].
  destruct (k =? k'); [left; reflexivity|]. right. exact IH.
Qed.

Lemma In_assign_other {V : Type} (k k0 : Z) (v v0 : V) (m : list (Z * V)) :
  In (k, v) m -> k <> k0 -> In (k, v) (OrderedMap.assign k0 v0 m).
Proof.
  induction m as [|[k' v'] m IH]; simpl; [tauto|].
  intros Hin Hne.
  destruct (k0 <? k'); [right; exact Hin|].
  destruct (Z.eqb_spec k0 k') as [->|Hk].
  - destruct Hin as [H|H]; [injection H as -> _; contradiction|right; exact H].
  - destruct Hin as [H|H]; [left; exact H|right; apply IH; assumption].
Qed.

Lemma find_absent {V : Type} (k0 : Z) (m : list (Z * V)) :
  (forall k v, In (k, v) m -> k <> k0) -> OrderedMap.find k0 m = None.
Proof.
  induction m as [|[k' v'] m IH]; intros H; simpl; [reflexivity|].
  destruct (Z.eqb_spec k' k0) as [E|_].
  - exfalso. apply (H k' v'); [left; reflexivity|exact E].
  - apply IH. intros k v Hin. apply (H k v). right. exact Hin.
Qed.

Section ChunkIdFacts.
Import FileChunk.
Variable getChunkIdLimit : Z.
Variable getMaxChunkBytes : Z.
Hypothesis limit_int32 : getChunkIdLimit <= 2 ^ 31.

(** What flushLastIfNonEmpty does to the chunk ids. *)
Lemma flushLastIfNonEmpty_ids (force : bool) (s s' : WriteableFileChunk) (chunkId : Z) :
  Props.chunkIdsInv getChunkIdLimit s ->
  flushLastIfNonEmpty getChunkIdLimit getMaxChunkBytes force s = Ok (chunkId, s') ->
  Props.chunkIdsInv getChunkIdLimit s'
  /\ (forall k c, In (k, c) (_chunkMap s) -> In (k, c) (_chunkMap s'))
  /\ ((chunkId = -1 /\ s' = s)
      \/ (chunkId = getId (_active s)
          /\ OrderedMap.find chunkId (_chunkMap s) = None
          /\ _chunkMap s' = OrderedMap.assign chunkId (_active s) (_chunkMap s)
          /\ _active s' = newChunk (getId (_active s) + 1) getMaxChunkBytes
          /\ s' = with_nextChunkId (_nextChunkId s')
                    (with_active (_active s') (with_chunkMap (_chunkMap s') s)))).
Proof.
  intros (Hid & Hnext & Hlim & Hmap) H.
  unfold flushLastIfNonEmpty in H.
  destruct (1000 <? Z.of_nat (length (_chunkMap s))); [discriminate|].
  destruct (force || negb (empty (_active s))).
  - rewrite (to_int32_id (getId (_active s))) in H by lia.
    rewrite (wrap32_id (getId (_active s))) in H by lia.
    simpl in H.
    destruct (Z.ltb_spec (_nextChunkId s) getChunkIdLimit) as [Hlt|]; [|discriminate].
    simpl in H. rewrite (wrap32_id (_nextChunkId s + 1)) in H by lia.
    injection H as <- <-. simpl.
    assert (Hfresh : forall k c, In (k, c) (_chunkMap s) -> k <> getId (_active s)).
    { intros k c Hin. specialize (Hmap k c Hin). lia. }
    split; [|split].
    + unfold Props.chunkIdsInv. simpl. repeat split; try lia.
      * apply assign_In in H. destruct H as [[-> ->]|Hin]; [reflexivity|].
        apply (Hmap k c Hin).
      * apply assign_In in H. destruct H as [[-> ->]|Hin]; [lia|].
        apply (Hmap k c Hin).
      * apply assign_In in H. destruct H as [[-> ->]|Hin]; [lia|].
        specialize (Hmap k c Hin). lia.
    + intros k c Hin. apply In_assign_other; [exact Hin|exact (Hfresh k c Hin)].
    + right. split; [reflexivity|]. split; [apply find_absent, Hfresh|].
      split; [reflexivity|]. split; [rewrite <- Hnext; reflexivity|reflexivity].
  - injection H as <- <-. split; [|split].
    + unfold Props.chunkIdsInv. auto.
    + auto.
    + left. split; reflexivity.
Qed.

End ChunkIdFacts.

(** X15. Chunk ids are handed out once.  With the id limit within
    [int32_t], the instance keeps this order under append and flush: the
    active chunk has the id before [_nextChunkId], and the chunks waiting
    in the chunk map sit under their own ids, all below the active one,
    as they do after construction.  So a roll-over never puts the active
    chunk over a chunk that is still waiting (its id is not in the map
    and no entry of the map is lost), and append returns the id of the
    chunk that then holds the entry. *)
Theorem append_chunk_ids :
  forall (hasRoom : FileChunk.Chunk -> Z -> bool) (getChunkIdLimit : Z)
         (setSerialNum : Z -> Z -> Z) (adjustSize : Z -> Z)
         (getMaxChunkBytes getFileId : Z) (s : FileChunk.WriteableFileChunk),
    getChunkIdLimit <= 2 ^ 31 ->
    Props.chunkIdsInv getChunkIdLimit s ->
    (forall serialNum lid buffer li s',
        FileChunk.append hasRoom getChunkIdLimit setSerialNum adjustSize getMaxChunkBytes
          getFileId serialNum lid buffer s = Ok (li, s') ->
        Props.chunkIdsInv getChunkIdLimit s'
        /\ FileChunk.li_chunkId li = FileChunk.getId (FileChunk._active s')
        /\ In (lid, buffer) (FileChunk.getLids (FileChunk._active s'))
        /\ (forall k c, In (k, c) (FileChunk._chunkMap s) -> In (k, c) (FileChunk._chunkMap s'))
        /\ (FileChunk._chunkMap s' = FileChunk._chunkMap s
            \/ (OrderedMap.find (FileChunk.getId (FileChunk._active s)) (FileChunk._chunkMap s)
                = None
                /\ FileChunk._chunkMap s'
                   = OrderedMap.assign (FileChunk.getId (FileChunk._active s))
                       (FileChunk._active s) (FileChunk._chunkMap s)
                /\ FileChunk.li_chunkId li = FileChunk.getId (FileChunk._active s) + 1)))
    /\ (forall syncToken s',
          FileChunk.flush_nonblocking getChunkIdLimit setSerialNum getMaxChunkBytes
            syncToken s = Ok s' ->
          Props.chunkIdsInv getChunkIdLimit s'
          /\ (forall k c, In (k, c) (FileChunk._chunkMap s) ->
                          In (k, c) (FileChunk._chunkMap s')))
    /\ (forall initialSerialNum,
          1 <= getChunkIdLimit ->
          Props.chunkIdsInv getChunkIdLimit
            (Props.constructed initialSerialNum getMaxChunkBytes)).
Proof.
  intros hasRoom limit setSerialNum adjustSize maxBytes fileId s Hlimit Hinv.
  assert (Hflush : forall syncToken s',
             FileChunk.flush_nonblocking limit setSerialNum maxBytes syncToken s = Ok s' ->
             Props.chunkIdsInv limit s'
             /\ (forall k c, In (k, c) (FileChunk._chunkMap s) ->
                             In (k, c) (FileChunk._chunkMap s'))
             /\ (FileChunk._chunkMap s' = FileChunk._chunkMap s
                 /\ FileChunk._active s' = FileChunk._active s
                 \/ (OrderedMap.find (FileChunk.getId (FileChunk._active s))
                       (FileChunk._chunkMap s) = None
                     /\ FileChunk._chunkMap s'
                        = OrderedMap.assign (FileChunk.getId (FileChunk._active s))
                            (FileChunk._active s) (FileChunk._chunkMap s)
                     /\ FileChunk._active s'
                        = FileChunk.newChunk (FileChunk.getId (FileChunk._active s) + 1)
                            maxBytes))).
  { intros syncToken s' H. unfold FileChunk.flush_nonblocking in H.
    destruct (FileChunk.flushLastIfNonEmpty limit maxBytes
                (FileChunk._serialNum s <? syncToken) s) as [[chunkId s1]|] eqn:Hlast;
      [|discriminate].
    destruct (flushLastIfNonEmpty_ids limit maxBytes Hlimit _ s s1 chunkId Hinv Hlast)
      as (Hinv1 & Hkeep & Hcase).
    cbn [bind] in H.
    assert (Hs' : FileChunk._chunkMap s' = FileChunk._chunkMap s1
                  /\ FileChunk._active s' = FileChunk._active s1
                  /\ FileChunk._nextChunkId s' = FileChunk._nextChunkId s1).
    { destruct (0 <=? chunkId); injection H as <-; repeat split. }
    destruct Hs' as (Hm & Ha & Hn).
    split; [|split].
    - unfold Props.chunkIdsInv in *. rewrite Hm, Ha, Hn. exact Hinv1.
    - rewrite Hm. exact Hkeep.
    - rewrite Hm, Ha. destruct Hcase as [[_ ->]|(-> & Hnone & Hmap & Hact & _)].
      + left. split; reflexivity.
      + right. split; [exact Hnone|]. split; [exact Hmap|exact Hact]. }
  split; [|split].
  - intros serialNum lid buffer li s' H. unfold FileChunk.append in H.
    destruct (negb (FileChunk._frozen s)); [|discriminate]. cbn [assert bind] in H.
    destruct (if negb (hasRoom (FileChunk._active s) (Z.of_nat (length buffer)))
              then FileChunk.flush_nonblocking limit setSerialNum maxBytes
                     (FileChunk._serialNum s) s
              else Ok s) as [s1|] eqn:Hroll; [|discriminate].
    cbn [bind] in H.
    destruct (FileChunk._serialNum s1 <=? serialNum); [|discriminate].
    cbn [assert bind] in H. injection H as <- <-. simpl.
    assert (H1 : Props.chunkIdsInv limit s1
                 /\ (forall k c, In (k, c) (FileChunk._chunkMap s) ->
                                 In (k, c) (FileChunk._chunkMap s1))
                 /\ (FileChunk._chunkMap s1 = FileChunk._chunkMap s
                     /\ FileChunk._active s1 = FileChunk._active s
                     \/ (OrderedMap.find (FileChunk.getId (FileChunk._active s))
                           (FileChunk._chunkMap s) = None
                         /\ FileChunk._chunkMap s1
                            = OrderedMap.assign (FileChunk.getId (FileChunk._active s))
                                (FileChunk._active s) (FileChunk._chunkMap s)
                         /\ FileChunk._active s1
                            = FileChunk.newChunk (FileChunk.getId (FileChunk._active s) + 1)
                                maxBytes))).
    { destruct (negb (hasRoom (FileChunk._active s) (Z.of_nat (length buffer)))).
      - apply (Hflush _ _ Hroll).
      - injection Hroll as <-. split; [exact Hinv|]. split; [auto|].
        left. split; reflexivity. }
    destruct H1 as (Hinv1 & Hkeep & Hcase).
    split; [|split; [|split; [|split]]].
    + unfold Props.chunkIdsInv in *. simpl. exact Hinv1.
    + reflexivity.
    + apply in_or_app. right. left. reflexivity.
    + exact Hkeep.
    + destruct Hcase as [[Hm _]|(Hnone & Hm & Ha)]; [left; exact Hm|].
      right. split; [exact Hnone|]. split; [exact Hm|]. rewrite Ha. reflexivity.
  - intros syncToken s' H. destruct (Hflush syncToken s' H) as (H1 & H2 & _).
    split; assumption.
  - intros initialSerialNum Hone. unfold Props.chunkIdsInv, Props.constructed. simpl.
    repeat split; try lia; contradiction.
Qed.

(** The first entry of a constructed instance goes into chunk 0; when
    the second does not fit, chunk 0 waits in the map and chunk 1 takes
    it. *)
Lemma append_chunk_ids_witness :
  exists li s',
    FileChunk.append Sample.hasRoom 4194304 Z.max (fun n => n) 4 3 11 1
      [Byte.x61; Byte.x62; Byte.x63]
      (Props.constructed 10 4) = Ok (li, s')
    /\ Props.chunkIdsInv 4194304 s'
    /\ FileChunk.li_chunkId li = 0.
Proof.
  destruct (FileChunk.append Sample.hasRoom 4194304 Z.max (fun n => n) 4 3 11 1
              [Byte.x61; Byte.x62; Byte.x63] (Props.constructed 10 4))
    as [[li s']|f] eqn:Hrun; [|vm_compute in Hrun; discriminate].
  exists li, s'. split; [reflexivity|].
  assert (Hlimit : 4194304 <= 2 ^ 31) by (vm_compute; discriminate).
  assert (Hinv : Props.chunkIdsInv 4194304 (Props.constructed 10 4)).
  { unfold Props.chunkIdsInv, Props.constructed. simpl.
    repeat split; try lia; contradiction. }
  destruct (append_chunk_ids Sample.hasRoom 4194304 Z.max (fun n => n) 4 3
              (Props.constructed 10 4) Hlimit Hinv) as (Happend & _).
  destruct (Happend 11 1 [Byte.x61; Byte.x62; Byte.x63] li s' Hrun) as (Hinv' & _).
  split; [exact Hinv'|].
  vm_compute in Hrun. injection Hrun as <- _. reflexivity.
Defined.

(** ** The docsum writer: a stored summary passed through *)

Section StoredFacts.
Import DocSummary.
Context {S : Type}.

(** The loop of the stored branch over fields that have no override, when
    the output class is the class of the blob. *)
Lemma insertStored_same_class (w : DynamicDocsumWriter S) rci docid state
    (es : list ResConfigEntry) :
  forall (done rest : list ResEntry) (docsum : list (string * SlimeValue)),
    (forall e, In e es -> overrideSlot w (_enumValue e) = None) ->
    length rest = length es ->
    insertStored w rci docid (done ++ rest) true es (Z.of_nat (length done)) state docsum
    = Ok (docsum ++ Props.storedFields es rest, state).
Proof.
  induction es as [|outCfg es IH]; intros done rest docsum Hfree Hlen.
  - simpl. rewrite app_nil_r. reflexivity.
  - destruct rest as [|entry rest]; [discriminate|].
    cbn [insertStored]. rewrite (Hfree outCfg (or_introl eq_refl)).
    rewrite Nat2Z.id.
    assert (Hnth : nth_error (done ++ entry :: rest) (length done) = Some entry).
    { clear. induction done as [|d done IHd]; simpl; [reflexivity|exact IHd]. }
    rewrite Hnth. cbn [deref bind].
    replace (Z.of_nat (length done) + 1) with (Z.of_nat (length (done ++ [entry])))
      by (rewrite length_app; simpl; lia).
    replace (done ++ entry :: rest) with ((done ++ [entry]) ++ rest)
      by (rewrite <- app_assoc; reflexivity).
    rewrite IH.
    + unfold Props.storedFields. cbn [combine flat_map fst snd].
      rewrite <- app_assoc. reflexivity.
    + intros e Hin. apply Hfree. right. exact Hin.
    + simpl in Hlen. lia.
Qed.

End StoredFacts.

(** X16. A stored summary is passed through.  When neither the request
    nor the writer names an output class, the class of the stored blob
    is known and none of its fields is overridden, WriteDocsum reads the
    blob of the document from the store once, takes the class of the
    blob as the output class, and returns an object with exactly the
    stored entries, in the order of the class and under their names,
    each converted by its type (an empty structured field is left out);
    the request state is unchanged.  If the blob cannot be unpacked the
    result is nix. *)
Theorem WriteDocsum_passes_stored :
  forall (S : Type)
         (inplaceUnpack : option DocSummary.ResultClass -> string ->
                          option (list DocSummary.ResEntry))
         (w : DocSummary.DynamicDocsumWriter S) (summaryClass : string) (docid : Z)
         (state : S) (docinfos : DocSummary.IDocsumStore)
         (i : nat) (inC : DocSummary.ResultClass),
    let cfg := DocSummary._resultConfig w in
    DocSummary.LookupResultClassId cfg summaryClass (DocSummary._defaultOutputClass w)
    = DocSummary.NoClassID cfg ->
    DocSummary.LookupResultClass cfg (DocSummary.getSummaryClassId docinfos) = Some (i, inC) ->
    (forall e, In e (DocSummary.entries inC) ->
               DocSummary.overrideSlot w (DocSummary._enumValue e) = None) ->
    let read := DocSummary.mkDocsumStore (DocSummary.getSummaryClassId docinfos)
                  (DocSummary.blobs docinfos)
                  (DocSummary.reads docinfos ++ [(docid, true)]) in
    (forall gres,
        inplaceUnpack (Some inC) (DocSummary.blobs docinfos docid) = Some gres ->
        length gres = length (DocSummary.entries inC) ->
        DocSummary.WriteDocsum inplaceUnpack w summaryClass docid state docinfos
        = (read,
           Ok (DocSummary.SlimeObject (Props.storedFields (DocSummary.entries inC) gres),
               state)))
    /\ (inplaceUnpack (Some inC) (DocSummary.blobs docinfos docid) = None ->
        DocSummary.WriteDocsum inplaceUnpack w summaryClass docid state docinfos
        = (read, Ok (DocSummary.SlimeNix, state))).
Proof.
  intros S inplaceUnpack w summaryClass docid state docinfos i inC cfg Hname Hclass Hfree
    read.
  assert (Hrci : DocSummary.resolveClassInfo w summaryClass
                   (DocSummary.getSummaryClassId docinfos)
                 = Ok (DocSummary.mkResolveClassInfo false false
                         (DocSummary.getSummaryClassId docinfos) (Some inC)
                         (nth_error (DocSummary._classInfoTable w) i) (Some inC))).
  { unfold DocSummary.resolveClassInfo, DocSummary.resolveOutputClass.
    fold cfg. rewrite Hname, Z.eqb_refl. cbn [negb bind].
    cbn [DocSummary.mustSkip DocSummary.allGenerated negb andb].
    unfold DocSummary.resolveInputClass. fold cfg. rewrite Hclass.
    cbn [DocSummary.outputClass DocSummary.outputClassId].
    rewrite Z.eqb_refl. reflexivity. }
  unfold DocSummary.WriteDocsum. rewrite Hrci.
  unfold DocSummary.insertDocsum, DocSummary.getMappedDocsum.
  cbn [DocSummary.allGenerated DocSummary.inputClass DocSummary.outputClass].
  fold read. split.
  - intros gres Hunpack Hlen. rewrite Hunpack. cbn [deref bind].
    unfold DocSummary.ResultClass_same. rewrite Z.eqb_refl.
    rewrite (insertStored_same_class w _ docid state (DocSummary.entries inC) [] gres []
               Hfree Hlen).
    reflexivity.
  - intros Hunpack. rewrite Hunpack. reflexivity.
Qed.

(** A request for a class the configuration does not know, on a writer
    without overrides and without default class. *)
Lemma WriteDocsum_passes_stored_witness :
  DocSummary.WriteDocsum Sample.unpackBlob
    (DocSummary.DynamicDocsumWriter_new Sample.docsumConfig 2) "other" 3 tt
    Sample.docsumStore
  = (DocSummary.mkDocsumStore 0 (fun _ => "blob"%string) [(3, true)],
     Ok (DocSummary.SlimeObject
           [("distance"%string, DocSummary.SlimeLong 7);
            ("title"%string, DocSummary.SlimeString "blob")], tt)).
Proof.
  destruct (WriteDocsum_passes_stored unit Sample.unpackBlob
              (DocSummary.DynamicDocsumWriter_new Sample.docsumConfig 2) "other" 3 tt
              Sample.docsumStore 0%nat
              (DocSummary.mkResultClass 0 "default"
                 [DocSummary.mkResConfigEntry DocSummary.RES_INT "distance" 0;
                  DocSummary.mkResConfigEntry DocSummary.RES_STRING "title" 1])
              eq_refl eq_refl) as [H _].
  - intros e _. apply overrideSlot_new.
  - rewrite (H _ eq_refl eq_refl). reflexivity.
Defined.

(** ** The background writer: where the chunk info points *)

Lemma length_list_resize {A : Type} (d : A) (n : nat) :
  forall l : list A, length (FileChunk.list_resize d n l) = n.
Proof.
  induction n as [|n IH]; intros l; simpl; [reflexivity|].
  destruct l; simpl; rewrite IH; reflexivity.
Qed.

Lemma nth_error_list_resize {A : Type} (d : A) (n : nat) :
  forall (l : list A) (k : nat),
    (k < length l)%nat -> (k < n)%nat ->
    nth_error (FileChunk.list_resize d n l) k = nth_error l k.
Proof.
  induction n as [|n IH]; intros l k Hk Hn; [lia|].
  destruct l as [|x l]; [simpl in Hk; lia|].
  destruct k as [|k]; simpl; [reflexivity|]. apply IH; simpl in Hk; lia.
Qed.

Lemma length_list_set {A : Type} (x : A) :
  forall (l : list A) (i : nat), length (FileChunk.list_set i x l) = length l.
Proof.
  induction l as [|y l IH]; intros i; destruct i; simpl; try reflexivity.
  rewrite IH. reflexivity.
Qed.

Lemma nth_error_list_set {A : Type} (x : A) :
  forall (l : list A) (i j : nat),
    nth_error (FileChunk.list_set i x l) j
    = if Nat.eqb j i && Nat.ltb i (length l) then Some x else nth_error l j.
Proof.
  induction l as [|y l IH]; intros i j.
  - destruct i; simpl; rewrite andb_false_r; reflexivity.
  - destruct i as [|i], j as [|j]; simpl; try reflexivity.
    rewrite IH. reflexivity.
Qed.

(** One round of updateChunkInfo on [_chunkInfo]. *)
Lemma recorded_round (info : list FileChunk.ChunkInfo) (id : Z) (x : FileChunk.ChunkInfo) :
  0 <= id ->
  let info1 :=
    FileChunk.list_set (Z.to_nat id) x
      (if Z.of_nat (length info) <=? id
       then FileChunk.list_resize FileChunk.ChunkInfo_default (Z.to_nat (id + 1)) info
       else info) in
  nth_error info1 (Z.to_nat id) = Some x
  /\ (length info <= length info1)%nat
  /\ (Z.to_nat id < length info1)%nat
  /\ forall k, k <> Z.to_nat id -> (k < length info)%nat ->
               nth_error info1 k = nth_error info k.
Proof.
  intros Hid info1. subst info1.
  destruct (Z.leb_spec (Z.of_nat (length info)) id) as [Hext|Hin].
  - rewrite nth_error_list_set, length_list_set, !length_list_resize, Nat.eqb_refl.
    assert (Hlt : (Z.to_nat id <? Z.to_nat (id + 1))%nat = true)
      by (apply Nat.ltb_lt; lia).
    rewrite Hlt. simpl. repeat split; try lia.
    intros k Hk Hlen. rewrite nth_error_list_set.
    destruct (Nat.eqb_spec k (Z.to_nat id)); [contradiction|]. simpl.
    apply nth_error_list_resize; lia.
  - rewrite nth_error_list_set, length_list_set, Nat.eqb_refl.
    assert (Hlt : (Z.to_nat id <? length info)%nat = true) by (apply Nat.ltb_lt; lia).
    rewrite Hlt. simpl. repeat split; try lia.
    intros k Hk Hlen. rewrite nth_error_list_set.
    destruct (Nat.eqb_spec k (Z.to_nat id)); [contradiction|]. reflexivity.
Qed.

(** Where [Props.recorded] leaves the entries, for a batch of consecutive
    ids. *)
Lemma recorded_nth (batch : list FileChunk.ProcessedChunk) :
  forall (e : Z) (info : list FileChunk.ChunkInfo) (metas : list FileChunk.ChunkMeta),
    0 <= e ->
    Spec.consecutive e (map FileChunk._chunkId batch) ->
    length metas = length batch ->
    (length info <= length (Props.recorded info batch metas))%nat
    /\ (forall j c m,
          nth_error batch j = Some c -> nth_error metas j = Some m ->
          nth_error (Props.recorded info batch metas) (Z.to_nat (FileChunk._chunkId c))
          = Some (FileChunk.mkChunkInfo (FileChunk.cm_offset m) (FileChunk._payLoad c)
                    (FileChunk.cm_lastSerial m)))
    /\ (forall k,
          (Z.of_nat k < e \/ e + Z.of_nat (length batch) <= Z.of_nat k) ->
          (k < length info)%nat ->
          nth_error (Props.recorded info batch metas) k = nth_error info k).
Proof.
  induction batch as [|c batch IH]; intros e info metas He Hcons Hlen.
  - simpl. split; [lia|]. split; [|reflexivity].
    intros j c m Hj. destruct j; discriminate.
  - destruct metas as [|m metas]; [discriminate|].
    destruct Hcons as [Hid Hcons]. simpl in Hid.
    cbn [Props.recorded]. cbv zeta.
    destruct (recorded_round info (FileChunk._chunkId c)
                (FileChunk.mkChunkInfo (FileChunk.cm_offset m) (FileChunk._payLoad c)
                   (FileChunk.cm_lastSerial m)) ltac:(lia))
      as (Hset & Hgrow & Hin & Hother).
    cbv zeta in Hset, Hgrow, Hin, Hother.
    set (info1 := FileChunk.list_set _ _ _) in *.
    destruct (IH (e + 1) info1 metas ltac:(lia) Hcons ltac:(simpl in Hlen; lia))
      as (Hlen' & Hentries & Hframe).
    split; [lia|]. split.
    + intros [|j] c' m' Hc Hm; simpl in Hc, Hm.
      * injection Hc as <-. injection Hm as <-.
        rewrite Hframe; [exact Hset| |exact Hin]. left. lia.
      * apply (Hentries j c' m' Hc Hm).
    + intros k Hk Hklen.
      rewrite Hframe; [|simpl length in Hk; lia|lia].
      apply Hother; [|exact Hklen]. simpl length in Hk. lia.
Qed.

(** What updateChunkInfo does, when the chunks in the map are under
    their own ids. *)
Lemma updateChunkInfo_recorded (chunks : list FileChunk.ProcessedChunk) :
  forall (s s' : FileChunk.WriteableFileChunk) (cmetaV : list FileChunk.ChunkMeta),
    (forall k ch, In (k, ch) (FileChunk._chunkMap s) -> FileChunk.getId ch = k) ->
    FileChunk.updateChunkInfo s chunks cmetaV = Ok s' ->
    FileChunk._chunkInfo s' = Props.recorded (FileChunk._chunkInfo s) chunks cmetaV
    /\ FileChunk._chunkMap s' = skipn (length chunks) (FileChunk._chunkMap s)
    /\ (length chunks <= length cmetaV)%nat.
Proof.
  induction chunks as [|c chunks IH]; intros s s' cmetaV Hkeys Hu.
  - simpl in Hu. injection Hu as <-. simpl. repeat split. lia.
  - simpl in Hu. unfold deref in Hu at 1.
    destruct (FileChunk._chunkMap s) as [|[k active] cm] eqn:Hcm; [discriminate|].
    simpl in Hu. unfold assert in Hu.
    destruct (Z.eqb_spec k (FileChunk._chunkId c)) as [Hk|]; [|discriminate].
    cbn [bind] in Hu.
    destruct cmetaV as [|cmeta cmetaV]; [discriminate|]. simpl in Hu.
    assert (Hid : FileChunk.getId active = FileChunk._chunkId c).
    { rewrite <- Hk. apply Hkeys. left. reflexivity. }
    rewrite Hid in Hu.
    apply IH in Hu.
    + simpl in Hu. destruct Hu as (Hinfo & Hmap & Hlen).
      split; [exact Hinfo|]. split; [exact Hmap|]. simpl. lia.
    + simpl. intros k' ch' Hin. apply Hkeys. right. exact Hin.
Qed.

(** The metas that the loop of computeChunkMeta collects. *)
Lemma computeChunkMeta_loop_metas (batch : list FileChunk.ProcessedChunk) (dn : bool) :
  forall (s : FileChunk.WriteableFileChunk) (startPos : Z)
         (kept : list FileChunk.ProcessedChunk) (cmetaV : list FileChunk.ChunkMeta)
         (sz lastSerial : Z) (d0 : bool) s' kept' cmetaV' sz' d',
    FileChunk.computeChunkMeta_loop s startPos
      (map Some batch ++ (if dn then [None] else [])) kept cmetaV sz lastSerial d0
    = Ok (s', kept', cmetaV', sz', d') ->
    cmetaV' = cmetaV ++ Props.metasFor (FileChunk._chunkMap s) (startPos + sz) batch
    /\ length (Props.metasFor (FileChunk._chunkMap s) (startPos + sz) batch) = length batch.
Proof.
  induction batch as [|c batch IH]; intros s startPos kept cmetaV sz ls d0
    s' kept' cmetaV' sz' d' Hr.
  - simpl. rewrite app_nil_r.
    destruct dn; simpl in Hr; injection Hr as _ _ <- _ _; split; reflexivity.
  - simpl in Hr. unfold deref in Hr at 1. cbn [Props.metasFor].
    destruct (OrderedMap.find (FileChunk._chunkId c) (FileChunk._chunkMap s))
      as [active|]; [|discriminate].
    unfold bind in Hr at 1. unfold FileChunk.computeChunkMeta1 in Hr.
    unfold assert in Hr at 1.
    destruct (FileChunk.getDataLen c mod FileChunk._alignment s =? 0); [|discriminate].
    unfold bind in Hr at 1 2. cbv beta iota zeta in Hr.
    unfold assert in Hr at 1.
    match type of Hr with
    | context [if ?b then Ok tt else _] => destruct b; [|discriminate]
    end.
    unfold bind in Hr at 1.
    apply IH in Hr. simpl FileChunk._chunkMap in Hr.
    replace (startPos + (sz + FileChunk.getDataLen c))
      with (startPos + sz + FileChunk.getDataLen c) in Hr by lia.
    destruct Hr as [-> Hlen]. rewrite <- app_assoc. simpl. split; [reflexivity|].
    rewrite Hlen. reflexivity.
Qed.

Lemma metasFor_nth (chunkMap : list (Z * FileChunk.Chunk))
    (batch : list FileChunk.ProcessedChunk) :
  forall (pos : Z) (j : nat) (c : FileChunk.ProcessedChunk),
    length (Props.metasFor chunkMap pos batch) = length batch ->
    nth_error batch j = Some c ->
    exists ch,
      OrderedMap.find (FileChunk._chunkId c) chunkMap = Some ch
      /\ nth_error (Props.metasFor chunkMap pos batch) j
         = Some (FileChunk.mkChunkMeta (pos + Props.dataLens (firstn j batch))
                   (FileChunk._payLoad c) (FileChunk.getLastSerial ch) (FileChunk.count ch)).
Proof.
  induction batch as [|c0 batch IH]; intros pos j c Hlen Hj; [destruct j; discriminate|].
  cbn [Props.metasFor] in *.
  destruct (OrderedMap.find (FileChunk._chunkId c0) chunkMap) as [ch0|] eqn:Hfind;
    [|discriminate].
  destruct j as [|j]; simpl in Hj.
  - injection Hj as <-. exists ch0. split; [exact Hfind|].
    simpl. rewrite Z.add_0_r. reflexivity.
  - simpl in Hlen. destruct (IH (pos + FileChunk.getDataLen c0) j c ltac:(lia) Hj)
      as (ch & Hch & Hnth).
    exists ch. split; [exact Hch|]. simpl. rewrite Hnth. f_equal. f_equal.
    unfold Props.dataLens. simpl. lia.
Qed.

(** The bytes of the [j]-th chunk of a batch in the data file. *)
Lemma batch_bytes (file : list FileChunk.byte) (batch : list FileChunk.ProcessedChunk) :
  forall (j : nat) (c : FileChunk.ProcessedChunk),
    nth_error batch j = Some c ->
    firstn (length (FileChunk._buf c))
      (skipn (Z.to_nat (Z.of_nat (length file) + Props.dataLens (firstn j batch)))
         (file ++ flat_map FileChunk._buf batch))
    = FileChunk._buf c.
Proof.
  revert file. induction batch as [|c0 batch IH]; intros file j c Hj;
    [destruct j; discriminate|].
  destruct j as [|j]; simpl in Hj.
  - injection Hj as <-. simpl. rewrite Z.add_0_r, Nat2Z.id.
    rewrite skipn_app, skipn_all, Nat.sub_diag. simpl.
    rewrite firstn_app, firstn_all, Nat.sub_diag. simpl. apply app_nil_r.
  - specialize (IH (file ++ FileChunk._buf c0) j c Hj).
    rewrite <- app_assoc in IH. simpl flat_map.
    replace (Z.of_nat (length file) + Props.dataLens (firstn (S j) (c0 :: batch)))
      with (Z.of_nat (length (file ++ FileChunk._buf c0)) + Props.dataLens (firstn j batch)).
    + exact IH.
    + rewrite length_app, Nat2Z.inj_add. unfold Props.dataLens, FileChunk.getDataLen.
      simpl. lia.
Qed.

(** X17. The chunk info points at the bytes.  When a run of the block of
    fileWriter returns, with the chunks in the chunk map under their own
    ids, it has appended the buffers of a batch of chunks with
    consecutive ids to the data file, after fewer than 4096 bytes of
    padding, and taken those chunks out of the chunk map; for every
    chunk of the batch, the entry of [_chunkInfo] under the id of the
    chunk holds the payload of the chunk, the last serial number of the
    chunk in the map, and the offset at which the data file holds the
    buffer of the chunk; entries of [_chunkInfo] for other ids are as
    before. *)
Theorem fileWriter_block_chunkInfo :
  forall (e : Z) (s s' : FileChunk.WriteableFileChunk),
    0 <= e <= UINT32_MAX ->
    Spec.ordered (e + 1) (FileChunk._orderedChunks s) ->
    (forall c, In (Some c) (FileChunk._writeQ s) -> FileChunk._chunkId c < UINT32_MAX) ->
    (forall k ch, In (k, ch) (FileChunk._chunkMap s) -> FileChunk.getId ch = k) ->
    FileChunk.fileWriter_block e s = Ok s' ->
    exists (batch : list FileChunk.ProcessedChunk) (pad : nat),
      FileChunk._dataFile s'
      = FileChunk._dataFile s ++ repeat Byte.x00 pad ++ flat_map FileChunk._buf batch
      /\ Z.of_nat pad < 4096
      /\ Spec.consecutive e (map FileChunk._chunkId batch)
      /\ FileChunk._chunkMap s' = skipn (length batch) (FileChunk._chunkMap s)
      /\ (forall j c,
            nth_error batch j = Some c ->
            exists ch info,
              OrderedMap.find (FileChunk._chunkId c) (FileChunk._chunkMap s) = Some ch
              /\ nth_error (FileChunk._chunkInfo s') (Z.to_nat (FileChunk._chunkId c))
                 = Some info
              /\ FileChunk.ci_size info = FileChunk._payLoad c
              /\ FileChunk.ci_lastSerial info = FileChunk.getLastSerial ch
              /\ FileChunk.ci_offset info
                 = Z.of_nat (length (FileChunk._dataFile s)) + Z.of_nat pad
                   + Props.dataLens (firstn j batch)
              /\ firstn (length (FileChunk._buf c))
                   (skipn (Z.to_nat (FileChunk.ci_offset info)) (FileChunk._dataFile s'))
                 = FileChunk._buf c)
      /\ (forall k,
            (Z.of_nat k < e \/ e + Z.of_nat (length batch) <= Z.of_nat k) ->
            (k < length (FileChunk._chunkInfo s))%nat ->
            nth_error (FileChunk._chunkInfo s') k = nth_error (FileChunk._chunkInfo s) k).
Proof.
  intros e s s' He Ho Hids Hkeys Hb.
  unfold FileChunk.fileWriter_block, FileChunk.drainQ in Hb.
  cbv beta iota zeta in Hb.
  destruct (FileChunk._writeQ s) as [|q0 Q] eqn:HQ.
  - simpl in Hb. injection Hb as <-.
    exists [], O. simpl. rewrite app_nil_r.
    repeat split; try lia.
    intros j c Hj. destruct j; discriminate.
  - set (newChunks := q0 :: Q) in *.
    change (negb (is_nil newChunks)) with true in Hb. cbv iota in Hb.
    simpl FileChunk._orderedChunks in Hb.
    destruct (FileChunk.insertChunks (FileChunk._orderedChunks s) newChunks e)
      as [O1|] eqn:Hins; [|discriminate].
    unfold bind in Hb at 1.
    destruct (insertChunks_spec newChunks _ _ e (ordered_weaken (e + 1) e _ ltac:(lia) Ho)
                ltac:(lia) Hids Hins) as [Ho1 Hin1].
    destruct (fetchNextChain_spec O1 e He Ho1)
      as (batch & done & rest & Hf & HO1 & Hcons & Hrest & Hdone & Hbound).
    rewrite Hf in Hb. cbv iota beta in Hb.
    simpl FileChunk._dataFile in Hb.
    pose proof (getAlignedStartPos_next_multiple (FileChunk._dataFile s)) as Hal.
    cbv zeta in Hal. destruct Hal as (Hal & Hpadr & _).
    rewrite Hal in Hb. unfold bind in Hb at 1. cbv iota beta in Hb.
    set (pad := Z.to_nat ((- Z.of_nat (length (FileChunk._dataFile s))) mod 4096)) in *.
    set (startPos := Z.of_nat (length (FileChunk._dataFile s))
                     + (- Z.of_nat (length (FileChunk._dataFile s))) mod 4096) in *.
    destruct (FileChunk.computeChunkMeta _ _ startPos)
      as [[[[[s1 kept] cmetaV] sz] done']|] eqn:Hcm; [|discriminate].
    unfold bind in Hb at 1.
    destruct (computeChunkMeta_spec _ _ _ _ _ Hcm) as (recs & cmetaV0 & sz0 & Heq & _).
    injection Heq as -> -> -> -> ->.
    assert (Hmetas : cmetaV0 = Props.metasFor (FileChunk._chunkMap s) startPos batch
                     /\ length (Props.metasFor (FileChunk._chunkMap s) startPos batch)
                        = length batch).
    { unfold FileChunk.computeChunkMeta in Hcm.
      destruct (match rev _ with [] => _ | _ => _ end) as [ls|]; [|discriminate].
      simpl in Hcm. apply computeChunkMeta_loop_metas in Hcm.
      simpl in Hcm. rewrite Z.add_0_r in Hcm. exact Hcm. }
    destruct Hmetas as [-> Hmlen].
    cbv iota beta in Hb.
    destruct (FileChunk.updateChunkInfo _ batch _) as [s2|] eqn:Hup; [|discriminate].
    unfold bind in Hb. injection Hb as <-.
    assert (Hfile : FileChunk._dataFile s2
                    = (FileChunk._dataFile s ++ repeat Byte.x00 pad)
                      ++ flat_map FileChunk._buf batch).
    { rewrite (updateChunkInfo_frame _ _ _ _ Hup). reflexivity. }
    apply updateChunkInfo_recorded in Hup; [|simpl; exact Hkeys].
    simpl in Hup. destruct Hup as (Hinfo & Hmap & _).
    destruct (recorded_nth batch e (FileChunk._chunkInfo s)
                (Props.metasFor (FileChunk._chunkMap s) startPos batch)
                ltac:(lia) Hcons Hmlen) as (_ & Hentries & Hframe).
    exists batch, pad. simpl.
    split; [rewrite Hfile, <- app_assoc; reflexivity|].
    split; [unfold pad; lia|]. split; [exact Hcons|]. split; [exact Hmap|].
    split.
    + intros j c Hj.
      destruct (metasFor_nth (FileChunk._chunkMap s) batch startPos j c Hmlen Hj)
        as (ch & Hch & Hm).
      exists ch. eexists. split; [exact Hch|].
      split; [rewrite Hinfo; apply (Hentries j c _ Hj Hm)|].
      simpl. split; [reflexivity|]. split; [reflexivity|].
      split; [unfold startPos, pad; lia|].
      rewrite Hfile.
      replace startPos
        with (Z.of_nat (length (FileChunk._dataFile s ++ repeat Byte.x00 pad))).
      * apply batch_bytes, Hj.
      * rewrite length_app_repeat. unfold startPos, pad. lia.
    + intros k Hk Hlen. rewrite Hinfo. apply Hframe; assumption.
Qed.

Lemma fileWriter_block_chunkInfo_witness :
  exists s' batch pad,
    FileChunk.fileWriter_block 5
      (FileChunk.with_chunkMap [(5, Sample.sealed 5); (6, Sample.sealed 6)]
         (FileChunk.with_writeQ
            [Some (Sample.packed 6 Byte.x36 Byte.x36); Some (Sample.packed 5 Byte.x35 Byte.x35)]
            Sample.writerStart)) = Ok s'
    /\ FileChunk._dataFile s' = repeat Byte.x00 pad ++ flat_map FileChunk._buf batch
    /\ Spec.consecutive 5 (map FileChunk._chunkId batch)
    /\ FileChunk._chunkMap s' = skipn (length batch) [(5, Sample.sealed 5); (6, Sample.sealed 6)].
Proof.
  destruct (FileChunk.fileWriter_block 5
              (FileChunk.with_chunkMap [(5, Sample.sealed 5); (6, Sample.sealed 6)]
                 (FileChunk.with_writeQ
                    [Some (Sample.packed 6 Byte.x36 Byte.x36);
                     Some (Sample.packed 5 Byte.x35 Byte.x35)]
                    Sample.writerStart))) as [s'|f] eqn:Hrun;
    [|vm_compute in Hrun; discriminate].
  pose proof Hrun as Hfacts.
  apply fileWriter_block_chunkInfo in Hfacts.
  - destruct Hfacts as (batch & pad & Hfile & _ & Hcons & Hmap & _).
    exists s', batch, pad. repeat split; assumption.
  - unfold UINT32_MAX. lia.
  - exact I.
  - intros c [H|[H|[]]]; injection H as <-; vm_compute; reflexivity.
  - intros k ch [H|[H|[]]]; injection H as <- <-; reflexivity.
Defined.

(** ** The background writer: the end marker *)

Lemma find_none_In {V : Type} (k : Z) (v : V) (m : list (Z * V)) :
  OrderedMap.find k m = None -> ~ In (k, v) m.
Proof.
  induction m as [|[k' v'] m IH]; simpl; intros Hfind Hin; [exact Hin|].
  destruct (Z.eqb_spec k' k) as [Heq|Hne]; [discriminate|].
  destruct Hin as [H|H]; [injection H as -> _; contradiction|exact (IH Hfind H)].
Qed.

(** insertChunks loses nothing: what was waiting stays and what is
    handed over gets in, the marker under the largest id. *)
Lemma insertChunks_complete (newChunks : FileChunk.ProcessedChunkQ) :
  forall (O O1 : FileChunk.ProcessedChunkMap) (nextChunkId : Z),
    Spec.ordered nextChunkId O -> nextChunkId <= UINT32_MAX ->
    (forall c, In (Some c) newChunks -> FileChunk._chunkId c < UINT32_MAX) ->
    FileChunk.insertChunks O newChunks nextChunkId = Ok O1 ->
    (forall k v, In (k, v) O -> In (k, v) O1)
    /\ (forall c, In (Some c) newChunks -> In (FileChunk._chunkId c, Some c) O1)
    /\ (In None newChunks -> In (UINT32_MAX, None) O1).
Proof.
  induction newChunks as [|[c|] Q IH]; intros O O1 n Ho Hn Hids Hins.
  - simpl in Hins. injection Hins as <-. simpl. repeat split; tauto.
  - simpl in Hins. unfold assert, bind in Hins.
    destruct (Z.leb_spec n (FileChunk._chunkId c)) as [Hge|]; [|discriminate].
    destruct (OrderedMap.find (FileChunk._chunkId c) O) as [x|] eqn:Hfind;
      [discriminate|]. simpl in Hins.
    destruct (IH _ _ _ (assign_ordered_chunk n O c Ho
                          ltac:(split; [lia|apply Hids; left; reflexivity]) Hfind)
                Hn ltac:(intros c' Hc'; apply Hids; right; exact Hc') Hins)
      as (Hold & Hnew & Hmark).
    split; [|split].
    + intros k v Hin. apply Hold. apply In_assign_other; [exact Hin|].
      intros ->. exact (find_none_In _ _ _ Hfind Hin).
    + intros c' [Hc'|Hc'].
      * injection Hc' as <-. apply Hold, In_assign_same.
      * apply Hnew, Hc'.
    + intros [Hm|Hm]; [discriminate|apply Hmark, Hm].
  - simpl in Hins.
    destruct (IH _ _ _ (assign_ordered_null n O Ho Hn) Hn
                ltac:(intros c' Hc'; apply Hids; right; exact Hc') Hins)
      as (Hold & Hnew & Hmark).
    split; [|split].
    + intros k v Hin. apply Hold.
      destruct (Z.eq_dec k UINT32_MAX) as [->|Hne].
      * destruct (ordered_In _ _ _ _ Ho Hin) as [_ Hv].
        destruct v as [c|]; [destruct Hv; lia|]. apply In_assign_same.
      * apply In_assign_other; assumption.
    + intros c' [Hc'|Hc']; [discriminate|apply Hnew, Hc'].
    + intros _. apply Hold, In_assign_same.
Qed.

(** X18. The end marker is taken last.  When a run of the block of
    fileWriter reports the end ([done]), the marker had been handed to
    the writer, no processed chunk is left waiting in [_orderedChunks],
    and every chunk that was in the write queue or waiting has its
    buffer in the piece appended to the data file.  When the run does
    not report the end although the marker had been handed over, the
    marker is still waiting in [_orderedChunks], and, if the run had
    anything to take over, behind a chunk that waits for a missing id. *)
Theorem fileWriter_block_end_marker :
  forall (e : Z) (s s' : FileChunk.WriteableFileChunk) (n : Z) (done : bool),
    0 <= e <= UINT32_MAX ->
    Spec.ordered (e + 1) (FileChunk._orderedChunks s) ->
    (forall c, In (Some c) (FileChunk._writeQ s) -> FileChunk._chunkId c < UINT32_MAX) ->
    FileChunk.fileWriter_block e s = Ok s' ->
    FileChunk.writerLocals s' = Some (n, done) ->
    (done = true ->
     (In None (FileChunk._writeQ s) \/ In (UINT32_MAX, None) (FileChunk._orderedChunks s))
     /\ FileChunk._orderedChunks s' = []
     /\ FileChunk._writeQ s' = []
     /\ exists (batch : list FileChunk.ProcessedChunk) (pad : nat),
          FileChunk._dataFile s'
          = FileChunk._dataFile s ++ repeat Byte.x00 pad ++ flat_map FileChunk._buf batch
          /\ Spec.consecutive e (map FileChunk._chunkId batch)
          /\ forall c,
               In (Some c) (FileChunk._writeQ s)
               \/ In (FileChunk._chunkId c, Some c) (FileChunk._orderedChunks s) ->
               In c batch)
    /\ (done = false ->
        In None (FileChunk._writeQ s) \/ In (UINT32_MAX, None) (FileChunk._orderedChunks s) ->
        In (UINT32_MAX, None) (FileChunk._orderedChunks s')
        /\ (FileChunk._writeQ s <> [] ->
            exists c, In (FileChunk._chunkId c, Some c) (FileChunk._orderedChunks s'))).
Proof.
  intros e s s' n done He Ho Hids Hb Hloc.
  unfold FileChunk.fileWriter_block, FileChunk.drainQ in Hb.
  cbv beta iota zeta in Hb.
  destruct (FileChunk._writeQ s) as [|q0 Q] eqn:HQ.
  - simpl in Hb. injection Hb as <-. simpl in Hloc. injection Hloc as <- <-.
    split; [discriminate|]. intros _ [[]|Hm].
    split; [exact Hm|]. intros Hne. contradiction.
  - set (newChunks := q0 :: Q) in *.
    change (negb (is_nil newChunks)) with true in Hb. cbv iota in Hb.
    simpl FileChunk._orderedChunks in Hb.
    destruct (FileChunk.insertChunks (FileChunk._orderedChunks s) newChunks e)
      as [O1|] eqn:Hins; [|discriminate].
    unfold bind in Hb at 1.
    pose proof (ordered_weaken (e + 1) e _ ltac:(lia) Ho) as Ho0.
    destruct (insertChunks_spec newChunks _ _ e Ho0 ltac:(lia) Hids Hins) as [Ho1 Hin1].
    destruct (insertChunks_complete newChunks _ _ e Ho0 ltac:(lia) Hids Hins)
      as (Hold & Hnew & Hmark).
    destruct (fetchNextChain_spec O1 e He Ho1)
      as (batch & done0 & rest & Hf & HO1 & Hcons & Hrest & Hdone & Hbound).
    rewrite Hf in Hb. cbv iota beta in Hb.
    simpl FileChunk._dataFile in Hb.
    destruct (FileChunk.getAlignedStartPos (FileChunk._dataFile s))
      as [[startPos file']|] eqn:Hal; [|discriminate].
    unfold bind in Hb at 1. cbv iota beta in Hb.
    destruct (getAlignedStartPos_spec _ _ _ Hal) as (pad & Hfile & Hpos).
    destruct (FileChunk.computeChunkMeta _ _ startPos) as [r|] eqn:Hcm; [|discriminate].
    unfold bind in Hb at 1.
    destruct (computeChunkMeta_spec _ _ _ _ _ Hcm) as (recs & cmetaV & sz & -> & Hdesc).
    cbv iota beta in Hb.
    destruct (FileChunk.updateChunkInfo _ batch cmetaV) as [s2|] eqn:Hup; [|discriminate].
    unfold bind in Hb. injection Hb as <-.
    apply updateChunkInfo_frame in Hup. rewrite Hup in Hloc |- *.
    simpl in Hloc. injection Hloc as _ <-. simpl.
    assert (Hgiven : forall v, In v newChunks \/ In (match v with
                                                     | Some c => FileChunk._chunkId c
                                                     | None => UINT32_MAX
                                                     end, v) (FileChunk._orderedChunks s) ->
                     In v (map Some batch ++ (if done0 then [None] else []))
                     \/ In (match v with
                            | Some c => FileChunk._chunkId c
                            | None => UINT32_MAX
                            end, v) rest).
    { intros v Hv.
      assert (Hin : In (match v with
                        | Some c => FileChunk._chunkId c
                        | None => UINT32_MAX
                        end, v) O1).
      { destruct Hv as [Hv|Hv]; [|apply Hold, Hv].
        destruct v as [c|]; [apply Hnew, Hv|apply Hmark, Hv]. }
      rewrite HO1 in Hin. apply in_app_or in Hin. destruct Hin as [Hin|Hin].
      - left. apply in_or_app. left. apply in_map_iff in Hin.
        destruct Hin as (c & Hc & Hcin). injection Hc as _ <-. apply in_map, Hcin.
      - apply in_app_or in Hin. destruct Hin as [Hin|Hin]; [|right; exact Hin].
        left. apply in_or_app. right. destruct done0; [|destruct Hin].
        destruct Hin as [Hm|[]]. injection Hm as _ <-. left. reflexivity. }
    split.
    + intros ->. specialize (Hdone eq_refl). subst rest.
      split.
      { assert (Hm : In (UINT32_MAX, @None FileChunk.ProcessedChunk) O1).
        { rewrite HO1. apply in_or_app. right. left. reflexivity. }
        destruct (Hin1 _ _ Hm) as [H|H]; [right; exact H|left; exact H]. }
      split; [reflexivity|]. split; [reflexivity|].
      exists batch, pad. split; [rewrite Hfile, <- app_assoc; reflexivity|].
      split; [exact Hcons|].
      intros c Hc. destruct (Hgiven (Some c) Hc) as [Hin|[]].
      apply in_app_or in Hin. destruct Hin as [Hin|[Hm|[]]]; [|discriminate].
      apply in_map_iff in Hin. destruct Hin as (c' & Hc' & Hcin).
      injection Hc' as ->. exact Hcin.
    + intros -> Hm. rewrite app_nil_r in Hgiven.
      assert (Hwait : In (UINT32_MAX, @None FileChunk.ProcessedChunk) rest).
      { destruct (Hgiven None Hm) as [Hin|Hin]; [|exact Hin].
        apply in_map_iff in Hin. destruct Hin as (c & Hc & _). discriminate. }
      split; [exact Hwait|]. intros _.
      destruct rest as [|[k v] rest]; [destruct Hwait|].
      destruct v as [c|].
      * exists c. simpl in Hrest. destruct Hrest as (_ & [-> _] & _). left. reflexivity.
      * exfalso. simpl in HO1. rewrite HO1 in Hf.
        unfold FileChunk.fetchNextChain in Hf.
        assert (Hloop : forall (B : list FileChunk.ProcessedChunk) (acc : FileChunk.ProcessedChunkQ) R,
                   Spec.consecutive (e + Z.of_nat (length acc)) (map FileChunk._chunkId B) ->
                   e + Z.of_nat (length acc) + Z.of_nat (length B) <= UINT32_MAX ->
                   FileChunk.fetchNextChain_loop
                     (map (fun c => (FileChunk._chunkId c, Some c)) B ++ (k, None) :: R) e acc
                   = FileChunk.fetchNextChain_loop R e (acc ++ map Some B ++ [None])).
        { induction B as [|b B IHB]; intros acc R HB Hlen.
          - cbn [map app FileChunk.fetchNextChain_loop is_null].
            rewrite orb_true_r. reflexivity.
          - destruct HB as [Hb0 HB]. simpl in Hb0. cbn [map app FileChunk.fetchNextChain_loop].
            unfold wrap64. rewrite Z.mod_small by lia_max.
            rewrite Hb0, Z.eqb_refl. cbn [orb].
            rewrite IHB.
            + rewrite <- app_assoc. reflexivity.
            + rewrite length_app. simpl length.
              replace (e + Z.of_nat (length acc + 1)) with (e + Z.of_nat (length acc) + 1)
                by lia. exact HB.
            + rewrite length_app. simpl length. simpl length in Hlen. lia. }
        assert (Hc0 : Spec.consecutive (e + Z.of_nat (length (@nil FileChunk.ProcessedChunkUP)))
                        (map FileChunk._chunkId batch))
          by (simpl; rewrite Z.add_0_r; exact Hcons).
        pose proof (eq_trans (eq_sym (Hloop batch [] rest Hc0 ltac:(simpl; lia))) Hf) as Hf'.
        clear Hf. rename Hf' into Hf. simpl app in Hf.
        assert (Hgrow : forall R acc,
                   (length acc <= length (fst (FileChunk.fetchNextChain_loop R e acc)))%nat).
        { induction R as [|[k' v'] R IHR]; intros acc; simpl; [lia|].
          destruct (_ || _); simpl; [|lia].
          specialize (IHR (acc ++ [v'])). rewrite length_app in IHR. simpl in IHR. lia. }
        specialize (Hgrow rest (map Some batch ++ [None])). rewrite Hf in Hgrow.
        simpl in Hgrow. rewrite app_nil_r, length_app in Hgrow. simpl in Hgrow.
        rewrite Nat.add_1_r in Hgrow. exact (Nat.nle_succ_diag_l _ Hgrow).
Qed.

Lemma fileWriter_block_end_marker_witness :
  exists s',
    FileChunk.fileWriter_block 5
      (FileChunk.with_chunkMap [(5, Sample.sealed 5)]
         (FileChunk.with_writeQ [None; Some (Sample.packed 5 Byte.x35 Byte.x35)]
            Sample.writerStart)) = Ok s'
    /\ FileChunk.writerLocals s' = Some (7, true)
    /\ FileChunk._orderedChunks s' = []
    /\ FileChunk._writeQ s' = [].
Proof.
  destruct (FileChunk.fileWriter_block 5
              (FileChunk.with_chunkMap [(5, Sample.sealed 5)]
                 (FileChunk.with_writeQ [None; Some (Sample.packed 5 Byte.x35 Byte.x35)]
                    Sample.writerStart))) as [s'|f] eqn:Hrun;
    [|vm_compute in Hrun; discriminate].
  assert (Hloc : FileChunk.writerLocals s' = Some (7, true)).
  { vm_compute in Hrun. injection Hrun as <-. reflexivity. }
  exists s'. split; [reflexivity|]. split; [exact Hloc|].
  pose proof Hrun as Hfacts.
  apply (fun H1 H2 H3 => fileWriter_block_end_marker 5 _ s' 7 true H1 H2 H3 Hfacts) in Hloc.
  - destruct Hloc as [Hdone _]. destruct (Hdone eq_refl) as (_ & Hord & HwQ & _).
    split; assumption.
  - unfold UINT32_MAX. lia.
  - exact I.
  - intros c [H|[H|[]]]; [discriminate|]. injection H as <-. vm_compute. reflexivity.
Defined.
